(** * HoistIntoGlobals: hoisting constant expressions into globals

    A shallow embedding of
    [iree/compiler/Dialect/Util/Transforms/HoistIntoGlobals.cpp]
    together with the part of the IR infrastructure the pass relies on
    (operations nested in regions, operand/result values, use lists,
    builders, symbol tables, cloning with a value mapping). *)

From stdpp Require Import base option list gmap strings pretty.

Set Default Proof Using "Type".

(** ** The intermediate representation *)

(** An [Operation*] is identified by the address of the operation; the
    embedding uses a number allocated by the builder. *)
Definition OpId := nat.
Definition Symbol := string.
Definition Location := nat.
Definition MlirType := string.

(** A [Value] is a result of an operation or an argument of a block (the
    block being identified by the operation owning the region). *)
Inductive Value :=
| OpResult (owner : OpId) (resultNumber : nat)
| BlockArgument (owner : OpId) (argNumber : nat).

Global Instance Value_eq_dec : EqDecision Value.
Proof. solve_decision. Defined.

Global Instance Value_countable : Countable Value.
Proof.
  refine (inj_countable'
    (λ v, match v with
          | OpResult o n => inl (o, n)
          | BlockArgument o n => inr (o, n)
          end)
    (λ x, match x with
          | inl (o, n) => OpResult o n
          | inr (o, n) => BlockArgument o n
          end) _).
  by intros [].
Defined.

(** An [OpOperand*]: one operand slot of an operation. *)
Record OpOperand := mkOpOperand { getOwner : OpId; getOperandNumber : nat }.

Global Instance OpOperand_eq_dec : EqDecision OpOperand.
Proof. solve_decision. Defined.

Inductive Visibility := Public | Private | Nested.

Global Instance Visibility_eq_dec : EqDecision Visibility.
Proof. solve_decision. Defined.

(** The operations the pass creates or inspects, and any other operation
    (with its optional symbol name, as functions have one). *)
Inductive OpKind :=
| ModuleOp
| GlobalOp (sym_name : Symbol) (is_mutable : bool) (type : MlirType)
           (visibility : Visibility)
| InitializerOp
| InitializerReturnOp
| GlobalLoadOp (global : Symbol)
| GlobalStoreOp (global : Symbol)
| OtherOp (name : string) (sym_name : option Symbol).

Global Instance OpKind_eq_dec : EqDecision OpKind.
Proof. solve_decision. Defined.

(** An operation with its operands, the types of its results, its location
    and the operations nested in its regions, in walk order. *)
Unset Elimination Schemes.
Inductive Operation := mkOperation {
  opId : OpId;
  opKind : OpKind;
  opOperands : list Value;
  opResultTypes : list MlirType;
  opLoc : Location;
  opBody : list Operation
}.
Set Elimination Schemes.

(** [Operation::walk<WalkOrder::PreOrder>]: the operation, then the
    operations nested in it. *)
Fixpoint walkPreOrder (op : Operation) : list Operation :=
  op :: (opBody op ≫= walkPreOrder).

Definition opIds (op : Operation) : list OpId := opId <$> walkPreOrder op.

(** An operation without what is nested in it, and the operations of a
    walk taken that way. *)
Definition opData (op : Operation) : Operation :=
  mkOperation (opId op) (opKind op) (opOperands op) (opResultTypes op)
    (opLoc op) [].

Definition walkData (op : Operation) : list Operation :=
  opData <$> walkPreOrder op.

(** Dereferencing an [Operation*] in the module. *)
Definition lookupOp (id : OpId) (m : Operation) : option Operation :=
  head (filter (λ o, opId o = id) (walkPreOrder m)).

(** [Operation::getResults]. *)
Definition getResults (op : Operation) : list Value :=
  imap (λ i _, OpResult (opId op) i) (opResultTypes op).

(** [Value::getType] for the [i]th result. *)
Definition getResultType (op : Operation) (i : nat) : option MlirType :=
  opResultTypes op !! i.

(** [Value::getDefiningOp]: the owner of a result, null for a block
    argument (and for a value that is not a result in the module). *)
Definition getDefiningOp (v : Value) (m : Operation) : option Operation :=
  match v with
  | OpResult o i =>
      op ← lookupOp o m;
      if decide (i < length (opResultTypes op)) then Some op else None
  | BlockArgument _ _ => None
  end.

(** The operand slots of an operation with the value each one holds. *)
Definition opOperandSlots (op : Operation) : list (OpOperand * Value) :=
  imap (λ k v, (mkOpOperand (opId op) k, v)) (opOperands op).

(** [Value::getUses]: every operand slot in the module that holds [v]. *)
Definition getUses (v : Value) (m : Operation) : list OpOperand :=
  (filter (λ p, p.2 = v) (walkPreOrder m ≫= opOperandSlots)).*1.

(** [OpOperand::get]. *)
Definition getOperand (operand : OpOperand) (m : Operation) : option Value :=
  op ← lookupOp (getOwner operand) m;
  opOperands op !! getOperandNumber operand.

(** [Operation::use_empty]: no result of the operation has a use. *)
Definition use_empty (op : Operation) (m : Operation) : bool :=
  forallb (λ v, bool_decide (getUses v m = [])) (getResults op).

(** [OpOperand::set]. *)
Fixpoint setOperand (operand : OpOperand) (v : Value) (op : Operation)
  : Operation :=
  mkOperation (opId op) (opKind op)
    (if decide (opId op = getOwner operand)
     then <[getOperandNumber operand := v]> (opOperands op)
     else opOperands op)
    (opResultTypes op) (opLoc op)
    (map (setOperand operand v) (opBody op)).

(** [OpBuilder(target)] followed by an insertion: [newOp] is placed
    immediately before the operation [target] in the block holding it. *)
Fixpoint insertBefore (target : OpId) (newOp : Operation) (op : Operation)
  : Operation :=
  mkOperation (opId op) (opKind op) (opOperands op) (opResultTypes op)
    (opLoc op)
    (opBody op ≫= λ c, if decide (opId c = target)
                       then [newOp; c]
                       else [insertBefore target newOp c]).

(** [OpBuilder::atBlockEnd] of the body of [owner], followed by the
    insertion of [newOps] in order. *)
Fixpoint insertAtBlockEnd (owner : OpId) (newOps : list Operation)
    (op : Operation) : Operation :=
  mkOperation (opId op) (opKind op) (opOperands op) (opResultTypes op)
    (opLoc op)
    (map (insertAtBlockEnd owner newOps) (opBody op)
       ++ (if decide (opId op = owner) then newOps else [])).

(** [OpBuilder::atBlockBegin] of the body of [owner], followed by the
    insertion of [newOps] in order. *)
Definition insertAtBlockBegin (newOps : list Operation) (op : Operation)
  : Operation :=
  mkOperation (opId op) (opKind op) (opOperands op) (opResultTypes op)
    (opLoc op) (newOps ++ opBody op).

(** [Operation::erase]: the operation leaves its block, with everything
    nested in it. *)
Fixpoint eraseOp (id : OpId) (op : Operation) : Operation :=
  mkOperation (opId op) (opKind op) (opOperands op) (opResultTypes op)
    (opLoc op)
    (opBody op ≫= λ c, if decide (opId c = id) then [] else [eraseOp id c]).

(** Insertion of [newOps] before [target] on the operations of a walk. *)
Definition insertBeforeData (target : OpId) (newOps : list Operation)
    (l : list Operation) : list Operation :=
  l ≫= λ d, if decide (opId d = target) then newOps ++ [d] else [d].

(** ** Symbol table *)

(** [SymbolTable]: the names in use and the counter from which suffixes
    are tried. *)
Record SymbolTable := mkSymbolTable {
  symbolNames : gset Symbol;
  uniquingCounter : N
}.

Definition suffixed (name : Symbol) (counter : N) : Symbol :=
  name +:+ "_" +:+ pretty counter.

(** The loop of [SymbolTable::insert] that tries [name_<counter>] until a
    name is free; at most one try per name in use fails. *)
Fixpoint uniqueSuffix (tries : nat) (names : gset Symbol) (name : Symbol)
    (counter : N) : Symbol * N :=
  match tries with
  | 0 => (suffixed name counter, N.succ counter)
  | S tries' =>
      if decide (suffixed name counter ∈ names)
      then uniqueSuffix tries' names name (N.succ counter)
      else (suffixed name counter, N.succ counter)
  end.

(** [SymbolTable::insert]: the name is kept when it is free and is
    otherwise renamed; the name finally used is returned. *)
Definition SymbolTable_insert (name : Symbol) (table : SymbolTable)
  : Symbol * SymbolTable :=
  if decide (name ∈ symbolNames table)
  then
    let '(name', counter') :=
      uniqueSuffix (size (symbolNames table)) (symbolNames table) name
        (uniquingCounter table) in
    (name', mkSymbolTable ({[name']} ∪ symbolNames table) counter')
  else (name, mkSymbolTable ({[name]} ∪ symbolNames table)
                (uniquingCounter table)).

(** The symbol an operation defines, if any. *)
Definition opSymbol (op : Operation) : option Symbol :=
  match opKind op with
  | GlobalOp name _ _ _ => Some name
  | OtherOp _ name => name
  | _ => None
  end.

(** [SymbolTable(module)]: the symbols defined in the body of the module. *)
Definition SymbolTable_of (m : Operation) : SymbolTable :=
  mkSymbolTable (list_to_set (omap opSymbol (opBody m))) 0.

(** ** Cloning with a mapping *)

(** [BlockAndValueMapping]: values, and blocks (named by the operation
    owning them), of the source mapped to those of the clone. *)
Record BlockAndValueMapping := mkMapping {
  valueMap : gmap Value Value;
  blockMap : gmap OpId OpId
}.

Definition emptyMapping : BlockAndValueMapping := mkMapping ∅ ∅.

(** [BlockAndValueMapping::map] on a value. *)
Definition mapValue (from to : Value) (mapper : BlockAndValueMapping)
  : BlockAndValueMapping :=
  mkMapping (<[from := to]> (valueMap mapper)) (blockMap mapper).

(** [BlockAndValueMapping::lookupOrDefault]. *)
Definition lookupOrDefault (mapper : BlockAndValueMapping) (v : Value)
  : Value :=
  match valueMap mapper !! v with
  | Some v' => v'
  | None =>
      match v with
      | BlockArgument o n =>
          match blockMap mapper !! o with
          | Some o' => BlockArgument o' n
          | None => v
          end
      | OpResult _ _ => v
      end
  end.

(** The results of [from] mapped to the results of the operation [to]. *)
Definition mapResults (from : Operation) (to : OpId)
    (mapper : BlockAndValueMapping) : BlockAndValueMapping :=
  mkMapping
    (foldl (λ vm i, <[OpResult (opId from) i := OpResult to i]> vm)
       (valueMap mapper) (seq 0 (length (opResultTypes from))))
    (<[opId from := to]> (blockMap mapper)).

(** The loop of [Region::cloneInto] over the operations of a block, given
    how one operation is cloned. *)
Definition cloneBlockWith
    (cloneOp : Operation → BlockAndValueMapping → OpId
               → Operation * BlockAndValueMapping * OpId)
  : list Operation → BlockAndValueMapping → OpId
    → list Operation * BlockAndValueMapping * OpId :=
  fix go ops mapper next :=
    match ops with
    | [] => ([], mapper, next)
    | c :: ops' =>
        let '(c', mapper1, next1) := cloneOp c mapper next in
        let '(ops'', mapper2, next2) := go ops' mapper1 next1 in
        (c' :: ops'', mapper2, next2)
    end.

(** [Operation::clone(mapper)]: a copy with fresh identities, operands
    remapped through [mapper], results recorded in [mapper], nested
    operations cloned in order. Returns the clone, the mapping and the next
    free identity. *)
Fixpoint clone (op : Operation) (mapper : BlockAndValueMapping) (next : OpId)
  : Operation * BlockAndValueMapping * OpId :=
  let operands := lookupOrDefault mapper <$> opOperands op in
  let '(body, mapper', next') :=
    cloneBlockWith clone (opBody op) (mapResults op next mapper) (S next) in
  (mkOperation next (opKind op) operands (opResultTypes op) (opLoc op) body,
   mapper', next').

Definition cloneBlock := cloneBlockWith clone.

(** What a clone is to its source. *)
Record cloneOk (src clone : list Operation)
    (mapper mapper' : BlockAndValueMapping) (next next' : OpId) : Prop := {
  clone_ids : clone ≫= opIds = seq next (length (src ≫= walkPreOrder));
  clone_next : next' = next + length (src ≫= walkPreOrder);
  clone_kinds :
    opKind <$> (clone ≫= walkPreOrder) = opKind <$> (src ≫= walkPreOrder);
  clone_types :
    opResultTypes <$> (clone ≫= walkPreOrder)
    = opResultTypes <$> (src ≫= walkPreOrder);
  clone_mapped v :
    is_Some (valueMap mapper !! v) → is_Some (valueMap mapper' !! v);
  clone_frame v :
    (∀ o i, o ∈ src ≫= walkPreOrder → v ≠ OpResult (opId o) i) →
    valueMap mapper' !! v = valueMap mapper !! v
}.

(** What [mapper] maps to: a value is mapped to a result of an operation,
    a block to a block of an operation of [P]. *)
Definition mapperOwned (P : OpId → Prop) (mapper : BlockAndValueMapping)
  : Prop :=
  (∀ v v', valueMap mapper !! v = Some v' → ∃ o i, v' = OpResult o i)
  ∧ ∀ o o', blockMap mapper !! o = Some o' → P o'.

(** The block arguments read in a clone: one that is read in the source,
    an argument of a block [mapper] maps to, or an argument of a block of
    the clone. *)
Definition ownersOk (src clone : list Operation)
    (mapper mapper' : BlockAndValueMapping) : Prop :=
  ∀ P : OpId → Prop,
    mapperOwned P mapper →
    mapperOwned (λ o, P o ∨ o ∈ clone ≫= opIds) mapper'
    ∧ ∀ u' o n,
        u' ∈ clone ≫= walkPreOrder →
        BlockArgument o n ∈ opOperands u' →
        (∃ u, u ∈ src ≫= walkPreOrder ∧ BlockArgument o n ∈ opOperands u)
        ∨ P o ∨ o ∈ clone ≫= opIds.

(** ** The collaborators of the pass *)

(** [mlir::getBackwardSlice]: the operations the operands of [rootOp]
    transitively depend on, producers first, [rootOp] excluded: the
    operation defining an operand and, for an operand that is a block
    argument, the operation owning the block. A member of the slice is an
    operation of the module. *)
Class SliceAnalysis := {
  getBackwardSlice : Operation → Operation → list Operation;
  getBackwardSlice_elem_of m rootOp op :
    op ∈ getBackwardSlice m rootOp → op ∈ walkPreOrder m
}.

(** How an operation enters the slice. The recursion of
    [mlir::getBackwardSlice] returns at once on an operation that is
    isolated from above, as a module and an initializer are, and it goes
    from an operation to the operations defining its operands and to the
    operations owning the block arguments it reads: a member of the slice
    has a result, or owns a block argument that the root or an operation of
    the module reads. *)
Class SliceScoped `{SliceAnalysis} := {
  getBackwardSlice_isolated m rootOp op :
    op ∈ getBackwardSlice m rootOp →
    opKind op ≠ ModuleOp ∧ opKind op ≠ InitializerOp;
  getBackwardSlice_producer m rootOp op :
    op ∈ getBackwardSlice m rootOp →
    opResultTypes op ≠ []
    ∨ ∃ user argNumber,
        (user = rootOp ∨ user ∈ walkPreOrder m)
        ∧ BlockArgument (opId op) argNumber ∈ opOperands user
}.

(** [ConstExprAnalysis] and the policy of [OpOracle.h]. The information the
    analysis keeps per operation is opaque but for [isRoot] and
    [isConstExpr]. *)
Class ConstExprOracle := {
  ConstValueInfo : Type;
  isRoot : ConstValueInfo → bool;
  isConstExpr : ConstValueInfo → bool;
  isHoistableConstExprLeaf : ConstValueInfo → bool;
  isHoistableConstExprConsumingOperand : OpOperand → bool
}.

(** The analysis object: [lookup] gives the information on an operation
    (null when unknown), [populateConstExprOperations] all operations the
    analysis classifies constant-expr, in the order the set enumerates
    them. *)
Record ConstExprAnalysis `{ConstExprOracle} := mkConstExprAnalysis {
  lookup : OpId → option ConstValueInfo;
  populateConstExprOperations : list OpId
}.

(** ** The pass *)

(** [HoistedValueMap]: an original value mapped to the global holding it.
    The global is kept as the operation itself: the pass never changes a
    global after it has entered the map. *)
Abbreviation HoistedValueMap := (gmap Value Operation).

(** What the pass reads and writes: the module, the builder's next fresh
    operation, and the two locals of [runOnOperation] passed by
    reference. *)
Record PassState := mkPassState {
  module : Operation;
  nextOpId : OpId;
  hoistedMap : HoistedValueMap;
  moduleSymbols : SymbolTable
}.

(** Running a loop body that may fail over a list. *)
Fixpoint forEach {S A} (body : S → A → option S) (s : S) (l : list A)
  : option S :=
  match l with
  | [] => Some s
  | a :: l' => s' ← body s a; forEach body s' l'
  end.

Definition globalSymbol (globalOp : Operation) : Symbol :=
  match opKind globalOp with
  | GlobalOp name _ _ _ => name
  | _ => ""
  end.

Definition globalType (globalOp : Operation) : MlirType :=
  match opKind globalOp with
  | GlobalOp _ _ type _ => type
  | _ => ""
  end.

(** [builder.create<GlobalLoadOp>(loc, global)]. *)
Definition createGlobalLoad (id : OpId) (loc : Location)
    (globalOp : Operation) : Operation :=
  mkOperation id (GlobalLoadOp (globalSymbol globalOp)) []
    [globalType globalOp] loc [].

(** [getModuleBeginBuilder] and [getModuleEndBuilder], with the insertions
    made through them. *)
Definition insertAtModuleBegin (newOps : list Operation) (m : Operation)
  : Operation := insertAtBlockBegin newOps m.

Definition insertAtModuleEnd (newOps : list Operation) (m : Operation)
  : Operation :=
  mkOperation (opId m) (opKind m) (opOperands m) (opResultTypes m) (opLoc m)
    (opBody m ++ newOps).

(** The state of the loop over the slice in [cloneConstExprInto]: the
    operations inserted through [initBuilder] so far, [cloneMap], and the
    next fresh operation. *)
Record InitBuilder := mkInitBuilder {
  initOps : list Operation;
  cloneMap : BlockAndValueMapping;
  initNext : OpId
}.

(** Lines 173-179: the loop over the results of [sourceOp]; it stops at the
    first result that has no global. Returns [needsClone]. *)
Fixpoint loadHoistedResults (hoisted : HoistedValueMap)
    (results : list Value) (needsClone : bool) (b : InitBuilder)
  : bool * InitBuilder :=
  match results with
  | [] => (needsClone, b)
  | origResult :: results' =>
      match hoisted !! origResult with
      | None => (needsClone, b)
      | Some existingGlobal =>
          let load :=
            createGlobalLoad (initNext b) (opLoc existingGlobal)
              existingGlobal in
          loadHoistedResults hoisted results' false
            (mkInitBuilder (initOps b ++ [load])
               (mapValue origResult (OpResult (opId load) 0) (cloneMap b))
               (S (initNext b)))
      end
  end.

(** Lines 166-186: one iteration of the loop over the slice. *)
Definition cloneSliceOp (hoisted : HoistedValueMap) (b : InitBuilder)
    (sourceOp : Operation) : InitBuilder :=
  let '(needsClone, b1) :=
    loadHoistedResults hoisted (getResults sourceOp) true b in
  if needsClone
  then
    let '(cloneOp, mapper, next) :=
      clone sourceOp (cloneMap b1) (initNext b1) in
    mkInitBuilder (initOps b1 ++ [cloneOp]) mapper next
  else b1.

(** The block arguments read in what the loop over the slice has inserted,
    [sources] being the operations it has gone through: one that is read
    in [sources], or an argument of a block of what is inserted. [cloneMap]
    maps a value to a result and a block to a block of what is inserted. *)
Definition builderOwned (sources : list Operation) (b : InitBuilder)
  : Prop :=
  mapperOwned (λ o, o ∈ initOps b ≫= opIds) (cloneMap b)
  ∧ ∀ u' o n,
      u' ∈ initOps b ≫= walkPreOrder →
      BlockArgument o n ∈ opOperands u' →
      (∃ u, u ∈ sources ≫= walkPreOrder ∧ BlockArgument o n ∈ opOperands u)
      ∨ o ∈ initOps b ≫= opIds.

(** The two outcomes of an iteration of the loop over the slice, from the
    builder [b] to the builder [b']. Loaded: a load of the global of each
    result of [sourceOp] is appended, in the order of the results, and
    [cloneMap] maps the result to the result of the load; nothing else is
    appended. Cloned: the clone of [sourceOp] is appended, its operands
    those of [sourceOp] seen through [cloneMap]. *)
Definition sliceOpLoaded (hoisted : HoistedValueMap) (sourceOp : Operation)
    (b b' : InitBuilder) : Prop :=
  ∃ loads,
    initOps b' = initOps b ++ loads
    ∧ length loads = length (opResultTypes sourceOp)
    ∧ initNext b' = initNext b + length loads
    ∧ (∀ i, i < length (opResultTypes sourceOp) →
         ∃ g, hoisted !! OpResult (opId sourceOp) i = Some g
              ∧ loads !! i
                = Some (createGlobalLoad (initNext b + i) (opLoc g) g)
              ∧ valueMap (cloneMap b') !! OpResult (opId sourceOp) i
                = Some (OpResult (initNext b + i) 0))
    ∧ (∀ v, v ∉ getResults sourceOp →
            valueMap (cloneMap b') !! v = valueMap (cloneMap b) !! v)
    ∧ blockMap (cloneMap b') = blockMap (cloneMap b).

Definition sliceOpCloned (sourceOp : Operation) (b b' : InitBuilder)
  : Prop :=
  ∃ cloneOp,
    (cloneOp, cloneMap b', initNext b')
    = clone sourceOp (cloneMap b) (initNext b)
    ∧ initOps b' = initOps b ++ [cloneOp]
    ∧ opData cloneOp
      = mkOperation (initNext b) (opKind sourceOp)
          (lookupOrDefault (cloneMap b) <$> opOperands sourceOp)
          (opResultTypes sourceOp) (opLoc sourceOp) [].

(** The state of the loop over the results of the root in
    [cloneConstExprInto]: the globals created through [globalBuilder], the
    stores created through [initBuilder], the values hoisted, the symbol
    table and the next fresh operation. *)
Record GlobalBuilder := mkGlobalBuilder {
  newGlobals : list Operation;
  newStores : list Operation;
  gbHoisted : HoistedValueMap;
  gbSymbols : SymbolTable;
  gbNext : OpId
}.

(** The global and the store made for a result: [GlobalOp] named "hoisted"
    (then renamed by the symbol table), immutable, of the type of the
    result, private; [GlobalStoreOp] of the cloned result into it. *)
Definition hoistedGlobal (id : OpId) (symbol : Symbol) (type : MlirType)
    (loc : Location) : Operation :=
  mkOperation id (GlobalOp symbol false type Private) [] [] loc [].

Definition hoistedStore (id : OpId) (symbol : Symbol) (clonedResult : Value)
    (loc : Location) : Operation :=
  mkOperation id (GlobalStoreOp symbol) [clonedResult] [] loc [].

(** Lines 195-209: one iteration of the loop over the results of the root.
    [BlockAndValueMapping::lookup] asserts that the value is mapped. *)
Definition hoistResult (loc : Location) (mapper : BlockAndValueMapping)
    (g : GlobalBuilder) (result : Value * MlirType) : option GlobalBuilder :=
  let '(origResult, type) := result in
  clonedResult ← valueMap mapper !! origResult;
  let '(symbol, symbols) := SymbolTable_insert "hoisted" (gbSymbols g) in
  let globalOp := hoistedGlobal (gbNext g) symbol type loc in
  let storeOp := hoistedStore (S (gbNext g)) symbol clonedResult loc in
  Some (mkGlobalBuilder (newGlobals g ++ [globalOp])
          (newStores g ++ [storeOp])
          (<[origResult := globalOp]> (gbHoisted g))
          symbols (S (S (gbNext g)))).

(** The results of an operation with their types. *)
Definition getResultsWithTypes (op : Operation) : list (Value * MlirType) :=
  imap (λ i type, (OpResult (opId op) i, type)) (opResultTypes op).

(** Where an operation inserted by the loop over the slice comes from: it
    is a load of a global of [hoisted], or a copy of an operation of (or
    nested in) [sources]. *)
Definition initOpOrigin (hoisted : HoistedValueMap)
    (sources : list Operation) (o : Operation) : Prop :=
  (∃ v g, hoisted !! v = Some g ∧ o = createGlobalLoad (opId o) (opLoc g) g)
  ∨ (∃ src, src ∈ sources ≫= walkPreOrder ∧ opKind o = opKind src).

(** What [hoistConstExpr] does to the consumer: [load] is inserted before
    the owner of [operand], and [operand] reads its result. *)
Definition rewriteUse (operand : OpOperand) (load : Operation)
    (m : Operation) : Operation :=
  setOperand operand (OpResult (opId load) 0)
    (insertBefore (getOwner operand) load m).

Section Pass.
Context `{SliceAnalysis}.

(** Lines 162-186 of [cloneConstExprInto]: the slice of the root is
    computed and the loop runs over it, from an empty initializer and an
    empty [cloneMap]. *)
Definition cloneSlice (s : PassState) (rootOp : Operation) : InitBuilder :=
  foldl (cloneSliceOp (hoistedMap s))
    (mkInitBuilder [] emptyMapping (nextOpId s))
    (getBackwardSlice (module s) rootOp).

(** Neither the slice nor the root holds a store into [symbol]. *)
Definition sourcesClean (symbol : Symbol) (s : PassState)
    (rootOp : Operation) : Prop :=
  ∀ X o,
    X ∈ getBackwardSlice (module s) rootOp ++ [rootOp] →
    o ∈ walkPreOrder X → opKind o ≠ GlobalStoreOp symbol.

(** [cloneConstExprInto]: fills the initializer with the clone of the
    expression tree rooted at [constExprValue], creates a global and a
    store for each result of the root, and records the globals. Fails where
    the source asserts. *)
Definition cloneConstExprInto (initializerOp : Operation)
    (constExprValue : Value) (s : PassState) : option PassState :=
  rootOp ← getDefiningOp constExprValue (module s);
  let b := cloneSlice s rootOp in
  let '(clonedRootOp, mapper, next) :=
    clone rootOp (cloneMap b) (initNext b) in
  g ← forEach (hoistResult (opLoc clonedRootOp) mapper)
        (mkGlobalBuilder [] [] (hoistedMap s) (moduleSymbols s) next)
        (getResultsWithTypes rootOp);
  let returnOp :=
    mkOperation (gbNext g) InitializerReturnOp [] [] (opLoc initializerOp) []
  in
  Some (mkPassState
          (insertAtModuleBegin (newGlobals g)
             (insertAtBlockEnd (opId initializerOp)
                (initOps b ++ [clonedRootOp] ++ newStores g ++ [returnOp])
                (module s)))
          (S (gbNext g)) (gbHoisted g) (gbSymbols g)).

(** What [cloneConstExprInto] has made when it returns with the values
    hoisted [hoisted'], the symbols [symbols'] and the next fresh operation
    [next']: the globals [gs], one per result of [rootOp], and the
    operations [body] of the initializer. Every operation of [body] is a
    store into one of [gs], the terminator, a load of a global hoisted
    before, or a copy of an operation of the slice or of the root. A store
    writes the result of an operation. A block argument read in a copy is
    one that is read in the slice or in the root, or an argument of a block
    of a copy. *)
Record Materialized (s : PassState) (initLoc : Location)
    (rootOp : Operation) (gs body : list Operation)
    (hoisted' : HoistedValueMap) (symbols' : SymbolTable) (next' : OpId)
  : Prop := {
  mat_length : length gs = length (opResultTypes rootOp);
  mat_result i type :
    opResultTypes rootOp !! i = Some type →
    ∃ gid symbol clonedResult,
      gs !! i = Some (hoistedGlobal gid symbol type (opLoc rootOp))
      ∧ hoisted' !! OpResult (opId rootOp) i
        = Some (hoistedGlobal gid symbol type (opLoc rootOp))
      ∧ (symbol ∉ symbolNames (moduleSymbols s))
      ∧ valueMap
          (clone rootOp (cloneMap (cloneSlice s rootOp))
             (initNext (cloneSlice s rootOp))).1.2
        !! OpResult (opId rootOp) i = Some clonedResult
      ∧ hoistedStore (S gid) symbol clonedResult (opLoc rootOp) ∈ body;
  mat_frame v :
    v ∉ getResults rootOp → hoisted' !! v = hoistedMap s !! v;
  mat_symbols_NoDup : NoDup (globalSymbol <$> gs);
  mat_symbols :
    symbolNames symbols'
    = list_to_set (globalSymbol <$> gs) ∪ symbolNames (moduleSymbols s);
  mat_body :
    ∃ stores,
      body
      = initOps (cloneSlice s rootOp)
        ++ [(clone rootOp (cloneMap (cloneSlice s rootOp))
               (initNext (cloneSlice s rootOp))).1.1]
        ++ stores
        ++ [mkOperation (next' - 1) InitializerReturnOp [] [] initLoc []]
      ∧ length stores = length (opResultTypes rootOp)
      ∧ ∀ i st, stores !! i = Some st →
          ∃ g, gs !! i = Some g
               ∧ opKind st = GlobalStoreOp (globalSymbol g)
               ∧ opBody st = [] ∧ opResultTypes st = []
               ∧ ∃ o j, opOperands st = [OpResult o j];
  mat_origin :
    Forall (initOpOrigin (hoistedMap s)
              (getBackwardSlice (module s) rootOp ++ [rootOp]))
      ((initOps (cloneSlice s rootOp)
        ++ [(clone rootOp (cloneMap (cloneSlice s rootOp))
               (initNext (cloneSlice s rootOp))).1.1]) ≫= walkPreOrder);
  mat_owners u' o n :
    u' ∈ (initOps (cloneSlice s rootOp)
          ++ [(clone rootOp (cloneMap (cloneSlice s rootOp))
                 (initNext (cloneSlice s rootOp))).1.1]) ≫= walkPreOrder →
    BlockArgument o n ∈ opOperands u' →
    (∃ u, u ∈ (getBackwardSlice (module s) rootOp ++ [rootOp])
              ≫= walkPreOrder
          ∧ BlockArgument o n ∈ opOperands u)
    ∨ o ∈ (initOps (cloneSlice s rootOp)
           ++ [(clone rootOp (cloneMap (cloneSlice s rootOp))
                  (initNext (cloneSlice s rootOp))).1.1]) ≫= opIds;
  mat_ids :
    (gs ≫= opIds) ++ (body ≫= opIds)
    ≡ₚ seq (nextOpId s) (next' - nextOpId s);
  mat_next : nextOpId s < next'
}.

(** Lines 131-133 of [hoistConstExpr]: an empty initializer is created at
    the end of the module. *)
Definition createInitializer (loc : Location) (s : PassState) : PassState :=
  mkPassState
    (insertAtModuleEnd [mkOperation (nextOpId s) InitializerOp [] [] loc []]
       (module s))
    (S (nextOpId s)) (hoistedMap s) (moduleSymbols s).

(** [Value::getLoc]. *)
Definition getLoc (v : Value) (m : Operation) : Location :=
  from_option opLoc 0 (getDefiningOp v m).

(** [hoistConstExpr]: materializes the global of the value held by
    [operand] unless it has one, and makes [operand] read a new load of
    it. *)
Definition hoistConstExpr (operand : OpOperand) (s : PassState)
  : option PassState :=
  targetOp ← lookupOp (getOwner operand) (module s);
  originalValue ← getOperand operand (module s);
  s1 ← match hoistedMap s !! originalValue with
       | Some _ => Some s
       | None =>
           let loc := getLoc originalValue (module s) in
           let initializerOp :=
             mkOperation (nextOpId s) InitializerOp [] [] loc [] in
           cloneConstExprInto initializerOp originalValue
             (createInitializer loc s)
       end;
  existingGlobal ← hoistedMap s1 !! originalValue;
  let load :=
    createGlobalLoad (nextOpId s1) (opLoc targetOp) existingGlobal in
  Some (mkPassState
          (setOperand operand (OpResult (opId load) 0)
             (insertBefore (opId targetOp) load (module s1)))
          (S (nextOpId s1)) (hoistedMap s1) (moduleSymbols s1)).

(** The loop over the slice, iteration by iteration, from the builder [b]
    to the builder [b']. An operation that has a result, all of whose
    results have a global, is loaded. An operation none of whose results
    has a global is cloned: so is an operation that has no result. *)
Inductive sliceLoop (hoisted : HoistedValueMap)
  : list Operation → InitBuilder → InitBuilder → Prop :=
| sliceLoop_done b : sliceLoop hoisted [] b b
| sliceLoop_loaded sourceOp slice b b1 b' :
    getResults sourceOp ≠ [] →
    Forall (λ r, is_Some (hoisted !! r)) (getResults sourceOp) →
    sliceOpLoaded hoisted sourceOp b b1 →
    sliceLoop hoisted slice b1 b' →
    sliceLoop hoisted (sourceOp :: slice) b b'
| sliceLoop_cloned sourceOp slice b b1 b' :
    Forall (λ r, hoisted !! r = None) (getResults sourceOp) →
    sliceOpCloned sourceOp b b1 →
    sliceLoop hoisted slice b1 b' →
    sliceLoop hoisted (sourceOp :: slice) b b'.

(** What [cloneConstExprInto] does with the slice and the root, from [s]
    to [s']. The loop over the slice runs from the empty builder to the
    builder [b]. The root is cloned next, its operands seen through the
    [cloneMap] the loop has built. The body of the initializer is what the
    loop has inserted, then the clone of the root, then the stores and the
    terminator. The memo table changes on the results of the root only. *)
Definition sliceCloned (initializerOp : Operation) (rootOp : Operation)
    (s s' : PassState) : Prop :=
  ∃ b gs clonedRootOp mapper next stores returnOp,
    sliceLoop (hoistedMap s) (getBackwardSlice (module s) rootOp)
      (mkInitBuilder [] emptyMapping (nextOpId s)) b
    ∧ (clonedRootOp, mapper, next) = clone rootOp (cloneMap b) (initNext b)
    ∧ opData clonedRootOp
      = mkOperation (initNext b) (opKind rootOp)
          (lookupOrDefault (cloneMap b) <$> opOperands rootOp)
          (opResultTypes rootOp) (opLoc rootOp) []
    ∧ module s'
      = insertAtModuleBegin gs
          (insertAtBlockEnd (opId initializerOp)
             (initOps b ++ [clonedRootOp] ++ stores ++ [returnOp])
             (module s))
    ∧ ∀ v, v ∉ getResults rootOp → hoistedMap s' !! v = hoistedMap s !! v.

(** What a call of [hoistConstExpr] on [operand] makes of the state [s]:
    the consumer is [targetOp], the value it reads is [v], the global of
    [v] is [g]. The use is rewritten in the module as it was. When [v] had
    a global the module gains no operation but the load; otherwise it gains
    the globals [gs] and one initializer, [inits]. *)
Definition hoistStep (operand : OpOperand) (s s' : PassState)
    (targetOp : Operation) (v : Value) (g : Operation)
    (gs inits : list Operation) : Prop :=
  lookupOp (getOwner operand) (module s) = Some targetOp
  ∧ getOperand operand (module s) = Some v
  ∧ hoistedMap s' !! v = Some g
  ∧ module s'
    = insertAtModuleBegin gs
        (insertAtModuleEnd inits
           (rewriteUse operand
              (createGlobalLoad (nextOpId s' - 1) (opLoc targetOp) g)
              (module s)))
  ∧ nextOpId s < nextOpId s'
  ∧ ((hoistedMap s !! v = Some g ∧ gs = [] ∧ inits = []
      ∧ hoistedMap s' = hoistedMap s
      ∧ moduleSymbols s' = moduleSymbols s
      ∧ nextOpId s' = S (nextOpId s))
     ∨ (hoistedMap s !! v = None
        ∧ ∃ rootOp body,
            getDefiningOp v (module s) = Some rootOp
            ∧ inits = [mkOperation (nextOpId s) InitializerOp [] []
                         (opLoc rootOp) body]
            ∧ Materialized (createInitializer (opLoc rootOp) s)
                (opLoc rootOp) rootOp gs body (hoistedMap s')
                (moduleSymbols s') (nextOpId s' - 1))).


Context `{ConstExprOracle}.

(** Lines 87-113: the body of the loop over the uses of a result. *)
Definition visitUse (constExprs : ConstExprAnalysis) (s : PassState)
    (operand : OpOperand) : option PassState :=
  let targetInfo := lookup constExprs (getOwner operand) in
  if match targetInfo with
     | Some info => isConstExpr info && isHoistableConstExprLeaf info
     | None => false
     end
  then Some s
  else if negb (isHoistableConstExprConsumingOperand operand)
  then Some s
  else hoistConstExpr operand s.

(** Lines 79-114: the body of the loop over the results of [iterOp]; the
    uses are those at the time the result is reached. *)
Definition visitResult (constExprs : ConstExprAnalysis) (s : PassState)
    (constExprResult : Value) : option PassState :=
  let uses := getUses constExprResult (module s) in
  forEach (visitUse constExprs) s uses.

(** Lines 65-117: the callback of the walk. *)
Definition visitOp (constExprs : ConstExprAnalysis) (s : PassState)
    (iterOp : Operation) : option PassState :=
  match lookup constExprs (opId iterOp) with
  | None => Some s
  | Some iterInfo =>
      if isRoot iterInfo || negb (isConstExpr iterInfo)
      then Some s
      else if negb (isHoistableConstExprLeaf iterInfo)
      then Some s
      else forEach (visitResult constExprs) s (getResults iterOp)
  end.

(** Line 231: [checkOp->use_empty()]. On an operation that went away with
    an enclosing operation the source reads an operation that is no longer
    there; here the answer is that it has no use left. The case does not
    arise when the set and the module are [sweepable], defined below. *)
Definition isDeadOp (checkOp : OpId) (m : Operation) : bool :=
  match lookupOp checkOp m with
  | Some op => use_empty op m
  | None => true
  end.

(** Lines 230-238: the loop over the worklist. *)
Definition checkDeadOp (st : Operation * list OpId * bool) (checkOp : OpId)
  : Operation * list OpId * bool :=
  let '(m, allOps, madeChanges) := st in
  if isDeadOp checkOp m
  then (eraseOp checkOp m, filter (λ o, o ≠ checkOp) allOps, true)
  else st.

(** Lines 223-239: the loop [while (madeChanges)]; a scan that erases
    something removes an operation from [allOps], so [length allOps] scans
    that erase and one that does not are all there can be. *)
Fixpoint sweep (scans : nat) (m : Operation) (allOps : list OpId)
  : Operation * list OpId :=
  match scans with
  | 0 => (m, allOps)
  | S scans' =>
      let worklist := allOps in
      let '(m', allOps', madeChanges) :=
        foldl checkDeadOp (m, allOps, false) worklist in
      if madeChanges then sweep scans' m' allOps' else (m', allOps')
  end.

(** [cleanupDeadOps]. *)
Definition cleanupDeadOps (constExprs : ConstExprAnalysis) (m : Operation)
  : Operation * list OpId :=
  let allOps := remove_dups (populateConstExprOperations constExprs) in
  sweep (S (length allOps)) m allOps.

(** The erasures the sweeper may make, one after the other, of the module
    and the working set: the operation erased is in the set and has no use
    when it is erased, and it leaves the set. *)
Inductive sweepSteps (st0 : Operation * list OpId)
  : Operation * list OpId → Prop :=
| sweep_done : sweepSteps st0 st0
| sweep_erase m allOps checkOp :
    sweepSteps st0 (m, allOps) →
    checkOp ∈ allOps →
    isDeadOp checkOp m = true →
    sweepSteps st0 (eraseOp checkOp m, filter (λ o, o ≠ checkOp) allOps).

(** What line 231 needs of the set and of the module, not to read an
    operation that line 236 has destroyed with an operation of the set it
    was nested in: the operations of the module are distinct, every
    operation of the set is an operation of the module other than the
    module itself, and no operation of the set is nested in another
    operation of the set. *)
Definition sweepable (allOps : list OpId) (m : Operation) : Prop :=
  NoDup (opIds m)
  ∧ (∀ id, id ∈ allOps → id ∈ opIds m ∧ id ≠ opId m)
  ∧ ∀ a b opB,
      a ∈ allOps → b ∈ allOps → a ≠ b →
      lookupOp b m = Some opB → a ∉ opIds opB.

(** The operations erased from the module [m0], in the order they are
    erased: each one is an operation of the module, and has no use, at the
    moment it is erased. *)
Inductive erasures (m0 : Operation) : list OpId → Operation → Prop :=
| erasures_none : erasures m0 [] m0
| erasures_erase erased m checkOp op :
    erasures m0 erased m →
    lookupOp checkOp m = Some op →
    use_empty op m = true →
    erasures m0 (erased ++ [checkOp]) (eraseOp checkOp m).

(** What the walk skips (lines 69 and 74): an operation the analysis does
    not know, a root, an operation that is not a constant-expression, and
    one the policy does not accept as a hoistable leaf. *)
Definition isHoistableLeaf (constExprs : ConstExprAnalysis) (id : OpId)
  : bool :=
  match lookup constExprs id with
  | Some iterInfo =>
      negb (isRoot iterInfo) && isConstExpr iterInfo
      && isHoistableConstExprLeaf iterInfo
  | None => false
  end.

(** What the loop over the uses does not skip (lines 94-104): the consumer
    is not both a constant-expression and a hoistable leaf, and the policy
    accepts the operand. *)
Definition isEscape (constExprs : ConstExprAnalysis) (operand : OpOperand)
  : bool :=
  negb match lookup constExprs (getOwner operand) with
       | Some targetInfo =>
           isConstExpr targetInfo && isHoistableConstExprLeaf targetInfo
       | None => false
       end
  && isHoistableConstExprConsumingOperand operand.

(** The uses the walk hoists: an operand of the module [m] that reads [v],
    when the operation defining [v] is one the walk does not skip and the
    use is one the loop over the uses does not skip. *)
Definition isHoistedUse (constExprs : ConstExprAnalysis) (m : Operation)
    (operand : OpOperand) (v : Value) : bool :=
  match getDefiningOp v m with
  | Some iterOp =>
      isHoistableLeaf constExprs (opId iterOp) && isEscape constExprs operand
  | None => false
  end.

(** [operand] reads the result of a global load of the module [m'] that
    is not older than [next]. *)
Definition rewritten (next : OpId) (m' : Operation) (operand : OpOperand)
  : Prop :=
  ∃ loadId loadOp symbol,
    next ≤ loadId
    ∧ getOperand operand m' = Some (OpResult loadId 0)
    ∧ lookupOp loadId m' = Some loadOp
    ∧ opKind loadOp = GlobalLoadOp symbol.

(** What the walk from [s] to [s'] has done to the operands of the module
    of [s]: those it hoists read a load created by the pass, the others
    read what they read. *)
Definition walkRewrites (constExprs : ConstExprAnalysis) (s s' : PassState)
  : Prop :=
  ∀ operand v,
    getOperand operand (module s) = Some v →
    if isHoistedUse constExprs (module s) operand v
    then rewritten (nextOpId s) (module s') operand
    else getOperand operand (module s') = Some v.

(** In a module, initializers come in the order of their dependencies: an
    initializer that loads a global comes after the initializer that
    stores into it. *)
Definition initializersOrdered (m : Operation) : Prop :=
  ∀ i1 i2 I1 I2 storeOp loadOp symbol,
    opBody m !! i1 = Some I1 → opKind I1 = InitializerOp →
    opBody m !! i2 = Some I2 → opKind I2 = InitializerOp →
    storeOp ∈ opBody I1 → opKind storeOp = GlobalStoreOp symbol →
    loadOp ∈ opBody I2 → opKind loadOp = GlobalLoadOp symbol →
    i1 < i2.

(** The stores into the global [symbol] in the module, in walk order. *)
Definition storesOf (symbol : Symbol) (m : Operation) : list OpId :=
  opId <$> filter (λ o, opKind o = GlobalStoreOp symbol) (walkData m).

(** Every store of the module names a symbol of the symbol table. *)
Definition storesResolved (s : PassState) : Prop :=
  ∀ o symbol,
    o ∈ walkData (module s) → opKind o = GlobalStoreOp symbol →
    symbol ∈ symbolNames (moduleSymbols s).

(** Every load of the module names a symbol of the symbol table. *)
Definition loadsResolved (s : PassState) : Prop :=
  ∀ o symbol,
    o ∈ walkData (module s) → opKind o = GlobalLoadOp symbol →
    symbol ∈ symbolNames (moduleSymbols s).

(** The symbols of the globals of the memo table are in the symbol
    table. *)
Definition hoistedKnown (s : PassState) : Prop :=
  ∀ v g, hoistedMap s !! v = Some g →
         globalSymbol g ∈ symbolNames (moduleSymbols s).

(** No operand of the module reads an argument of a block of an operation
    that is yet to be created. *)
Definition ownersFresh (s : PassState) : Prop :=
  ∀ d o n,
    d ∈ walkData (module s) → BlockArgument o n ∈ opOperands d →
    o < nextOpId s.

(** What the pass keeps of the store [storeId] into the global [symbol],
    which it has created in the initializer [initId]: the symbol is in the
    symbol table, the store is the one store into the global, it is in the
    body of the initializer, which is in the body of the module, neither
    has a result, and no operand reads an argument of a block of the
    store. *)
Record StoreInv (symbol : Symbol) (storeId initId : OpId) (s : PassState)
  : Prop := {
  si_symbol : symbol ∈ symbolNames (moduleSymbols s);
  si_stores : storesOf symbol (module s) = [storeId];
  si_initializer :
    ∃ initializerOp storeOp,
      initializerOp ∈ opBody (module s)
      ∧ opId initializerOp = initId
      ∧ opKind initializerOp = InitializerOp
      ∧ opResultTypes initializerOp = []
      ∧ storeOp ∈ opBody initializerOp
      ∧ opId storeOp = storeId
      ∧ opKind storeOp = GlobalStoreOp symbol
      ∧ opResultTypes storeOp = [];
  si_owner d n :
    d ∈ walkData (module s) → BlockArgument storeId n ∉ opOperands d
}.

(** The global [g] is written once in the module [m]: it is in the body
    of the module, and the one store into it is the operation created next
    after it, in the body of the initializer [initId] of the body of the
    module. *)
Definition storedOnce (g : Operation) (initId : OpId) (m : Operation)
  : Prop :=
  g ∈ opBody m
  ∧ storesOf (globalSymbol g) m = [S (opId g)]
  ∧ ∃ initializerOp storeOp,
      initializerOp ∈ opBody m
      ∧ opId initializerOp = initId
      ∧ opKind initializerOp = InitializerOp
      ∧ storeOp ∈ opBody initializerOp
      ∧ opId storeOp = S (opId g)
      ∧ opKind storeOp = GlobalStoreOp (globalSymbol g).

(** Everything in an initializer of the pass was created by the pass. *)
Definition initializersFresh (next0 : OpId) (m : Operation) : Prop :=
  ∀ initializerOp,
    initializerOp ∈ opBody m →
    opKind initializerOp = InitializerOp →
    next0 ≤ opId initializerOp →
    Forall (λ id, next0 ≤ id) (opIds initializerOp).

(** The memo table maps a result of an operation of the module to a global
    of the type of the result, made by [hoistedGlobal]. *)
Definition hoistedTyped (s : PassState) : Prop :=
  ∀ v g,
    hoistedMap s !! v = Some g →
    ∃ op i type,
      getDefiningOp v (module s) = Some op
      ∧ v = OpResult (opId op) i
      ∧ opResultTypes op !! i = Some type
      ∧ ∃ gid symbol loc, g = hoistedGlobal gid symbol type loc.

(** The memo table maps two values to two globals, and its globals are the
    globals [gs]. *)
Definition hoistedBijective (s : PassState) (gs : list Operation) : Prop :=
  (∀ v1 v2 g,
     hoistedMap s !! v1 = Some g → hoistedMap s !! v2 = Some g → v1 = v2)
  ∧ ∀ g, g ∈ gs ↔ ∃ v, hoistedMap s !! v = Some g.

(** [op'] is the operation [op] but for the values its operands read. *)
Definition sameOperation (op op' : Operation) : Prop :=
  opId op' = opId op
  ∧ opKind op' = opKind op
  ∧ opResultTypes op' = opResultTypes op
  ∧ opLoc op' = opLoc op
  ∧ length (opOperands op') = length (opOperands op).

(** A state the pass can be in: operations have distinct identities, all
    below the next fresh one, and the module is a [ModuleOp], with neither
    operands nor results. *)
Record wfState (s : PassState) : Prop := {
  wf_NoDup : NoDup (opIds (module s));
  wf_fresh : Forall (λ id, id < nextOpId s) (opIds (module s));
  wf_kind : opKind (module s) = ModuleOp;
  wf_operands : opOperands (module s) = [];
  wf_results : opResultTypes (module s) = []
}.

(** The states [hoistConstExpr] leads to from [s0], call after call. *)
Inductive reachable `{SliceAnalysis} (s0 : PassState) : PassState → Prop :=
| reachable_refl : reachable s0 s0
| reachable_hoist s operand s' :
    reachable s0 s → hoistConstExpr operand s = Some s' → reachable s0 s'.

(** The frame of a call of [hoistConstExpr] on [operand] that leads from
    [s] to [s']. A load of a global, not in the module before, is inserted
    and [operand] reads its result: this is [rewriteUse]. The other
    insertions are globals at the beginning of the module and initializers
    at its end. In walk order the operations [before] and [after] the
    consumer are what they were, the load comes immediately before the
    consumer, and the consumer differs in the one operand. An operand of
    the module reads what it read, unless it is [operand]. *)
Definition hoistFrame (operand : OpOperand) (s s' : PassState) : Prop :=
  ∃ targetOp g gs inits before after,
    let load := createGlobalLoad (nextOpId s' - 1) (opLoc targetOp) g in
    lookupOp (getOwner operand) (module s) = Some targetOp
    ∧ nextOpId s ≤ opId load
    ∧ module s'
      = insertAtModuleBegin gs
          (insertAtModuleEnd inits (rewriteUse operand load (module s)))
    ∧ Forall (λ o, (∃ symbol type,
                      opKind o = GlobalOp symbol false type Private)
                   ∧ nextOpId s ≤ opId o) gs
    ∧ Forall (λ o, opKind o = InitializerOp ∧ nextOpId s ≤ opId o) inits
    ∧ walkData (module s) = before ++ opData targetOp :: after
    ∧ walkData (rewriteUse operand load (module s))
      = before
        ++ load
        :: mkOperation (opId targetOp) (opKind targetOp)
             (<[getOperandNumber operand := OpResult (opId load) 0]>
                (opOperands targetOp))
             (opResultTypes targetOp) (opLoc targetOp) []
        :: after
    ∧ ∀ operand' v,
        getOperand operand' (module s) = Some v →
        getOperand operand' (module s')
        = Some (if decide (operand' = operand) then OpResult (opId load) 0
                else v).

(** The operation [a] comes before the operation [b] in the module, in
    walk order. *)
Definition precedes (m : Operation) (a b : OpId) : Prop :=
  ∃ l1 l2 l3, opIds m = l1 ++ a :: l2 ++ b :: l3.

(** In the module [m'] of a pass that started with [next] as the next
    fresh operation, a global declared in the body of the module comes
    before a load of it, when the global was created by the pass or the
    load is in an initializer created by the pass. *)
Definition globalsPrecedeLoads (next : OpId) (m' : Operation) : Prop :=
  ∀ globalOp loadOp symbol is_mutable type visibility,
    globalOp ∈ opBody m' →
    opKind globalOp = GlobalOp symbol is_mutable type visibility →
    loadOp ∈ walkPreOrder m' →
    opKind loadOp = GlobalLoadOp symbol →
    next ≤ opId globalOp
    ∨ (∃ initializerOp,
         initializerOp ∈ opBody m'
         ∧ opKind initializerOp = InitializerOp
         ∧ next ≤ opId initializerOp
         ∧ loadOp ∈ walkPreOrder initializerOp) →
    precedes m' (opId globalOp) (opId loadOp).

(** What erasures make of a module: the module [m'] has the operations of
    [m] that are left, in the same order, in the body of the module and in
    each operation of it. *)
Definition shrinks (m m' : Operation) : Prop :=
  opData m' = opData m
  ∧ walkData m' `sublist_of` walkData m
  ∧ ∀ c', c' ∈ opBody m' →
          ∃ c, c ∈ opBody m ∧ opData c' = opData c
               ∧ walkData c' `sublist_of` walkData c.

(** The layout of the module in a state of a pass that started with
    [next0] as the next fresh operation: the body of the module is made of
    the globals created by the pass, [gs], then of the operations that were
    there and of loads created by the pass, [mid], then of the initializers
    created by the pass, [inits]. The globals of the memo table are among
    [gs]; the symbols of [gs] are distinct, and differ from the symbols of
    the other operations of the body, all of which the symbol table
    holds. *)
Record Layout (next0 : OpId) (s : PassState) (gs mid inits : list Operation)
  : Prop := {
  lay_body : opBody (module s) = gs ++ mid ++ inits;
  lay_globals :
    Forall (λ g, ∃ gid symbol type loc,
                   g = hoistedGlobal gid symbol type loc ∧ next0 ≤ gid) gs;
  lay_mid :
    Forall (λ o, opId o < next0 ∨ ∃ symbol, opKind o = GlobalLoadOp symbol)
      mid;
  lay_inits :
    Forall (λ o, opKind o = InitializerOp ∧ opOperands o = []
                 ∧ next0 ≤ opId o) inits;
  lay_hoisted v g : hoistedMap s !! v = Some g → g ∈ gs;
  lay_symbols_NoDup : NoDup (globalSymbol <$> gs);
  lay_symbols_known o symbol :
    o ∈ opBody (module s) → opSymbol o = Some symbol →
    symbol ∈ symbolNames (moduleSymbols s);
  lay_symbols_other o symbol :
    o ∈ mid ++ inits → opSymbol o = Some symbol →
    symbol ∉ globalSymbol <$> gs
}.

(** The invariant of the memo table: of the results of an operation, all
    have a global or none has. *)
Definition allOrNone (s : PassState) : Prop :=
  ∀ op, op ∈ walkPreOrder (module s) →
    Forall (λ v, is_Some (hoistedMap s !! v)) (getResults op)
    ∨ Forall (λ v, hoistedMap s !! v = None) (getResults op).

(** Every value with a global is a result of an operation of the module. *)
Definition hoistedDefined (s : PassState) : Prop :=
  ∀ v, is_Some (hoistedMap s !! v) → is_Some (getDefiningOp v (module s)).

(** The state [runOnOperation] starts from; [next] is an operation
    identity above those in use. *)
Definition initialState (m : Operation) (next : OpId) : PassState :=
  mkPassState m next ∅ (SymbolTable_of m).

(** Lines 65-117: the walk. The operations it visits are those of the
    module before the pass: the analysis knows none of the operations the
    pass creates, and the callback returns at once on them. *)
Definition walkModule (constExprs : ConstExprAnalysis) (s : PassState)
  : option PassState :=
  forEach (visitOp constExprs) s (walkPreOrder (module s)).

(** [runOnOperation]. *)
Definition runOnOperation (constExprs : ConstExprAnalysis) (m : Operation)
    (next : OpId) : option Operation :=
  s ← walkModule constExprs (initialState m next);
  Some (cleanupDeadOps constExprs (module s)).1.

End Pass.

(** ** A slice analysis, an oracle and modules to run the pass on *)

(** [OpTrait::IsIsolatedFromAbove]: the module, an initializer and, among
    the other operations of the examples, a function. *)
Definition isIsolatedFromAbove (op : Operation) : bool :=
  match opKind op with
  | ModuleOp | InitializerOp => true
  | OtherOp name _ => bool_decide (name = "func")
  | _ => false
  end.

(** The operation an operand leads the recursion to: the operation
    defining it or, for a block argument, the operation owning its
    block. *)
Definition producerOf (m : Operation) (operand : Value) : option Operation :=
  match operand with
  | OpResult _ _ => getDefiningOp operand m
  | BlockArgument owner _ => lookupOp owner m
  end.

(** The recursion of [mlir::getBackwardSlice]: nothing for an operation
    that is isolated from above; otherwise the producers of the operands
    first, then the operation, none twice. [depth] bounds the length of a
    chain of producers. *)
Fixpoint backwardSliceImpl (depth : nat) (m : Operation) (op : Operation)
    (slice : list Operation) : list Operation :=
  match depth with
  | 0 => slice
  | S depth' =>
      if isIsolatedFromAbove op then slice
      else
        let slice' :=
          foldl (λ acc operand,
                   match producerOf m operand with
                   | Some producer =>
                       if decide (opId producer ∈ opId <$> acc) then acc
                       else backwardSliceImpl depth' m producer acc
                   | None => acc
                   end) slice (opOperands op) in
        if decide (opId op ∈ opId <$> slice') then slice' else slice' ++ [op]
  end.

(** The root is not part of its slice. *)
Definition backwardSlice (m rootOp : Operation) : list Operation :=
  filter (λ o, opId o ≠ opId rootOp)
    (backwardSliceImpl (length (walkPreOrder m)) m rootOp []).

(** What the recursion puts in the slice: an operation of the module that
    is not isolated from above, and that has a result or owns a block
    argument read by the root or by an operation of the module. *)
Definition slicedFrom (m rootOp : Operation) (op : Operation) : Prop :=
  op ∈ walkPreOrder m
  ∧ isIsolatedFromAbove op = false
  ∧ (opResultTypes op ≠ []
     ∨ ∃ user argNumber,
         (user = rootOp ∨ user ∈ walkPreOrder m)
         ∧ BlockArgument (opId op) argNumber ∈ opOperands user).

Lemma producerOf_slicedFrom m rootOp user operand producer :
  user = rootOp ∨ user ∈ walkPreOrder m →
  operand ∈ opOperands user →
  producerOf m operand = Some producer →
  isIsolatedFromAbove producer = false →
  slicedFrom m rootOp producer.
Proof.
  intros Huser Hoperand Hp Hiso.
  assert (∀ o d, lookupOp o m = Some d → d ∈ walkPreOrder m ∧ opId d = o)
    as Hlookup.
  { intros o d Hd. unfold lookupOp in Hd.
    apply head_Some_elem_of, list_elem_of_filter in Hd. by destruct Hd. }
  destruct operand as [o i|o n]; simpl in Hp.
  - destruct (lookupOp o m) as [d|] eqn:Hd; [|done]. simpl in Hp.
    case_decide as Hi; [|done]. injection Hp as <-.
    split_and!; [by apply (Hlookup o)|done|]. left.
    intros Hnil. rewrite Hnil in Hi. simpl in Hi. lia.
  - destruct (Hlookup _ _ Hp) as [Hin <-].
    split_and!; [done..|]. right. eauto.
Qed.

Lemma backwardSliceImpl_slicedFrom m rootOp depth op slice :
  op = rootOp ∨ op ∈ walkPreOrder m →
  (isIsolatedFromAbove op = false → slicedFrom m rootOp op ∨ op = rootOp) →
  Forall (λ o, slicedFrom m rootOp o ∨ o = rootOp) slice →
  Forall (λ o, slicedFrom m rootOp o ∨ o = rootOp)
    (backwardSliceImpl depth m op slice).
Proof.
  revert op slice.
  induction depth as [|depth IH]; intros op slice Hop Hself Hslice; [done|].
  simpl. destruct (isIsolatedFromAbove op) eqn:Hiso; [done|].
  assert (∀ operands acc,
    (∀ operand, operand ∈ operands → operand ∈ opOperands op) →
    Forall (λ o, slicedFrom m rootOp o ∨ o = rootOp) acc →
    Forall (λ o, slicedFrom m rootOp o ∨ o = rootOp)
      (foldl (λ acc operand,
                match producerOf m operand with
                | Some producer =>
                    if decide (opId producer ∈ opId <$> acc) then acc
                    else backwardSliceImpl depth m producer acc
                | None => acc
                end) acc operands)) as Hfold.
  { induction operands as [|v vs IHvs]; intros acc Hsub Hacc; [done|].
    simpl. apply IHvs; [intros ??; apply Hsub; by right|].
    destruct (producerOf m v) as [producer|] eqn:Hp; [|done].
    case_decide; [done|].
    assert (isIsolatedFromAbove producer = false →
            slicedFrom m rootOp producer) as Hprod.
    { apply (producerOf_slicedFrom m rootOp op v); [done| |done].
      apply Hsub. left. }
    apply IH; [|by left; apply Hprod|done].
    right. destruct (isIsolatedFromAbove producer) eqn:Hi.
    - destruct v as [o i|o n]; simpl in Hp.
      + destruct (lookupOp o m) as [d|] eqn:Hd; [|done]. simpl in Hp.
        case_decide; [|done]. injection Hp as <-. unfold lookupOp in Hd.
        apply head_Some_elem_of, list_elem_of_filter in Hd. by destruct Hd.
      + unfold lookupOp in Hp.
        apply head_Some_elem_of, list_elem_of_filter in Hp. by destruct Hp.
    - by destruct (Hprod eq_refl). }
  case_decide.
  - by apply Hfold.
  - apply Forall_app. split; [by apply Hfold|].
    constructor; [by apply Hself|constructor].
Qed.

Lemma backwardSlice_slicedFrom m rootOp op :
  op ∈ backwardSlice m rootOp → slicedFrom m rootOp op.
Proof.
  unfold backwardSlice. intros [Hne Hin]%list_elem_of_filter.
  pose proof (backwardSliceImpl_slicedFrom m rootOp (length (walkPreOrder m))
    rootOp [] (or_introl eq_refl) (λ _, or_intror eq_refl) (Forall_nil_2 _))
    as Hall.
  rewrite Forall_forall in Hall. destruct (Hall _ Hin) as [?| ->]; done.
Qed.

Global Instance dfsSlice : SliceAnalysis := {|
  getBackwardSlice := backwardSlice;
  getBackwardSlice_elem_of m rootOp op Hin :=
    proj1 (backwardSlice_slicedFrom m rootOp op Hin)
|}.

Global Instance dfsSliceScoped : SliceScoped.
Proof.
  split; intros m rootOp op Hin;
    destruct (backwardSlice_slicedFrom m rootOp op Hin) as (_ & Hiso & Hprod).
  - unfold isIsolatedFromAbove in Hiso. by destruct (opKind op).
  - done.
Qed.

(** An analysis that keeps the two flags, and a policy that accepts every
    leaf and every operand. *)
Global Instance flagsOracle : ConstExprOracle := {|
  ConstValueInfo := bool * bool;
  isRoot := fst;
  isConstExpr := snd;
  isHoistableConstExprLeaf := λ _, true;
  isHoistableConstExprConsumingOperand := λ _, true
|}.

(** The same analysis with a policy that accepts no leaf. *)
Definition noLeafOracle : ConstExprOracle := {|
  ConstValueInfo := bool * bool;
  isRoot := fst;
  isConstExpr := snd;
  isHoistableConstExprLeaf := λ _, false;
  isHoistableConstExprConsumingOperand := λ _, true
|}.

Definition otherOp (id : OpId) (name : string) (operands : list Value)
    (resultTypes : list MlirType) : Operation :=
  mkOperation id (OtherOp name None) operands resultTypes id [].

(** A function in which a constant-expression with two results is consumed
    by two operations that are not constant-expressions and by one that
    is:
<<
  module {                                   // 0
    func @main(%arg0) {                      // 1
      %c   = "const"()                       // 2
      %p:2 = "split"(%c)                     // 3
      %a   = "runtime.a"(%p#0, %arg0)        // 4
      %b   = "runtime.b"(%p#0)               // 5
      %q   = "fold"(%p#1)                    // 6
      %d   = "runtime.c"(%q)                 // 7
      "return"(%a, %b, %d)                   // 8
    }
  }
>> *)
Definition exampleModule : Operation :=
  mkOperation 0 ModuleOp [] [] 0
    [mkOperation 1 (OtherOp "func" (Some "main")) [] [] 1
       [otherOp 2 "const" [] ["i32"];
        otherOp 3 "split" [OpResult 2 0] ["i32"; "i64"];
        otherOp 4 "runtime.a" [OpResult 3 0; BlockArgument 1 0] ["i32"];
        otherOp 5 "runtime.b" [OpResult 3 0] ["i32"];
        otherOp 6 "fold" [OpResult 3 1] ["i64"];
        otherOp 7 "runtime.c" [OpResult 6 0] ["i64"];
        otherOp 8 "return" [OpResult 4 0; OpResult 5 0; OpResult 7 0] []]].

(** [const] is a constant root, [split] and [fold] are
    constant-expressions. *)
Definition exampleAnalysis : @ConstExprAnalysis flagsOracle :=
  mkConstExprAnalysis flagsOracle
    (λ id, if decide (id = 2) then Some (true, true)
           else if decide (id = 3 ∨ id = 6) then Some (false, true)
           else if decide (id = 4 ∨ id = 5 ∨ id = 7) then Some (false, false)
           else None)
    [2; 3; 6].

Definition exampleState : PassState := initialState exampleModule 9.

(** The states after the first, the first two and the first three of the
    escapes: [%p#0] twice, then [%q]. *)
Definition exampleState1 : PassState :=
  default exampleState (hoistConstExpr (mkOpOperand 4 0) exampleState).

Definition exampleState2 : PassState :=
  default exampleState1 (hoistConstExpr (mkOpOperand 5 0) exampleState1).

Definition exampleState3 : PassState :=
  default exampleState2 (hoistConstExpr (mkOpOperand 7 0) exampleState2).

(** The initializer created for the escape of [%q], and the state after
    [cloneConstExprInto] has filled it. *)
Definition exampleInitializer : Operation :=
  mkOperation 19 InitializerOp [] [] 6 [].

Definition exampleStateCloned : PassState :=
  default exampleState2
    (cloneConstExprInto exampleInitializer (OpResult 6 0)
       (createInitializer 6 exampleState2)).

(** The state after the walk. *)
Definition exampleStateWalked : PassState :=
  default exampleState (walkModule exampleAnalysis exampleState).

(** An initializer that stores a constant-expression into a global:
<<
  module {                                   // 0
    util.global @g : i32                     // 1
    util.initializer {                       // 2
      %c = "const"()                         // 3
      %e = "expr"(%c)                        // 4
      util.global.store %e, @g               // 5
      util.initializer.return                // 6
    }
  }
>> *)
Definition initializerModule : Operation :=
  mkOperation 0 ModuleOp [] [] 0
    [mkOperation 1 (GlobalOp "g" false "i32" Private) [] [] 1 [];
     mkOperation 2 InitializerOp [] [] 2
       [otherOp 3 "const" [] ["i32"];
        otherOp 4 "expr" [OpResult 3 0] ["i32"];
        mkOperation 5 (GlobalStoreOp "g") [OpResult 4 0] [] 5 [];
        mkOperation 6 InitializerReturnOp [] [] 6 []]].

Definition initializerAnalysis : @ConstExprAnalysis flagsOracle :=
  mkConstExprAnalysis flagsOracle
    (λ id, if decide (id = 3) then Some (true, true)
           else if decide (id = 4) then Some (false, true)
           else None)
    [3; 4].

(** The module the pass makes of it: the initializer that was there loads
    the new global, and the initializer that stores into the new global
    comes after it. *)
Definition initializerModuleHoisted : Operation :=
  mkOperation 0 ModuleOp [] [] 0
    [mkOperation 10 (GlobalOp "hoisted" false "i32" Private) [] [] 4 [];
     mkOperation 1 (GlobalOp "g" false "i32" Private) [] [] 1 [];
     mkOperation 2 InitializerOp [] [] 2
       [mkOperation 13 (GlobalLoadOp "hoisted") [] ["i32"] 5 [];
        mkOperation 5 (GlobalStoreOp "g") [OpResult 13 0] [] 5 [];
        mkOperation 6 InitializerReturnOp [] [] 6 []];
     mkOperation 7 InitializerOp [] [] 4
       [mkOperation 8 (OtherOp "const" None) [] ["i32"] 3 [];
        mkOperation 9 (OtherOp "expr" None) [OpResult 8 0] ["i32"] 4 [];
        mkOperation 11 (GlobalStoreOp "hoisted") [OpResult 9 0] [] 4 [];
        mkOperation 12 InitializerReturnOp [] [] 4 []]].

(** A function with constant-expressions that nothing outside them uses,
    and a policy that accepts no leaf:
<<
  module {                                   // 0
    func @main() {                           // 1
      %c = "const"()                         // 2
      %e = "expr"(%c)                        // 3
      "return"()                             // 4
    }
  }
>> *)
Definition unusedModule : Operation :=
  mkOperation 0 ModuleOp [] [] 0
    [mkOperation 1 (OtherOp "func" (Some "main")) [] [] 1
       [otherOp 2 "const" [] ["i32"];
        otherOp 3 "expr" [OpResult 2 0] ["i32"];
        otherOp 4 "return" [] []]].

Definition unusedAnalysis : @ConstExprAnalysis noLeafOracle :=
  mkConstExprAnalysis noLeafOracle
    (λ id, if decide (id = 2) then Some (true, true)
           else if decide (id = 3) then Some (false, true)
           else None)
    [2; 3].

(** What the pass makes of it. *)
Definition unusedModuleSwept : Operation :=
  mkOperation 0 ModuleOp [] [] 0
    [mkOperation 1 (OtherOp "func" (Some "main")) [] [] 1
       [otherOp 4 "return" [] []]].

(** The same function when the constant-expression is returned. *)
Definition usedModule : Operation :=
  mkOperation 0 ModuleOp [] [] 0
    [mkOperation 1 (OtherOp "func" (Some "main")) [] [] 1
       [otherOp 2 "const" [] ["i32"];
        otherOp 3 "expr" [OpResult 2 0] ["i32"];
        otherOp 4 "return" [OpResult 3 0] []]].






(** The state after the escape of [%e] in [initializerModule], the store
    into [@g], has been hoisted. *)
Definition initializerState1 : PassState :=
  default (initialState initializerModule 7)
    (hoistConstExpr (mkOpOperand 5 0) (initialState initializerModule 7)).

(** A constant-expression with a region, in which an operation reads a
    constant-expression defined outside the region:
<<
  module {                                   // 0
    func @main() {                           // 1
      %a = "a"()                             // 2
      %r = "region"() {                      // 3
        "inner"(%a)                          // 4
      }
      "runtime"(%r)                          // 5
    }
  }
>> *)
Definition nestedModule : Operation :=
  mkOperation 0 ModuleOp [] [] 0
    [mkOperation 1 (OtherOp "func" (Some "main")) [] [] 1
       [otherOp 2 "a" [] ["i32"];
        mkOperation 3 (OtherOp "region" None) [] ["i32"] 3
          [otherOp 4 "inner" [OpResult 2 0] []];
        otherOp 5 "runtime" [OpResult 3 0] []]].

(** [a], [region] and [inner] are constant-expressions, none is a root. *)
Definition nestedAnalysis : @ConstExprAnalysis flagsOracle :=
  mkConstExprAnalysis flagsOracle
    (λ id, if decide (id = 2 ∨ id = 3 ∨ id = 4) then Some (false, true)
           else None)
    [2; 3; 4].

(** The state after the walk. *)
Definition nestedStateWalked : PassState :=
  default (initialState nestedModule 6)
    (walkModule nestedAnalysis (initialState nestedModule 6)).

(** An operation without a result that owns a block argument, read by a
    constant-expression in its block:
<<
  module {                                   // 0
    func @main() {                           // 1
      "loop"() {                             // 2
      ^bb0(%i):
        %c = "expr"(%i)                      // 3
        "runtime"(%c)                        // 4
      }
    }
  }
>> *)
Definition loopRoot : Operation :=
  otherOp 3 "expr" [BlockArgument 2 0] ["i32"].

Definition loopOp : Operation :=
  mkOperation 2 (OtherOp "loop" None) [] [] 2
    [loopRoot; otherOp 4 "runtime" [OpResult 3 0] []].

Definition loopModule : Operation :=
  mkOperation 0 ModuleOp [] [] 0
    [mkOperation 1 (OtherOp "func" (Some "main")) [] [] 1 [loopOp]].

Definition loopState : PassState := initialState loopModule 5.

(** The initializer created for the escape of [%c], and the state after
    [cloneConstExprInto] has filled it. *)
Definition loopInitializer : Operation :=
  mkOperation 5 InitializerOp [] [] 3 [].

Definition loopStateCloned : PassState :=
  default loopState
    (cloneConstExprInto loopInitializer (OpResult 3 0)
       (createInitializer 3 loopState)).

(** The initializer in that state: the clone of [loop], then the clone of
    [expr], the store and the terminator. *)
Definition loopInitializerFilled : Operation :=
  mkOperation 5 InitializerOp [] [] 3
    [mkOperation 6 (OtherOp "loop" None) [] [] 2
       [mkOperation 7 (OtherOp "expr" None) [BlockArgument 6 0] ["i32"] 3 [];
        mkOperation 8 (OtherOp "runtime" None) [OpResult 7 0] [] 4 []];
     mkOperation 9 (OtherOp "expr" None) [BlockArgument 6 0] ["i32"] 3 [];
     mkOperation 11 (GlobalStoreOp "hoisted") [OpResult 9 0] [] 3 [];
     mkOperation 12 InitializerReturnOp [] [] 3 []].

(** The loop over the results of [split] in the call of
    [cloneConstExprInto] for the escape of [%p#0]: the clone of [split],
    the builder the loop starts from, and the builder after its first
    iteration. *)
Definition exampleSplit : Operation :=
  otherOp 3 "split" [OpResult 2 0] ["i32"; "i64"].

Definition exampleSplitClone
  : Operation * BlockAndValueMapping * OpId :=
  let b := cloneSlice (createInitializer 3 exampleState) exampleSplit in
  clone exampleSplit (cloneMap b) (initNext b).

Definition exampleGlobals0 : GlobalBuilder :=
  mkGlobalBuilder [] [] (hoistedMap (createInitializer 3 exampleState))
    (moduleSymbols (createInitializer 3 exampleState)) exampleSplitClone.2.

Definition exampleGlobals1 : GlobalBuilder :=
  default exampleGlobals0
    (hoistResult (opLoc exampleSplitClone.1.1) exampleSplitClone.1.2
       exampleGlobals0 (OpResult 3 0, "i32")).

(** * Operations as trees *)

Lemma Operation_ind (P : Operation → Prop) :
  (∀ id kind operands types loc body,
     Forall P body → P (mkOperation id kind operands types loc body)) →
  ∀ op, P op.
Proof.
  intros IH. fix REC 1. intros [id kind os ts loc body]. apply IH.
  induction body as [|c body IHb]; constructor; [apply REC | exact IHb].
Qed.

Lemma fmap_bind_comm {A B C} (f : B → C) (g : A → list B) (l : list A) :
  f <$> (l ≫= g) = l ≫= (λ x, f <$> g x).
Proof.
  induction l as [|x l IH]; csimpl; [done|]. by rewrite fmap_app, IH.
Qed.

Lemma bind_fmap_singleton {A B} (f : A → B) (l : list A) :
  l ≫= (λ x, [f x]) = f <$> l.
Proof. induction l; csimpl; by f_equal. Qed.

Lemma walkPreOrder_unfold op :
  walkPreOrder op = op :: (opBody op ≫= walkPreOrder).
Proof. by destruct op. Qed.

Lemma opIds_unfold op : opIds op = opId op :: (opBody op ≫= opIds).
Proof.
  unfold opIds at 1. rewrite walkPreOrder_unfold. csimpl.
  by rewrite fmap_bind_comm.
Qed.

Lemma walkData_unfold op :
  walkData op = opData op :: (opBody op ≫= walkData).
Proof.
  unfold walkData at 1. rewrite walkPreOrder_unfold. csimpl.
  by rewrite fmap_bind_comm.
Qed.

Lemma opIds_walkData op : opId <$> walkData op = opIds op.
Proof. unfold walkData, opIds. rewrite <-list_fmap_compose. done. Qed.

Lemma opData_leaf op : opBody op = [] → opData op = op.
Proof. destruct op; simpl; by intros ->. Qed.

Lemma walkPreOrder_leaf op : opBody op = [] → walkPreOrder op = [op].
Proof. intros Hb. by rewrite walkPreOrder_unfold, Hb. Qed.

Lemma elem_of_walk_self op : op ∈ walkPreOrder op.
Proof. rewrite walkPreOrder_unfold. left. Qed.

Lemma elem_of_walk_child op c o :
  c ∈ opBody op → o ∈ walkPreOrder c → o ∈ walkPreOrder op.
Proof.
  intros Hc Ho. rewrite walkPreOrder_unfold. right.
  apply list_elem_of_bind. eauto.
Qed.

Lemma elem_of_walk_trans op c o :
  c ∈ walkPreOrder op → o ∈ walkPreOrder c → o ∈ walkPreOrder op.
Proof.
  induction op as [id kind os ts loc body IH] using Operation_ind.
  rewrite (walkPreOrder_unfold (mkOperation _ _ _ _ _ _)). simpl.
  intros Hc Ho. apply elem_of_cons in Hc as [->|Hc].
  - by rewrite walkPreOrder_unfold in Ho.
  - right. apply list_elem_of_bind in Hc as (c' & Hc & Hc').
    apply list_elem_of_bind. exists c'. split; [|done].
    rewrite Forall_forall in IH. by apply IH.
Qed.

Lemma opIds_elem_of op id :
  id ∈ opIds op ↔ ∃ o, o ∈ walkPreOrder op ∧ opId o = id.
Proof.
  unfold opIds. rewrite list_elem_of_fmap. split; intros (o & ? & ?); eauto.
Qed.

(** ** Rewriting leaves a tree alone when the operation is not in it *)

Lemma setOperand_notin operand v op :
  getOwner operand ∉ opIds op → setOperand operand v op = op.
Proof.
  induction op as [id kind os ts loc body IH] using Operation_ind.
  rewrite opIds_unfold. simpl. intros Hn.
  apply not_elem_of_cons in Hn as [Hid Hn].
  rewrite decide_False by done. f_equal.
  induction IH as [|c body Hc _ IHb]; [done|]. csimpl in *.
  apply not_elem_of_app in Hn as [??]. f_equal; auto.
Qed.

Lemma insertBefore_notin target newOp op :
  target ∉ opBody op ≫= opIds → insertBefore target newOp op = op.
Proof.
  induction op as [id kind os ts loc body IH] using Operation_ind.
  simpl. intros Hn. f_equal.
  induction IH as [|c body Hc _ IHb]; [done|]. csimpl in *.
  apply not_elem_of_app in Hn as [Hn1 Hn2].
  rewrite opIds_unfold in Hn1. apply not_elem_of_cons in Hn1 as [??].
  rewrite decide_False by done. simpl. f_equal; auto.
Qed.

Lemma insertAtBlockEnd_notin owner newOps op :
  owner ∉ opIds op → insertAtBlockEnd owner newOps op = op.
Proof.
  induction op as [id kind os ts loc body IH] using Operation_ind.
  rewrite opIds_unfold. simpl. intros Hn.
  apply not_elem_of_cons in Hn as [Hid Hn].
  rewrite decide_False by done. rewrite (right_id_L [] (++)). f_equal.
  induction IH as [|c body Hc _ IHb]; [done|]. csimpl in *.
  apply not_elem_of_app in Hn as [??]. f_equal; auto.
Qed.

Lemma eraseOp_notin id op :
  id ∉ opBody op ≫= opIds → eraseOp id op = op.
Proof.
  induction op as [i kind os ts loc body IH] using Operation_ind.
  simpl. intros Hn. f_equal.
  induction IH as [|c body Hc _ IHb]; [done|]. csimpl in *.
  apply not_elem_of_app in Hn as [Hn1 Hn2].
  rewrite opIds_unfold in Hn1. apply not_elem_of_cons in Hn1 as [??].
  rewrite decide_False by done. simpl. f_equal; auto.
Qed.

(** ** The walk of a rewritten tree *)

Lemma opData_setOperand operand v op :
  opData (setOperand operand v op) = setOperand operand v (opData op).
Proof. by destruct op. Qed.

Lemma walkData_setOperand operand v op :
  walkData (setOperand operand v op) = setOperand operand v <$> walkData op.
Proof.
  induction op as [id kind os ts loc body IH] using Operation_ind.
  rewrite !walkData_unfold. simpl. f_equal.
  rewrite fmap_bind_comm.
  induction IH as [|c body Hc _ IHb]; [done|]. csimpl. by f_equal.
Qed.

Lemma opId_setOperand operand v op : opId (setOperand operand v op) = opId op.
Proof. by destruct op. Qed.

Lemma opIds_setOperand operand v op :
  opIds (setOperand operand v op) = opIds op.
Proof.
  rewrite <-!opIds_walkData, walkData_setOperand, <-list_fmap_compose.
  apply list_fmap_ext. intros ? o _. simpl. apply opId_setOperand.
Qed.

Lemma insertBeforeData_notin target newOps l :
  target ∉ opId <$> l → insertBeforeData target newOps l = l.
Proof.
  unfold insertBeforeData. induction l as [|d l IH]; csimpl; [done|].
  intros [??]%not_elem_of_cons. rewrite decide_False by done.
  simpl. f_equal. auto.
Qed.

Lemma insertBeforeData_app target newOps l1 l2 :
  insertBeforeData target newOps (l1 ++ l2)
  = insertBeforeData target newOps l1 ++ insertBeforeData target newOps l2.
Proof. apply bind_app. Qed.

Lemma walkData_insertBefore target newOp op :
  NoDup (opIds op) →
  opBody (insertBefore target newOp op) ≫= walkData
  = insertBeforeData target (walkData newOp) (opBody op ≫= walkData).
Proof.
  induction op as [id kind os ts loc body IH] using Operation_ind.
  rewrite opIds_unfold. simpl. intros [_ Hnd]%NoDup_cons.
  induction IH as [|c body Hc _ IHb]; [done|]. csimpl in *.
  apply NoDup_app in Hnd as (Hc1 & _ & Hb).
  rewrite bind_app, insertBeforeData_app, <-IHb by done. f_equal.
  rewrite (walkData_unfold c). unfold insertBeforeData at 1. csimpl.
  fold (insertBeforeData target (walkData newOp) (opBody c ≫= walkData)).
  replace (opId (opData c)) with (opId c) by by destruct c.
  destruct (decide (opId c = target)) as [<-|Hne]; simpl.
  - rewrite (right_id_L [] (++)), (walkData_unfold c), <-(assoc_L (++)).
    simpl. do 2 f_equal.
    rewrite insertBeforeData_notin; [done|].
    rewrite opIds_unfold in Hc1. apply NoDup_cons in Hc1 as [Hn _].
    rewrite fmap_bind_comm.
    replace (opBody c ≫= λ x, opId <$> walkData x) with (opBody c ≫= opIds);
      [done|].
    apply list_bind_ext; [|done]. intros. by rewrite opIds_walkData.
  - rewrite walkData_unfold. simpl.
    replace (opData (insertBefore target newOp c)) with (opData c)
      by by destruct c.
    rewrite (right_id_L [] (++)). f_equal. by rewrite Hc.
Qed.

(** ** Looking operations up *)

Lemma lookupOp_Some id m op :
  lookupOp id m = Some op → op ∈ walkPreOrder m ∧ opId op = id.
Proof.
  unfold lookupOp. intros Hh. apply head_Some_elem_of in Hh.
  apply list_elem_of_filter in Hh. by destruct Hh.
Qed.

Lemma lookupOp_elem_of id m op : lookupOp id m = Some op → id ∈ opIds m.
Proof.
  intros [??]%lookupOp_Some. apply opIds_elem_of. eauto.
Qed.

Lemma lookupOp_None id m : lookupOp id m = None ↔ id ∉ opIds m.
Proof.
  unfold lookupOp. rewrite head_None. split.
  - intros Hf (o & Ho & Hid)%opIds_elem_of.
    assert (o ∈ filter (λ o, opId o = id) (walkPreOrder m)) as Hin
      by by apply list_elem_of_filter.
    rewrite Hf in Hin. by apply elem_of_nil in Hin.
  - intros Hn. destruct (filter _ _) as [|o l] eqn:Hf; [done|].
    assert (o ∈ filter (λ o, opId o = id) (walkPreOrder m)) as Ho
      by (rewrite Hf; left).
    apply list_elem_of_filter in Ho as [??]. destruct Hn.
    apply opIds_elem_of. eauto.
Qed.

Lemma filter_id_NoDup {A} (f : A → nat) (l : list A) x
    `{!∀ y, Decision (f y = f x)} :
  NoDup (f <$> l) → x ∈ l → filter (λ y, f y = f x) l = [x].
Proof.
  induction l as [|y l IH]; csimpl; [by intros _ ?%elem_of_nil|].
  intros [Hn Hnd]%NoDup_cons [Heq|Hx]%elem_of_cons.
  - subst y. rewrite filter_cons_True by done. f_equal.
    destruct (filter _ l) as [|z l'] eqn:Hf; [done|].
    assert (z ∈ filter (λ y, f y = f x) l) as Hz by (rewrite Hf; left).
    apply list_elem_of_filter in Hz as [Hz1 Hz2]. destruct Hn.
    rewrite <-Hz1. by apply list_elem_of_fmap_2.
  - rewrite filter_cons_False; [by apply IH|].
    intros Heq. destruct Hn. rewrite Heq. by apply list_elem_of_fmap_2.
Qed.

Lemma lookupOp_unique m op :
  NoDup (opIds m) → op ∈ walkPreOrder m → lookupOp (opId op) m = Some op.
Proof.
  intros Hnd Hin. unfold lookupOp.
  by rewrite (filter_id_NoDup opId _ op Hnd Hin).
Qed.

(** Looking an operation up among the operations of a walk. *)
Lemma filter_opData id (l : list Operation) :
  filter (λ o, opId o = id) (opData <$> l)
  = opData <$> filter (λ o, opId o = id) l.
Proof.
  induction l as [|o l IH]; csimpl; [done|].
  rewrite !filter_cons. replace (opId (opData o)) with (opId o)
    by by destruct o.
  destruct (decide (opId o = id)); csimpl; by rewrite IH.
Qed.

Lemma lookupOp_data id m :
  opData <$> lookupOp id m = head (filter (λ o, opId o = id) (walkData m)).
Proof.
  unfold lookupOp, walkData. rewrite filter_opData.
  by destruct (filter _ (walkPreOrder m)).
Qed.

Lemma getOperand_data operand m :
  getOperand operand m
  = d ← head (filter (λ o, opId o = getOwner operand) (walkData m));
    opOperands d !! getOperandNumber operand.
Proof.
  rewrite <-lookupOp_data. unfold getOperand.
  destruct (lookupOp _ m) as [o|]; [|done]. by destruct o.
Qed.

(** ** Sub-trees *)

Lemma opIds_sublist m op :
  op ∈ walkPreOrder m → opIds op `sublist_of` opIds m.
Proof.
  induction m as [id kind os ts loc body IH] using Operation_ind.
  rewrite walkPreOrder_unfold. simpl.
  intros [->|Hin]%elem_of_cons; [done|].
  rewrite (opIds_unfold (mkOperation _ _ _ _ _ _)). simpl.
  apply sublist_cons.
  apply list_elem_of_bind in Hin as (c & Hop & Hc).
  apply list_elem_of_split in Hc as (l1 & l2 & ->).
  rewrite Forall_app, Forall_cons in IH. destruct IH as (_ & IHc & _).
  rewrite bind_app, bind_cons.
  apply sublist_inserts_l, sublist_inserts_r. auto.
Qed.

Lemma NoDup_opIds_sub m op :
  NoDup (opIds m) → op ∈ walkPreOrder m → NoDup (opIds op).
Proof.
  intros Hnd Hin. eapply sublist_NoDup; [done | by apply opIds_sublist].
Qed.

Lemma opId_notin_body m :
  NoDup (opIds m) → opId m ∉ opBody m ≫= opIds.
Proof. rewrite opIds_unfold. by intros [??]%NoDup_cons. Qed.

(** ** Insertions in the body of the module *)

Lemma opIds_insertAtModuleBegin newOps m :
  opIds (insertAtModuleBegin newOps m)
  = opId m :: (newOps ≫= opIds) ++ (opBody m ≫= opIds).
Proof. rewrite opIds_unfold. simpl. by rewrite bind_app. Qed.

Lemma opIds_insertAtModuleEnd newOps m :
  opIds (insertAtModuleEnd newOps m) = opIds m ++ (newOps ≫= opIds).
Proof. rewrite !opIds_unfold. simpl. by rewrite bind_app. Qed.

Lemma walkData_insertAtModuleBegin newOps m :
  walkData (insertAtModuleBegin newOps m)
  = opData m :: (newOps ≫= walkData) ++ (opBody m ≫= walkData).
Proof. rewrite walkData_unfold. simpl. by rewrite bind_app. Qed.

Lemma walkData_insertAtModuleEnd newOps m :
  walkData (insertAtModuleEnd newOps m) = walkData m ++ (newOps ≫= walkData).
Proof. rewrite !walkData_unfold. simpl. by rewrite bind_app. Qed.

Lemma walkPreOrder_insertAtModuleBegin newOps m :
  walkPreOrder (insertAtModuleBegin newOps m)
  = insertAtModuleBegin newOps m
    :: (newOps ≫= walkPreOrder) ++ (opBody m ≫= walkPreOrder).
Proof. rewrite walkPreOrder_unfold. simpl. by rewrite bind_app. Qed.

Lemma walkPreOrder_insertAtModuleEnd newOps m :
  walkPreOrder (insertAtModuleEnd newOps m)
  = insertAtModuleEnd newOps m
    :: (opBody m ≫= walkPreOrder) ++ (newOps ≫= walkPreOrder).
Proof. rewrite walkPreOrder_unfold. simpl. by rewrite bind_app. Qed.

(** Filling an initializer that was just appended to the module. *)
Lemma insertAtBlockEnd_appended id kind os ts loc newOps m :
  id ∉ opIds m →
  insertAtBlockEnd id newOps
    (insertAtModuleEnd [mkOperation id kind os ts loc []] m)
  = insertAtModuleEnd [mkOperation id kind os ts loc newOps] m.
Proof.
  intros Hn. destruct m as [i k o t l body].
  rewrite opIds_unfold in Hn. simpl in Hn.
  apply not_elem_of_cons in Hn as [Hid Hn].
  unfold insertAtModuleEnd. simpl. rewrite decide_False by done.
  rewrite (right_id_L [] (++)), map_app. simpl.
  rewrite decide_True by done. do 2 f_equal.
  clear Hid. induction body as [|c body IH]; [done|]. csimpl in *.
  apply not_elem_of_app in Hn as [??].
  f_equal; [by apply insertAtBlockEnd_notin | auto].
Qed.

(** Rewriting a use commutes with the insertions in the body of the
    module when these are fresh. *)
Lemma bind_insertBefore_notin target newOp (ops : list Operation) :
  target ∉ ops ≫= opIds →
  (ops ≫= λ c, if decide (opId c = target) then [newOp; c]
               else [insertBefore target newOp c]) = ops.
Proof.
  induction ops as [|c ops IH]; csimpl; [done|].
  intros [Hc ?]%not_elem_of_app. rewrite opIds_unfold in Hc.
  apply not_elem_of_cons in Hc as [??].
  rewrite decide_False by done. simpl. f_equal; [|auto].
  by apply insertBefore_notin.
Qed.

Lemma map_setOperand_notin operand v (ops : list Operation) :
  getOwner operand ∉ ops ≫= opIds → map (setOperand operand v) ops = ops.
Proof.
  induction ops as [|c ops IH]; csimpl; [done|].
  intros [??]%not_elem_of_app. f_equal; [|auto].
  by apply setOperand_notin.
Qed.

Lemma rewriteUse_insertions operand load gs inits m :
  getOwner operand ≠ opId m →
  getOwner operand ∉ gs ≫= opIds →
  getOwner operand ∉ inits ≫= opIds →
  rewriteUse operand load (insertAtModuleBegin gs (insertAtModuleEnd inits m))
  = insertAtModuleBegin gs (insertAtModuleEnd inits (rewriteUse operand load m)).
Proof.
  intros Hm Hg Hi. destruct m as [i k o t l body].
  unfold rewriteUse, insertAtModuleBegin, insertAtBlockBegin,
    insertAtModuleEnd. simpl in *.
  rewrite !bind_app, !map_app.
  rewrite (bind_insertBefore_notin _ _ gs), (bind_insertBefore_notin _ _ inits)
    by done.
  by rewrite (map_setOperand_notin _ _ gs), (map_setOperand_notin _ _ inits).
Qed.

(** ** The fields of a rewritten operation *)

Lemma opOperands_setOperand operand v op :
  opOperands (setOperand operand v op)
  = if decide (opId op = getOwner operand)
    then <[getOperandNumber operand := v]> (opOperands op)
    else opOperands op.
Proof. by destruct op. Qed.

Lemma opResultTypes_setOperand operand v op :
  opResultTypes (setOperand operand v op) = opResultTypes op.
Proof. by destruct op. Qed.

Lemma opKind_setOperand operand v op :
  opKind (setOperand operand v op) = opKind op.
Proof. by destruct op. Qed.

Lemma opData_insertBefore target newOp op :
  opData (insertBefore target newOp op) = opData op.
Proof. by destruct op. Qed.

Lemma opData_rewriteUse_root operand load m :
  getOwner operand ≠ opId m → opData (rewriteUse operand load m) = opData m.
Proof.
  intros Hne. unfold rewriteUse. destruct m. simpl in *.
  unfold opData. simpl. by rewrite decide_False by congruence.
Qed.

(** * Cloning *)

Lemma clone_unfold op mapper next :
  clone op mapper next =
  let '(body, mapper', next') :=
    cloneBlock (opBody op) (mapResults op next mapper) (S next) in
  (mkOperation next (opKind op) (lookupOrDefault mapper <$> opOperands op)
     (opResultTypes op) (opLoc op) body, mapper', next').
Proof. by destruct op. Qed.

Lemma cloneBlock_cons c ops mapper next :
  cloneBlock (c :: ops) mapper next =
  let '(c', mapper1, next1) := clone c mapper next in
  let '(ops', mapper2, next2) := cloneBlock ops mapper1 next1 in
  (c' :: ops', mapper2, next2).
Proof. done. Qed.

Lemma mapResults_lookup_go a b (vm : gmap Value Value) s n v :
  foldl (λ vm i, <[OpResult a i := OpResult b i]> vm) vm (seq s n) !! v
  = match v with
    | OpResult o i =>
        if decide (o = a ∧ s ≤ i < s + n) then Some (OpResult b i)
        else vm !! v
    | _ => vm !! v
    end.
Proof.
  revert s vm. induction n as [|n IH]; intros s vm; simpl.
  - destruct v as [o i|]; [|done]. rewrite decide_False; [done|lia].
  - rewrite IH. destruct v as [o i|]; [|by rewrite lookup_insert_ne].
    destruct (decide (o = a ∧ S s ≤ i < S s + n)) as [[-> ?]|Hn].
    + rewrite decide_True; [done|]. split; [done|lia].
    + destruct (decide (o = a ∧ i = s)) as [[-> ->]|Hne].
      * rewrite lookup_insert_eq, decide_True; [done|]. split; [done|lia].
      * rewrite lookup_insert_ne by (intros [= -> ->]; by destruct Hne).
        rewrite decide_False; [done|]. intros [-> ?]. destruct Hn.
        split; [done|]. destruct (decide (i = s)) as [->|]; [|lia].
        by destruct Hne.
Qed.

Lemma mapResults_lookup from to mapper v :
  valueMap (mapResults from to mapper) !! v
  = match v with
    | OpResult o i =>
        if decide (o = opId from ∧ i < length (opResultTypes from))
        then Some (OpResult to i)
        else valueMap mapper !! v
    | _ => valueMap mapper !! v
    end.
Proof.
  unfold mapResults. simpl. rewrite mapResults_lookup_go.
  destruct v as [o i|]; [|done].
  destruct (decide (o = opId from ∧ 0 ≤ i < 0 + _)) as [[-> ?]|Hn].
  - rewrite decide_True; [done|]. split; [done|lia].
  - rewrite decide_False; [done|]. intros [-> ?]. destruct Hn.
    split; [done|lia].
Qed.


Lemma cloneOk_nil mapper next : cloneOk [] [] mapper mapper next next.
Proof. split; csimpl; auto. Qed.

Lemma cloneOk_cons c c' ops ops' mapper mapper1 mapper2 next next1 next2 :
  cloneOk [c] [c'] mapper mapper1 next next1 →
  cloneOk ops ops' mapper1 mapper2 next1 next2 →
  cloneOk (c :: ops) (c' :: ops') mapper mapper2 next next2.
Proof.
  intros [Hi1 Hn1 Hk1 Ht1 Hm1 Hf1] [Hi2 Hn2 Hk2 Ht2 Hm2 Hf2].
  rewrite !bind_singleton in *.
  split; csimpl; rewrite ?length_app, ?fmap_app.
  - rewrite Hi1, Hi2, Hn1. by rewrite seq_app.
  - lia.
  - by rewrite Hk1, Hk2.
  - by rewrite Ht1, Ht2.
  - auto.
  - intros v Hv. rewrite Hf2, Hf1; [done|..]; intros o i Ho; apply Hv;
      apply elem_of_app; auto.
Qed.

Lemma clone_ok op mapper next :
  cloneOk [op] [(clone op mapper next).1.1] mapper
    (clone op mapper next).1.2 next (clone op mapper next).2.
Proof.
  revert mapper next.
  induction op as [id kind os ts loc body IH] using Operation_ind.
  intros mapper next. rewrite clone_unfold. simpl.
  set (src := mkOperation id kind os ts loc body).
  assert (∀ mapper next,
    cloneOk body (cloneBlock body mapper next).1.1 mapper
      (cloneBlock body mapper next).1.2 next (cloneBlock body mapper next).2)
    as Hbody.
  { clear mapper next. induction IH as [|c ops Hc _ IHops];
      intros mapper next; [apply cloneOk_nil|].
    rewrite cloneBlock_cons. specialize (Hc mapper next).
    destruct (clone c mapper next) as [[c' mapper1] next1]. simpl in Hc.
    specialize (IHops mapper1 next1).
    destruct (cloneBlock ops mapper1 next1) as [[ops' mapper2] next2].
    simpl in *. by eapply cloneOk_cons. }
  specialize (Hbody (mapResults src next mapper) (S next)).
  destruct (cloneBlock body _ _) as [[body' mapper'] next']. simpl in *.
  destruct Hbody as [Hi Hn Hk Ht Hm Hf].
  split; rewrite ?bind_singleton.
  - rewrite opIds_unfold, walkPreOrder_unfold. simpl. by rewrite Hi.
  - rewrite walkPreOrder_unfold. simpl. lia.
  - rewrite !walkPreOrder_unfold. csimpl. by rewrite Hk.
  - rewrite !walkPreOrder_unfold. csimpl. by rewrite Ht.
  - intros v Hv. apply Hm. rewrite mapResults_lookup.
    destruct v as [o i|]; [|done]. by case_decide.
  - intros v Hv. rewrite Hf.
    + rewrite mapResults_lookup. destruct v as [o i|]; [|done].
      rewrite decide_False; [done|]. intros [-> _].
      by eapply (Hv src i); [rewrite walkPreOrder_unfold; left|].
    + intros o i Ho. apply Hv. rewrite walkPreOrder_unfold. by right.
Qed.

Lemma clone_opId op mapper next : opId (clone op mapper next).1.1 = next.
Proof.
  rewrite clone_unfold. by destruct (cloneBlock _ _ _) as [[??]?].
Qed.

Lemma clone_opData op mapper next :
  opData (clone op mapper next).1.1
  = mkOperation next (opKind op) (lookupOrDefault mapper <$> opOperands op)
      (opResultTypes op) (opLoc op) [].
Proof.
  rewrite clone_unfold. by destruct (cloneBlock _ _ _) as [[??]?].
Qed.

Lemma clone_opIds op mapper next :
  opIds (clone op mapper next).1.1 = seq next (length (walkPreOrder op)).
Proof.
  pose proof (clone_ids _ _ _ _ _ _ (clone_ok op mapper next)) as Hi.
  by rewrite !bind_singleton in Hi.
Qed.

Lemma clone_nextId op mapper next :
  (clone op mapper next).2 = next + length (walkPreOrder op).
Proof.
  pose proof (clone_next _ _ _ _ _ _ (clone_ok op mapper next)) as Hi.
  by rewrite !bind_singleton in Hi.
Qed.

Lemma clone_walk_kinds op mapper next :
  opKind <$> walkPreOrder (clone op mapper next).1.1
  = opKind <$> walkPreOrder op.
Proof.
  pose proof (clone_kinds _ _ _ _ _ _ (clone_ok op mapper next)) as Hi.
  by rewrite !bind_singleton in Hi.
Qed.

(** The results of the source are mapped to the results of the clone. *)
Lemma clone_maps_result op mapper next i :
  opId op ∉ opBody op ≫= opIds →
  i < length (opResultTypes op) →
  valueMap (clone op mapper next).1.2 !! OpResult (opId op) i
  = Some (OpResult next i).
Proof.
  intros Hn Hi. rewrite clone_unfold.
  pose proof (clone_ok op mapper next) as Hok. rewrite clone_unfold in Hok.
  assert (∀ mapper next,
    cloneOk (opBody op) (cloneBlock (opBody op) mapper next).1.1 mapper
      (cloneBlock (opBody op) mapper next).1.2 next
      (cloneBlock (opBody op) mapper next).2) as Hbody.
  { clear. induction (opBody op) as [|c ops IHops]; intros mapper next;
      [apply cloneOk_nil|].
    rewrite cloneBlock_cons. pose proof (clone_ok c mapper next) as Hc.
    destruct (clone c mapper next) as [[c' mapper1] next1]. simpl in Hc.
    specialize (IHops mapper1 next1).
    destruct (cloneBlock ops mapper1 next1) as [[ops' mapper2] next2].
    simpl in *. by eapply cloneOk_cons. }
  specialize (Hbody (mapResults op next mapper) (S next)).
  destruct (cloneBlock _ _ _) as [[body' mapper'] next']. simpl in *.
  rewrite (clone_frame _ _ _ _ _ _ Hbody).
  - rewrite mapResults_lookup, decide_True; done.
  - intros o j Ho [= Heq _]. destruct Hn.
    apply list_elem_of_bind in Ho as (c & Ho & Hc).
    apply list_elem_of_bind. exists c. split; [|done].
    apply opIds_elem_of. eauto.
Qed.

Lemma clone_maps_result_is_Some op mapper next i :
  i < length (opResultTypes op) →
  is_Some (valueMap (clone op mapper next).1.2 !! OpResult (opId op) i).
Proof.
  intros Hi. rewrite clone_unfold.
  assert (∀ mapper next,
    cloneOk (opBody op) (cloneBlock (opBody op) mapper next).1.1 mapper
      (cloneBlock (opBody op) mapper next).1.2 next
      (cloneBlock (opBody op) mapper next).2) as Hbody.
  { clear. induction (opBody op) as [|c ops IHops]; intros mapper next;
      [apply cloneOk_nil|].
    rewrite cloneBlock_cons. pose proof (clone_ok c mapper next) as Hc.
    destruct (clone c mapper next) as [[c' mapper1] next1]. simpl in Hc.
    specialize (IHops mapper1 next1).
    destruct (cloneBlock ops mapper1 next1) as [[ops' mapper2] next2].
    simpl in *. by eapply cloneOk_cons. }
  specialize (Hbody (mapResults op next mapper) (S next)).
  destruct (cloneBlock _ _ _) as [[body' mapper'] next']. simpl in *.
  apply (clone_mapped _ _ _ _ _ _ Hbody).
  rewrite mapResults_lookup, decide_True; done.
Qed.

(** ** The block arguments a clone reads *)

Lemma mapperOwned_mono (P Q : OpId → Prop) mapper :
  (∀ o, P o → Q o) → mapperOwned P mapper → mapperOwned Q mapper.
Proof. intros HPQ [Hv Hb]. split; [done|]. intros o o' Ho. eauto. Qed.

Lemma lookupOrDefault_owner P mapper v o n :
  mapperOwned P mapper →
  lookupOrDefault mapper v = BlockArgument o n →
  v = BlockArgument o n ∨ P o.
Proof.
  intros [Hv Hb]. unfold lookupOrDefault.
  destruct (valueMap mapper !! v) as [v'|] eqn:Hl.
  { destruct (Hv _ _ Hl) as (? & ? & ->). done. }
  destruct v as [|o0 n0]; [done|].
  destruct (blockMap mapper !! o0) as [o'|] eqn:Hbl.
  - intros [= <- <-]. right. eauto.
  - intros [= <- <-]. by left.
Qed.

Lemma mapResults_owned P from to mapper :
  mapperOwned P mapper →
  mapperOwned (λ o, P o ∨ o = to) (mapResults from to mapper).
Proof.
  intros [Hv Hb]. split.
  - intros v v'. rewrite mapResults_lookup.
    destruct v as [o i|]; [|eauto].
    case_decide; [intros [= <-]|]; eauto.
  - intros o o'. unfold mapResults. simpl.
    destruct (decide (o = opId from)) as [->|Hne].
    + rewrite lookup_insert_eq. intros [= <-]. by right.
    + rewrite lookup_insert_ne by done. intros Ho. left. eauto.
Qed.

Lemma ownersOk_nil mapper : ownersOk [] [] mapper mapper.
Proof.
  intros P HP. split.
  - eapply mapperOwned_mono; [|done]. auto.
  - intros u' o n Hu'. csimpl in Hu'. by apply elem_of_nil in Hu'.
Qed.

Lemma ownersOk_cons c c' ops ops' mapper mapper1 mapper2 :
  ownersOk [c] [c'] mapper mapper1 →
  ownersOk ops ops' mapper1 mapper2 →
  ownersOk (c :: ops) (c' :: ops') mapper mapper2.
Proof.
  intros H1 H2 P HP.
  destruct (H1 P HP) as [HP1 Ho1].
  destruct (H2 _ HP1) as [HP2 Ho2].
  split.
  - eapply mapperOwned_mono; [|exact HP2]. simpl.
    intros o [[?|Hc']|?]; csimpl; rewrite ?elem_of_app; auto.
    rewrite (right_id_L [] (++)) in Hc'. auto.
  - intros u' o n Hu' Hop. csimpl in Hu'. csimpl.
    rewrite !elem_of_app.
    apply elem_of_app in Hu' as [Hu'|Hu'].
    + destruct (Ho1 u' o n) as [(u & Hu & ?)|[?|Hc']];
        [by rewrite bind_singleton|done|..].
      * left. exists u. rewrite elem_of_app.
        rewrite bind_singleton in Hu. auto.
      * auto.
      * rewrite bind_singleton in Hc'. auto.
    + destruct (Ho2 u' o n Hu' Hop) as [(u & Hu & ?)|[[?|Hc']|?]];
        [|auto..].
      * left. exists u. rewrite elem_of_app. auto.
      * rewrite bind_singleton in Hc'. auto.
Qed.

Lemma clone_owners op mapper next :
  ownersOk [op] [(clone op mapper next).1.1] mapper
    (clone op mapper next).1.2.
Proof.
  revert mapper next.
  induction op as [id kind os ts loc body IH] using Operation_ind.
  intros mapper next. rewrite clone_unfold. simpl.
  set (src := mkOperation id kind os ts loc body).
  assert (∀ mapper next,
    ownersOk body (cloneBlock body mapper next).1.1 mapper
      (cloneBlock body mapper next).1.2) as Hbody.
  { clear mapper next. induction IH as [|c ops Hc _ IHops];
      intros mapper next; [apply ownersOk_nil|].
    rewrite cloneBlock_cons. specialize (Hc mapper next).
    destruct (clone c mapper next) as [[c' mapper1] next1]. simpl in Hc.
    specialize (IHops mapper1 next1).
    destruct (cloneBlock ops mapper1 next1) as [[ops' mapper2] next2].
    simpl in *. by eapply ownersOk_cons. }
  specialize (Hbody (mapResults src next mapper) (S next)).
  destruct (cloneBlock body _ _) as [[body' mapper'] next']. simpl in *.
  intros P HP.
  destruct (Hbody _ (mapResults_owned P src next mapper HP)) as [HP' Ho'].
  rewrite !bind_singleton. split.
  - eapply mapperOwned_mono; [|exact HP']. simpl.
    intros o Ho. rewrite opIds_unfold. simpl. rewrite elem_of_cons.
    tauto.
  - intros u' o n Hu' Hop. rewrite opIds_unfold. simpl.
    rewrite elem_of_cons.
    rewrite walkPreOrder_unfold in Hu'. simpl in Hu'.
    apply elem_of_cons in Hu' as [->|Hu'].
    + simpl in Hop. apply list_elem_of_fmap in Hop as (x & Hx & Hin).
      symmetry in Hx.
      destruct (lookupOrDefault_owner P mapper x o n HP Hx) as [->|?];
        [|auto].
      left. exists src. split; [apply elem_of_walk_self|done].
    + destruct (Ho' u' o n Hu' Hop) as [(u & Hu & ?)|[[?|?]|?]]; [|auto..].
      left. exists u. split; [|done]. apply elem_of_cons. by right.
Qed.

(** * Symbol uniquing *)

Lemma suffixed_inj name : Inj (=) (=) (suffixed name).
Proof.
  intros c1 c2 Heq. unfold suffixed in Heq.
  apply (inj (String.app name)) in Heq.
  apply (inj (String.app "_")) in Heq.
  by apply (inj pretty) in Heq.
Qed.

Lemma uniqueSuffix_fresh tries names name counter (X : gset Symbol) :
  (∀ n, (counter ≤ n)%N → suffixed name n ∈ names → suffixed name n ∈ X) →
  size X ≤ tries →
  (uniqueSuffix tries names name counter).1 ∉ names.
Proof.
  revert counter X. induction tries as [|tries IH]; intros counter X HX Hsz.
  - simpl. intros Hin. apply HX in Hin; [|lia].
    assert (size X = 0) as Hz by lia.
    apply size_empty_iff in Hz. set_solver.
  - simpl. case_decide as Hc; [|done].
    apply (IH _ (X ∖ {[suffixed name counter]})).
    + intros n Hn Hin. apply elem_of_difference. split.
      * apply HX; [lia|done].
      * intros ->%elem_of_singleton%suffixed_inj. lia.
    + assert (suffixed name counter ∈ X) as HcX by (apply HX; [lia|done]).
      assert (size (X ∖ {[suffixed name counter]}) = size X - 1) as ->; [|lia].
      rewrite size_difference by set_solver. by rewrite size_singleton.
Qed.

Lemma SymbolTable_insert_fresh name table symbol table' :
  SymbolTable_insert name table = (symbol, table') →
  (symbol ∉ symbolNames table)
  ∧ symbolNames table' = {[symbol]} ∪ symbolNames table.
Proof.
  unfold SymbolTable_insert. case_decide as Hn.
  - destruct (uniqueSuffix _ _ _ _) as [name' counter'] eqn:Hu.
    intros [= <- <-]. split; [|done].
    assert (name' = (uniqueSuffix (size (symbolNames table))
      (symbolNames table) name (uniquingCounter table)).1) as ->
      by (by rewrite Hu).
    by apply (uniqueSuffix_fresh _ _ _ _ (symbolNames table)).
  - by intros [= <- <-].
Qed.

(** * The loops of [cloneConstExprInto] *)

Lemma getResults_lookup op i :
  getResults op !! i
  = if decide (i < length (opResultTypes op)) then Some (OpResult (opId op) i)
    else None.
Proof.
  unfold getResults. rewrite list_lookup_imap.
  case_decide as Hi.
  - apply lookup_lt_is_Some in Hi as [ty ->]. done.
  - rewrite lookup_ge_None_2; [done|lia].
Qed.

Lemma getResults_length op :
  length (getResults op) = length (opResultTypes op).
Proof. unfold getResults. by rewrite length_imap. Qed.

Lemma elem_of_getResults op v :
  v ∈ getResults op
  ↔ ∃ i, i < length (opResultTypes op) ∧ v = OpResult (opId op) i.
Proof.
  rewrite list_elem_of_lookup. split.
  - intros [i Hi]. rewrite getResults_lookup in Hi.
    case_decide; [|done]. injection Hi as <-. eauto.
  - intros (i & Hi & ->). exists i.
    by rewrite getResults_lookup, decide_True.
Qed.

Lemma NoDup_getResults op : NoDup (getResults op).
Proof.
  apply NoDup_alt. intros i j v Hi Hj. rewrite getResults_lookup in Hi, Hj.
  repeat case_decide; simplify_eq. done.
Qed.

Lemma getResultsWithTypes_lookup op i :
  getResultsWithTypes op !! i
  = (λ type, (OpResult (opId op) i, type)) <$> opResultTypes op !! i.
Proof. unfold getResultsWithTypes. by rewrite list_lookup_imap. Qed.

Lemma getResultsWithTypes_fst op :
  (getResultsWithTypes op).*1 = getResults op.
Proof.
  apply list_eq. intros i.
  rewrite list_lookup_fmap, getResultsWithTypes_lookup, getResults_lookup.
  case_decide as Hi.
  - apply lookup_lt_is_Some in Hi as [ty ->]. done.
  - rewrite lookup_ge_None_2; [done|lia].
Qed.

Lemma getResultsWithTypes_length op :
  length (getResultsWithTypes op) = length (opResultTypes op).
Proof. unfold getResultsWithTypes. by rewrite length_imap. Qed.

(** ** Loading the results that have a global *)

Lemma loadHoistedResults_spec hoisted results needsClone b :
  ∃ loads,
    initOps (loadHoistedResults hoisted results needsClone b).2
    = initOps b ++ loads
    ∧ initNext (loadHoistedResults hoisted results needsClone b).2
      = initNext b + length loads
    ∧ opId <$> loads = seq (initNext b) (length loads)
    ∧ Forall (λ l, ∃ v g, hoisted !! v = Some g
                          ∧ l = createGlobalLoad (opId l) (opLoc g) g) loads
    ∧ length loads ≤ length results.
Proof.
  revert needsClone b.
  induction results as [|r results IH]; intros needsClone b; simpl.
  - exists []. rewrite (right_id_L [] (++)). split_and!; auto.
  - destruct (hoisted !! r) as [g|] eqn:Hr.
    + destruct (IH false (mkInitBuilder
        (initOps b ++ [createGlobalLoad (initNext b) (opLoc g) g])
        (mapValue r (OpResult (initNext b) 0) (cloneMap b))
        (S (initNext b)))) as (loads & H1 & H2 & H3 & H4 & H5).
      simpl in *.
      exists (createGlobalLoad (initNext b) (opLoc g) g :: loads).
      rewrite H1, H2, <-(assoc_L (++)). csimpl. rewrite H3.
      split_and!; auto; try lia.
      constructor; [|done]. exists r, g. done.
    + exists []. rewrite (right_id_L [] (++)). simpl.
      split_and!; auto; lia.
Qed.

(** All results have a global: a load for each, and nothing to clone. *)
Lemma loadHoistedResults_all hoisted results needsClone b :
  results ≠ [] →
  NoDup results →
  Forall (λ v, is_Some (hoisted !! v)) results →
  ∃ b',
    loadHoistedResults hoisted results needsClone b = (false, b')
    ∧ initNext b' = initNext b + length results
    ∧ blockMap (cloneMap b') = blockMap (cloneMap b)
    ∧ (∀ v, v ∉ results →
         valueMap (cloneMap b') !! v = valueMap (cloneMap b) !! v)
    ∧ ∃ loads,
        initOps b' = initOps b ++ loads
        ∧ length loads = length results
        ∧ ∀ i v, results !! i = Some v →
            ∃ g, hoisted !! v = Some g
              ∧ loads !! i
                = Some (createGlobalLoad (initNext b + i) (opLoc g) g)
              ∧ valueMap (cloneMap b') !! v
                = Some (OpResult (initNext b + i) 0).
Proof.
  revert needsClone b.
  induction results as [|r results IH]; intros needsClone b Hne Hnd Hall;
    [done|].
  apply NoDup_cons in Hnd as [Hr Hnd].
  apply Forall_cons in Hall as [[g Hg] Hall].
  simpl. rewrite Hg.
  set (b1 := mkInitBuilder _ _ _).
  destruct results as [|r' results'].
  - simpl. exists b1. split_and!; auto; simpl; try lia.
    + intros v Hv. apply lookup_insert_ne. intros ->. apply Hv. left.
    + exists [createGlobalLoad (initNext b) (opLoc g) g].
      split_and!; auto.
      intros [|i] v Hv; simplify_eq/=. exists g.
      rewrite Nat.add_0_r, lookup_insert_eq. done.
  - destruct (IH false b1) as (b' & Hb' & Hn & Hbm & Hfr & loads & Hl1 & Hl2
      & Hl3); [done..|].
    exists b'. split_and!; auto.
    + rewrite Hn. simpl. lia.
    + intros v Hv. rewrite Hfr.
      * apply lookup_insert_ne. intros ->. apply Hv. left.
      * intros ?. apply Hv. by right.
    + exists (createGlobalLoad (initNext b) (opLoc g) g :: loads).
      split_and!.
      * rewrite Hl1. simpl. by rewrite <-(assoc_L (++)).
      * simpl. by rewrite Hl2.
      * intros [|i] v Hv.
        -- injection Hv as <-. exists g. rewrite Nat.add_0_r.
           split_and!; auto. rewrite Hfr by done. simpl.
           by rewrite lookup_insert_eq.
        -- destruct (Hl3 i v Hv) as (g' & ? & ? & ?). exists g'.
           replace (initNext b + S i) with (initNext b1 + i)
             by (simpl; lia). done.
Qed.

(** The first result has no global: nothing is loaded. *)
Lemma loadHoistedResults_none hoisted r results needsClone b :
  hoisted !! r = None →
  loadHoistedResults hoisted (r :: results) needsClone b = (needsClone, b).
Proof. intros Hr. simpl. by rewrite Hr. Qed.

(** ** Creating the globals of the results of the root *)

Lemma forEach_nil {S A} (body : S → A → option S) s :
  forEach body s [] = Some s.
Proof. done. Qed.

Lemma forEach_cons {S A} (body : S → A → option S) s a l :
  forEach body s (a :: l) = s' ← body s a; forEach body s' l.
Proof. done. Qed.

Lemma forEach_app {S A} (body : S → A → option S) s l1 l2 :
  forEach body s (l1 ++ l2) = s' ← forEach body s l1; forEach body s' l2.
Proof.
  revert s. induction l1 as [|a l1 IH]; intros s; simpl; [done|].
  destruct (body s a); simpl; auto.
Qed.

Lemma hoistResults_spec loc mapper results g0 g :
  forEach (hoistResult loc mapper) g0 results = Some g →
  ∃ gs sts,
    newGlobals g = newGlobals g0 ++ gs
    ∧ newStores g = newStores g0 ++ sts
    ∧ length gs = length results
    ∧ length sts = length results
    ∧ gbNext g = gbNext g0 + 2 * length results
    ∧ (∀ i r type, results !! i = Some (r, type) →
         ∃ symbol clonedResult,
           gs !! i = Some (hoistedGlobal (gbNext g0 + 2 * i) symbol type loc)
           ∧ sts !! i = Some (hoistedStore (S (gbNext g0 + 2 * i)) symbol
                                clonedResult loc)
           ∧ valueMap mapper !! r = Some clonedResult
           ∧ symbol ∉ symbolNames (gbSymbols g0))
    ∧ NoDup (globalSymbol <$> gs)
    ∧ symbolNames (gbSymbols g)
      = list_to_set (globalSymbol <$> gs) ∪ symbolNames (gbSymbols g0)
    ∧ gbHoisted g
      = foldl (λ hm p, <[p.1 := p.2]> hm) (gbHoisted g0) (zip (results.*1) gs)
    ∧ (gs ≫= opIds) ++ (sts ≫= opIds)
      ≡ₚ seq (gbNext g0) (2 * length results).
Proof.
  revert g0. induction results as [|[r type] results IH]; intros g0.
  - intros [= <-]. exists [], []. rewrite !(right_id_L [] (++)). simpl.
    split_and!; auto; try lia; try constructor; try done.
    set_solver.
  - rewrite forEach_cons.
    destruct (hoistResult loc mapper g0 (r, type)) as [g1|] eqn:Hg1; [|done].
    unfold hoistResult in Hg1.
    destruct (valueMap mapper !! r) as [cr|] eqn:Hcr; [|done]. simpl in Hg1.
    destruct (SymbolTable_insert "hoisted" (gbSymbols g0))
      as [symbol symbols] eqn:Hins.
    apply SymbolTable_insert_fresh in Hins as [Hfresh Hsyms].
    injection Hg1 as <-. simpl.
    intros Hrest. apply IH in Hrest as (gs & sts & Hg & Hs & Hlg & Hls & Hn
      & Hi & Hnd & Hsy & Hh & Hids).
    cbn [newGlobals newStores gbNext gbSymbols gbHoisted] in *.
    exists (hoistedGlobal (gbNext g0) symbol type loc :: gs),
      (hoistedStore (S (gbNext g0)) symbol cr loc :: sts).
    rewrite Hg, Hs, <-!(assoc_L (++)). cbn [length fmap list_fmap app].
    split_and!; auto; try lia.
    + intros [|i] r' type' Hr'.
      * injection Hr' as <- <-. exists symbol, cr.
        change (2 * 0) with 0. rewrite Nat.add_0_r. done.
      * destruct (Hi i r' type' Hr') as (symbol' & cr' & H1 & H2 & H3 & H4).
        exists symbol', cr'.
        split_and!; auto.
        -- simpl. rewrite H1. unfold hoistedGlobal. do 2 f_equal. lia.
        -- simpl. rewrite H2. unfold hoistedStore. do 2 f_equal. lia.
        -- rewrite Hsyms in H4. intros ?. apply H4, elem_of_union. by right.
    + apply NoDup_cons. split; [|done]. simpl.
      intros (g' & Hsym & Hg')%list_elem_of_fmap.
      apply list_elem_of_lookup in Hg' as [i Hg'].
      assert (is_Some (results !! i)) as [[r' type'] Hr'].
      { apply lookup_lt_is_Some. rewrite <-Hlg.
        by eapply lookup_lt_Some. }
      destruct (Hi i r' type' Hr') as (symbol' & cr' & H1 & _ & _ & H4).
      rewrite Hg' in H1. injection H1 as ->. simpl in Hsym.
      rewrite Hsyms in H4. apply H4, elem_of_union. left.
      apply elem_of_singleton. done.
    + rewrite Hsy, Hsyms. cbn [globalSymbol hoistedGlobal opKind].
      rewrite list_to_set_cons. clear. set_solver.
    + rewrite !bind_cons.
      change (opIds (hoistedGlobal (gbNext g0) symbol type loc))
        with [gbNext g0].
      change (opIds (hoistedStore (S (gbNext g0)) symbol cr loc))
        with [S (gbNext g0)].
      match goal with
      | |- _ ≡ₚ _ :: seq _ ?n =>
          replace n with (S (2 * length results)) by lia
      end.
      cbn [seq app]. rewrite <-Hids. apply perm_skip.
      by rewrite <-Permutation_middle.
Qed.

(** * The loop over the slice *)

Lemma bind_leaves_walk (ops : list Operation) :
  Forall (λ o, opBody o = []) ops → ops ≫= walkPreOrder = ops.
Proof.
  induction 1 as [|o ops Ho _ IH]; csimpl; [done|].
  by rewrite walkPreOrder_leaf, IH.
Qed.

Lemma bind_leaves_opIds (ops : list Operation) :
  Forall (λ o, opBody o = []) ops → ops ≫= opIds = opId <$> ops.
Proof.
  induction 1 as [|o ops Ho _ IH]; csimpl; [done|].
  unfold opIds at 1. by rewrite walkPreOrder_leaf, IH.
Qed.

Lemma seq_split a b c :
  a ≤ b → b ≤ c → seq a (b - a) ++ seq b (c - b) = seq a (c - a).
Proof.
  intros Hab Hbc. replace (c - a) with ((b - a) + (c - b)) by lia.
  rewrite seq_app. do 2 f_equal. lia.
Qed.

Lemma perm_shuffle {A} (G St X Y R : list A) :
  G ++ X ++ Y ++ St ++ R ≡ₚ X ++ Y ++ (G ++ St) ++ R.
Proof.
  rewrite (assoc_L (++) X Y), (assoc_L (++) X Y), (assoc_L (++) G).
  rewrite (comm (++) G), <-!(assoc_L (++)). done.
Qed.

Lemma initOpOrigin_mono hoisted sources1 sources2 o :
  sources1 ⊆ sources2 →
  initOpOrigin hoisted sources1 o → initOpOrigin hoisted sources2 o.
Proof.
  intros Hsub [?|(src & Hsrc & ?)]; [by left|right].
  exists src. split; [|done].
  apply list_elem_of_bind in Hsrc as (s & ? & ?).
  apply list_elem_of_bind. exists s. split; [done|]. by apply Hsub.
Qed.

Lemma cloneSliceOp_spec hoisted b sourceOp :
  ∃ ops,
    initOps (cloneSliceOp hoisted b sourceOp) = initOps b ++ ops
    ∧ initNext b ≤ initNext (cloneSliceOp hoisted b sourceOp)
    ∧ ops ≫= opIds
      = seq (initNext b)
          (initNext (cloneSliceOp hoisted b sourceOp) - initNext b)
    ∧ Forall (initOpOrigin hoisted [sourceOp]) (ops ≫= walkPreOrder).
Proof.
  unfold cloneSliceOp.
  destruct (loadHoistedResults_spec hoisted (getResults sourceOp) true b)
    as (loads & Hops & Hnext & Hids & Horigin & _).
  destruct (loadHoistedResults _ _ _ _) as [needsClone b1]. simpl in *.
  assert (Forall (λ o, opBody o = []) loads) as Hleaves.
  { eapply Forall_impl; [exact Horigin|].
    intros l (v & g & _ & ->). done. }
  assert (Forall (initOpOrigin hoisted [sourceOp]) loads) as Hloads.
  { eapply Forall_impl; [exact Horigin|]. intros l ?. by left. }
  destruct needsClone.
  - pose proof (clone_opIds sourceOp (cloneMap b1) (initNext b1)) as Hcids.
    pose proof (clone_nextId sourceOp (cloneMap b1) (initNext b1)) as Hcn.
    pose proof (clone_walk_kinds sourceOp (cloneMap b1) (initNext b1)) as Hck.
    destruct (clone _ _ _) as [[cloneOp mapper] next]. simpl in *.
    exists (loads ++ [cloneOp]). rewrite Hops, (assoc_L (++)).
    split_and!; [done|lia|..].
    + rewrite bind_app, bind_singleton, bind_leaves_opIds, Hids, Hcids, Hnext
        by done.
      replace (next - initNext b)
        with (length loads + length (walkPreOrder sourceOp)) by lia.
      by rewrite seq_app.
    + rewrite bind_app, bind_singleton, bind_leaves_walk by done.
      apply Forall_app. split; [done|].
      apply Forall_forall. intros o Ho. right.
      assert (opKind o ∈ opKind <$> walkPreOrder sourceOp) as Hk.
      { rewrite <-Hck. by apply list_elem_of_fmap_2. }
      apply list_elem_of_fmap in Hk as (src & ? & ?).
      exists src. by rewrite bind_singleton.
  - exists loads. split_and!; [done|lia|..].
    + rewrite bind_leaves_opIds, Hids, Hnext by done. f_equal. lia.
    + by rewrite bind_leaves_walk.
Qed.

Lemma slice_loop_spec hoisted b slice :
  ∃ ops,
    initOps (foldl (cloneSliceOp hoisted) b slice) = initOps b ++ ops
    ∧ initNext b ≤ initNext (foldl (cloneSliceOp hoisted) b slice)
    ∧ ops ≫= opIds
      = seq (initNext b)
          (initNext (foldl (cloneSliceOp hoisted) b slice) - initNext b)
    ∧ Forall (initOpOrigin hoisted slice) (ops ≫= walkPreOrder).
Proof.
  revert b. induction slice as [|sourceOp slice IH]; intros b; simpl.
  - exists []. rewrite (right_id_L [] (++)), Nat.sub_diag.
    split_and!; auto.
  - destruct (cloneSliceOp_spec hoisted b sourceOp)
      as (ops1 & Ho1 & Hn1 & Hi1 & Hk1).
    destruct (IH (cloneSliceOp hoisted b sourceOp))
      as (ops2 & Ho2 & Hn2 & Hi2 & Hk2).
    exists (ops1 ++ ops2). rewrite Ho2, Ho1, (assoc_L (++)).
    split_and!; [done|lia|..].
    + by rewrite bind_app, Hi1, Hi2, seq_split.
    + rewrite bind_app. apply Forall_app. split.
      * eapply Forall_impl; [exact Hk1|]. intros o.
        apply initOpOrigin_mono. set_solver.
      * eapply Forall_impl; [exact Hk2|]. intros o.
        apply initOpOrigin_mono. set_solver.
Qed.

(** * The block arguments read in what the loop over the slice inserts *)

Lemma builderOwned_mono sources1 sources2 b :
  sources1 ⊆ sources2 → builderOwned sources1 b → builderOwned sources2 b.
Proof.
  intros Hsub [Hm Ho]. split; [done|]. intros u' o n Hu' Hop.
  destruct (Ho u' o n Hu' Hop) as [(u & Hu & ?)|?]; [left|by right].
  exists u. split; [|done].
  apply list_elem_of_bind in Hu as (x & ? & ?).
  apply list_elem_of_bind. exists x. split; [done|]. by apply Hsub.
Qed.

Lemma loadHoistedResults_owned sources hoisted results needsClone b :
  builderOwned sources b →
  builderOwned sources (loadHoistedResults hoisted results needsClone b).2.
Proof.
  revert needsClone b.
  induction results as [|r results IH]; intros needsClone b Hb; [done|].
  simpl. destruct (hoisted !! r) as [g|]; [|done]. apply IH.
  destruct Hb as [[Hv Hbl] Ho]. split; [split|]; simpl.
  - intros v v'. destruct (decide (v = r)) as [->|Hne].
    + rewrite lookup_insert_eq. intros [= <-]. eauto.
    + rewrite lookup_insert_ne by done. eauto.
  - intros o o' Hl. rewrite bind_app, elem_of_app. left. eauto.
  - intros u' o n Hu' Hop. rewrite bind_app, elem_of_app in Hu'.
    rewrite bind_app, elem_of_app. destruct Hu' as [Hu'|Hu'].
    + destruct (Ho u' o n Hu' Hop) as [?|?]; auto.
    + rewrite bind_singleton, walkPreOrder_leaf in Hu' by done.
      apply list_elem_of_singleton in Hu' as ->.
      by apply elem_of_nil in Hop.
Qed.

Lemma cloneSliceOp_owned sources hoisted b sourceOp :
  builderOwned sources b →
  builderOwned (sources ++ [sourceOp]) (cloneSliceOp hoisted b sourceOp).
Proof.
  intros Hb. unfold cloneSliceOp.
  pose proof (loadHoistedResults_owned sources hoisted
    (getResults sourceOp) true b Hb) as Hb1.
  destruct (loadHoistedResults _ _ _ _) as [needsClone b1]. simpl in Hb1.
  destruct needsClone.
  - pose proof (clone_owners sourceOp (cloneMap b1) (initNext b1)) as Hc.
    destruct (clone _ _ _) as [[cloneOp mapper] next]. simpl in *.
    destruct Hb1 as [Hm Ho]. destruct (Hc _ Hm) as [Hm' Ho'].
    rewrite bind_singleton in Hm'. split; simpl.
    + eapply mapperOwned_mono; [|exact Hm']. simpl. intros o.
      rewrite bind_app, bind_singleton, elem_of_app. tauto.
    + intros u' o n Hu' Hop. rewrite bind_app, elem_of_app in Hu'.
      rewrite !bind_app, !elem_of_app. destruct Hu' as [Hu'|Hu'].
      * destruct (Ho u' o n Hu' Hop) as [(u & ? & ?)|?]; [|auto].
        left. exists u. rewrite ?bind_app, elem_of_app. auto.
      * destruct (Ho' u' o n Hu' Hop) as [(u & ? & ?)|[?|?]]; [|auto..].
        left. exists u. rewrite ?bind_app, elem_of_app. auto.
  - eapply builderOwned_mono; [|done]. intros x ?. apply elem_of_app.
    by left.
Qed.

Lemma slice_loop_owned sources hoisted b slice :
  builderOwned sources b →
  builderOwned (sources ++ slice) (foldl (cloneSliceOp hoisted) b slice).
Proof.
  revert sources b.
  induction slice as [|sourceOp slice IH]; intros sources b Hb; simpl.
  - by rewrite (right_id_L [] (++)).
  - rewrite (cons_middle sourceOp sources slice), (assoc_L (++)).
    apply IH. by apply cloneSliceOp_owned.
Qed.

Lemma emptyBuilder_owned next :
  builderOwned [] (mkInitBuilder [] emptyMapping next).
Proof.
  split; [split|]; simpl.
  - intros v v' Hl. by apply lookup_empty_Some in Hl.
  - intros o o' Hl. by apply lookup_empty_Some in Hl.
  - intros u' o n Hu'. by apply elem_of_nil in Hu'.
Qed.

(** * The values hoisted by the loop over the results *)

Lemma foldl_insert_zip_notin {K V} `{Countable K} (keys : list K)
    (vals : list V) (m : gmap K V) k :
  k ∉ keys →
  foldl (λ hm p, <[p.1 := p.2]> hm) m (zip keys vals) !! k = m !! k.
Proof.
  revert vals m. induction keys as [|k' keys IH]; intros [|v vals] m Hk;
    simpl; try done.
  apply not_elem_of_cons in Hk as [??].
  rewrite IH by done. by rewrite lookup_insert_ne.
Qed.

Lemma foldl_insert_zip_lookup {K V} `{Countable K} (keys : list K)
    (vals : list V) (m : gmap K V) i k v :
  NoDup keys → keys !! i = Some k → vals !! i = Some v →
  foldl (λ hm p, <[p.1 := p.2]> hm) m (zip keys vals) !! k = Some v.
Proof.
  revert vals m i.
  induction keys as [|k' keys IH]; intros vals m i Hnd Hk Hv; [done|].
  apply NoDup_cons in Hnd as [Hk' Hnd].
  destruct vals as [|v' vals]; [done|].
  destruct i as [|i]; simpl in *.
  - injection Hk as ->. injection Hv as ->.
    rewrite foldl_insert_zip_notin by done. by rewrite lookup_insert_eq.
  - by eapply IH.
Qed.

(** * [cloneConstExprInto] *)

Section Hoist.
Context `{SliceAnalysis}.

Lemma cloneConstExprInto_spec initializerOp v s s' :
  cloneConstExprInto initializerOp v s = Some s' →
  ∃ rootOp gs body,
    getDefiningOp v (module s) = Some rootOp
    ∧ module s'
      = insertAtModuleBegin gs
          (insertAtBlockEnd (opId initializerOp) body (module s))
    ∧ Materialized s (opLoc initializerOp) rootOp gs body (hoistedMap s')
        (moduleSymbols s') (nextOpId s').
Proof.
  unfold cloneConstExprInto.
  destruct (getDefiningOp v (module s)) as [rootOp|] eqn:Hroot; [|done].
  simpl.
  pose proof (clone_opIds rootOp (cloneMap (cloneSlice s rootOp))
    (initNext (cloneSlice s rootOp))) as Hcids.
  pose proof (clone_nextId rootOp (cloneMap (cloneSlice s rootOp))
    (initNext (cloneSlice s rootOp))) as Hcnext.
  pose proof (clone_opData rootOp (cloneMap (cloneSlice s rootOp))
    (initNext (cloneSlice s rootOp))) as Hcdata.
  destruct (slice_loop_spec (hoistedMap s)
    (mkInitBuilder [] emptyMapping (nextOpId s))
    (getBackwardSlice (module s) rootOp))
    as (ops & Hops & Hbn & Hbids & Horigin).
  fold (cloneSlice s rootOp) in Hops, Hbn, Hbids. simpl in Hops, Hbn, Hbids.
  pose proof (clone_walk_kinds rootOp (cloneMap (cloneSlice s rootOp))
    (initNext (cloneSlice s rootOp))) as Hckinds.
  pose proof (slice_loop_owned [] (hoistedMap s) _
    (getBackwardSlice (module s) rootOp) (emptyBuilder_owned (nextOpId s)))
    as [Hbm Hbo].
  fold (cloneSlice s rootOp) in Hbm, Hbo. simpl in Hbm, Hbo.
  destruct (clone_owners rootOp (cloneMap (cloneSlice s rootOp))
    (initNext (cloneSlice s rootOp)) _ Hbm) as [Hcm Hco].
  assert (rootOp ∈ walkPreOrder (module s)) as Hrootin.
  { destruct v as [o i|]; [|done]. simpl in Hroot.
    destruct (lookupOp o (module s)) as [op|] eqn:Hop; [|done].
    simpl in Hroot. case_decide; [|done]. injection Hroot as <-.
    by apply lookupOp_Some in Hop as [??]. }
  destruct (clone rootOp _ _) as [[clonedRootOp mapper] next] eqn:Hclone.
  simpl in Hcids, Hcnext, Hcdata.
  assert (opLoc clonedRootOp = opLoc rootOp) as Hloc.
  { by apply (f_equal opLoc) in Hcdata. }
  destruct (forEach _ _ _) as [g|] eqn:Hg; [|done]. simpl.
  intros [= <-]. eexists rootOp, (newGlobals g), _. split; [done|].
  split; [done|].
  apply hoistResults_spec in Hg as (gs & sts & Hgs & Hsts & Hlg & Hls & Hn
    & Hi & Hnd & Hsy & Hh & Hids).
  simpl in Hgs, Hsts, Hn, Hi, Hsy, Hh, Hids. subst ops.
  rewrite getResultsWithTypes_length in Hlg, Hls, Hn, Hids.
  rewrite getResultsWithTypes_fst in Hh. rewrite Hloc in *.
  rewrite Hgs, Hsts.
  assert (length (walkPreOrder rootOp) > 0) as Hwalk.
  { rewrite walkPreOrder_unfold. simpl. lia. }
  split; rewrite ?Hclone;
    cbn [fst snd nextOpId hoistedMap moduleSymbols module].
  - done.
  - intros i type Hty.
    destruct (Hi i (OpResult (opId rootOp) i) type) as (symbol & cr & Hgi
      & Hsi & Hcr & Hfresh).
    { by rewrite getResultsWithTypes_lookup, Hty. }
    eexists _, symbol, cr. split_and!; [exact Hgi| |done|done|].
    + rewrite Hh.
      eapply foldl_insert_zip_lookup; [apply NoDup_getResults| |done].
      rewrite getResults_lookup, decide_True; [done|].
      by eapply lookup_lt_Some.
    + apply elem_of_app. right. apply elem_of_cons. right.
      apply elem_of_app. left. by eapply list_elem_of_lookup_2.
  - intros v' Hv'. rewrite Hh. by apply foldl_insert_zip_notin.
  - done.
  - done.
  - exists sts. replace (S (gbNext g) - 1) with (gbNext g) by lia.
    split_and!; [done..|].
    intros i st Hst.
    assert (is_Some (opResultTypes rootOp !! i)) as [type Hty].
    { apply lookup_lt_is_Some. rewrite <-Hls. by eapply lookup_lt_Some. }
    destruct (Hi i (OpResult (opId rootOp) i) type) as (symbol & cr & Hgi
      & Hsi & Hcr & _).
    { by rewrite getResultsWithTypes_lookup, Hty. }
    rewrite Hst in Hsi. injection Hsi as ->.
    destruct Hcm as [Hcv _]. destruct (Hcv _ _ Hcr) as (o & j & ->).
    eexists. split_and!; [done..|]. by exists o, j.
  - rewrite bind_app, bind_singleton. apply Forall_app. split.
    + eapply Forall_impl; [exact Horigin|]. intros o.
      apply initOpOrigin_mono. intros x Hx. apply elem_of_app. by left.
    + apply Forall_forall. intros o Ho. right.
      assert (opKind o ∈ opKind <$> walkPreOrder rootOp) as Hk.
      { rewrite <-Hckinds. by apply list_elem_of_fmap_2. }
      apply list_elem_of_fmap in Hk as (src & ? & ?).
      exists src. split; [|done]. rewrite bind_app, bind_singleton.
      apply elem_of_app. by right.
  - intros u' o n Hu' Hop. rewrite bind_app, elem_of_app in Hu'.
    rewrite !bind_app, !elem_of_app. destruct Hu' as [Hu'|Hu'].
    + destruct (Hbo u' o n Hu' Hop) as [(u & ? & ?)|?]; [|auto].
      left. exists u. rewrite ?bind_app, elem_of_app. auto.
    + destruct (Hco u' o n Hu' Hop) as [(u & ? & ?)|[?|?]]; [|auto..].
      left. exists u. rewrite ?bind_app, elem_of_app. auto.
  - rewrite bind_app, bind_cons, bind_app, Hbids, Hcids.
    change ([mkOperation (gbNext g) InitializerReturnOp [] []
               (opLoc initializerOp) []] ≫= opIds) with (seq (gbNext g) 1).
    assert (gbNext g = next + 2 * length (opResultTypes rootOp)) as Hn'
      by lia.
    assert (seq (nextOpId s) (S (gbNext g) - nextOpId s)
            = seq (nextOpId s) (initNext (cloneSlice s rootOp) - nextOpId s)
              ++ seq (initNext (cloneSlice s rootOp))
                   (length (walkPreOrder rootOp))
              ++ seq next (2 * length (opResultTypes rootOp))
              ++ seq (gbNext g) 1) as ->.
    { rewrite <-(seq_split (nextOpId s) (initNext (cloneSlice s rootOp))
        (S (gbNext g))) by lia.
      rewrite <-(seq_split (initNext (cloneSlice s rootOp)) next
        (S (gbNext g))) by lia.
      rewrite <-(seq_split next (gbNext g) (S (gbNext g))) by lia.
      repeat f_equal; lia. }
    assert ((gs ≫= opIds) ++ sts ≫= opIds
            ≡ₚ seq next (2 * length (opResultTypes rootOp))) as <-.
    { exact Hids. }
    apply perm_shuffle.
  - lia.
Qed.

End Hoist.

(** * [hoistConstExpr] *)

Lemma lookupOp_root m : lookupOp (opId m) m = Some m.
Proof.
  unfold lookupOp. rewrite walkPreOrder_unfold.
  by rewrite filter_cons_True.
Qed.

Lemma lookupOp_not_root id m :
  id ≠ opId m →
  lookupOp id m = head (filter (λ o, opId o = id) (opBody m ≫= walkPreOrder)).
Proof.
  intros Hne. unfold lookupOp. rewrite walkPreOrder_unfold.
  by rewrite filter_cons_False.
Qed.

Lemma getOperand_owner operand m v :
  opOperands m = [] → getOperand operand m = Some v →
  getOwner operand ≠ opId m ∧ getOwner operand ∈ opIds m.
Proof.
  intros Hm. unfold getOperand.
  destruct (lookupOp _ m) as [op|] eqn:Hop; [|done]. simpl. intros Hv.
  split; [|by eapply lookupOp_elem_of].
  intros Heq. rewrite Heq, lookupOp_root in Hop. injection Hop as <-.
  by rewrite Hm in Hv.
Qed.

Lemma insertAtModule_nil m :
  insertAtModuleBegin [] (insertAtModuleEnd [] m) = m.
Proof.
  destruct m. unfold insertAtModuleBegin, insertAtBlockBegin,
    insertAtModuleEnd. simpl. by rewrite (right_id_L [] (++)).
Qed.

Section HoistShape.
Context `{SliceAnalysis}.

Lemma getDefiningOp_createInitializer loc s v rootOp :
  wfState s →
  getDefiningOp v (module (createInitializer loc s)) = Some rootOp →
  getDefiningOp v (module s) = Some rootOp.
Proof.
  intros [_ _ _ _ Hres]. destruct v as [o i|]; [|done]. simpl.
  destruct (decide (o = opId (module s))) as [->|Hne].
  - change (opId (module s))
      with (opId (insertAtModuleEnd
        [mkOperation (nextOpId s) InitializerOp [] [] loc []] (module s)))
      at 1.
    rewrite lookupOp_root. simpl. rewrite Hres. simpl. done.
  - rewrite !lookupOp_not_root by done. simpl.
    rewrite bind_app, filter_app. simpl.
    destruct (filter _ (opBody (module s) ≫= walkPreOrder)) as [|op l];
      [|done].
    simpl. rewrite filter_cons. case_decide; simpl; done.
Qed.

Lemma Materialized_globals s loc rootOp gs body hoisted' symbols' next' :
  Materialized s loc rootOp gs body hoisted' symbols' next' →
  Forall (λ g, ∃ gid symbol type,
                 g = hoistedGlobal gid symbol type (opLoc rootOp)) gs.
Proof.
  intros Hmat. apply Forall_forall. intros g [i Hg]%list_elem_of_lookup.
  assert (is_Some (opResultTypes rootOp !! i)) as [type Hty].
  { apply lookup_lt_is_Some.
    rewrite <-(mat_length _ _ _ _ _ _ _ _ Hmat). by eapply lookup_lt_Some. }
  destruct (mat_result _ _ _ _ _ _ _ _ Hmat i type Hty)
    as (gid & symbol & cr & Hgi & _).
  rewrite Hg in Hgi. injection Hgi as ->. eauto.
Qed.

Lemma getLoc_definingOp v m rootOp :
  getDefiningOp v m = Some rootOp → getLoc v m = opLoc rootOp.
Proof. unfold getLoc. by intros ->. Qed.

(** What a call of [hoistConstExpr] makes of the state: the use is
    rewritten in the module as it was; the module gains no operation but
    the load when the value has a global already, and gains the globals and
    one initializer otherwise. *)
Lemma hoistConstExpr_shape operand s s' :
  wfState s →
  hoistConstExpr operand s = Some s' →
  ∃ targetOp v g gs inits, hoistStep operand s s' targetOp v g gs inits.
Proof.
  intros Hwf. unfold hoistStep, hoistConstExpr.
  destruct (lookupOp _ _) as [targetOp|] eqn:Htarget; [|done]. simpl.
  destruct (getOperand _ _) as [v|] eqn:Hv; [|done]. simpl.
  destruct (getOperand_owner _ _ _ (wf_operands _ Hwf) Hv) as [Hnr Hin].
  assert (opId targetOp = getOwner operand) as Hid
    by by apply lookupOp_Some in Htarget as [??].
  assert (getOwner operand < nextOpId s) as Hlt.
  { pose proof (wf_fresh _ Hwf) as Hf. rewrite Forall_forall in Hf. auto. }
  destruct (hoistedMap s !! v) as [g|] eqn:Hg; simpl.
  - rewrite Hg. simpl. intros [= <-]. simpl.
    exists targetOp, v, g, [], []. rewrite Hid, Nat.sub_0_r.
    split_and!; auto.
    + by rewrite insertAtModule_nil.
    + left. done.
  - destruct (cloneConstExprInto _ _ _) as [s1|] eqn:Hs1; [|done]. simpl.
    destruct (hoistedMap s1 !! v) as [g|] eqn:Hg1; [|done]. simpl.
    intros [= <-]. simpl.
    apply cloneConstExprInto_spec in Hs1
      as (rootOp & gs & body & Hroot & Hm1 & Hmat).
    unfold createInitializer in Hm1. cbn [module opId] in Hm1.
    cbn [opLoc] in Hmat.
    pose proof (getDefiningOp_createInitializer _ _ _ _ Hwf Hroot) as Hroot'.
    rewrite (getLoc_definingOp _ _ _ Hroot') in *.
    assert (nextOpId s ∉ opIds (module s)) as Hfresh.
    { intros Hn. pose proof (wf_fresh _ Hwf) as Hf.
      rewrite Forall_forall in Hf. apply Hf in Hn. lia. }
    rewrite insertAtBlockEnd_appended in Hm1 by done.
    pose proof (mat_ids _ _ _ _ _ _ _ _ Hmat) as Hids.
    pose proof (mat_next _ _ _ _ _ _ _ _ Hmat) as Hnext. simpl in Hids, Hnext.
    assert (∀ id, id ∈ gs ≫= opIds ∨ id ∈ body ≫= opIds → nextOpId s < id)
      as Hnew.
    { intros id Hid'. assert (id ∈ seq (S (nextOpId s))
        (nextOpId s1 - S (nextOpId s))) as Hseq.
      { rewrite <-Hids. by apply elem_of_app. }
      apply elem_of_seq in Hseq. lia. }
    eexists targetOp, v, g, gs, _. rewrite Hid, Nat.sub_0_r.
    split_and!; auto.
    + rewrite Hm1. apply rewriteUse_insertions; [done|..].
      * intros Hx. specialize (Hnew _ (or_introl Hx)). lia.
      * rewrite bind_singleton, opIds_unfold. simpl.
        intros [Hx|Hx]%elem_of_cons; [lia|].
        specialize (Hnew _ (or_intror Hx)). lia.
    + lia.
    + right. split; [done|]. exists rootOp, body. done.
Qed.

End HoistShape.

(** * What rewriting a use changes *)

Lemma opId_opData o : opId (opData o) = opId o.
Proof. by destruct o. Qed.

Lemma setOperand_leaf_other operand v d :
  opBody d = [] → opId d ≠ getOwner operand → setOperand operand v d = d.
Proof.
  intros Hb Hne. apply setOperand_notin.
  unfold opIds. rewrite walkPreOrder_leaf by done. simpl.
  intros Hx%list_elem_of_singleton. by rewrite Hx in Hne.
Qed.

Lemma fmap_setOperand_other operand v (l : list Operation) :
  Forall (λ d, opBody d = []) l → getOwner operand ∉ opId <$> l →
  setOperand operand v <$> l = l.
Proof.
  induction 1 as [|d l Hd _ IH]; csimpl; [done|].
  intros [??]%not_elem_of_cons. f_equal; [|auto].
  by apply setOperand_leaf_other.
Qed.

Lemma walkData_leaves m : Forall (λ d, opBody d = []) (walkData m).
Proof. unfold walkData. apply Forall_fmap, Forall_true. by intros []. Qed.

(** In walk order, the load comes immediately before the owner of the
    operand, the operand of the owner is set, and nothing else changes. *)
Lemma walkData_rewriteUse operand load m :
  NoDup (opIds m) →
  getOwner operand ≠ opId m →
  getOwner operand ∈ opIds m →
  opBody load = [] →
  opId load ≠ getOwner operand →
  ∃ l1 t l2,
    walkData m = l1 ++ t :: l2
    ∧ opId t = getOwner operand
    ∧ walkData (rewriteUse operand load m)
      = l1 ++ load :: setOperand operand (OpResult (opId load) 0) t :: l2.
Proof.
  intros Hnd Hroot Hin Hleaf Hload.
  rewrite <-opIds_walkData in Hin, Hnd.
  apply list_elem_of_fmap in Hin as (t & Ht & Hin).
  apply list_elem_of_split in Hin as (l1 & l2 & Hsplit).
  exists l1, t, l2. split_and!; [done..|].
  unfold rewriteUse. rewrite walkData_setOperand.
  assert (walkData (insertBefore (getOwner operand) load m)
          = insertBeforeData (getOwner operand) (walkData load) (walkData m))
    as ->.
  { rewrite (walkData_unfold (insertBefore _ _ _)), (walkData_unfold m).
    rewrite walkData_insertBefore by by rewrite <-opIds_walkData.
    unfold insertBeforeData at 2. csimpl.
    rewrite decide_False by congruence.
    by destruct m. }
  rewrite Hsplit in Hnd |- *. rewrite fmap_app in Hnd. csimpl in Hnd.
  apply NoDup_app in Hnd as (_ & Hl1 & [Hl2 _]%NoDup_cons).
  rewrite insertBeforeData_app, insertBeforeData_notin.
  2:{ intros Hx. apply (Hl1 _ Hx). rewrite Ht. left. }
  unfold insertBeforeData at 1. csimpl. rewrite decide_True by done.
  fold (insertBeforeData (getOwner operand) (walkData load) l2).
  rewrite insertBeforeData_notin by by rewrite Ht.
  assert (Forall (λ d, opBody d = []) (l1 ++ t :: l2)) as Hleaves.
  { rewrite <-Hsplit. apply walkData_leaves. }
  apply Forall_app in Hleaves as [Hlv1 [_ Hlv2]%Forall_cons].
  unfold walkData. rewrite walkPreOrder_leaf by done. csimpl.
  rewrite opData_leaf by done.
  rewrite fmap_app, fmap_setOperand_other; [|done|].
  2:{ intros Hx. apply (Hl1 _ Hx). rewrite Ht. left. }
  f_equal. csimpl. rewrite (setOperand_leaf_other _ _ load) by done.
  do 2 f_equal. apply fmap_setOperand_other; [done|]. by rewrite Ht.
Qed.

Lemma opIds_rewriteUse operand load m :
  NoDup (opIds m) →
  getOwner operand ≠ opId m →
  getOwner operand ∈ opIds m →
  opBody load = [] →
  opId load ≠ getOwner operand →
  opIds (rewriteUse operand load m) ≡ₚ opIds m ++ [opId load].
Proof.
  intros Hnd Hroot Hin Hleaf Hload.
  destruct (walkData_rewriteUse operand load m)
    as (l1 & t & l2 & Hm & Ht & Hm'); [done..|].
  rewrite <-!opIds_walkData, Hm, Hm', !fmap_app. csimpl.
  rewrite opId_setOperand.
  rewrite <-(assoc_L (++)). f_equiv. simpl.
  rewrite (Permutation_app_comm _ [opId load]). simpl.
  rewrite perm_swap. done.
Qed.

(** * What a call of [hoistConstExpr] changes *)

Lemma perm_step {A} (a b : A) (G B : list A) :
  a :: G ++ b :: B ≡ₚ b :: (G ++ B) ++ [a].
Proof.
  rewrite <-Permutation_middle, perm_swap. f_equiv.
  apply Permutation_cons_append.
Qed.

Section Step.
Context `{SliceAnalysis}.

Lemma wf_lt s id : wfState s → id ∈ opIds (module s) → id < nextOpId s.
Proof.
  intros Hwf Hin. pose proof (wf_fresh _ Hwf) as Hf.
  rewrite Forall_forall in Hf. auto.
Qed.

(** The operations of the module after the call are those before it and
    the ones created by the call, whose identities are those allocated. *)
Lemma hoistConstExpr_opIds operand s s' :
  wfState s →
  hoistConstExpr operand s = Some s' →
  opIds (module s')
  ≡ₚ opIds (module s) ++ seq (nextOpId s) (nextOpId s' - nextOpId s).
Proof.
  intros Hwf Hs'.
  destruct (hoistConstExpr_shape _ _ _ Hwf Hs')
    as (targetOp & v & g & gs & inits & Htarget & Hv & Hg & Hm & Hnext
        & Hcase).
  destruct (getOperand_owner _ _ _ (wf_operands _ Hwf) Hv) as [Hnr Hin].
  pose proof (wf_lt _ _ Hwf Hin) as Hlt.
  rewrite Hm, opIds_insertAtModuleBegin. simpl.
  rewrite bind_app.
  assert (opId (rewriteUse operand
            (createGlobalLoad (nextOpId s' - 1) (opLoc targetOp) g) (module s))
          :: (gs ≫= opIds)
             ++ (opBody (rewriteUse operand
                   (createGlobalLoad (nextOpId s' - 1) (opLoc targetOp) g)
                   (module s)) ≫= opIds) ++ (inits ≫= opIds)
          ≡ₚ opIds (rewriteUse operand
               (createGlobalLoad (nextOpId s' - 1) (opLoc targetOp) g)
               (module s)) ++ (gs ≫= opIds) ++ (inits ≫= opIds)) as Hperm.
  { rewrite (opIds_unfold (rewriteUse _ _ _)). simpl. f_equiv.
    rewrite (assoc_L (++)), (comm (++) (gs ≫= opIds)), <-(assoc_L (++)).
    done. }
  replace (opId (insertAtModuleEnd inits (rewriteUse operand
    (createGlobalLoad (nextOpId s' - 1) (opLoc targetOp) g) (module s))))
    with (opId (rewriteUse operand
      (createGlobalLoad (nextOpId s' - 1) (opLoc targetOp) g) (module s)))
    by done.
  rewrite Hperm, opIds_rewriteUse; [|by apply wf_NoDup|done..|simpl; lia].
  rewrite <-(assoc_L (++)). f_equiv. simpl.
  destruct Hcase as [(_ & -> & -> & _ & _ & Hn)|(_ & rootOp & body & _ & ->
    & Hmat)].
  - rewrite Hn. replace (S (nextOpId s) - nextOpId s) with 1 by lia.
    replace (S (nextOpId s) - 1) with (nextOpId s) by lia. done.
  - pose proof (mat_ids _ _ _ _ _ _ _ _ Hmat) as Hids.
    pose proof (mat_next _ _ _ _ _ _ _ _ Hmat) as Hn. simpl in Hids, Hn.
    rewrite bind_singleton, opIds_unfold. cbn [opId opBody].
    assert (seq (nextOpId s) (nextOpId s' - nextOpId s)
            = nextOpId s
              :: seq (S (nextOpId s)) (nextOpId s' - 1 - S (nextOpId s))
              ++ [nextOpId s' - 1]) as ->.
    { replace (nextOpId s' - nextOpId s)
        with (S ((nextOpId s' - 1 - S (nextOpId s)) + 1)) by lia.
      cbn [seq]. rewrite seq_app. cbn [seq]. do 3 f_equal. lia. }
    rewrite <-Hids. apply perm_step.
Qed.

Lemma hoistConstExpr_next operand s s' :
  hoistConstExpr operand s = Some s' → wfState s → nextOpId s < nextOpId s'.
Proof.
  intros Hs' Hwf.
  destruct (hoistConstExpr_shape _ _ _ Hwf Hs')
    as (? & ? & ? & ? & ? & _ & _ & _ & _ & Hnext & _). done.
Qed.

Lemma hoistConstExpr_wf operand s s' :
  wfState s → hoistConstExpr operand s = Some s' → wfState s'.
Proof.
  intros Hwf Hs'.
  pose proof (hoistConstExpr_opIds _ _ _ Hwf Hs') as Hids.
  pose proof (hoistConstExpr_next _ _ _ Hs' Hwf) as Hnext.
  destruct (hoistConstExpr_shape _ _ _ Hwf Hs')
    as (targetOp & v & g & gs & inits & Htarget & Hv & Hg & Hm & _ & _).
  destruct (getOperand_owner _ _ _ (wf_operands _ Hwf) Hv) as [Hnr Hin].
  split.
  - rewrite Hids. apply NoDup_app. split_and!.
    + by apply wf_NoDup.
    + intros id Hid%(wf_lt _ _ Hwf) Hseq%elem_of_seq. lia.
    + apply NoDup_seq.
  - rewrite Hids. apply Forall_app. split.
    + eapply Forall_impl; [by apply wf_fresh|]. simpl. lia.
    + apply Forall_forall. intros id Hid%elem_of_seq. lia.
  - rewrite Hm. cbn [insertAtModuleBegin insertAtBlockBegin insertAtModuleEnd
      opKind].
    pose proof (opData_rewriteUse_root operand
      (createGlobalLoad (nextOpId s' - 1) (opLoc targetOp) g) _ Hnr) as Hd.
    apply (f_equal opKind) in Hd. simpl in Hd. rewrite Hd.
    by apply wf_kind.
  - rewrite Hm. cbn [insertAtModuleBegin insertAtBlockBegin insertAtModuleEnd
      opOperands].
    pose proof (opData_rewriteUse_root operand
      (createGlobalLoad (nextOpId s' - 1) (opLoc targetOp) g) _ Hnr) as Hd.
    apply (f_equal opOperands) in Hd. simpl in Hd. rewrite Hd.
    by apply wf_operands.
  - rewrite Hm. cbn [insertAtModuleBegin insertAtBlockBegin insertAtModuleEnd
      opResultTypes].
    pose proof (opData_rewriteUse_root operand
      (createGlobalLoad (nextOpId s' - 1) (opLoc targetOp) g) _ Hnr) as Hd.
    apply (f_equal opResultTypes) in Hd. simpl in Hd. rewrite Hd.
    by apply wf_results.
Qed.

Lemma reachable_wf s0 s : wfState s0 → reachable s0 s → wfState s.
Proof.
  intros Hwf. induction 1 as [|s operand s' _ IH Hs']; [done|].
  by eapply hoistConstExpr_wf.
Qed.

Lemma reachable_trans s0 s1 s2 :
  reachable s0 s1 → reachable s1 s2 → reachable s0 s2.
Proof.
  intros H01. induction 1 as [|s operand s' _ IH Hs']; [done|].
  by eapply reachable_hoist.
Qed.

Lemma reachable_next s0 s :
  wfState s0 → reachable s0 s → nextOpId s0 ≤ nextOpId s.
Proof.
  intros Hwf. induction 1 as [|s operand s' Hr IH Hs']; [done|].
  pose proof (hoistConstExpr_next _ _ _ Hs' (reachable_wf _ _ Hwf Hr)). lia.
Qed.

End Step.

Section Frame.
Context `{SliceAnalysis}.

Lemma filter_new_ids id (l : list Operation) next :
  id < next → Forall (λ o, next ≤ opId o) l →
  filter (λ o, opId o = id) l = [].
Proof.
  intros Hlt. induction 1 as [|o l Ho _ IH]; [done|].
  rewrite filter_cons_False by lia. done.
Qed.

Lemma Forall_bind_walkData (P : OpId → Prop) (ops : list Operation) :
  Forall P (ops ≫= opIds) → Forall (λ o, P (opId o)) (ops ≫= walkData).
Proof.
  intros Hall. apply Forall_forall. intros d Hd.
  rewrite Forall_forall in Hall. apply Hall.
  apply list_elem_of_bind in Hd as (o & Hd & Ho).
  apply list_elem_of_bind. exists o. split; [|done].
  rewrite <-opIds_walkData. by apply list_elem_of_fmap_2.
Qed.

(** The operations a call creates have identities from the next fresh one
    on. *)
Lemma hoistConstExpr_new_ids operand s s' targetOp g gs inits :
  wfState s →
  hoistConstExpr operand s = Some s' →
  module s'
  = insertAtModuleBegin gs
      (insertAtModuleEnd inits
         (rewriteUse operand
            (createGlobalLoad (nextOpId s' - 1) (opLoc targetOp) g)
            (module s))) →
  Forall (λ id, nextOpId s ≤ id < nextOpId s')
    ((gs ≫= opIds) ++ (inits ≫= opIds)).
Proof.
  intros Hwf Hs' Hm.
  pose proof (hoistConstExpr_wf _ _ _ Hwf Hs') as Hwf'.
  pose proof (hoistConstExpr_opIds _ _ _ Hwf Hs') as Hids.
  pose proof (wf_NoDup _ Hwf') as Hnd.
  apply Forall_forall. intros id Hid.
  assert (id ∈ opIds (module s')) as Hin.
  { rewrite Hm, opIds_insertAtModuleBegin. simpl. rewrite bind_app.
    right. rewrite !elem_of_app in *. tauto. }
  assert (id ∉ opIds (rewriteUse operand
    (createGlobalLoad (nextOpId s' - 1) (opLoc targetOp) g) (module s)))
    as Hnot.
  { rewrite Hm, opIds_insertAtModuleBegin in Hnd. simpl in Hnd.
    rewrite bind_app in Hnd.
    change (opId (insertAtModuleEnd inits ?m)) with (opId m) in Hnd.
    intros Hx. rewrite opIds_unfold in Hx.
    apply NoDup_cons in Hnd as [Hroot Hnd].
    apply elem_of_cons in Hx as [->|Hx].
    - apply Hroot. rewrite !elem_of_app in *. tauto.
    - apply NoDup_app in Hnd as (_ & Hd1 & Hnd).
      apply NoDup_app in Hnd as (_ & Hd2 & _).
      apply elem_of_app in Hid as [Hid|Hid].
      + apply (Hd1 _ Hid). apply elem_of_app. by left.
      + by apply (Hd2 _ Hx). }
  rewrite Hids in Hin. apply elem_of_app in Hin as [Hold|Hseq].
  - destruct Hnot.
    destruct (hoistConstExpr_shape _ _ _ Hwf Hs')
      as (targetOp' & v & g' & gs' & inits' & Htarget & Hv & Hg & _).
    destruct (getOperand_owner _ _ _ (wf_operands _ Hwf) Hv) as [Hnr Hown].
    rewrite opIds_rewriteUse; [|by apply wf_NoDup|done..|].
    + apply elem_of_app. by left.
    + simpl. pose proof (wf_lt _ _ Hwf Hown).
      pose proof (hoistConstExpr_next _ _ _ Hs' Hwf). lia.
  - apply elem_of_seq in Hseq. lia.
Qed.

(** ** The frame of [hoistConstExpr] *)

(** The module after the call is the module before it in which the use is
    rewritten, with globals inserted at its beginning and initializers at
    its end. In walk order, the operations before and after the consumer
    are as they were, the load comes immediately before the consumer, and
    the consumer differs in the one operand, which is the result of the
    load. *)
Lemma hoistStep_frame_walk operand s s' targetOp v g gs inits :
  wfState s →
  hoistConstExpr operand s = Some s' →
  hoistStep operand s s' targetOp v g gs inits →
  ∃ before target after,
    let load := createGlobalLoad (nextOpId s' - 1) (opLoc targetOp) g in
    lookupOp (getOwner operand) (module s) = Some targetOp
    ∧ module s'
      = insertAtModuleBegin gs
          (insertAtModuleEnd inits (rewriteUse operand load (module s)))
    ∧ Forall (λ o, nextOpId s ≤ opId o) (gs ≫= walkData)
    ∧ Forall (λ o, nextOpId s ≤ opId o) (inits ≫= walkData)
    ∧ Forall (λ o, ∃ symbol type,
                     opKind o = GlobalOp symbol false type Private) gs
    ∧ Forall (λ o, opKind o = InitializerOp) inits
    ∧ nextOpId s ≤ opId load
    ∧ walkData (module s) = before ++ target :: after
    ∧ target = opData targetOp
    ∧ opId target = getOwner operand
    ∧ walkData (rewriteUse operand load (module s))
      = before
        ++ load
        :: mkOperation (opId target) (opKind target)
             (<[getOperandNumber operand := OpResult (opId load) 0]>
                (opOperands target))
             (opResultTypes target) (opLoc target) []
        :: after
    ∧ walkData (module s')
      = opData (module s)
        :: (gs ≫= walkData)
        ++ tail (walkData (rewriteUse operand load (module s)))
        ++ (inits ≫= walkData).
Proof.
  intros Hwf Hs' (Htarget & Hv & Hg & Hm & Hnext & Hcase).
  destruct (getOperand_owner _ _ _ (wf_operands _ Hwf) Hv) as [Hnr Hin].
  pose proof (wf_lt _ _ Hwf Hin) as Hlt.
  pose proof (hoistConstExpr_new_ids _ _ _ _ _ _ _ Hwf Hs' Hm) as Hnew.
  apply Forall_app in Hnew as [Hgs Hinits].
  destruct (walkData_rewriteUse operand
    (createGlobalLoad (nextOpId s' - 1) (opLoc targetOp) g) (module s))
    as (before & target & after & Hw & Hid & Hw');
    [by apply wf_NoDup|done..|simpl; lia|].
  exists before, target, after. simpl.
  assert (target = opData targetOp) as Htd.
  { pose proof (lookupOp_data (getOwner operand) (module s)) as Hd.
    rewrite Htarget, Hw, filter_app in Hd. simpl in Hd.
    pose proof (wf_NoDup _ Hwf) as Hnd.
    rewrite <-opIds_walkData, Hw, fmap_app in Hnd.
    apply NoDup_app in Hnd as (_ & Hdisj & _).
    assert (filter (λ o, opId o = getOwner operand) before = []) as Hb.
    { destruct (filter _ before) as [|x l] eqn:Hf; [done|].
      assert (x ∈ filter (λ o, opId o = getOwner operand) before) as Hx
        by (rewrite Hf; left).
      apply list_elem_of_filter in Hx as [Hx1 Hx2].
      destruct (Hdisj (opId x)); [by apply list_elem_of_fmap_2|].
      csimpl. rewrite Hid, Hx1. left. }
    rewrite Hb, filter_cons_True in Hd by done. simpl in Hd. congruence. }
  split_and!; auto.
  - apply Forall_bind_walkData. eapply Forall_impl; [exact Hgs|].
    simpl. lia.
  - apply Forall_bind_walkData. eapply Forall_impl; [exact Hinits|].
    simpl. lia.
  - destruct Hcase as [(_ & -> & _)|(_ & rootOp & body & _ & _ & Hmat)];
      [done|].
    eapply Forall_impl; [by eapply Materialized_globals|]. simpl.
    intros o (gid & symbol & type & ->). eauto.
  - destruct Hcase as [(_ & _ & -> & _)|(_ & rootOp & body & _ & -> & _)];
      [done|].
    by constructor.
  - lia.
  - rewrite Hw', Htd. rewrite Htd in Hid. simpl in *.
    by rewrite decide_True.
  - rewrite Hm, walkData_insertAtModuleBegin. simpl. rewrite bind_app.
    f_equal.
    + unfold opData. simpl.
      pose proof (opData_rewriteUse_root operand
        (createGlobalLoad (nextOpId s' - 1) (opLoc targetOp) g) _ Hnr) as Hd.
      exact Hd.
    + f_equal. f_equal. by rewrite walkData_unfold.
Qed.

Lemma hoistConstExpr_frame_walk operand s s' :
  wfState s →
  hoistConstExpr operand s = Some s' →
  ∃ targetOp g gs inits before target after,
    let load := createGlobalLoad (nextOpId s' - 1) (opLoc targetOp) g in
    lookupOp (getOwner operand) (module s) = Some targetOp
    ∧ module s'
      = insertAtModuleBegin gs
          (insertAtModuleEnd inits (rewriteUse operand load (module s)))
    ∧ Forall (λ o, nextOpId s ≤ opId o) (gs ≫= walkData)
    ∧ Forall (λ o, nextOpId s ≤ opId o) (inits ≫= walkData)
    ∧ Forall (λ o, ∃ symbol type,
                     opKind o = GlobalOp symbol false type Private) gs
    ∧ Forall (λ o, opKind o = InitializerOp) inits
    ∧ nextOpId s ≤ opId load
    ∧ walkData (module s) = before ++ target :: after
    ∧ target = opData targetOp
    ∧ opId target = getOwner operand
    ∧ walkData (rewriteUse operand load (module s))
      = before
        ++ load
        :: mkOperation (opId target) (opKind target)
             (<[getOperandNumber operand := OpResult (opId load) 0]>
                (opOperands target))
             (opResultTypes target) (opLoc target) []
        :: after
    ∧ walkData (module s')
      = opData (module s)
        :: (gs ≫= walkData)
        ++ tail (walkData (rewriteUse operand load (module s)))
        ++ (inits ≫= walkData).
Proof.
  intros Hwf Hs'.
  destruct (hoistConstExpr_shape _ _ _ Hwf Hs')
    as (targetOp & v & g & gs & inits & Hstep).
  destruct (hoistStep_frame_walk _ _ _ _ _ _ _ _ Hwf Hs' Hstep)
    as (before & target & after & Hall).
  by exists targetOp, g, gs, inits, before, target, after.
Qed.

End Frame.

Section Lookup.
Context `{SliceAnalysis}.

Lemma filter_fmap_setOperand id operand v (l : list Operation) :
  filter (λ o, opId o = id) (setOperand operand v <$> l)
  = setOperand operand v <$> filter (λ o, opId o = id) l.
Proof.
  induction l as [|o l IH]; csimpl; [done|].
  rewrite !filter_cons, opId_setOperand.
  case_decide; csimpl; by rewrite IH.
Qed.

(** Looking up an operation that was there before the call: it is found as
    it was, but for the operand that was set. *)
Lemma hoistConstExpr_lookup operand s s' id :
  wfState s →
  hoistConstExpr operand s = Some s' →
  id < nextOpId s →
  head (filter (λ o, opId o = id) (walkData (module s')))
  = setOperand operand (OpResult (nextOpId s' - 1) 0)
    <$> head (filter (λ o, opId o = id) (walkData (module s))).
Proof.
  intros Hwf Hs' Hid.
  destruct (hoistConstExpr_frame_walk _ _ _ Hwf Hs')
    as (targetOp & g & gs & inits & before & target & after & Htarget & Hm
        & Hgs & Hinits & _ & _ & Hload & Hw & Htd & Hown & Hw1 & Hw').
  simpl in *.
  assert (getOwner operand ≠ opId (module s)) as Hnr.
  { destruct (hoistConstExpr_shape _ _ _ Hwf Hs')
      as (? & v & ? & ? & ? & _ & Hv & _).
    by destruct (getOperand_owner _ _ _ (wf_operands _ Hwf) Hv). }
  assert (∃ before', before = opData (module s) :: before') as [before' ->].
  { rewrite walkData_unfold in Hw. destruct before as [|b before].
    - simpl in Hw. injection Hw as Hw _. subst target.
      rewrite opId_opData in Hown. congruence.
    - simpl in Hw. injection Hw as -> _. eauto. }
  rewrite Hw', Hw1. simpl.
  rewrite !filter_cons, !filter_app, !filter_cons, Hw.
  rewrite (filter_new_ids id (gs ≫= walkData) (nextOpId s)) by done.
  rewrite (filter_new_ids id (inits ≫= walkData) (nextOpId s)) by done.
  rewrite (right_id_L [] (++)). simpl.
  rewrite !filter_cons, !filter_app, !filter_cons. simpl.
  rewrite (decide_False (P := nextOpId s' - 1 = id)) by lia.
  assert (∀ l : list Operation,
    Forall (λ d, opBody d = []) l → getOwner operand ∉ opId <$> l →
    head (filter (λ o, opId o = id) l)
    = setOperand operand (OpResult (nextOpId s' - 1) 0)
      <$> head (filter (λ o, opId o = id) l)) as Hsame.
  { intros l Hl Hn. rewrite <-(fmap_setOperand_other operand
      (OpResult (nextOpId s' - 1) 0) l) at 1 by done.
    rewrite filter_fmap_setOperand. by destruct (filter _ l). }
  pose proof (wf_NoDup _ Hwf) as Hnd.
  rewrite <-opIds_walkData, Hw in Hnd. csimpl in Hnd.
  rewrite fmap_app in Hnd. csimpl in Hnd.
  apply NoDup_cons in Hnd as [_ Hnd].
  apply NoDup_app in Hnd as (_ & Hd1 & [Hd2 _]%NoDup_cons).
  pose proof (walkData_leaves (module s)) as Hleaves. rewrite Hw in Hleaves.
  apply Forall_cons in Hleaves as [Hl0 Hleaves].
  apply Forall_app in Hleaves as [Hl1 [Hl2 Hl3]%Forall_cons].
  assert (getOwner operand ∉ opId <$> before') as Hb.
  { intros Hx. apply (Hd1 _ Hx). rewrite Hown. left. }
  assert (getOwner operand ∉ opId <$> after) as Ha by by rewrite <-Hown.
  destruct (decide (opId (module s) = id)) as [Heq|Hne].
  - rewrite !head_cons. cbn [fmap option_fmap option_map]. f_equal.
    symmetry. apply setOperand_leaf_other; [done|].
    rewrite opId_opData. congruence.
  - destruct (filter (λ o, opId o = id) before') as [|b l] eqn:Hfb.
    + rewrite !(left_id_L [] (++)).
      destruct (decide (opId target = id)) as [Ht|Ht].
      * rewrite !head_cons. simpl. f_equal. destruct target. simpl in *.
        rewrite decide_True by done. by rewrite Hl2.
      * by apply Hsame.
    + rewrite <-!app_comm_cons, !head_cons.
      cbn [fmap option_fmap option_map].
      f_equal. symmetry. apply setOperand_leaf_other.
      * assert (b ∈ filter (λ o, opId o = id) before') as Hbin
          by (rewrite Hfb; left).
        apply list_elem_of_filter in Hbin as [_ Hbin].
        rewrite Forall_forall in Hl1. auto.
      * assert (b ∈ filter (λ o, opId o = id) before') as Hbin
          by (rewrite Hfb; left).
        apply list_elem_of_filter in Hbin as [_ Hbin].
        intros Heq. apply Hb. rewrite <-Heq. by apply list_elem_of_fmap_2.
Qed.

(** Reading an operand that was there before the call: the operand the
    call was made on reads the result of the load, any other operand reads
    what it read. *)
Lemma hoistConstExpr_getOperand operand s s' operand' v :
  wfState s →
  hoistConstExpr operand s = Some s' →
  getOperand operand' (module s) = Some v →
  getOperand operand' (module s')
  = Some (if decide (operand' = operand) then OpResult (nextOpId s' - 1) 0
          else v).
Proof.
  intros Hwf Hs' Hv.
  assert (getOwner operand' < nextOpId s) as Hlt.
  { destruct (getOperand_owner _ _ _ (wf_operands _ Hwf) Hv) as [_ Hin].
    by eapply wf_lt. }
  rewrite getOperand_data in Hv |- *.
  rewrite (hoistConstExpr_lookup _ _ _ _ Hwf Hs' Hlt).
  destruct (head (filter _ (walkData (module s)))) as [d|] eqn:Hd; [|done].
  simpl in *. rewrite opOperands_setOperand.
  assert (opId d = getOwner operand') as Hid.
  { apply head_Some_elem_of, list_elem_of_filter in Hd. by destruct Hd. }
  destruct operand as [owner k], operand' as [owner' k']. simpl in *.
  destruct (decide (opId d = owner)) as [Hown|Hown].
  - destruct (decide (k' = k)) as [->|Hk].
    + rewrite decide_True by congruence.
      rewrite list_lookup_insert_eq; [done|]. by eapply lookup_lt_Some.
    + rewrite decide_False by congruence.
      by rewrite list_lookup_insert_ne.
  - rewrite decide_False by congruence. done.
Qed.

(** The operations that were there before the call keep their identity,
    kind and results. *)
Lemma hoistConstExpr_lookupOp operand s s' id op :
  wfState s →
  hoistConstExpr operand s = Some s' →
  lookupOp id (module s) = Some op →
  ∃ op', lookupOp id (module s') = Some op'
         ∧ opData op' = setOperand operand (OpResult (nextOpId s' - 1) 0)
                          (opData op).
Proof.
  intros Hwf Hs' Hop.
  assert (id < nextOpId s) as Hlt.
  { eapply wf_lt; [done|]. by eapply lookupOp_elem_of. }
  pose proof (hoistConstExpr_lookup _ _ _ _ Hwf Hs' Hlt) as Hl.
  rewrite <-!lookupOp_data, Hop in Hl.
  destruct (lookupOp id (module s')) as [op'|]; [|done].
  cbn [fmap option_fmap option_map] in Hl.
  exists op'. split; [done|]. congruence.
Qed.

Lemma hoistConstExpr_getDefiningOp operand s s' v op :
  wfState s →
  hoistConstExpr operand s = Some s' →
  getDefiningOp v (module s) = Some op →
  ∃ op', getDefiningOp v (module s') = Some op'
         ∧ opId op' = opId op ∧ opResultTypes op' = opResultTypes op
         ∧ opKind op' = opKind op ∧ opLoc op' = opLoc op.
Proof.
  intros Hwf Hs'. destruct v as [o i|]; [|done]. simpl.
  destruct (lookupOp o (module s)) as [op0|] eqn:Hop; [|done]. simpl.
  case_decide as Hi; [|done]. intros [= <-].
  destruct (hoistConstExpr_lookupOp _ _ _ _ _ Hwf Hs' Hop)
    as (op' & -> & Hd).
  assert (opId op' = opId op0 ∧ opResultTypes op' = opResultTypes op0
          ∧ opKind op' = opKind op0 ∧ opLoc op' = opLoc op0)
    as (? & Hty & ? & ?).
  { destruct op', op0. simpl in *. by injection Hd as -> -> _ -> ->. }
  exists op'. simpl. rewrite Hty, decide_True by done. done.
Qed.

End Lookup.

(** * Invariants of the walk *)

Lemma elem_of_tail {A} (x : A) (l : list A) : x ∈ tail l → x ∈ l.
Proof. destruct l; [done|]. simpl. by right. Qed.

Section Invariants.
Context `{SliceAnalysis}.

(** The operations of the module after a call: those created by the call,
    and those that were there, with their identity, kind, results and
    location. *)
Lemma hoistConstExpr_ops operand s s' op' :
  wfState s →
  hoistConstExpr operand s = Some s' →
  op' ∈ walkPreOrder (module s') →
  nextOpId s ≤ opId op'
  ∨ ∃ op, op ∈ walkPreOrder (module s)
          ∧ opId op' = opId op ∧ opKind op' = opKind op
          ∧ opResultTypes op' = opResultTypes op ∧ opLoc op' = opLoc op.
Proof.
  intros Hwf Hs' Hin.
  destruct (hoistConstExpr_frame_walk _ _ _ Hwf Hs')
    as (targetOp & g & gs & inits & before & target & after & Htarget & Hm
        & Hgs & Hinits & _ & _ & Hload & Hw & Htd & Hown & Hw1 & Hw').
  simpl in *.
  assert (opData op' ∈ walkData (module s')) as Hd
    by by apply list_elem_of_fmap_2.
  assert (∀ d, d ∈ walkData (module s) → opData op' = d →
    ∃ op, op ∈ walkPreOrder (module s)
          ∧ opId op' = opId op ∧ opKind op' = opKind op
          ∧ opResultTypes op' = opResultTypes op ∧ opLoc op' = opLoc op)
    as Hold.
  { intros d (op & -> & Hop)%list_elem_of_fmap Heq. exists op.
    split; [done|]. destruct op', op. simpl in *.
    by injection Heq as -> -> _ -> ->. }
  rewrite Hw' in Hd.
  apply elem_of_cons in Hd as [Hd|Hd].
  { right. apply (Hold (opData (module s))); [|done].
    rewrite walkData_unfold. left. }
  rewrite !elem_of_app in Hd. destruct Hd as [Hd|[Hd|Hd]].
  - left. rewrite Forall_forall in Hgs. rewrite <-opId_opData. auto.
  - apply elem_of_tail in Hd. rewrite Hw1 in Hd.
    rewrite elem_of_app, !elem_of_cons in Hd.
    destruct Hd as [Hd|[Hd|[Hd|Hd]]].
    + right. apply (Hold (opData op')); [|done].
      rewrite Hw, elem_of_app. by left.
    + left. rewrite <-opId_opData, Hd. done.
    + right. exists targetOp. apply lookupOp_Some in Htarget as [? _].
      split; [done|]. subst target. destruct op', targetOp. simpl in *.
      by injection Hd as -> -> _ -> ->.
    + right. apply (Hold (opData op')); [|done].
      rewrite Hw, elem_of_app. right. by right.
  - left. rewrite Forall_forall in Hinits. rewrite <-opId_opData. auto.
Qed.

Lemma getDefiningOp_Some v m op :
  getDefiningOp v m = Some op →
  op ∈ walkPreOrder m ∧ v ∈ getResults op ∧ lookupOp (opId op) m = Some op.
Proof.
  destruct v as [o i|]; [|done]. simpl.
  destruct (lookupOp o m) as [op0|] eqn:Hop; [|done]. simpl.
  case_decide; [|done]. intros [= <-].
  pose proof Hop as [? <-]%lookupOp_Some. split_and!; [done| |done].
  apply elem_of_getResults. eauto.
Qed.

Lemma getDefiningOp_result m op v :
  NoDup (opIds m) → op ∈ walkPreOrder m → v ∈ getResults op →
  getDefiningOp v m = Some op.
Proof.
  intros Hnd Hin (i & Hi & ->)%elem_of_getResults. simpl.
  rewrite lookupOp_unique by done. simpl. by rewrite decide_True.
Qed.

(** What a call does to the memo table: nothing when the value has a
    global; otherwise every result of the operation defining the value
    gets a global, and no other value does. *)
Lemma hoistConstExpr_hoistedMap operand s s' :
  wfState s →
  hoistConstExpr operand s = Some s' →
  ∃ v, getOperand operand (module s) = Some v
       ∧ is_Some (hoistedMap s' !! v)
       ∧ (is_Some (hoistedMap s !! v) → hoistedMap s' = hoistedMap s)
       ∧ (hoistedMap s !! v = None →
          ∃ rootOp,
            getDefiningOp v (module s) = Some rootOp
            ∧ Forall (λ r, is_Some (hoistedMap s' !! r)) (getResults rootOp)
            ∧ ∀ v', v' ∉ getResults rootOp →
                    hoistedMap s' !! v' = hoistedMap s !! v').
Proof.
  intros Hwf Hs'.
  destruct (hoistConstExpr_shape _ _ _ Hwf Hs')
    as (targetOp & v & g & gs & inits & Htarget & Hv & Hg & Hm & Hnext
        & Hcase).
  exists v. split_and!; [done|by rewrite Hg|..].
  - destruct Hcase as [(_ & _ & _ & ? & _)|(Hnone & _)]; [done|].
    rewrite Hnone. by intros [??].
  - destruct Hcase as [(Hsome & _)|(_ & rootOp & body & Hroot & _ & Hmat)];
      [by rewrite Hsome|].
    intros _. exists rootOp. split_and!; [done|..].
    + apply Forall_forall. intros r (i & Hi & ->)%elem_of_getResults.
      apply lookup_lt_is_Some in Hi as [type Hty].
      destruct (mat_result _ _ _ _ _ _ _ _ Hmat i type Hty)
        as (gid & symbol & cr & _ & -> & _). done.
    + intros v' Hv'. by rewrite (mat_frame _ _ _ _ _ _ _ _ Hmat).
Qed.

Lemma getResults_eq op op' :
  opId op' = opId op → opResultTypes op' = opResultTypes op →
  getResults op' = getResults op.
Proof. unfold getResults. by intros -> ->. Qed.

Lemma hoistConstExpr_hoistedDefined operand s s' :
  wfState s → hoistedDefined s →
  hoistConstExpr operand s = Some s' → hoistedDefined s'.
Proof.
  intros Hwf Hdef Hs' v' Hv'.
  destruct (hoistConstExpr_hoistedMap _ _ _ Hwf Hs')
    as (v & Hv & _ & Hmemo & Hmat).
  assert (is_Some (getDefiningOp v' (module s))) as [op Hop].
  { destruct (hoistedMap s !! v) as [g|] eqn:Hg.
    - apply Hdef. rewrite <-Hmemo by done. done.
    - destruct (Hmat eq_refl) as (rootOp & Hroot & _ & Hframe).
      destruct (decide (v' ∈ getResults rootOp)) as [Hin|Hnin].
      + exists rootOp. apply getDefiningOp_result; [by apply wf_NoDup| |done].
        by apply getDefiningOp_Some in Hroot as (? & _).
      + apply Hdef. by rewrite <-Hframe. }
  destruct (hoistConstExpr_getDefiningOp _ _ _ _ _ Hwf Hs' Hop)
    as (op' & -> & _). done.
Qed.

(** The invariant holds after a call when it held before. *)
Lemma hoistConstExpr_allOrNone operand s s' :
  wfState s → hoistedDefined s → allOrNone s →
  hoistConstExpr operand s = Some s' → allOrNone s'.
Proof.
  intros Hwf Hdef Hinv Hs' op' Hop'.
  destruct (hoistConstExpr_hoistedMap _ _ _ Hwf Hs')
    as (v & Hv & _ & Hmemo & Hmat).
  assert (∀ r, is_Some (hoistedMap s' !! r) →
    ∃ o i, r = OpResult o i ∧ o < nextOpId s) as Hkeys.
  { intros r Hr.
    assert (is_Some (getDefiningOp r (module s))) as [op Hop].
    { destruct (hoistedMap s !! v) as [g|] eqn:Hg.
      - apply Hdef. rewrite <-Hmemo by done. done.
      - destruct (Hmat eq_refl) as (rootOp & Hroot & _ & Hframe).
        destruct (decide (r ∈ getResults rootOp)) as [Hin|Hnin].
        + exists rootOp.
          apply getDefiningOp_result; [by apply wf_NoDup| |done].
          by apply getDefiningOp_Some in Hroot as (? & _).
        + apply Hdef. by rewrite <-Hframe. }
    apply getDefiningOp_Some in Hop as (Hin & (i & _ & ->)%elem_of_getResults
      & _).
    exists (opId op), i. split; [done|].
    eapply wf_lt; [done|]. apply opIds_elem_of. eauto. }
  destruct (hoistConstExpr_ops _ _ _ _ Hwf Hs' Hop')
    as [Hnew|(op & Hop & Hid & _ & Hty & _)].
  - right. apply Forall_forall. intros r (i & _ & ->)%elem_of_getResults.
    destruct (hoistedMap s' !! _) as [g|] eqn:Hg; [|done].
    destruct (Hkeys (OpResult (opId op') i)) as (o & j & [= <- <-] & ?);
      [by rewrite Hg|lia].
  - rewrite (getResults_eq _ _ Hid Hty).
    destruct (hoistedMap s !! v) as [g|] eqn:Hg.
    + rewrite Hmemo by done. by apply Hinv.
    + destruct (Hmat eq_refl) as (rootOp & Hroot & Hall & Hframe).
      apply getDefiningOp_Some in Hroot as (Hrin & _ & Hlook).
      destruct (decide (opId op = opId rootOp)) as [Heq|Hne].
      * left. assert (op = rootOp) as ->; [|done].
        pose proof (lookupOp_unique _ _ (wf_NoDup _ Hwf) Hop) as Hl.
        rewrite Heq, Hlook in Hl. congruence.
      * assert (∀ r, r ∈ getResults op →
          hoistedMap s' !! r = hoistedMap s !! r) as Hsame.
        { intros r (i & _ & ->)%elem_of_getResults. apply Hframe.
          intros (j & _ & [= ? _])%elem_of_getResults. done. }
        destruct (Hinv op Hop) as [Hl|Hr]; [left|right];
          apply Forall_forall; intros r Hr';
          rewrite Forall_forall in *; rewrite Hsame by done; auto.
Qed.

(** The invariants hold in every state the calls lead to. *)
Lemma reachable_allOrNone s0 s :
  wfState s0 → hoistedDefined s0 → allOrNone s0 →
  reachable s0 s → allOrNone s ∧ hoistedDefined s.
Proof.
  intros Hwf Hdef Hinv. induction 1 as [|s operand s' Hr [IH1 IH2] Hs'];
    [done|].
  pose proof (reachable_wf _ _ Hwf Hr) as Hwfs.
  split.
  - by eapply hoistConstExpr_allOrNone.
  - by eapply hoistConstExpr_hoistedDefined.
Qed.

End Invariants.

(** * The layout of the module *)

(** ** Rewriting a use in the body of the module *)

(** What [rewriteUse] does to a list of operations of a block. *)
Lemma opBody_rewriteUse operand load m :
  opBody (rewriteUse operand load m)
  = map (setOperand operand (OpResult (opId load) 0))
      (opBody m ≫= λ c, if decide (opId c = getOwner operand) then [load; c]
                        else [insertBefore (getOwner operand) load c]).
Proof. by destruct m. Qed.

Lemma opId_insertBefore target newOp op :
  opId (insertBefore target newOp op) = opId op.
Proof. by destruct op. Qed.

Lemma opKind_insertBefore target newOp op :
  opKind (insertBefore target newOp op) = opKind op.
Proof. by destruct op. Qed.

Lemma opOperands_insertBefore target newOp op :
  opOperands (insertBefore target newOp op) = opOperands op.
Proof. by destruct op. Qed.

Lemma opSymbol_kind o o' : opKind o' = opKind o → opSymbol o' = opSymbol o.
Proof. unfold opSymbol. by intros ->. Qed.

(** The operations of the rewritten block: the load, if the consumer is in
    the block, and the operations that were there, with their identity and
    kind, and with their operands unless they are the consumer. *)
Lemma rewriteUse_block (P : Operation → Prop) operand load
    (ops : list Operation) :
  (getOwner operand ∈ opId <$> ops →
   P (setOperand operand (OpResult (opId load) 0) load)) →
  (∀ c c', c ∈ ops → opId c' = opId c → opKind c' = opKind c →
           (opId c ≠ getOwner operand → opOperands c' = opOperands c) →
           P c') →
  Forall P
    (map (setOperand operand (OpResult (opId load) 0))
       (ops ≫= λ c, if decide (opId c = getOwner operand) then [load; c]
                    else [insertBefore (getOwner operand) load c])).
Proof.
  intros Hload Hold. induction ops as [|c ops IH]; csimpl; [constructor|].
  rewrite map_app. apply Forall_app. split.
  - case_decide as Hc; simpl.
    + constructor; [apply Hload; rewrite <-Hc; left|].
      constructor; [|constructor].
      apply (Hold c); [left|apply opId_setOperand|apply opKind_setOperand|].
      congruence.
    + constructor; [|constructor]. apply (Hold c); [left|..].
      * by rewrite opId_setOperand, opId_insertBefore.
      * by rewrite opKind_setOperand, opKind_insertBefore.
      * intros _. rewrite opOperands_setOperand, opId_insertBefore.
        rewrite decide_False by done. apply opOperands_insertBefore.
  - apply IH; [intros Hin; apply Hload; by right|].
    intros c0 c' Hc0. apply Hold. by right.
Qed.

(** A block without the consumer is left alone. *)
Lemma rewriteUse_block_notin operand load (ops : list Operation) :
  getOwner operand ∉ ops ≫= opIds →
  map (setOperand operand (OpResult (opId load) 0))
    (ops ≫= λ c, if decide (opId c = getOwner operand) then [load; c]
                 else [insertBefore (getOwner operand) load c])
  = ops.
Proof.
  intros Hn. rewrite bind_insertBefore_notin by done.
  by apply map_setOperand_notin.
Qed.

Lemma rewriteUse_block_app operand load (ops1 ops2 : list Operation) :
  map (setOperand operand (OpResult (opId load) 0))
    ((ops1 ++ ops2) ≫= λ c, if decide (opId c = getOwner operand)
                            then [load; c]
                            else [insertBefore (getOwner operand) load c])
  = map (setOperand operand (OpResult (opId load) 0))
      (ops1 ≫= λ c, if decide (opId c = getOwner operand) then [load; c]
                    else [insertBefore (getOwner operand) load c])
    ++ map (setOperand operand (OpResult (opId load) 0))
         (ops2 ≫= λ c, if decide (opId c = getOwner operand) then [load; c]
                       else [insertBefore (getOwner operand) load c]).
Proof. by rewrite bind_app, map_app. Qed.

(** An element of the rewritten block is the load or comes from an element
    of the block. *)
Lemma rewriteUse_block_elem_of operand load (ops : list Operation) c' :
  c' ∈ map (setOperand operand (OpResult (opId load) 0))
         (ops ≫= λ c, if decide (opId c = getOwner operand) then [load; c]
                      else [insertBefore (getOwner operand) load c]) →
  c' = setOperand operand (OpResult (opId load) 0) load
  ∨ ∃ c, c ∈ ops ∧ opId c' = opId c ∧ opKind c' = opKind c.
Proof.
  intros Hin.
  pose proof (rewriteUse_block
    (λ c', c' = setOperand operand (OpResult (opId load) 0) load
           ∨ ∃ c, c ∈ ops ∧ opId c' = opId c ∧ opKind c' = opKind c)
    operand load ops) as Hall.
  rewrite Forall_forall in Hall. apply Hall; [by left| |done].
  intros c c0 ????. right. eauto.
Qed.

(** ** The layout is kept by [hoistConstExpr] *)

Section LayoutStep.
Context `{SliceAnalysis}.

(** An operation of the body of the module without operands is not the
    consumer. *)
Lemma owner_not_leaf operand s v (ops : list Operation) :
  wfState s →
  getOperand operand (module s) = Some v →
  (∀ o, o ∈ ops → o ∈ opBody (module s)) →
  Forall (λ o, opOperands o = []) ops →
  getOwner operand ∉ opId <$> ops.
Proof.
  intros Hwf Hv Hsub Hall (o & Hid & Ho)%list_elem_of_fmap.
  rewrite Forall_forall in Hall. pose proof (Hall _ Ho) as Hnil.
  assert (lookupOp (opId o) (module s) = Some o) as Hlk.
  { apply lookupOp_unique; [by apply wf_NoDup|].
    eapply elem_of_walk_child; [by apply Hsub|apply elem_of_walk_self]. }
  unfold getOperand in Hv. rewrite Hid, Hlk in Hv. simpl in Hv.
  by rewrite Hnil in Hv.
Qed.

Lemma opSymbol_hoistedGlobal gid symbol type loc :
  opSymbol (hoistedGlobal gid symbol type loc) = Some symbol.
Proof. done. Qed.

Lemma globalSymbol_opSymbol g symbol :
  opSymbol g = Some symbol →
  (∃ gid symbol' type loc, g = hoistedGlobal gid symbol' type loc) →
  globalSymbol g = symbol.
Proof. intros Hs (?&?&?&?&->). by injection Hs as <-. Qed.

(** The layout after a call: the globals created come first, the
    initializer created comes last. *)
Lemma hoistConstExpr_Layout next0 operand s s' gs mid inits
    targetOp v g gsN initsN :
  wfState s → next0 ≤ nextOpId s →
  Layout next0 s gs mid inits →
  hoistConstExpr operand s = Some s' →
  hoistStep operand s s' targetOp v g gsN initsN →
  ∃ mid' inits',
    Layout next0 s' (gsN ++ gs) mid' (inits' ++ initsN)
    ∧ opId <$> inits' = opId <$> inits
    ∧ length mid ≤ length mid'.
Proof.
  intros Hwf Hn0 Hlay Hs'
    (Htarget & Hv & Hg & Hm & Hnext & Hcase).
  pose proof (hoistConstExpr_new_ids _ _ _ _ _ _ _ Hwf Hs' Hm) as Hids.
  destruct Hlay as [Hbody Hgs Hmid Hinits Hhoisted Hnd Hknown Hother].
  set (load := createGlobalLoad (nextOpId s' - 1) (opLoc targetOp) g) in *.
  set (RW := λ ops : list Operation,
    map (setOperand operand (OpResult (opId load) 0))
      (ops ≫= λ c, if decide (opId c = getOwner operand) then [load; c]
                   else [insertBefore (getOwner operand) load c])).
  assert (RW gs = gs) as HRWgs.
  { apply rewriteUse_block_notin.
    assert (gs ≫= opIds = opId <$> gs) as ->.
    { clear -Hgs. induction Hgs as [|g0 gs (?&?&?&?&->&_) _ IH]; [done|].
      csimpl. by rewrite IH. }
    eapply owner_not_leaf; [done..| |].
    - intros o Ho. rewrite Hbody. apply elem_of_app. by left.
    - eapply Forall_impl; [done|]. by intros ? (?&?&?&?&->&_). }
  assert (getOwner operand ∉ opId <$> inits) as Hninits.
  { eapply owner_not_leaf; [done..| |].
    - intros o Ho. rewrite Hbody, !elem_of_app. auto.
    - eapply Forall_impl; [done|]. by intros ? (?&?&?). }
  assert (opBody (module s') = (gsN ++ gs) ++ RW mid ++ (RW inits ++ initsN))
    as Hbody'.
  { rewrite Hm. simpl. rewrite opBody_rewriteUse, Hbody.
    fold (RW (gs ++ mid ++ inits)). unfold RW at 1.
    rewrite !rewriteUse_block_app. fold (RW gs) (RW mid) (RW inits).
    rewrite HRWgs. by rewrite <-!(assoc_L (++)). }
  assert (Forall (λ g, ∃ gid symbol type loc,
            g = hoistedGlobal gid symbol type loc ∧ nextOpId s ≤ gid) gsN
          ∧ Forall (λ o, opKind o = InitializerOp ∧ opOperands o = []
                         ∧ nextOpId s ≤ opId o) initsN
          ∧ NoDup (globalSymbol <$> gsN)
          ∧ (∀ g, g ∈ gsN → globalSymbol g ∉ symbolNames (moduleSymbols s))
          ∧ symbolNames (moduleSymbols s')
            = list_to_set (globalSymbol <$> gsN)
              ∪ symbolNames (moduleSymbols s)
          ∧ (∀ v g, hoistedMap s' !! v = Some g →
                    g ∈ gsN ∨ hoistedMap s !! v = Some g))
    as (HgsN & HinitsN & HndN & HfreshN & Hsyms & Hmap).
  { destruct Hcase as [(Hsome & -> & -> & Hh & Hsy & _)
                      |(Hnone & rootOp & body & Hroot & -> & Hmat)].
    - split_and!; [constructor..| | |].
      + by intros ? ?%elem_of_nil.
      + rewrite Hsy. simpl. clear. set_solver.
      + intros ??. rewrite Hh. auto.
    - pose proof (Materialized_globals _ _ _ _ _ _ _ _ Hmat) as Hglob.
      split_and!.
      + apply Forall_forall. intros g0 Hg0.
        rewrite Forall_forall in Hglob.
        destruct (Hglob _ Hg0) as (gid & symbol & type & ->).
        exists gid, symbol, type, (opLoc rootOp). split; [done|].
        rewrite Forall_forall in Hids.
        assert (gid ∈ (gsN ≫= opIds) ++ ([mkOperation (nextOpId s)
          InitializerOp [] [] (opLoc rootOp) body] ≫= opIds)) as Hin.
        { apply elem_of_app. left. apply list_elem_of_bind.
          eexists. split; [|done]. rewrite opIds_unfold. left. }
        apply Hids in Hin. lia.
      + constructor; [|constructor]. done.
      + apply (mat_symbols_NoDup _ _ _ _ _ _ _ _ Hmat).
      + intros g0 [i Hg0]%list_elem_of_lookup.
        assert (is_Some (opResultTypes rootOp !! i)) as [type Hty].
        { apply lookup_lt_is_Some.
          rewrite <-(mat_length _ _ _ _ _ _ _ _ Hmat).
          by eapply lookup_lt_Some. }
        destruct (mat_result _ _ _ _ _ _ _ _ Hmat i type Hty)
          as (gid & symbol & cr & Hgi & _ & Hfresh & _).
        rewrite Hg0 in Hgi. injection Hgi as ->. done.
      + apply (mat_symbols _ _ _ _ _ _ _ _ Hmat).
      + intros v' g' Hg'.
        destruct (decide (v' ∈ getResults rootOp)) as [Hin|Hnin].
        * left. apply elem_of_getResults in Hin as (i & Hi & ->).
          apply lookup_lt_is_Some in Hi as [type Hty].
          destruct (mat_result _ _ _ _ _ _ _ _ Hmat i type Hty)
            as (gid & symbol & cr & Hgi & Hh & _).
          rewrite Hh in Hg'. injection Hg' as <-.
          by eapply list_elem_of_lookup_2.
        * right.
          by rewrite (mat_frame _ _ _ _ _ _ _ _ Hmat) in Hg'. }
  assert (∀ ops o', o' ∈ RW ops →
            opSymbol o' = None
            ∨ ∃ o, o ∈ ops ∧ opId o' = opId o ∧ opKind o' = opKind o)
    as HRW.
  { intros ops o' [->|(o & ? & ? & ?)]%rewriteUse_block_elem_of;
      [by left|right; eauto]. }
  exists (RW mid), (RW inits). split_and!.
  - split.
    + by rewrite Hbody', <-!(assoc_L (++)).
    + apply Forall_app. split; [|done].
      eapply Forall_impl; [done|]. intros ? (?&?&?&?&->&?).
      do 4 eexists. split; [done|lia].
    + apply rewriteUse_block.
      * intros _. right. by eexists.
      * intros c c' Hc Hid Hk _. rewrite Forall_forall in Hmid.
        rewrite Hid, Hk. auto.
    + apply Forall_app. split.
      * apply rewriteUse_block; [done|].
        intros c c' Hc Hid Hk Hops. rewrite Forall_forall in Hinits.
        destruct (Hinits _ Hc) as (? & ? & ?).
        rewrite Hid, Hk, Hops; [done|]. intros Heq. apply Hninits.
        rewrite <-Heq. by apply list_elem_of_fmap_2.
      * eapply Forall_impl; [done|]. intros ? (?&?&?). split_and!; auto. lia.
    + intros v' g' [Hin|Hold]%Hmap; apply elem_of_app; eauto.
    + rewrite fmap_app. apply NoDup_app. split_and!; [done| |done].
      intros symbol (g1 & -> & Hg1)%list_elem_of_fmap
        (g2 & Heq & Hg2)%list_elem_of_fmap.
      apply (HfreshN _ Hg1). rewrite Heq. apply (Hknown g2).
      * rewrite Hbody. apply elem_of_app. by left.
      * rewrite Forall_forall in Hgs.
        by destruct (Hgs _ Hg2) as (?&?&?&?&->&_).
    + intros o symbol Ho Hsym. rewrite Hsyms. apply elem_of_union.
      rewrite Hbody' in Ho.
      apply elem_of_app in Ho as [[Ho|Ho]%elem_of_app|Ho].
      * left. apply elem_of_list_to_set, list_elem_of_fmap.
        exists o. split; [|done]. rewrite Forall_forall in HgsN.
        destruct (HgsN _ Ho) as (?&?&?&?&->&_). by injection Hsym as <-.
      * right. apply (Hknown o); [|done]. rewrite Hbody.
        apply elem_of_app. by left.
      * right. apply elem_of_app in Ho as [Ho|[Ho|Ho]%elem_of_app].
        -- apply HRW in Ho as [Hno|(o0 & Ho0 & _ & Hk)]; [congruence|].
           apply (Hknown o0).
           ++ rewrite Hbody, !elem_of_app. auto.
           ++ by rewrite <-(opSymbol_kind _ _ Hk).
        -- apply HRW in Ho as [Hno|(o0 & Ho0 & _ & Hk)]; [congruence|].
           apply (Hknown o0).
           ++ rewrite Hbody, !elem_of_app. auto.
           ++ by rewrite <-(opSymbol_kind _ _ Hk).
        -- rewrite Forall_forall in HinitsN.
           destruct (HinitsN _ Ho) as (Hk & _). unfold opSymbol in Hsym.
           by rewrite Hk in Hsym.
    + intros o symbol Ho Hsym.
      assert (opSymbol o = None
              ∨ ∃ o0, o0 ∈ mid ++ inits ∧ opKind o = opKind o0) as Hsrc.
      { apply elem_of_app in Ho as [Ho|[Ho|Ho]%elem_of_app].
        - apply HRW in Ho as [?|(o0 & ? & _ & ?)]; [by left|right].
          exists o0. rewrite elem_of_app. auto.
        - apply HRW in Ho as [?|(o0 & ? & _ & ?)]; [by left|right].
          exists o0. rewrite elem_of_app. auto.
        - left. rewrite Forall_forall in HinitsN.
          destruct (HinitsN _ Ho) as (Hk & _). unfold opSymbol.
          by rewrite Hk. }
      destruct Hsrc as [?|(o0 & Ho0 & Hk)]; [congruence|].
      rewrite (opSymbol_kind _ _ Hk) in Hsym.
      rewrite fmap_app. intros [Hin|Hin]%elem_of_app.
      * apply list_elem_of_fmap in Hin as (g1 & -> & Hg1).
        apply (HfreshN _ Hg1). apply (Hknown o0); [|done].
        rewrite Hbody. apply elem_of_app. by right.
      * by apply (Hother o0 symbol).
  - unfold RW. clear -Hninits.
    induction inits as [|c inits IH]; [done|]. csimpl.
    rewrite fmap_cons, not_elem_of_cons in Hninits.
    destruct Hninits as [Hc Hninits]. rewrite decide_False by done. simpl.
    rewrite opId_setOperand, opId_insertBefore. f_equal. by apply IH.
  - unfold RW. rewrite length_map. clear.
    induction mid as [|c mid IH]; [done|]. csimpl. rewrite length_app.
    case_decide; simpl; lia.
Qed.

End LayoutStep.

(** * The walk goes through reachable states *)

Section Walk.
Context `{SliceAnalysis} `{ConstExprOracle}.

Lemma forEach_reachable {A} (body : PassState → A → option PassState) s l s' :
  (∀ s a s', body s a = Some s' → reachable s s') →
  forEach body s l = Some s' → reachable s s'.
Proof.
  intros Hbody. revert s. induction l as [|a l IH]; intros s; simpl.
  - intros [= <-]. constructor.
  - destruct (body s a) as [s1|] eqn:Hs1; [|done]. simpl. intros Hs'.
    eapply reachable_trans; eauto.
Qed.

Lemma visitUse_reachable constExprs s operand s' :
  visitUse constExprs s operand = Some s' → reachable s s'.
Proof.
  unfold visitUse.
  destruct (match lookup constExprs (getOwner operand) with
            | Some info => _ | None => _ end).
  { intros [= <-]. constructor. }
  destruct (negb _).
  { intros [= <-]. constructor. }
  intros Hs'. eapply reachable_hoist; [constructor|done].
Qed.

Lemma visitResult_reachable constExprs s v s' :
  visitResult constExprs s v = Some s' → reachable s s'.
Proof. apply forEach_reachable, visitUse_reachable. Qed.

Lemma visitOp_reachable constExprs s iterOp s' :
  visitOp constExprs s iterOp = Some s' → reachable s s'.
Proof.
  unfold visitOp. destruct (lookup _ _) as [info|].
  2:{ intros [= <-]. constructor. }
  destruct (_ || _). { intros [= <-]. constructor. }
  destruct (negb _). { intros [= <-]. constructor. }
  apply forEach_reachable, visitResult_reachable.
Qed.

Lemma walkModule_reachable constExprs s s' :
  walkModule constExprs s = Some s' → reachable s s'.
Proof. apply forEach_reachable, visitOp_reachable. Qed.

End Walk.

Lemma initialState_allOrNone m next : allOrNone (initialState m next).
Proof.
  intros op _. right. apply Forall_forall. intros v _. apply lookup_empty.
Qed.

Lemma initialState_hoistedDefined m next : hoistedDefined (initialState m next).
Proof. intros v [g Hg]. simpl in Hg. by rewrite lookup_empty in Hg. Qed.

(** * [hoistConstExpr] returns *)

(** The loop over the results of the root goes through when the clone has
    mapped every result. *)
Lemma hoistResults_total loc mapper results g0 :
  Forall (λ r, is_Some (valueMap mapper !! r.1)) results →
  is_Some (forEach (hoistResult loc mapper) g0 results).
Proof.
  intros Hall. revert g0.
  induction Hall as [|[r type] results [cr Hcr] _ IH]; intros g0; [done|].
  rewrite forEach_cons. simpl in Hcr.
  destruct (hoistResult loc mapper g0 (r, type)) as [g1|] eqn:Hg1;
    [apply IH|].
  unfold hoistResult in Hg1. rewrite Hcr in Hg1. simpl in Hg1.
  by destruct (SymbolTable_insert "hoisted" (gbSymbols g0)).
Qed.

Section Total.
Context `{SliceAnalysis}.

Lemma createInitializer_getDefiningOp loc s v rootOp :
  wfState s →
  getDefiningOp v (module s) = Some rootOp →
  getDefiningOp v (module (createInitializer loc s)) = Some rootOp.
Proof.
  intros [_ _ _ _ Hres]. destruct v as [o i|]; [|done]. simpl.
  destruct (decide (o = opId (module s))) as [->|Hne].
  - rewrite lookupOp_root. simpl. rewrite Hres. simpl. done.
  - rewrite !lookupOp_not_root by done. simpl.
    rewrite bind_app, filter_app.
    destruct (filter _ (opBody (module s) ≫= walkPreOrder)) as [|op l];
      done.
Qed.

Lemma cloneConstExprInto_total initializerOp v s :
  is_Some (getDefiningOp v (module s)) →
  is_Some (cloneConstExprInto initializerOp v s).
Proof.
  intros [rootOp Hroot]. unfold cloneConstExprInto. rewrite Hroot. simpl.
  destruct (clone rootOp _ _) as [[clonedRootOp mapper] next] eqn:Hc.
  destruct (hoistResults_total (opLoc clonedRootOp) mapper
    (getResultsWithTypes rootOp)
    (mkGlobalBuilder [] [] (hoistedMap s) (moduleSymbols s) next))
    as [g Hg]; [|by rewrite Hg].
  apply Forall_forall. intros [r type] [i Hi]%list_elem_of_lookup.
  rewrite getResultsWithTypes_lookup in Hi.
  destruct (opResultTypes rootOp !! i) as [type'|] eqn:Hty; [|done].
  injection Hi as <- <-. simpl.
  pose proof (clone_maps_result_is_Some rootOp
    (cloneMap (cloneSlice s rootOp)) (initNext (cloneSlice s rootOp)) i)
    as Hm.
  rewrite Hc in Hm. apply Hm. by eapply lookup_lt_Some.
Qed.

(** [hoistConstExpr] returns on an operand that reads a result of an
    operation of the module: no assertion of the source fails. *)
Lemma hoistConstExpr_total operand s v :
  wfState s →
  getOperand operand (module s) = Some v →
  is_Some (getDefiningOp v (module s)) →
  is_Some (hoistConstExpr operand s).
Proof.
  intros Hwf Hv [rootOp Hroot]. unfold hoistConstExpr.
  pose proof Hv as Hv'. unfold getOperand in Hv'.
  destruct (lookupOp (getOwner operand) (module s)) as [targetOp|]; [|done].
  simpl. rewrite Hv. simpl.
  destruct (hoistedMap s !! v) as [g|] eqn:Hg; simpl.
  { rewrite Hg. done. }
  rewrite (getLoc_definingOp _ _ _ Hroot).
  pose proof (createInitializer_getDefiningOp (opLoc rootOp) _ _ _ Hwf Hroot)
    as Hroot'.
  destruct (cloneConstExprInto_total
    (mkOperation (nextOpId s) InitializerOp [] [] (opLoc rootOp) []) v
    (createInitializer (opLoc rootOp) s)) as [s1 Hs1]; [by eexists|].
  rewrite Hs1. simpl.
  apply cloneConstExprInto_spec in Hs1
    as (rootOp' & gs & body & Hroot'' & _ & Hmat).
  rewrite Hroot' in Hroot''. injection Hroot'' as <-.
  apply getDefiningOp_Some in Hroot as (_ & Hin & _).
  apply elem_of_getResults in Hin as (i & Hi & ->).
  apply lookup_lt_is_Some in Hi as [type Hty].
  destruct (mat_result _ _ _ _ _ _ _ _ Hmat i type Hty)
    as (gid & symbol & cr & _ & -> & _). done.
Qed.

End Total.

(** * What the walk rewrites *)

(** ** The uses of a value *)

Lemma opOperandSlots_fst op :
  (opOperandSlots op).*1
  = (λ k, mkOpOperand (opId op) k) <$> seq 0 (length (opOperands op)).
Proof.
  unfold opOperandSlots. apply list_eq. intros k.
  rewrite !list_lookup_fmap, list_lookup_imap.
  destruct (opOperands op !! k) as [v|] eqn:Hk; simpl.
  - rewrite lookup_seq_lt by by eapply lookup_lt_Some. done.
  - apply lookup_ge_None in Hk. by rewrite lookup_seq_ge.
Qed.

Lemma elem_of_opOperandSlots op operand v :
  (operand, v) ∈ opOperandSlots op
  ↔ getOwner operand = opId op
    ∧ opOperands op !! getOperandNumber operand = Some v.
Proof.
  unfold opOperandSlots. rewrite list_elem_of_lookup. split.
  - intros [k Hk]. rewrite list_lookup_imap in Hk.
    destruct (opOperands op !! k) as [v'|] eqn:Hv; [|done].
    injection Hk as <- <-. done.
  - intros [Hown Hv]. exists (getOperandNumber operand).
    rewrite list_lookup_imap, Hv. simpl. destruct operand. simpl in *.
    by subst.
Qed.

(** The operand slots of a module are distinct. *)
Lemma NoDup_operandSlots (ops : list Operation) :
  NoDup (opId <$> ops) → NoDup ((ops ≫= opOperandSlots).*1).
Proof.
  induction ops as [|op ops IH]; csimpl; [constructor|].
  intros [Hop Hnd]%NoDup_cons. rewrite fmap_app. apply NoDup_app.
  split_and!; [| |by apply IH].
  - rewrite opOperandSlots_fst. apply NoDup_fmap_2; [|apply NoDup_seq].
    by intros ?? [=].
  - intros operand Hin1 Hin2. apply Hop.
    apply list_elem_of_fmap in Hin1 as ([u v] & -> & Hin1).
    apply elem_of_opOperandSlots in Hin1 as [Hown _].
    apply list_elem_of_fmap in Hin2 as ([u' v'] & Heq & Hin2).
    apply list_elem_of_bind in Hin2 as (op' & Hin2 & Hop').
    apply elem_of_opOperandSlots in Hin2 as [Hown' _].
    simpl in *. subst u'. rewrite Hown in Hown'. rewrite Hown'.
    by apply list_elem_of_fmap_2.
Qed.

(** The uses of a value are the operands that read it, each once. *)
Lemma elem_of_getUses v m operand :
  NoDup (opIds m) →
  operand ∈ getUses v m ↔ getOperand operand m = Some v.
Proof.
  intros Hnd. unfold getUses, getOperand. split.
  - intros ([u v'] & -> & [Hv Hin]%list_elem_of_filter)%list_elem_of_fmap.
    simpl in *. subst v'.
    apply list_elem_of_bind in Hin as (op & Hin & Hop).
    apply elem_of_opOperandSlots in Hin as [Hown Hv].
    rewrite Hown, lookupOp_unique by done. done.
  - destruct (lookupOp _ m) as [op|] eqn:Hop; [|done]. simpl. intros Hv.
    apply lookupOp_Some in Hop as [Hin Hid].
    apply list_elem_of_fmap. exists (operand, v). split; [done|].
    apply list_elem_of_filter. split; [done|].
    apply list_elem_of_bind. exists op. split; [|done].
    by apply elem_of_opOperandSlots.
Qed.

Lemma NoDup_getUses v m : NoDup (opIds m) → NoDup (getUses v m).
Proof.
  intros Hnd. unfold getUses.
  eapply sublist_NoDup; [by apply NoDup_operandSlots|].
  apply fmap_sublist, sublist_filter.
Qed.

Section WalkSpec.
Context `{SliceAnalysis} `{ConstExprOracle}.

Lemma visitUse_unfold constExprs s operand :
  visitUse constExprs s operand
  = if isEscape constExprs operand then hoistConstExpr operand s else Some s.
Proof.
  unfold visitUse, isEscape.
  destruct (match lookup constExprs (getOwner operand) with
            | Some _ => _ | None => _ end); [done|].
  by destruct (isHoistableConstExprConsumingOperand operand).
Qed.

Lemma rewritten_mono n n' m operand :
  n' ≤ n → rewritten n m operand → rewritten n' m operand.
Proof.
  intros Hle (l & loadOp & symbol & Hl & ?). exists l, loadOp, symbol.
  split; [lia|done].
Qed.

(** An operation of the module is found again after a call. *)
Lemma reachable_getDefiningOp s s' v op :
  wfState s → reachable s s' →
  getDefiningOp v (module s) = Some op →
  ∃ op', getDefiningOp v (module s') = Some op' ∧ opId op' = opId op.
Proof.
  intros Hwf Hr Hv. induction Hr as [|s1 operand s2 Hr IH Hs2]; [eauto|].
  destruct IH as (op1 & Hop1 & Hid1).
  destruct (hoistConstExpr_getDefiningOp _ _ _ _ _
    (reachable_wf _ _ Hwf Hr) Hs2 Hop1) as (op' & -> & Hid & _).
  exists op'. split; [done|congruence].
Qed.

Lemma visitOp_unfold constExprs s iterOp :
  visitOp constExprs s iterOp
  = if isHoistableLeaf constExprs (opId iterOp)
    then forEach (visitResult constExprs) s (getResults iterOp)
    else Some s.
Proof.
  unfold visitOp, isHoistableLeaf.
  destruct (lookup constExprs (opId iterOp)) as [info|]; [|done].
  by destruct (isRoot info), (isConstExpr info),
    (isHoistableConstExprLeaf info).
Qed.

(** The walk as one loop over the results of the operations it does not
    skip. *)
Lemma forEach_visitOp constExprs s (ops : list Operation) :
  forEach (visitOp constExprs) s ops
  = forEach (visitResult constExprs) s
      (ops ≫= λ iterOp, if isHoistableLeaf constExprs (opId iterOp)
                        then getResults iterOp else []).
Proof.
  revert s. induction ops as [|op ops IH]; intros s; [done|].
  csimpl. rewrite forEach_app, visitOp_unfold.
  destruct (isHoistableLeaf constExprs (opId op)); simpl; [|apply IH].
  destruct (forEach _ s (getResults op)); simpl; [apply IH|done].
Qed.

Lemma NoDup_visited_results (P : OpId → bool) (ops : list Operation) :
  NoDup (opId <$> ops) →
  NoDup (ops ≫= λ iterOp, if P (opId iterOp) then getResults iterOp else []).
Proof.
  induction ops as [|op ops IH]; csimpl; [constructor|].
  intros [Hop Hnd]%NoDup_cons. apply NoDup_app. split_and!; [| |by apply IH].
  - destruct (P (opId op)); [apply NoDup_getResults|constructor].
  - intros v Hv1 Hv2. apply Hop.
    destruct (P (opId op)); [|by apply elem_of_nil in Hv1].
    apply elem_of_getResults in Hv1 as (i & _ & ->).
    apply list_elem_of_bind in Hv2 as (op' & Hv2 & Hop').
    destruct (P (opId op')); [|by apply elem_of_nil in Hv2].
    apply elem_of_getResults in Hv2 as (i' & _ & [= -> _]).
    by apply list_elem_of_fmap_2.
Qed.

(** A call makes its operand read a new load, and leaves the other
    operands and the loads they read alone. *)
Lemma hoistConstExpr_rewritten operand s s' :
  wfState s →
  hoistConstExpr operand s = Some s' →
  rewritten (nextOpId s) (module s') operand
  ∧ (∀ operand' x, operand' ≠ operand →
       getOperand operand' (module s) = Some x →
       getOperand operand' (module s') = Some x)
  ∧ (∀ n operand', operand' ≠ operand →
       rewritten n (module s) operand' →
       rewritten n (module s') operand').
Proof.
  intros Hwf Hs'.
  pose proof (hoistConstExpr_wf _ _ _ Hwf Hs') as Hwf'.
  assert (∀ operand' x, operand' ≠ operand →
    getOperand operand' (module s) = Some x →
    getOperand operand' (module s') = Some x) as Hother.
  { intros operand' x Hne Hx.
    rewrite (hoistConstExpr_getOperand _ _ _ _ _ Hwf Hs' Hx).
    by rewrite decide_False. }
  split_and!; [|done|].
  - destruct (hoistConstExpr_frame_walk _ _ _ Hwf Hs')
      as (targetOp & g & gs & inits & before & target & after & Htarget & Hm
          & _ & _ & _ & _ & Hload & Hw & Htd & Hown & Hw1 & Hw').
    destruct (hoistConstExpr_shape _ _ _ Hwf Hs')
      as (targetOp' & v & g' & gs' & inits' & _ & Hv & _).
    simpl in *.
    assert (createGlobalLoad (nextOpId s' - 1) (opLoc targetOp) g
            ∈ walkData (module s')) as Hin.
    { rewrite Hw', Hw1. right. rewrite !elem_of_app. right. left.
      destruct before as [|d before].
      - destruct (getOperand_owner _ _ _ (wf_operands _ Hwf) Hv) as [Hnr _].
        rewrite walkData_unfold in Hw. simpl in Hw. injection Hw as Hd _.
        destruct Hnr. rewrite <-Hown, <-Hd. done.
      - simpl. rewrite elem_of_app, elem_of_cons. auto. }
    apply list_elem_of_fmap in Hin as (loadOp & Hd & Hin).
    exists (nextOpId s' - 1), loadOp, (globalSymbol g). split_and!.
    + done.
    + rewrite (hoistConstExpr_getOperand _ _ _ _ _ Hwf Hs' Hv).
      by rewrite decide_True.
    + replace (nextOpId s' - 1) with (opId loadOp).
      * apply lookupOp_unique; [by apply wf_NoDup|done].
      * rewrite <-opId_opData, <-Hd. done.
    + destruct loadOp. simpl in *. by injection Hd as _ -> _.
  - intros n operand' Hne (l & loadOp & symbol & Hl & Hread & Hlook & Hkind).
    destruct (hoistConstExpr_lookupOp _ _ _ _ _ Hwf Hs' Hlook)
      as (loadOp' & Hlook' & Hd).
    exists l, loadOp', symbol. split_and!; auto.
    destruct loadOp', loadOp. simpl in *. by injection Hd as _ -> _.
Qed.

(** The loop over the uses of a value: the uses that are escapes are
    rewritten, the other operands read what they read. *)
Lemma forEach_visitUse_spec constExprs v uses s :
  wfState s → NoDup uses →
  (∀ u, u ∈ uses → getOperand u (module s) = Some v) →
  is_Some (getDefiningOp v (module s)) →
  ∃ s', forEach (visitUse constExprs) s uses = Some s'
        ∧ reachable s s'
        ∧ (∀ u x, getOperand u (module s) = Some x →
             if bool_decide (u ∈ uses) && isEscape constExprs u
             then rewritten (nextOpId s) (module s') u
             else getOperand u (module s') = Some x)
        ∧ (∀ n u, u ∉ uses → rewritten n (module s) u →
                  rewritten n (module s') u).
Proof.
  intros Hwf Hnd. revert s Hwf.
  induction Hnd as [|u0 uses Hu0 Hnd IH]; intros s Hwf Hread Hdef.
  { exists s. split_and!; [done|constructor| |done].
    intros u x Hx. by rewrite bool_decide_false by apply not_elem_of_nil. }
  rewrite forEach_cons, visitUse_unfold.
  destruct (isEscape constExprs u0) eqn:Hesc.
  - destruct (hoistConstExpr_total u0 s v Hwf (Hread u0 ltac:(left)) Hdef)
      as [s1 Hs1].
    rewrite Hs1. simpl.
    destruct (hoistConstExpr_rewritten _ _ _ Hwf Hs1) as (Hrw & Hoth & Hpers).
    pose proof (hoistConstExpr_wf _ _ _ Hwf Hs1) as Hwf1.
    pose proof (hoistConstExpr_next _ _ _ Hs1 Hwf) as Hnext.
    destruct (IH s1 Hwf1) as (s' & Hs' & Hr & Hspec & Hp).
    { intros u Hu. apply Hoth; [by intros ->|]. apply Hread. by right. }
    { destruct Hdef as [op Hop].
      destruct (hoistConstExpr_getDefiningOp _ _ _ _ _ Hwf Hs1 Hop)
        as (op' & -> & _). done. }
    exists s'. split_and!; [done| | |].
    + eapply reachable_trans; [|done].
      eapply reachable_hoist; [constructor|done].
    + intros u x Hx. destruct (decide (u = u0)) as [->|Hne].
      * rewrite bool_decide_true by left. rewrite Hesc. simpl. by apply Hp.
      * rewrite (bool_decide_ext (u ∈ u0 :: uses) (u ∈ uses))
          by (rewrite elem_of_cons; naive_solver).
        specialize (Hspec u x (Hoth _ _ Hne Hx)).
        destruct (bool_decide (u ∈ uses) && isEscape constExprs u); [|done].
        eapply rewritten_mono; [|done]. lia.
    + intros n u [Hne Hnin]%not_elem_of_cons Hrwn. apply Hp; [done|].
      by apply Hpers.
  - simpl. destruct (IH s Hwf) as (s' & Hs' & Hr & Hspec & Hp); [|done|].
    { intros u Hu. apply Hread. by right. }
    exists s'. split_and!; [done..| |].
    + intros u x Hx. destruct (decide (u = u0)) as [->|Hne].
      * rewrite Hesc, andb_false_r. specialize (Hspec u0 x Hx).
        by rewrite bool_decide_false in Hspec by done.
      * rewrite (bool_decide_ext (u ∈ u0 :: uses) (u ∈ uses))
          by (rewrite elem_of_cons; naive_solver).
        by apply Hspec.
    + intros n u [Hne Hnin]%not_elem_of_cons Hrwn. by apply Hp.
Qed.

(** The loop over values defined before [next0]: the uses of the values
    that are escapes are rewritten, the other operands read what they
    read. *)
Lemma forEach_visitResult_spec constExprs next0 vs s :
  wfState s → next0 ≤ nextOpId s → NoDup vs →
  Forall (λ v, ∃ op, getDefiningOp v (module s) = Some op
                     ∧ opId op < next0) vs →
  ∃ s', forEach (visitResult constExprs) s vs = Some s'
        ∧ reachable s s'
        ∧ (∀ u x, getOperand u (module s) = Some x →
             if bool_decide (x ∈ vs) && isEscape constExprs u
             then rewritten (nextOpId s) (module s') u
             else getOperand u (module s') = Some x)
        ∧ (∀ n u, next0 ≤ n → rewritten n (module s) u →
                  rewritten n (module s') u).
Proof.
  intros Hwf Hn0 Hnd. revert s Hwf Hn0.
  induction Hnd as [|v vs Hv Hnd IH]; intros s Hwf Hn0 Hdef.
  { exists s. split_and!; [done|constructor| |done].
    intros u x Hx. by rewrite bool_decide_false by apply not_elem_of_nil. }
  apply Forall_cons in Hdef as [(op & Hop & Hold) Hdef].
  rewrite forEach_cons.
  pose proof (wf_NoDup _ Hwf) as Hids.
  destruct (forEach_visitUse_spec constExprs v (getUses v (module s)) s)
    as (s1 & Hs1 & Hr1 & Hspec1 & Hp1);
    [done|by apply NoDup_getUses| |by eexists|].
  { intros u Hu. by apply elem_of_getUses in Hu. }
  change (visitResult constExprs s v)
    with (forEach (visitUse constExprs) s (getUses v (module s))).
  rewrite Hs1. simpl.
  pose proof (reachable_wf _ _ Hwf Hr1) as Hwf1.
  pose proof (reachable_next _ _ Hwf Hr1) as Hnext.
  destruct (IH s1 Hwf1) as (s' & Hs' & Hr & Hspec & Hp); [lia| |].
  { eapply Forall_impl; [done|]. intros v' (op' & Hop' & Hold').
    destruct (reachable_getDefiningOp _ _ _ _ Hwf Hr1 Hop')
      as (op1 & ? & Hid). exists op1. split; [done|lia]. }
  assert (∀ n u, next0 ≤ n → rewritten n (module s) u →
                 u ∉ getUses v (module s)) as Hfresh.
  { intros n u Hn (l & loadOp & symbol & Hl & Hread & _) Hu.
    apply elem_of_getUses in Hu; [|done]. rewrite Hread in Hu.
    injection Hu as <-. apply getDefiningOp_Some in Hop as (_ & Hres & _).
    apply elem_of_getResults in Hres as (i & _ & [= -> _]). lia. }
  exists s'. split_and!; [done|by eapply reachable_trans| |].
  - intros u x Hx. specialize (Hspec1 u x Hx).
    destruct (bool_decide (u ∈ getUses v (module s))) eqn:Hu.
    + apply bool_decide_eq_true in Hu. pose proof Hu as Hu'.
      apply elem_of_getUses in Hu'; [|done]. rewrite Hx in Hu'.
      injection Hu' as ->. rewrite bool_decide_true by left.
      simpl in *. destruct (isEscape constExprs u) eqn:Hesc.
      * by apply Hp.
      * specialize (Hspec u v Hspec1).
        by rewrite Hesc, andb_false_r in Hspec.
    + apply bool_decide_eq_false in Hu. simpl in Hspec1.
      specialize (Hspec u x Hspec1).
      assert (x ≠ v) as Hne.
      { intros ->. apply Hu. by apply elem_of_getUses. }
      rewrite (bool_decide_ext (x ∈ v :: vs) (x ∈ vs))
        by (rewrite elem_of_cons; naive_solver).
      destruct (bool_decide (x ∈ vs) && isEscape constExprs u); [|done].
      eapply rewritten_mono; [|done]. lia.
  - intros n u Hn Hrw. apply Hp; [done|]. apply Hp1; [|done].
    by eapply Hfresh.
Qed.

(** The walk returns, and rewrites the uses it is to hoist and no other
    operand. *)
Lemma walkModule_spec constExprs s :
  wfState s →
  ∃ s', walkModule constExprs s = Some s'
        ∧ reachable s s'
        ∧ walkRewrites constExprs s s'.
Proof.
  intros Hwf. unfold walkModule. rewrite forEach_visitOp.
  pose proof (wf_NoDup _ Hwf) as Hids.
  set (vs := walkPreOrder (module s) ≫= _).
  assert (∀ x, x ∈ vs ↔
    ∃ op, getDefiningOp x (module s) = Some op
          ∧ isHoistableLeaf constExprs (opId op) = true) as Hvs.
  { intros x. unfold vs. rewrite list_elem_of_bind. split.
    - intros (op & Hx & Hop).
      destruct (isHoistableLeaf constExprs (opId op)) eqn:Hleaf;
        [|by apply elem_of_nil in Hx].
      exists op. split; [|done]. by apply getDefiningOp_result.
    - intros (op & Hop & Hleaf).
      apply getDefiningOp_Some in Hop as (Hin & Hx & _).
      exists op. by rewrite Hleaf. }
  destruct (forEach_visitResult_spec constExprs (nextOpId s) vs s)
    as (s' & Hs' & Hr & Hspec & _); [done|done| | |].
  { apply NoDup_visited_results, Hids. }
  { apply Forall_forall. intros x (op & Hop & _)%Hvs. exists op.
    split; [done|]. eapply wf_lt; [done|].
    apply getDefiningOp_Some in Hop as (Hin & _).
    by apply list_elem_of_fmap_2. }
  exists s'. split_and!; [done..|].
  intros u x Hx. specialize (Hspec u x Hx). unfold isHoistedUse.
  destruct (getDefiningOp x (module s)) as [op|] eqn:Hop.
  - destruct (isHoistableLeaf constExprs (opId op)) eqn:Hleaf.
    + rewrite bool_decide_true in Hspec; [done|]. apply Hvs. eauto.
    + rewrite bool_decide_false in Hspec; [done|].
      intros (op' & Hop' & ?)%Hvs. congruence.
  - rewrite bool_decide_false in Hspec; [done|].
    intros (op' & Hop' & ?)%Hvs. congruence.
Qed.

End WalkSpec.

(** * The memo table and the layout along the calls *)

Section Memo.
Context `{SliceAnalysis}.

(** A value that has a global keeps it. *)
Lemma hoistConstExpr_memo_persistent operand s s' v g :
  wfState s → allOrNone s →
  hoistConstExpr operand s = Some s' →
  hoistedMap s !! v = Some g → hoistedMap s' !! v = Some g.
Proof.
  intros Hwf Hinv Hs' Hg.
  destruct (hoistConstExpr_hoistedMap _ _ _ Hwf Hs')
    as (v0 & Hv0 & _ & Hmemo & Hmat).
  destruct (hoistedMap s !! v0) as [g0|] eqn:Hg0.
  { by rewrite Hmemo. }
  destruct (Hmat eq_refl) as (rootOp & Hroot & _ & Hframe).
  destruct (decide (v ∈ getResults rootOp)) as [Hin|Hnin];
    [|by rewrite Hframe].
  apply getDefiningOp_Some in Hroot as (Hwalk & Hin0 & _).
  destruct (Hinv _ Hwalk) as [Hall|Hnone]; rewrite Forall_forall in *.
  - destruct (Hall _ Hin0) as [? Hsome]. congruence.
  - rewrite (Hnone _ Hin) in Hg. done.
Qed.

Lemma reachable_memo_persistent s0 s1 s2 v g :
  wfState s0 → hoistedDefined s0 → allOrNone s0 →
  reachable s0 s1 → reachable s1 s2 →
  hoistedMap s1 !! v = Some g → hoistedMap s2 !! v = Some g.
Proof.
  intros Hwf Hdef Hinv Hr1 Hr2 Hg.
  induction Hr2 as [|s operand s' Hr IH Hs']; [done|].
  pose proof (reachable_trans _ _ _ Hr1 Hr) as Hr0.
  eapply hoistConstExpr_memo_persistent; [| |done|done].
  - by eapply reachable_wf.
  - by eapply reachable_allOrNone.
Qed.

(** The layout when the pass starts: no global and no initializer of the
    pass. *)
Lemma initialState_Layout m next :
  wfState (initialState m next) →
  Layout next (initialState m next) [] (opBody m) [].
Proof.
  intros Hwf. split; simpl; try constructor.
  - by rewrite (right_id_L [] (++)).
  - apply Forall_forall. intros o Ho. left.
    eapply (wf_lt (initialState m next)); [done|]. simpl.
    apply list_elem_of_fmap_2.
    eapply elem_of_walk_child; [done|apply elem_of_walk_self].
  - by intros ?? ?%lookup_empty_Some.
  - intros o symbol Ho Hsym. apply elem_of_list_to_set.
    apply list_elem_of_omap. eauto.
  - intros o symbol _ _ ?%elem_of_nil. done.
Qed.

Lemma reachable_Layout next0 s0 s gs0 mid0 inits0 :
  wfState s0 → next0 ≤ nextOpId s0 →
  Layout next0 s0 gs0 mid0 inits0 →
  reachable s0 s →
  ∃ gs mid inits, Layout next0 s gs mid inits.
Proof.
  intros Hwf Hn0 Hlay. induction 1 as [|s operand s' Hr IH Hs']; [eauto|].
  destruct IH as (gs & mid & inits & Hl).
  pose proof (reachable_wf _ _ Hwf Hr) as Hwfs.
  pose proof (reachable_next _ _ Hwf Hr) as Hnext.
  destruct (hoistConstExpr_shape _ _ _ Hwfs Hs')
    as (targetOp & v & g & gsN & initsN & Hstep).
  destruct (hoistConstExpr_Layout next0 _ _ _ _ _ _ _ _ _ _ _ Hwfs
    ltac:(lia) Hl Hs' Hstep) as (mid' & inits' & Hl' & _).
  eauto.
Qed.

End Memo.

(** * The dead-code sweeper *)

(** Erasing keeps the other operations, in order. *)
Lemma walkData_eraseOp id m : walkData (eraseOp id m) `sublist_of` walkData m.
Proof.
  induction m as [i kind os ts loc body IH] using Operation_ind.
  rewrite !walkData_unfold. simpl. apply sublist_skip.
  induction IH as [|c body Hc _ IHbody]; csimpl; [done|].
  case_decide; csimpl.
  - by apply sublist_inserts_l.
  - by apply sublist_app.
Qed.

Lemma filter_ne_length (id : OpId) (l : list OpId) :
  id ∈ l → length (filter (λ o, o ≠ id) l) < length l.
Proof.
  induction l as [|x l IH]; [by intros ?%elem_of_nil|].
  pose proof (length_filter (λ o, o ≠ id) l) as Hle.
  intros [->|Hin]%elem_of_cons.
  - rewrite filter_cons_False by (intros ?; done). simpl. lia.
  - rewrite filter_cons. case_decide; simpl; [|lia].
    specialize (IH Hin). lia.
Qed.

(** One scan of the worklist: the erasures are steps of the sweeper; a
    scan that reports no change has erased nothing, and has found a use of
    every operation of the worklist. *)
Lemma scan_spec st0 worklist m allOps madeChanges :
  NoDup worklist →
  (∀ id, id ∈ worklist → id ∈ allOps) →
  sweepSteps st0 (m, allOps) →
  ∃ m' allOps' madeChanges',
    foldl checkDeadOp (m, allOps, madeChanges) worklist
    = (m', allOps', madeChanges')
    ∧ sweepSteps st0 (m', allOps')
    ∧ allOps' `sublist_of` allOps
    ∧ walkData m' `sublist_of` walkData m
    ∧ (madeChanges' = false →
       madeChanges = false ∧ m' = m ∧ allOps' = allOps
       ∧ ∀ id, id ∈ worklist → isDeadOp id m = false)
    ∧ (madeChanges' = true →
       madeChanges = true ∨ length allOps' < length allOps).
Proof.
  intros Hnd. revert m allOps madeChanges.
  induction Hnd as [|id worklist Hid Hnd IH]; intros m allOps b Hsub Hst.
  - exists m, allOps, b. simpl.
    split; [done|]. split; [done|]. split; [done|]. split; [done|].
    split; [|auto]. intros Hb. split_and!; [done..|].
    by intros ? ?%elem_of_nil.
  - simpl. destruct (isDeadOp id m) eqn:Hdead.
    + destruct (IH (eraseOp id m) (filter (λ o, o ≠ id) allOps) true)
        as (m' & allOps' & b' & Hf & Hst' & Hsl & Hw & Hno & Hyes).
      { intros id' Hin. apply list_elem_of_filter. split.
        - by intros ->.
        - apply Hsub. by right. }
      { apply sweep_erase; [done| |done]. apply Hsub. left. }
      exists m', allOps', b'. split_and!; auto.
      * etrans; [done|]. apply sublist_filter.
      * etrans; [done|]. apply walkData_eraseOp.
      * intros ->. by destruct (Hno eq_refl) as [? _].
      * intros _. right.
        apply sublist_length in Hsl.
        pose proof (filter_ne_length id allOps (Hsub id ltac:(left))). lia.
    + destruct (IH m allOps b) as (m' & allOps' & b' & Hf & Hst' & Hsl & Hw
        & Hno & Hyes); [|done|].
      { intros id' Hin. apply Hsub. by right. }
      exists m', allOps', b'. split_and!; auto.
      intros Hb. destruct (Hno Hb) as (-> & -> & -> & Hall).
      split_and!; auto. intros id' [->|Hin]%elem_of_cons; auto.
Qed.

(** The loop: with a scan more than there are operations in the working
    set, it ends on a scan that erases nothing. *)
Lemma sweep_spec st0 scans m allOps :
  NoDup allOps →
  length allOps < scans →
  sweepSteps st0 (m, allOps) →
  sweepSteps st0 (sweep scans m allOps)
  ∧ (sweep scans m allOps).2 `sublist_of` allOps
  ∧ walkData (sweep scans m allOps).1 `sublist_of` walkData m
  ∧ ∀ id, id ∈ (sweep scans m allOps).2 →
          isDeadOp id (sweep scans m allOps).1 = false.
Proof.
  revert m allOps. induction scans as [|scans IH]; intros m allOps Hnd Hlen Hst;
    [lia|].
  simpl.
  destruct (scan_spec st0 allOps m allOps false Hnd ltac:(done) Hst)
    as (m' & allOps' & b' & -> & Hst' & Hsl & Hw & Hno & Hyes).
  destruct b'.
  - destruct (Hyes eq_refl) as [?|Hlt]; [done|].
    destruct (IH m' allOps') as (H1 & H2 & H3 & H4); [|lia|done|].
    { by eapply sublist_NoDup. }
    split_and!; auto; by etrans.
  - destruct (Hno eq_refl) as (_ & -> & -> & Hall). simpl.
    split_and!; auto.
Qed.

Section Sweep.
Context `{ConstExprOracle}.

Lemma cleanupDeadOps_spec constExprs m :
  sweepSteps (m, remove_dups (populateConstExprOperations constExprs))
    (cleanupDeadOps constExprs m)
  ∧ walkData (cleanupDeadOps constExprs m).1 `sublist_of` walkData m
  ∧ ∀ id, id ∈ (cleanupDeadOps constExprs m).2 →
          isDeadOp id (cleanupDeadOps constExprs m).1 = false.
Proof.
  unfold cleanupDeadOps.
  destruct (sweep_spec
    (m, remove_dups (populateConstExprOperations constExprs))
    (S (length (remove_dups (populateConstExprOperations constExprs))))
    m (remove_dups (populateConstExprOperations constExprs)))
    as (H1 & H2 & H3 & H4); [apply NoDup_remove_dups|lia|constructor|].
  split_and!; auto.
Qed.

(** When every operation of the working set has a use, the sweeper leaves
    the module alone. *)
Lemma cleanupDeadOps_live constExprs m :
  (∀ id, id ∈ populateConstExprOperations constExprs →
         isDeadOp id m = false) →
  cleanupDeadOps constExprs m
  = (m, remove_dups (populateConstExprOperations constExprs)).
Proof.
  intros Hlive. unfold cleanupDeadOps. simpl.
  assert (∀ worklist allOps,
    (∀ id, id ∈ worklist → isDeadOp id m = false) →
    foldl checkDeadOp (m, allOps, false) worklist = (m, allOps, false))
    as Hscan.
  { induction worklist as [|id worklist IH]; intros allOps Hall; [done|].
    simpl. rewrite Hall by left. apply IH. intros ??. apply Hall. by right. }
  rewrite Hscan; [done|]. intros id Hid. apply Hlive.
  by apply elem_of_remove_dups.
Qed.

End Sweep.

(** * The order of the operations of the module *)

(** In a list without duplicates, the order of two elements is the same in
    a sublist that has both. *)
Lemma sublist_precedes {A} (l l' : list A) a b l1 l2 l3 :
  NoDup l → l' `sublist_of` l →
  l = l1 ++ a :: l2 ++ b :: l3 →
  a ∈ l' → b ∈ l' →
  ∃ l1' l2' l3', l' = l1' ++ a :: l2' ++ b :: l3'.
Proof.
  intros Hnd Hsub Hl Ha Hb.
  assert (a ≠ b) as Hab.
  { intros ->. rewrite Hl in Hnd.
    apply NoDup_app in Hnd as (_ & _ & [Hn _]%NoDup_cons).
    apply Hn. apply elem_of_app. right. left. }
  assert (∀ i j, l !! i = Some a → l !! j = Some b → i < j) as Hij.
  { intros i j Hi Hj.
    assert (i = length l1) as ->.
    { eapply NoDup_lookup; [done..|]. by rewrite Hl, list_lookup_middle. }
    assert (j = length l1 + S (length l2)) as ->; [|lia].
    eapply NoDup_lookup; [done..|]. rewrite Hl.
    rewrite lookup_app_r by lia.
    replace (length l1 + S (length l2) - length l1) with (S (length l2))
      by lia.
    simpl. by rewrite list_lookup_middle. }
  clear Hl.
  apply list_elem_of_split in Ha as (p & q & ->).
  apply elem_of_app in Hb as [Hb|[?|Hb]%elem_of_cons]; [|done|].
  - exfalso. apply list_elem_of_split in Hb as (p1 & p2 & ->).
    rewrite <-(assoc_L (++)) in Hsub. simpl in Hsub.
    apply sublist_app_l in Hsub as (k1 & k2 & -> & _ & Hsub).
    apply sublist_cons_l in Hsub as (k3 & k4 & -> & Hsub).
    apply sublist_app_l in Hsub as (k5 & k6 & -> & _ & Hsub).
    apply sublist_cons_l in Hsub as (k7 & k8 & -> & _).
    specialize (Hij (length k1 + S (length k3) + length k5 + length k7)
      (length k1 + length k3)).
    assert (length k1 + S (length k3) + length k5 + length k7
            < length k1 + length k3); [|lia].
    apply Hij.
    + rewrite lookup_app_r by lia. rewrite lookup_app_r by lia.
      replace (length k1 + S (length k3) + length k5 + length k7
               - length k1 - length k3)
        with (S (length k5 + length k7)) by lia.
      simpl. rewrite lookup_app_r by lia. rewrite lookup_app_r by lia.
      replace (length k5 + length k7 - length k5 - length k7) with 0
        by lia.
      done.
    + rewrite lookup_app_r by lia. rewrite lookup_app_r by lia.
      replace (length k1 + length k3 - length k1 - length k3) with 0 by lia.
      done.
  - apply list_elem_of_split in Hb as (q1 & q2 & ->). eauto.
Qed.

(** An operation of a first part of the body of the module comes before
    an operation of the rest of the body. *)
Lemma body_precedes m (ops1 ops2 : list Operation) a b :
  opBody m = ops1 ++ ops2 →
  a ∈ ops1 ≫= opIds → b ∈ ops2 ≫= opIds →
  precedes m a b.
Proof.
  intros Hbody Ha Hb. unfold precedes.
  rewrite opIds_unfold, Hbody, bind_app.
  apply list_elem_of_split in Ha as (p & q & ->).
  apply list_elem_of_split in Hb as (p' & q' & ->).
  exists (opId m :: p), (q ++ p'), q'.
  by rewrite <-!(assoc_L (++)).
Qed.

(** ** What erasing makes of the module *)

Lemma opData_eraseOp id m : opData (eraseOp id m) = opData m.
Proof. by destruct m. Qed.

Lemma shrinks_refl m : shrinks m m.
Proof. split_and!; [done..|]. intros c' Hc'. exists c'. done. Qed.

Lemma shrinks_eraseOp id m m' : shrinks m m' → shrinks m (eraseOp id m').
Proof.
  intros (Hd & Hw & Hc). split_and!.
  - by rewrite opData_eraseOp.
  - etrans; [apply walkData_eraseOp|done].
  - intros c'. destruct m' as [i k os ts loc body]. simpl in *.
    intros (c1 & Hc' & Hc1)%list_elem_of_bind.
    case_decide; [by apply elem_of_nil in Hc'|].
    apply list_elem_of_singleton in Hc' as ->.
    destruct (Hc _ Hc1) as (c & Hin & Hdc & Hwc). exists c.
    split_and!; [done|by rewrite opData_eraseOp|].
    etrans; [apply walkData_eraseOp|done].
Qed.

Lemma sweepSteps_shrinks m allOps m' allOps' :
  sweepSteps (m, allOps) (m', allOps') → shrinks m m'.
Proof.
  intros Hst. remember (m', allOps') as st eqn:Hst'.
  revert m' allOps' Hst'.
  induction Hst as [|m1 allOps1 id Hst IH Hin Hdead]; intros m' allOps'.
  - intros [= <- <-]. apply shrinks_refl.
  - intros [= <- <-]. apply shrinks_eraseOp. by eapply IH.
Qed.

(** An operation of the body of the module with nothing nested in it is
    left where it is by the erasure of another operation. *)
Lemma eraseOp_keeps_leaf id m g :
  g ∈ opBody m → opBody g = [] → opId g ≠ id → g ∈ opBody (eraseOp id m).
Proof.
  intros Hg Hleaf Hne. destruct m as [i k os ts loc body]. simpl in *.
  apply list_elem_of_bind. exists g. split; [|done].
  rewrite decide_False by done. apply list_elem_of_singleton.
  destruct g. simpl in *. by subst.
Qed.

Lemma sweepSteps_sublist m allOps m' allOps' :
  sweepSteps (m, allOps) (m', allOps') → ∀ id, id ∈ allOps' → id ∈ allOps.
Proof.
  intros Hst. remember (m', allOps') as st eqn:Hst'.
  revert m' allOps' Hst'.
  induction Hst as [|m1 allOps1 id Hst IH Hin Hdead]; intros m' allOps'.
  - by intros [= <- <-].
  - intros [= <- <-] id' [_ Hid']%list_elem_of_filter. by eapply IH.
Qed.

Lemma sweepSteps_keeps_leaf m allOps m' allOps' g :
  sweepSteps (m, allOps) (m', allOps') →
  g ∈ opBody m → opBody g = [] → opId g ∉ allOps → g ∈ opBody m'.
Proof.
  intros Hst Hg Hleaf Hnin. remember (m', allOps') as st eqn:Hst'.
  revert m' allOps' Hst'.
  induction Hst as [|m1 allOps1 id Hst IH Hin Hdead]; intros m' allOps'.
  - by intros [= <- <-].
  - intros [= <- <-]. apply eraseOp_keeps_leaf; [by eapply IH|done|].
    intros Heq. apply Hnin. rewrite Heq.
    by eapply (sweepSteps_sublist _ _ _ _ Hst).
Qed.

Section Order.
Context `{SliceAnalysis}.

(** In a state of the pass, the globals of the pass come before every
    operation that is not one of them, and every operation comes before
    those of the initializers of the pass. *)
Lemma Layout_precedes next0 s gs mid inits :
  wfState s →
  Layout next0 s gs mid inits →
  globalsPrecedeLoads next0 (module s).
Proof.
  intros Hwf [Hbody Hgs Hmid Hinits _ _ _ _].
  intros g load symbol mut type vis Hg Hgk Hload Hlk Hcase.
  rewrite Forall_forall in Hgs, Hmid, Hinits.
  assert (∀ o, o ∈ gs → opKind o = GlobalLoadOp symbol → False) as Hgsl.
  { intros o Ho Hk. by destruct (Hgs _ Ho) as (?&?&?&?&->&_). }
  destruct Hcase as [Hnew|(I & HI & HIk & HInew & HIload)].
  - apply (body_precedes _ gs (mid ++ inits)); [done|..].
    + rewrite Hbody in Hg. apply elem_of_app in Hg as [Hg|Hg].
      * apply list_elem_of_bind. exists g. split; [|done].
        rewrite opIds_unfold. left.
      * exfalso. apply elem_of_app in Hg as [Hg|Hg].
        -- destruct (Hmid _ Hg) as [?|[? Hk]]; [lia|congruence].
        -- destruct (Hinits _ Hg) as (Hk & _). congruence.
    + rewrite walkPreOrder_unfold, Hbody in Hload.
      apply elem_of_cons in Hload as [->|Hload].
      { rewrite (wf_kind _ Hwf) in Hlk. done. }
      rewrite bind_app in Hload. apply elem_of_app in Hload as [Hload|Hload].
      * exfalso. apply list_elem_of_bind in Hload as (g0 & Hload & Hg0).
        destruct (Hgs _ Hg0) as (?&?&?&?&->&_).
        rewrite walkPreOrder_leaf in Hload by done.
        apply list_elem_of_singleton in Hload as ->. done.
      * apply list_elem_of_bind in Hload as (c & Hload & Hc).
        apply list_elem_of_bind. exists c. split; [|done].
        by apply list_elem_of_fmap_2.
  - apply (body_precedes _ (gs ++ mid) inits);
      [by rewrite <-(assoc_L (++))|..].
    + apply list_elem_of_bind. exists g. split; [rewrite opIds_unfold; left|].
      rewrite Hbody, (assoc_L (++)) in Hg.
      apply elem_of_app in Hg as [Hg|Hg]; [done|].
      destruct (Hinits _ Hg) as (Hk & _). congruence.
    + apply list_elem_of_bind. exists I.
      split; [by apply list_elem_of_fmap_2|].
      rewrite Hbody in HI. apply elem_of_app in HI as [HI|HI].
      { destruct (Hgs _ HI) as (?&?&?&?&->&_). done. }
      apply elem_of_app in HI as [HI|HI]; [|done].
      destruct (Hmid _ HI) as [?|[? Hk]]; [lia|congruence].
Qed.

(** The order is kept by erasures. *)
Lemma shrinks_precedes next0 m m' :
  NoDup (opIds m) →
  shrinks m m' →
  globalsPrecedeLoads next0 m → globalsPrecedeLoads next0 m'.
Proof.
  intros Hnd (Hd & Hw & Hc) Hord.
  assert (∀ o', o' ∈ walkPreOrder m' →
    ∃ o, o ∈ walkPreOrder m ∧ opData o' = opData o) as Hwalk.
  { intros o' Ho'.
    assert (opData o' ∈ walkData m) as Hin.
    { eapply elem_of_sublist; [|done]. by apply list_elem_of_fmap_2. }
    apply list_elem_of_fmap in Hin as (o & ? & ?). eauto. }
  assert (∀ o o' : Operation, opData o' = opData o →
    opId o' = opId o ∧ opKind o' = opKind o) as Hdata.
  { intros [] [] [=]. simpl. by subst. }
  intros g' load' symbol mut type vis Hg' Hgk Hload' Hlk Hcase.
  destruct (Hc _ Hg') as (g & Hg & Hgd & _).
  destruct (Hwalk _ Hload') as (load & Hload & Hld).
  destruct (Hdata _ _ Hgd) as [Hgid Hgkind].
  destruct (Hdata _ _ Hld) as [Hlid Hlkind].
  assert (precedes m (opId g) (opId load)) as (l1 & l2 & l3 & Hl).
  { apply (Hord g load symbol mut type vis); [done|congruence|done|congruence|].
    destruct Hcase as [?|(I' & HI' & HIk & HInew & HIload)]; [left; lia|].
    right. destruct (Hc _ HI') as (I & HI & HId & HIw).
    destruct (Hdata _ _ HId) as [HIid HIkind].
    assert (opData load' ∈ walkData I) as Hin.
    { eapply elem_of_sublist; [|done]. by apply list_elem_of_fmap_2. }
    apply list_elem_of_fmap in Hin as (load0 & Hd0 & Hin0).
    assert (load0 = load) as ->.
    { assert (load0 ∈ walkPreOrder m) as Hin1.
      { eapply elem_of_walk_child; [|done]. done. }
      pose proof (lookupOp_unique _ _ Hnd Hin1) as H1.
      pose proof (lookupOp_unique _ _ Hnd Hload) as H2.
      destruct (Hdata _ _ Hd0) as [Hid0 _].
      rewrite <-Hid0, Hlid, H2 in H1. by injection H1. }
    exists I. split_and!; [done|congruence|lia|done]. }
  unfold precedes. rewrite Hgid, Hlid.
  eapply (sublist_precedes (opIds m)); [done| |done|..].
  - rewrite <-!opIds_walkData. by apply fmap_sublist.
  - rewrite <-Hgid. apply list_elem_of_fmap_2.
    eapply elem_of_walk_child; [done|apply elem_of_walk_self].
  - rewrite <-Hlid. by apply list_elem_of_fmap_2.
Qed.

End Order.

(** * What an erasure removes *)

(** The operation erased is gone, unless it is the operation the erasure
    is applied to. *)
Lemma eraseOp_gone id m : id ≠ opId m → id ∉ opIds (eraseOp id m).
Proof.
  induction m as [i kind os ts loc body IH] using Operation_ind.
  simpl. intros Hne. rewrite opIds_unfold. simpl.
  apply not_elem_of_cons. split; [done|].
  intros (c' & Hid & Hc')%list_elem_of_bind.
  apply list_elem_of_bind in Hc' as (c & Hc' & Hc).
  case_decide as Hcid; [by apply elem_of_nil in Hc'|].
  apply list_elem_of_singleton in Hc' as ->.
  rewrite Forall_forall in IH. by apply (IH c Hc).
Qed.

(** An operation of the module after an erasure is what the erasure makes
    of an operation of the module. *)
Lemma eraseOp_walk id m X' :
  X' ∈ walkPreOrder (eraseOp id m) →
  ∃ X, X ∈ walkPreOrder m ∧ X' = eraseOp id X.
Proof.
  induction m as [i kind os ts loc body IH] using Operation_ind.
  rewrite walkPreOrder_unfold.
  intros [->|Hin]%elem_of_cons.
  { eexists. split; [apply elem_of_walk_self|done]. }
  simpl in Hin. apply list_elem_of_bind in Hin as (c' & HX' & Hc').
  apply list_elem_of_bind in Hc' as (c & Hc' & Hc).
  case_decide; [by apply elem_of_nil in Hc'|].
  apply list_elem_of_singleton in Hc' as ->.
  rewrite Forall_forall in IH.
  destruct (IH _ Hc HX') as (X & HX & ->).
  exists X. split; [|done].
  by eapply (elem_of_walk_child (mkOperation _ _ _ _ _ _)); [exact Hc|].
Qed.

Lemma opId_eraseOp id m : opId (eraseOp id m) = opId m.
Proof. by destruct m. Qed.

Lemma opIds_eraseOp id m x : x ∈ opIds (eraseOp id m) → x ∈ opIds m.
Proof.
  rewrite <-!opIds_walkData. intros Hx.
  eapply elem_of_sublist; [done|].
  apply fmap_sublist, walkData_eraseOp.
Qed.

Lemma NoDup_eraseOp id m : NoDup (opIds m) → NoDup (opIds (eraseOp id m)).
Proof.
  rewrite <-!opIds_walkData. intros Hnd.
  eapply sublist_NoDup; [done|]. apply fmap_sublist, walkData_eraseOp.
Qed.

(** What an erasure removes was nested in the operation erased. *)
Lemma eraseOp_removed id m x :
  x ∈ opIds m → x ∉ opIds (eraseOp id m) →
  ∃ X, X ∈ walkPreOrder m ∧ opId X = id ∧ x ∈ opIds X.
Proof.
  induction m as [i kind os ts loc body IH] using Operation_ind.
  rewrite opIds_unfold. simpl. intros [->|Hin]%elem_of_cons Hnin.
  { destruct Hnin. rewrite opIds_unfold. left. }
  apply list_elem_of_bind in Hin as (c & Hx & Hc).
  rewrite Forall_forall in IH.
  destruct (decide (opId c = id)) as [Heq|Hne].
  { exists c. split_and!; [|done..].
    eapply (elem_of_walk_child (mkOperation _ _ _ _ _ _));
      [exact Hc|apply elem_of_walk_self]. }
  destruct (IH c Hc Hx) as (X & HX & Hid & HxX).
  - intros Hin. apply Hnin. rewrite opIds_unfold. simpl. right.
    apply list_elem_of_bind. exists (eraseOp id c). split; [done|].
    apply list_elem_of_bind. exists c. split; [|done].
    rewrite decide_False by done. left.
  - exists X. split_and!; [|done..].
    by eapply (elem_of_walk_child (mkOperation _ _ _ _ _ _)); [exact Hc|].
Qed.

(** An operation found in the module after an erasure was in the module,
    with at least what is nested in it. *)
Lemma lookupOp_eraseOp id m e op' :
  NoDup (opIds m) →
  lookupOp e (eraseOp id m) = Some op' →
  ∃ op, lookupOp e m = Some op ∧ ∀ x, x ∈ opIds op' → x ∈ opIds op.
Proof.
  intros Hnd [Hin Hid]%lookupOp_Some.
  apply eraseOp_walk in Hin as (X & HX & ->).
  exists X. split.
  - rewrite <-Hid, opId_eraseOp. by apply lookupOp_unique.
  - apply opIds_eraseOp.
Qed.

(** The erasures of the sweeper, from a set and a module that are
    [sweepable]: every operation of the working set is in the module,
    every operation erased was in the module when it was erased and is
    gone, and what else is gone was nested in an operation erased. *)
Lemma sweepSteps_erasures m0 allOps0 m allOps :
  sweepable allOps0 m0 →
  sweepSteps (m0, allOps0) (m, allOps) →
  ∃ erased,
    erasures m0 erased m
    ∧ NoDup (opIds m)
    ∧ opId m = opId m0
    ∧ (∀ id, id ∈ allOps ↔ id ∈ allOps0 ∧ id ∉ erased)
    ∧ (∀ id, id ∈ erased → id ∈ allOps0 ∧ id ∉ opIds m)
    ∧ (∀ id, id ∈ allOps → id ∈ opIds m)
    ∧ (∀ e op, lookupOp e m = Some op →
         ∃ op0, lookupOp e m0 = Some op0
                ∧ ∀ x, x ∈ opIds op → x ∈ opIds op0)
    ∧ (∀ x, x ∈ opIds m0 → x ∉ opIds m →
         ∃ checkOp op, checkOp ∈ erased ∧ lookupOp checkOp m0 = Some op
                       ∧ x ∈ opIds op).
Proof.
  intros (Hnd0 & Hmem & Hflat) Hst.
  remember (m, allOps) as st eqn:Hst'. revert m allOps Hst'.
  induction Hst as [|m1 allOps1 checkOp Hst IH Hin Hdead]; intros m allOps.
  { intros [= <- <-]. exists []. split_and!; auto.
    - constructor.
    - intros id. split; [|by intros [? _]].
      intros ?. split; [done|]. by intros ?%elem_of_nil.
    - by intros ? ?%elem_of_nil.
    - intros id Hid. by apply Hmem.
    - intros e op Hop. exists op. done.
    - intros x Hx Hnx. done. }
  intros [= <- <-].
  destruct (IH _ _ eq_refl)
    as (erased & Her & Hnd & Hroot & Hset & Hgone & Hin1 & Hlook & Hlost).
  assert (is_Some (lookupOp checkOp m1)) as [op Hop].
  { destruct (lookupOp checkOp m1) eqn:Hl; [eauto|].
    apply lookupOp_None in Hl. destruct Hl. by apply Hin1. }
  assert (checkOp ∈ allOps0 ∧ checkOp ∉ erased) as [Hc0 Hcne]
    by by apply Hset.
  exists (erased ++ [checkOp]). split_and!.
  - eapply erasures_erase; [done..|].
    unfold isDeadOp in Hdead. by rewrite Hop in Hdead.
  - by apply NoDup_eraseOp.
  - by rewrite opId_eraseOp.
  - intros id. rewrite list_elem_of_filter, Hset, not_elem_of_app,
      not_elem_of_cons. split.
    + intros (? & ? & ?). split_and!; auto. apply not_elem_of_nil.
    + intros (? & ? & ? & _). done.
  - intros id [Hid|Hid%list_elem_of_singleton]%elem_of_app.
    + destruct (Hgone _ Hid) as [? Hn]. split; [done|].
      intros ?%opIds_eraseOp. done.
    + subst id. split; [done|]. apply eraseOp_gone.
      rewrite Hroot. by apply Hmem.
  - intros id [Hne Hid]%list_elem_of_filter.
    destruct (decide (id ∈ opIds (eraseOp checkOp m1))) as [?|Hnin]; [done|].
    exfalso.
    destruct (eraseOp_removed checkOp m1 id (Hin1 _ Hid) Hnin)
      as (X & HX & HXid & HidX).
    assert (lookupOp checkOp m1 = Some X) as HlX.
    { rewrite <-HXid. by apply lookupOp_unique. }
    destruct (Hlook _ _ HlX) as (op0 & Hop0 & Hsub).
    apply (Hflat id checkOp op0); auto. by apply Hset in Hid as [? _].
  - intros e op' Hop'.
    destruct (lookupOp_eraseOp _ _ _ _ Hnd Hop') as (op1 & Hop1 & Hsub1).
    destruct (Hlook _ _ Hop1) as (op0 & Hop0 & Hsub0).
    exists op0. split; [done|]. auto.
  - intros x Hx0 Hnx.
    destruct (decide (x ∈ opIds m1)) as [Hx1|Hx1].
    + destruct (eraseOp_removed checkOp m1 x Hx1 Hnx)
        as (X & HX & HXid & HxX).
      assert (lookupOp checkOp m1 = Some X) as HlX.
      { rewrite <-HXid. by apply lookupOp_unique. }
      destruct (Hlook _ _ HlX) as (op0 & Hop0 & Hsub).
      exists checkOp, op0. split_and!; auto.
      apply elem_of_app. right. left.
    + destruct (Hlost x Hx0 Hx1) as (c & opc & Hc & Hopc & Hxc).
      exists c, opc. split_and!; auto. apply elem_of_app. by left.
Qed.

Lemma sweepable_remove_dups allOps m :
  sweepable allOps m → sweepable (remove_dups allOps) m.
Proof.
  intros (Hnd & Hmem & Hflat). split_and!; [done|..].
  - intros id Hid. rewrite elem_of_remove_dups in Hid. by apply Hmem.
  - intros a b opB Ha Hb. rewrite elem_of_remove_dups in Ha, Hb.
    by apply Hflat.
Qed.

Section Erase.
Context `{ConstExprOracle}.

(** What [cleanupDeadOps] erases from a module, when the set of the
    analysis and the module are [sweepable]. *)
Lemma cleanupDeadOps_erasures constExprs m :
  sweepable (populateConstExprOperations constExprs) m →
  ∃ erased,
    erasures m erased (cleanupDeadOps constExprs m).1
    ∧ ∀ id, id ∈ erased → id ∈ populateConstExprOperations constExprs.
Proof.
  intros Hsw%sweepable_remove_dups.
  destruct (cleanupDeadOps_spec constExprs m) as (Hst & _).
  destruct (cleanupDeadOps constExprs m) as [m' allOps']. simpl in *.
  destruct (sweepSteps_erasures _ _ _ _ Hsw Hst)
    as (erased & Her & _ & _ & _ & Hgone & _).
  exists erased. split; [done|]. intros id Hid.
  destruct (Hgone _ Hid) as [Hin _]. by rewrite elem_of_remove_dups in Hin.
Qed.

End Erase.

(** * The stores into the globals of the pass *)

(** ** The operations nested in an operation of a rewritten module *)

Lemma walkPreOrder_setOperand operand v op :
  walkPreOrder (setOperand operand v op)
  = setOperand operand v <$> walkPreOrder op.
Proof.
  induction op as [id kind os ts loc body IH] using Operation_ind.
  rewrite !walkPreOrder_unfold. simpl. f_equal.
  rewrite fmap_bind_comm.
  induction IH as [|c body Hc _ IHb]; [done|]. csimpl. by f_equal.
Qed.

Lemma opResultTypes_insertBefore target newOp op :
  opResultTypes (insertBefore target newOp op) = opResultTypes op.
Proof. by destruct op. Qed.

(** An operation of the module after an insertion is an operation of what
    is inserted, or an operation of the module, itself or after the
    insertion. *)
Lemma insertBefore_walk target newOp m X' :
  X' ∈ walkPreOrder (insertBefore target newOp m) →
  X' ∈ walkPreOrder newOp
  ∨ ∃ X, X ∈ walkPreOrder m ∧ (X' = X ∨ X' = insertBefore target newOp X).
Proof.
  induction m as [id kind os ts loc body IH] using Operation_ind.
  rewrite walkPreOrder_unfold.
  intros [->|Hin]%elem_of_cons.
  { right. eexists. split; [apply elem_of_walk_self|]. by right. }
  simpl in Hin. apply list_elem_of_bind in Hin as (c' & HX' & Hc').
  apply list_elem_of_bind in Hc' as (c & Hc' & Hc).
  rewrite Forall_forall in IH.
  case_decide.
  - apply elem_of_cons in Hc' as [->|Hc']; [by left|].
    apply list_elem_of_singleton in Hc' as ->. right. exists X'.
    split; [|by left]. by eapply elem_of_walk_child.
  - apply list_elem_of_singleton in Hc' as ->.
    destruct (IH _ Hc HX') as [?|(X & HX & Heq)]; [by left|right].
    exists X. split; [|done]. eapply elem_of_walk_child; [done|].
    done.
Qed.

Lemma insertBefore_walk_kinds target newOp X o' :
  o' ∈ walkPreOrder (insertBefore target newOp X) →
  o' ∈ walkPreOrder newOp
  ∨ ∃ o, o ∈ walkPreOrder X ∧ opKind o' = opKind o ∧ opId o' = opId o.
Proof.
  intros [?|(o & Ho & [->| ->])]%insertBefore_walk; [by left|right..];
    exists o; by rewrite ?opKind_insertBefore, ?opId_insertBefore.
Qed.

(** An operation [o'] of (or nested in) an operation [X'] of the module
    after [rewriteUse]: it is the load, or it has the kind of an operation
    [o] of (or nested in) an operation [X] of the module that has the
    results of [X']. *)
Lemma rewriteUse_walk operand load m X' o' :
  opBody load = [] →
  X' ∈ walkPreOrder (rewriteUse operand load m) →
  o' ∈ walkPreOrder X' →
  opKind o' = opKind load
  ∨ ∃ X o, X ∈ walkPreOrder m ∧ o ∈ walkPreOrder X
           ∧ opResultTypes X' = opResultTypes X
           ∧ opKind o' = opKind o.
Proof.
  intros Hleaf. unfold rewriteUse. rewrite walkPreOrder_setOperand.
  intros (X1 & -> & HX1)%list_elem_of_fmap.
  rewrite walkPreOrder_setOperand.
  intros (o1 & -> & Ho1)%list_elem_of_fmap.
  rewrite opKind_setOperand, opResultTypes_setOperand.
  apply insertBefore_walk in HX1 as [HX1|(X & HX & [->| ->])].
  - rewrite walkPreOrder_leaf in HX1 by done.
    apply list_elem_of_singleton in HX1 as ->.
    rewrite walkPreOrder_leaf in Ho1 by done.
    apply list_elem_of_singleton in Ho1 as ->. by left.
  - right. exists X, o1. done.
  - apply insertBefore_walk_kinds in Ho1 as [Ho1|(o & Ho & Hk & _)].
    + rewrite walkPreOrder_leaf in Ho1 by done.
      apply list_elem_of_singleton in Ho1 as ->. by left.
    + right. exists X, o. by rewrite opResultTypes_insertBefore.
Qed.

(** The identities of a rewritten operation of the body of the module. *)
Lemma opIds_insertBefore_elem target newOp c id :
  id ∈ opIds (insertBefore target newOp c) →
  id ∈ opIds newOp ∨ id ∈ opIds c.
Proof.
  intros (o' & -> & Ho')%list_elem_of_fmap.
  apply insertBefore_walk_kinds in Ho' as [?|(o & ? & _ & ->)].
  - left. by apply list_elem_of_fmap_2.
  - right. by apply list_elem_of_fmap_2.
Qed.

Lemma opIds_insertBefore_keeps target newOp c id :
  id ∈ opIds c → id ∈ opIds (insertBefore target newOp c).
Proof.
  induction c as [i kind os ts loc body IH] using Operation_ind.
  rewrite !opIds_unfold. simpl. intros [->|Hin]%elem_of_cons; [left|right].
  apply list_elem_of_bind in Hin as (c & Hid & Hc).
  rewrite Forall_forall in IH.
  apply list_elem_of_bind. destruct (decide (opId c = target)) as [Ht|Ht].
  - exists c. split; [done|]. apply list_elem_of_bind. exists c.
    split; [|done]. rewrite decide_True by done. right. left.
  - exists (insertBefore target newOp c). split; [by apply IH|].
    apply list_elem_of_bind. exists c. split; [|done].
    rewrite decide_False by done. left.
Qed.

(** ** The stores of the module after a call *)

Lemma filter_none {A} (P : A → Prop) `{!∀ x, Decision (P x)} (l : list A) :
  (∀ x, x ∈ l → ¬ P x) → filter P l = [].
Proof.
  induction l as [|x l IH]; intros Hall; [done|].
  rewrite filter_cons_False by (apply Hall; left).
  apply IH. intros ??. apply Hall. by right.
Qed.

(** In a list whose elements have distinct images, the elements with the
    image of the element at an index: that element alone. *)
Lemma filter_unique {A B} `{EqDecision B} (f : A → B) (l : list A) i x :
  NoDup (f <$> l) → l !! i = Some x → filter (λ y, f y = f x) l = [x].
Proof.
  revert i. induction l as [|y l IH]; intros i; [done|].
  rewrite fmap_cons. intros [Hy Hnd]%NoDup_cons. destruct i as [|i]; simpl.
  - intros [= ->]. rewrite filter_cons_True by done. f_equal.
    apply filter_none. intros z Hz Heq. apply Hy. rewrite <-Heq.
    by apply list_elem_of_fmap_2.
  - intros Hx. rewrite filter_cons_False; [by eapply IH|].
    intros Heq. apply Hy. rewrite Heq. apply list_elem_of_fmap_2.
    by eapply list_elem_of_lookup_2.
Qed.

(** The operations of a block after [rewriteUse]: the load, and each
    operation of the block, with the operand set, after the insertion when
    the consumer is nested in it. *)
Lemma rewriteUse_block_cases operand load (ops : list Operation) c' :
  c' ∈ map (setOperand operand (OpResult (opId load) 0))
         (ops ≫= λ c, if decide (opId c = getOwner operand) then [load; c]
                      else [insertBefore (getOwner operand) load c]) →
  c' = setOperand operand (OpResult (opId load) 0) load
  ∨ ∃ c, c ∈ ops
         ∧ (c' = setOperand operand (OpResult (opId load) 0) c
            ∨ c' = setOperand operand (OpResult (opId load) 0)
                     (insertBefore (getOwner operand) load c)).
Proof.
  intros (c1 & -> & Hc1)%list_elem_of_fmap.
  apply list_elem_of_bind in Hc1 as (c & Hc1 & Hc).
  case_decide.
  - apply elem_of_cons in Hc1 as [->|Hc1]; [by left|].
    apply list_elem_of_singleton in Hc1 as ->. right. eauto.
  - apply list_elem_of_singleton in Hc1 as ->. right. eauto.
Qed.

Lemma rewriteUse_block_keeps operand load (ops : list Operation) c :
  c ∈ ops →
  ∃ c', c' ∈ map (setOperand operand (OpResult (opId load) 0))
               (ops ≫= λ c, if decide (opId c = getOwner operand)
                            then [load; c]
                            else [insertBefore (getOwner operand) load c])
        ∧ opId c' = opId c ∧ opKind c' = opKind c
        ∧ ∀ id, id ∈ opIds c → id ∈ opIds c'.
Proof.
  intros Hc. destruct (decide (opId c = getOwner operand)) as [Hid|Hid].
  - exists (setOperand operand (OpResult (opId load) 0) c). split_and!.
    + apply list_elem_of_fmap. exists c. split; [done|].
      apply list_elem_of_bind. exists c. split; [|done].
      rewrite decide_True by done. right. left.
    + apply opId_setOperand.
    + apply opKind_setOperand.
    + intros id. by rewrite opIds_setOperand.
  - exists (setOperand operand (OpResult (opId load) 0)
              (insertBefore (getOwner operand) load c)). split_and!.
    + apply list_elem_of_fmap. eexists. split; [done|].
      apply list_elem_of_bind. exists c. split; [|done].
      rewrite decide_False by done. left.
    + by rewrite opId_setOperand, opId_insertBefore.
    + by rewrite opKind_setOperand, opKind_insertBefore.
    + intros id. rewrite opIds_setOperand. apply opIds_insertBefore_keeps.
Qed.

Section Stores.
Context `{SliceAnalysis}.

(** The body of the module after a call. *)
Lemma hoistStep_opBody operand s s' targetOp v g gs inits :
  hoistStep operand s s' targetOp v g gs inits →
  opBody (module s')
  = gs
    ++ map (setOperand operand (OpResult (nextOpId s' - 1) 0))
         (opBody (module s) ≫= λ c,
            if decide (opId c = getOwner operand)
            then [createGlobalLoad (nextOpId s' - 1) (opLoc targetOp) g; c]
            else [insertBefore (getOwner operand)
                    (createGlobalLoad (nextOpId s' - 1) (opLoc targetOp) g)
                    c])
    ++ inits.
Proof.
  intros (_ & _ & _ & Hm & _). rewrite Hm. simpl.
  by rewrite opBody_rewriteUse.
Qed.

(** Everything in an initializer of the pass was created by the pass. *)
Lemma hoistStep_initializersFresh next0 operand s s' targetOp v g gs inits :
  wfState s → next0 ≤ nextOpId s →
  hoistConstExpr operand s = Some s' →
  hoistStep operand s s' targetOp v g gs inits →
  initializersFresh next0 (module s) →
  initializersFresh next0 (module s').
Proof.
  intros Hwf Hn0 Hs' Hstep Hfresh I' HI' Hk Hid.
  pose proof (hoistStep_opBody _ _ _ _ _ _ _ _ Hstep) as Hbody.
  destruct Hstep as (Htarget & Hv & Hg & Hm & Hnext & Hcase).
  pose proof (hoistConstExpr_new_ids _ _ _ _ _ _ _ Hwf Hs' Hm) as Hnew.
  rewrite Forall_forall in Hnew.
  rewrite Hbody in HI'. apply elem_of_app in HI' as [HI'|HI'].
  { apply Forall_forall. intros id Hin.
    assert (nextOpId s ≤ id < nextOpId s'); [|lia].
    apply Hnew. apply elem_of_app. left. apply list_elem_of_bind. eauto. }
  apply elem_of_app in HI' as [HI'|HI'].
  - apply (rewriteUse_block_cases operand
      (createGlobalLoad (nextOpId s' - 1) (opLoc targetOp) g)) in HI'
      as [->|(c & Hc & Hcase')]; [done|].
    assert (opId I' = opId c ∧ opKind I' = opKind c
            ∧ ∀ id, id ∈ opIds I' → id = nextOpId s' - 1 ∨ id ∈ opIds c)
      as (Hid' & Hk' & Hids).
    { destruct Hcase' as [->| ->].
      - rewrite opId_setOperand, opKind_setOperand. split_and!; [done..|].
        intros id. rewrite opIds_setOperand. auto.
      - rewrite opId_setOperand, opKind_setOperand, opId_insertBefore,
          opKind_insertBefore.
        split_and!; [done..|]. intros id. rewrite opIds_setOperand.
        intros [Hl|?]%opIds_insertBefore_elem; [|by right].
        left. unfold opIds in Hl. rewrite walkPreOrder_leaf in Hl by done.
        by apply list_elem_of_singleton in Hl. }
    assert (Forall (λ id, next0 ≤ id) (opIds c)) as Hc'.
    { apply Hfresh; [done|congruence|lia]. }
    rewrite Forall_forall in Hc' |- *. intros id [->|Hin]%Hids; [lia|auto].
  - apply Forall_forall. intros id Hin.
    assert (nextOpId s ≤ id < nextOpId s'); [|lia].
    apply Hnew. apply elem_of_app. right. apply list_elem_of_bind. eauto.
Qed.

(** The stores into a global after a call: those that were there, then
    those of the initializer the call has created. *)
Lemma hoistStep_storesOf symbol operand s s' targetOp v g gs inits :
  wfState s →
  hoistConstExpr operand s = Some s' →
  hoistStep operand s s' targetOp v g gs inits →
  storesOf symbol (module s')
  = storesOf symbol (module s)
    ++ (opId <$> filter (λ o, opKind o = GlobalStoreOp symbol)
                   (inits ≫= walkData)).
Proof.
  intros Hwf Hs' Hstep.
  destruct (hoistStep_frame_walk _ _ _ _ _ _ _ _ Hwf Hs' Hstep)
    as (before & target & after & _ & _ & _ & _ & Hgk & _ & _ & Hw & Htd
        & Hown & Hw1 & Hw').
  destruct Hstep as (Htarget & Hv & Hg & Hm & Hnext & Hcase). simpl in *.
  destruct (getOperand_owner _ _ _ (wf_operands _ Hwf) Hv) as [Hnr _].
  assert (filter (λ o, opKind o = GlobalStoreOp symbol) (gs ≫= walkData) = [])
    as Hgs.
  { apply filter_none. intros d (g0 & Hd & Hg0)%list_elem_of_bind.
    assert (∃ gid sym type loc, g0 = hoistedGlobal gid sym type loc)
      as (gid & sym & type & loc & ->).
    { destruct Hcase as [(_ & -> & _)|(_ & rootOp & body & _ & _ & Hmat)].
      - by apply elem_of_nil in Hg0.
      - pose proof (Materialized_globals _ _ _ _ _ _ _ _ Hmat) as Hglob.
        rewrite Forall_forall in Hglob.
        destruct (Hglob _ Hg0) as (?&?&?&->). eauto. }
    unfold walkData in Hd. rewrite walkPreOrder_leaf in Hd by done.
    apply list_elem_of_singleton in Hd as ->. done. }
  destruct before as [|root before].
  { rewrite walkData_unfold in Hw. simpl in Hw. injection Hw as Hd _.
    destruct Hnr. rewrite <-Hown, <-Hd. done. }
  assert (root = opData (module s)) as ->.
  { rewrite walkData_unfold in Hw. simpl in Hw. by injection Hw. }
  set (K := λ l : list Operation,
    opId <$> filter (λ o, opKind o = GlobalStoreOp symbol) l).
  assert (∀ l1 l2, K (l1 ++ l2) = K l1 ++ K l2) as Kapp.
  { intros l1 l2. unfold K. by rewrite filter_app, fmap_app. }
  assert (∀ x l, K (x :: l) = K [x] ++ K l) as Kcons.
  { intros x l. apply (Kapp [x] l). }
  assert (∀ x y, opId x = opId y → opKind x = opKind y → K [x] = K [y])
    as Ksame.
  { intros x y Hid Hk. unfold K. rewrite !filter_cons, !filter_nil, Hk.
    case_decide; csimpl; by rewrite ?Hid. }
  unfold storesOf. fold (K (walkData (module s'))) (K (walkData (module s)))
    (K (inits ≫= walkData)).
  rewrite Hw', Hw1, Hw. cbn [tail app].
  rewrite (Kcons (opData (module s)) (_ ++ _ ++ _)),
    (Kcons (opData (module s)) (before ++ _)), !Kapp,
    (Kcons (createGlobalLoad _ _ _)), (Kcons (mkOperation _ _ _ _ _ _)),
    (Kcons target).
  fold (K (gs ≫= walkData)) in Hgs.
  assert (K (gs ≫= walkData) = []) as -> by (unfold K; by rewrite Hgs).
  assert (K [createGlobalLoad (nextOpId s' - 1) (opLoc targetOp) g] = [])
    as -> by done.
  rewrite (Ksame (mkOperation _ _ _ _ _ _) target) by done.
  simpl. by rewrite <-!(assoc_L (++)).
Qed.

(** ** The operations the initializer is cloned from *)

(** The operations of the module to which the empty initializer has been
    appended. *)
Lemma createInitializer_walk loc s X :
  X ∈ walkPreOrder (module (createInitializer loc s)) →
  X = module (createInitializer loc s)
  ∨ X ∈ opBody (module s) ≫= walkPreOrder
  ∨ X = mkOperation (nextOpId s) InitializerOp [] [] loc [].
Proof.
  unfold createInitializer. cbn [module].
  rewrite walkPreOrder_insertAtModuleEnd.
  intros [->|HX]%elem_of_cons; [by left|]. right.
  apply elem_of_app in HX as [?|HX]; [by left|right].
  rewrite bind_singleton, walkPreOrder_leaf in HX by done.
  by apply list_elem_of_singleton in HX.
Qed.

Lemma sources_walk loc s v rootOp X :
  wfState s →
  getDefiningOp v (module s) = Some rootOp →
  X ∈ getBackwardSlice (module (createInitializer loc s)) rootOp ++ [rootOp] →
  X ∈ walkPreOrder (module (createInitializer loc s)).
Proof.
  intros Hwf Hroot [HX|HX]%elem_of_app.
  - by eapply getBackwardSlice_elem_of.
  - apply list_elem_of_singleton in HX as ->.
    pose proof (createInitializer_getDefiningOp loc _ _ _ Hwf Hroot) as Hr.
    by apply getDefiningOp_Some in Hr as (? & _).
Qed.

(** An operation of the slice or of the root, or nested in one: it is an
    operation of the module, or the empty initializer. *)
Lemma sources_data loc s v rootOp X src :
  wfState s →
  getDefiningOp v (module s) = Some rootOp →
  X ∈ getBackwardSlice (module (createInitializer loc s)) rootOp ++ [rootOp] →
  src ∈ walkPreOrder X →
  opData src ∈ walkData (module s)
  ∨ (opKind src = InitializerOp ∧ opOperands src = []).
Proof.
  intros Hwf Hroot HX Hsrc.
  pose proof (sources_walk _ _ _ _ _ Hwf Hroot HX) as HXw.
  pose proof (elem_of_walk_trans _ _ _ HXw Hsrc) as Hw.
  apply createInitializer_walk in Hw as [->|[Hw| ->]].
  - left. rewrite walkData_unfold. left.
  - left. apply list_elem_of_fmap_2. rewrite walkPreOrder_unfold.
    by right.
  - by right.
Qed.

(** No operation the loop over the slice or the clone of the root puts in
    the initializer is a store into [symbol], when neither the slice nor
    the root holds one. *)
Lemma Materialized_no_store symbol s loc rootOp gs body hoisted' symbols'
    next' :
  sourcesClean symbol (createInitializer loc s) rootOp →
  Materialized (createInitializer loc s) loc rootOp gs body hoisted' symbols'
    next' →
  ∀ o, o ∈ (initOps (cloneSlice (createInitializer loc s) rootOp)
            ++ [(clone rootOp
                   (cloneMap (cloneSlice (createInitializer loc s) rootOp))
                   (initNext (cloneSlice (createInitializer loc s) rootOp)))
                .1.1])
           ≫= walkPreOrder →
       opKind o ≠ GlobalStoreOp symbol.
Proof.
  intros Hclean Hmat o Ho Hk.
  pose proof (mat_origin _ _ _ _ _ _ _ _ Hmat) as Horigin.
  rewrite Forall_forall in Horigin.
  destruct (Horigin _ Ho) as [(v0 & g0 & _ & Heq)|(src & Hsrc & Hks)].
  { rewrite Heq in Hk. done. }
  apply list_elem_of_bind in Hsrc as (X & Hsrc & HX).
  apply (Hclean X src HX Hsrc). congruence.
Qed.

(** The stores of the initializer a call creates, when the slice and the
    root hold no store into [symbol]: for a symbol that is not one of the
    new globals, none; for the symbol of the global of a result, the one
    store into it. *)
Lemma Materialized_stores symbol s loc rootOp gs body hoisted' symbols'
    next' :
  sourcesClean symbol (createInitializer loc s) rootOp →
  Materialized (createInitializer loc s) loc rootOp gs body hoisted' symbols'
    next' →
  (symbol ∉ globalSymbol <$> gs →
   filter (λ o, opKind o = GlobalStoreOp symbol)
     ([mkOperation (nextOpId s) InitializerOp [] [] loc body] ≫= walkData)
   = [])
  ∧ (∀ i gid type clonedResult,
       gs !! i = Some (hoistedGlobal gid symbol type (opLoc rootOp)) →
       hoistedStore (S gid) symbol clonedResult (opLoc rootOp) ∈ body →
       opId <$> filter (λ o, opKind o = GlobalStoreOp symbol)
                  ([mkOperation (nextOpId s) InitializerOp [] [] loc body]
                   ≫= walkData)
       = [S gid]).
Proof.
  intros Hclean Hmat.
  pose proof (Materialized_no_store _ _ _ _ _ _ _ _ _ Hclean Hmat)
    as Hclones.
  destruct (mat_body _ _ _ _ _ _ _ _ Hmat) as (stores & Hbody & Hlen & Hst).
  set (A := initOps (cloneSlice (createInitializer loc s) rootOp)
            ++ [(clone rootOp
                   (cloneMap (cloneSlice (createInitializer loc s) rootOp))
                   (initNext (cloneSlice (createInitializer loc s) rootOp)))
                .1.1]) in *.
  assert (body = A ++ stores
                 ++ [mkOperation (next' - 1) InitializerReturnOp [] [] loc []])
    as Hbody'.
  { rewrite Hbody. unfold A. by rewrite <-!(assoc_L (++)). }
  assert (Forall (λ st, opBody st = []) stores) as Hleaves.
  { apply Forall_forall. intros st [j Hj]%list_elem_of_lookup.
    by destruct (Hst _ _ Hj) as (? & _ & _ & ? & _). }
  assert (stores ≫= walkData = stores) as Hsw.
  { clear -Hleaves. induction Hleaves as [|st stores Hl _ IH]; [done|].
    csimpl. unfold walkData at 1.
    rewrite walkPreOrder_leaf by done. csimpl.
    by rewrite opData_leaf, IH. }
  assert (filter (λ o, opKind o = GlobalStoreOp symbol) (A ≫= walkData) = [])
    as HA.
  { apply filter_none. intros d (a & Hd & Ha)%list_elem_of_bind Hk.
    apply list_elem_of_fmap in Hd as (o & -> & Ho).
    apply (Hclones o); [|by destruct o].
    apply list_elem_of_bind. eauto. }
  assert (filter (λ o, opKind o = GlobalStoreOp symbol)
            ([mkOperation (nextOpId s) InitializerOp [] [] loc body]
             ≫= walkData)
          = filter (λ o, opKind o = GlobalStoreOp symbol) stores) as Hfilter.
  { rewrite bind_singleton, walkData_unfold. cbn [opBody].
    rewrite filter_cons_False by done.
    rewrite Hbody', !bind_app, !filter_app, HA, Hsw. csimpl.
    rewrite (filter_cons_False _ (opData _)) by done.
    by rewrite filter_nil, (right_id_L [] (++)). }
  rewrite Hfilter. split.
  - intros Hnin. apply filter_none. intros st [j Hj]%list_elem_of_lookup Hk.
    destruct (Hst _ _ Hj) as (g0 & Hg0 & Hk0 & _).
    apply Hnin. apply list_elem_of_fmap. exists g0.
    split; [congruence|by eapply list_elem_of_lookup_2].
  - intros i gid type cr Hgi Hstore.
    assert (is_Some (stores !! i)) as [st Hi].
    { apply lookup_lt_is_Some. rewrite Hlen.
      rewrite <-(mat_length _ _ _ _ _ _ _ _ Hmat). by eapply lookup_lt_Some. }
    destruct (Hst _ _ Hi) as (g0 & Hg0 & Hk0 & _).
    rewrite Hgi in Hg0. injection Hg0 as <-.
    change (opKind st = GlobalStoreOp symbol) in Hk0.
    assert (NoDup (opKind <$> stores)) as Hnd.
    { assert (opKind <$> stores
              = (λ g0, GlobalStoreOp (globalSymbol g0)) <$> gs) as ->.
      { apply list_eq. intros j. rewrite !list_lookup_fmap.
        destruct (stores !! j) as [st'|] eqn:Hj; simpl.
        - destruct (Hst _ _ Hj) as (g' & -> & -> & _). done.
        - apply lookup_ge_None in Hj.
          rewrite Hlen, <-(mat_length _ _ _ _ _ _ _ _ Hmat) in Hj.
          apply lookup_ge_None in Hj. by rewrite Hj. }
      rewrite (list_fmap_compose globalSymbol GlobalStoreOp).
      apply NoDup_fmap_2; [by intros ?? [=]|].
      apply (mat_symbols_NoDup _ _ _ _ _ _ _ _ Hmat). }
    rewrite <-Hk0. rewrite (filter_unique opKind stores i st) by done.
    simpl. f_equal.
    assert (hoistedStore (S gid) symbol cr (opLoc rootOp)
            ∈ filter (λ o, opKind o = opKind st) stores) as Hin.
    { apply list_elem_of_filter. split; [by rewrite Hk0|].
      rewrite Hbody' in Hstore.
      apply elem_of_app in Hstore as [Hstore|Hstore].
      - exfalso. apply (Hclones (hoistedStore (S gid) symbol cr
          (opLoc rootOp))); [|done].
        apply list_elem_of_bind. eexists. split; [|done].
        apply elem_of_walk_self.
      - apply elem_of_app in Hstore as [?|Hstore]; [done|].
        by apply list_elem_of_singleton in Hstore. }
    rewrite (filter_unique opKind stores i st) in Hin by done.
    apply list_elem_of_singleton in Hin as <-. done.
Qed.

(** When every store of the module names a symbol of the symbol table,
    neither the slice nor the root holds a store into a symbol that is not
    in the table. *)
Lemma sourcesClean_fresh symbol s loc v rootOp :
  wfState s → storesResolved s →
  symbol ∉ symbolNames (moduleSymbols s) →
  getDefiningOp v (module s) = Some rootOp →
  sourcesClean symbol (createInitializer loc s) rootOp.
Proof.
  intros Hwf Hres Hnew Hroot X o HX Ho Hk.
  destruct (sources_data _ _ _ _ _ _ Hwf Hroot HX Ho) as [Hd|[Hki _]];
    [|congruence].
  apply Hnew. apply (Hres (opData o)); [done|by destruct o].
Qed.

(** In a list of operations with distinct identities, two operations that
    hold the same identity are the same. *)
Lemma NoDup_bind_same {A B} (f : A → list B) (l : list A) x y z :
  NoDup (l ≫= f) → x ∈ l → y ∈ l → z ∈ f x → z ∈ f y → x = y.
Proof.
  induction l as [|a l IH]; intros Hnd Hx Hy Hzx Hzy.
  { by apply elem_of_nil in Hx. }
  csimpl in Hnd. apply NoDup_app in Hnd as (_ & Hdisj & Hnd).
  apply elem_of_cons in Hx as [->|Hx];
    apply elem_of_cons in Hy as [->|Hy]; [done|..|by apply IH].
  - destruct (Hdisj _ Hzx). apply list_elem_of_bind. eauto.
  - destruct (Hdisj _ Hzy). apply list_elem_of_bind. eauto.
Qed.

(** The operations that hold an operation of the body of an operation of
    the body of the module. *)
Lemma walk_holder m I st X :
  NoDup (opIds m) →
  I ∈ opBody m → st ∈ opBody I →
  X ∈ walkPreOrder m → opId st ∈ opIds X →
  X = m ∨ X = I ∨ X = st.
Proof.
  intros Hnd HI Hst HX Hid.
  assert (∀ p c Y, NoDup (opIds p) → c ∈ opBody p → opId st ∈ opIds c →
    Y ∈ walkPreOrder p → opId st ∈ opIds Y → Y = p ∨ Y ∈ walkPreOrder c)
    as Hdown.
  { intros p c Y Hp Hc Hstc HY HstY.
    rewrite walkPreOrder_unfold in HY.
    apply elem_of_cons in HY as [->|HY]; [by left|right].
    apply list_elem_of_bind in HY as (c' & HY & Hc').
    assert (opId st ∈ opIds c') as Hstc'.
    { eapply elem_of_sublist; [|by apply opIds_sublist]. done. }
    rewrite opIds_unfold in Hp. apply NoDup_cons in Hp as [_ Hp].
    by rewrite (NoDup_bind_same opIds (opBody p) c c' (opId st)). }
  assert (opId st ∈ opIds st) as Hself.
  { rewrite opIds_unfold. left. }
  assert (opId st ∈ opIds I) as HstI.
  { rewrite opIds_unfold. right. apply list_elem_of_bind. eauto. }
  assert (I ∈ walkPreOrder m) as HIw.
  { eapply elem_of_walk_child; [done|apply elem_of_walk_self]. }
  destruct (Hdown m I X Hnd HI HstI HX Hid) as [?|HXI]; [by left|right].
  pose proof (NoDup_opIds_sub _ _ Hnd HIw) as HndI.
  destruct (Hdown I st X HndI Hst Hself HXI Hid) as [?|HXst];
    [by left|right].
  rewrite walkPreOrder_unfold in HXst.
  apply elem_of_cons in HXst as [?|HXst]; [done|exfalso].
  apply list_elem_of_bind in HXst as (c & HXc & Hc).
  assert (st ∈ walkPreOrder I) as Hstw.
  { eapply elem_of_walk_child; [done|apply elem_of_walk_self]. }
  apply (opId_notin_body st (NoDup_opIds_sub _ _ HndI Hstw)).
  apply list_elem_of_bind. exists c. split; [|done].
  eapply elem_of_sublist; [|by apply opIds_sublist]. done.
Qed.

(** ** The block arguments read in the module after a call *)

Lemma Materialized_body s loc rootOp gs body hoisted' symbols' next' :
  Materialized s loc rootOp gs body hoisted' symbols' next' →
  NoDup (body ≫= opIds)
  ∧ ∀ id, id ∈ body ≫= opIds → nextOpId s ≤ id < next'.
Proof.
  intros Hmat. pose proof (mat_ids _ _ _ _ _ _ _ _ Hmat) as Hids.
  pose proof (mat_next _ _ _ _ _ _ _ _ Hmat) as Hnext.
  assert (NoDup ((gs ≫= opIds) ++ body ≫= opIds)) as Hnd.
  { rewrite Hids. apply NoDup_seq. }
  apply NoDup_app in Hnd as (_ & _ & Hnd). split; [done|].
  intros id Hid.
  assert (id ∈ seq (nextOpId s) (next' - nextOpId s)) as Hseq.
  { rewrite <-Hids. apply elem_of_app. by right. }
  apply elem_of_seq in Hseq. lia.
Qed.

(** A block argument read in the module after a call: it was read in the
    module before the call, or it is an argument of a block of one of the
    copies in the initializer the call has created. *)
Lemma hoistStep_owners operand s s' targetOp v g gs inits d o n :
  wfState s →
  hoistConstExpr operand s = Some s' →
  hoistStep operand s s' targetOp v g gs inits →
  d ∈ walkData (module s') → BlockArgument o n ∈ opOperands d →
  (∃ d0, d0 ∈ walkData (module s) ∧ BlockArgument o n ∈ opOperands d0)
  ∨ (hoistedMap s !! v = None
     ∧ ∃ rootOp,
         getDefiningOp v (module s) = Some rootOp
         ∧ o ∈ (initOps (cloneSlice (createInitializer (opLoc rootOp) s)
                           rootOp)
                ++ [(clone rootOp
                       (cloneMap (cloneSlice
                          (createInitializer (opLoc rootOp) s) rootOp))
                       (initNext (cloneSlice
                          (createInitializer (opLoc rootOp) s) rootOp)))
                    .1.1]) ≫= opIds).
Proof.
  intros Hwf Hs' Hstep Hd Hop.
  destruct (hoistStep_frame_walk _ _ _ _ _ _ _ _ Hwf Hs' Hstep)
    as (before & target & after & _ & _ & _ & _ & Hgk & _ & _ & Hw & Htd
        & Hown & Hw1 & Hw').
  destruct Hstep as (Htarget & Hv & Hg & Hm & Hnext & Hcase). simpl in *.
  rewrite Hw' in Hd. apply elem_of_cons in Hd as [->|Hd].
  { left. exists (opData (module s)). split; [|done].
    rewrite walkData_unfold. left. }
  apply elem_of_app in Hd as [Hd|Hd].
  { exfalso. apply list_elem_of_bind in Hd as (g0 & Hd & Hg0).
    assert (∃ gid sym type loc, g0 = hoistedGlobal gid sym type loc)
      as (gid & sym & type & loc & ->).
    { destruct Hcase as [(_ & -> & _)|(_ & rootOp & body & _ & _ & Hmat)].
      - by apply elem_of_nil in Hg0.
      - pose proof (Materialized_globals _ _ _ _ _ _ _ _ Hmat) as Hglob.
        rewrite Forall_forall in Hglob.
        destruct (Hglob _ Hg0) as (?&?&?&->). eauto. }
    unfold walkData in Hd. rewrite walkPreOrder_leaf in Hd by done.
    apply list_elem_of_singleton in Hd as ->. by apply elem_of_nil in Hop. }
  apply elem_of_app in Hd as [Hd|Hd].
  - left. apply elem_of_tail in Hd. rewrite Hw1 in Hd.
    rewrite elem_of_app, !elem_of_cons in Hd.
    destruct Hd as [Hd|[->|[->|Hd]]].
    + exists d. split; [|done]. rewrite Hw, elem_of_app. by left.
    + by apply elem_of_nil in Hop.
    + exists target. split.
      { rewrite Hw, elem_of_app, elem_of_cons. auto. }
      simpl in Hop. apply list_elem_of_lookup in Hop as [i Hi].
      destruct (decide (i = getOperandNumber operand)) as [->|Hne].
      * apply list_lookup_insert_Some in Hi as [(_ & ? & _)|(? & _)];
          done.
      * rewrite list_lookup_insert_ne in Hi by done.
        by eapply list_elem_of_lookup_2.
    + exists d. split; [|done]. rewrite Hw, elem_of_app, elem_of_cons. auto.
  - destruct Hcase as [(_ & _ & -> & _)
                      |(Hnone & rootOp & body & Hroot & -> & Hmat)].
    { by apply elem_of_nil in Hd. }
    rewrite bind_singleton, walkData_unfold in Hd. cbn [opBody] in Hd.
    apply elem_of_cons in Hd as [->|Hd]; [by apply elem_of_nil in Hop|].
    destruct (mat_body _ _ _ _ _ _ _ _ Hmat) as (stores & Hbody & Hlen & Hst).
    apply list_elem_of_bind in Hd as (c & Hd & Hc).
    apply list_elem_of_fmap in Hd as (u' & -> & Hu').
    assert (BlockArgument o n ∈ opOperands u') as Hop' by by destruct u'.
    rewrite Hbody, (assoc_L (++)) in Hc.
    apply elem_of_app in Hc as [Hc|Hc].
    + destruct (mat_owners _ _ _ _ _ _ _ _ Hmat u' o n)
        as [(u & Hu & Hou)|?];
        [by apply list_elem_of_bind; eauto|done|..].
      * left. apply list_elem_of_bind in Hu as (X & Hu & HX).
        destruct (sources_data _ _ _ _ _ _ Hwf Hroot HX Hu) as [?|[_ Hnil]].
        -- exists (opData u). split; [done|by destruct u].
        -- rewrite Hnil in Hou. by apply elem_of_nil in Hou.
      * right. split; [done|]. exists rootOp. done.
    + exfalso. apply elem_of_app in Hc as [Hc|Hc].
      * apply list_elem_of_lookup in Hc as [j Hj].
        destruct (Hst _ _ Hj) as (? & _ & _ & Hleaf & _ & ? & ? & Hops).
        rewrite walkPreOrder_leaf in Hu' by done.
        apply list_elem_of_singleton in Hu' as ->.
        rewrite Hops in Hop'. by apply list_elem_of_singleton in Hop'.
      * apply list_elem_of_singleton in Hc as ->.
        rewrite walkPreOrder_leaf in Hu' by done.
        apply list_elem_of_singleton in Hu' as ->.
        by apply elem_of_nil in Hop'.
Qed.

(** A call keeps the operands of the module from reading an argument of a
    block of an operation yet to be created. *)
Lemma hoistConstExpr_ownersFresh operand s s' :
  wfState s → ownersFresh s →
  hoistConstExpr operand s = Some s' →
  ownersFresh s'.
Proof.
  intros Hwf Hfresh Hs' d o n Hd Hop.
  destruct (hoistConstExpr_shape _ _ _ Hwf Hs')
    as (targetOp & v & g & gs & inits & Hstep).
  destruct (hoistStep_owners _ _ _ _ _ _ _ _ _ _ _ Hwf Hs' Hstep Hd Hop)
    as [(d0 & Hd0 & Hop0)|(Hnone & rootOp & Hroot & Ho)].
  - specialize (Hfresh _ _ _ Hd0 Hop0).
    pose proof (hoistConstExpr_next _ _ _ Hs' Hwf). lia.
  - destruct Hstep as (_ & _ & _ & _ & _ & Hcase).
    destruct Hcase as [(Hsome & _)|(_ & rootOp' & body & Hroot' & _ & Hmat)];
      [congruence|].
    assert (rootOp' = rootOp) as -> by congruence.
    destruct (Materialized_body _ _ _ _ _ _ _ _ Hmat) as [_ Hrange].
    destruct (mat_body _ _ _ _ _ _ _ _ Hmat) as (stores & Hbody & _).
    assert (nextOpId (createInitializer (opLoc rootOp) s) ≤ o
            < nextOpId s' - 1); [|lia].
    apply Hrange. rewrite Hbody, (assoc_L (++)), bind_app.
    apply elem_of_app. by left.
Qed.

Lemma reachable_ownersFresh s0 s :
  wfState s0 → ownersFresh s0 → reachable s0 s → ownersFresh s.
Proof.
  intros Hwf Hfresh. induction 1 as [|s operand s' Hr IH Hs']; [done|].
  eapply hoistConstExpr_ownersFresh; [|done..]. by eapply reachable_wf.
Qed.

(** The symbols of the globals a call creates are not in the symbol table
    before the call; the symbols of the table stay in it. *)
Lemma hoistStep_symbols operand s s' targetOp v g gs inits :
  hoistStep operand s s' targetOp v g gs inits →
  (∀ g0, g0 ∈ gs → globalSymbol g0 ∉ symbolNames (moduleSymbols s))
  ∧ symbolNames (moduleSymbols s')
    = list_to_set (globalSymbol <$> gs) ∪ symbolNames (moduleSymbols s).
Proof.
  intros (_ & _ & _ & _ & _ & Hcase).
  destruct Hcase as [(_ & -> & _ & _ & -> & _)
                    |(_ & rootOp & body & _ & _ & Hmat)].
  { split; [by intros ? ?%elem_of_nil|]. simpl. clear. set_solver. }
  split; [|apply (mat_symbols _ _ _ _ _ _ _ _ Hmat)].
  intros g0 [i Hg0]%list_elem_of_lookup.
  assert (is_Some (opResultTypes rootOp !! i)) as [type Hty].
  { apply lookup_lt_is_Some. rewrite <-(mat_length _ _ _ _ _ _ _ _ Hmat).
    by eapply lookup_lt_Some. }
  destruct (mat_result _ _ _ _ _ _ _ _ Hmat i type Hty)
    as (gid & symbol & cr & Hgi & _ & Hfresh & _).
  rewrite Hg0 in Hgi. injection Hgi as ->. done.
Qed.

(** ** What is kept of a store *)

(** An operation of a block after [rewriteUse], with its results. *)
Lemma rewriteUse_block_keeps_types operand load (ops : list Operation) c :
  c ∈ ops →
  ∃ c', c' ∈ map (setOperand operand (OpResult (opId load) 0))
               (ops ≫= λ c, if decide (opId c = getOwner operand)
                            then [load; c]
                            else [insertBefore (getOwner operand) load c])
        ∧ opId c' = opId c ∧ opKind c' = opKind c
        ∧ opResultTypes c' = opResultTypes c
        ∧ (c' = setOperand operand (OpResult (opId load) 0) c
           ∨ c' = setOperand operand (OpResult (opId load) 0)
                    (insertBefore (getOwner operand) load c)).
Proof.
  intros Hc. destruct (decide (opId c = getOwner operand)) as [Hid|Hid].
  - exists (setOperand operand (OpResult (opId load) 0) c). split_and!.
    + apply list_elem_of_fmap. exists c. split; [done|].
      apply list_elem_of_bind. exists c. split; [|done].
      rewrite decide_True by done. right. left.
    + apply opId_setOperand.
    + apply opKind_setOperand.
    + apply opResultTypes_setOperand.
    + by left.
  - exists (setOperand operand (OpResult (opId load) 0)
              (insertBefore (getOwner operand) load c)). split_and!.
    + apply list_elem_of_fmap. eexists. split; [done|].
      apply list_elem_of_bind. exists c. split; [|done].
      rewrite decide_False by done. left.
    + by rewrite opId_setOperand, opId_insertBefore.
    + by rewrite opKind_setOperand, opKind_insertBefore.
    + by rewrite opResultTypes_setOperand, opResultTypes_insertBefore.
    + by right.
Qed.

(** An operation of a block, and an operation of its body, after
    [rewriteUse]. *)
Lemma rewriteUse_block_keeps_child operand load (ops : list Operation) c
    st :
  c ∈ ops → st ∈ opBody c →
  ∃ c' st',
    c' ∈ map (setOperand operand (OpResult (opId load) 0))
           (ops ≫= λ c, if decide (opId c = getOwner operand)
                        then [load; c]
                        else [insertBefore (getOwner operand) load c])
    ∧ opId c' = opId c ∧ opKind c' = opKind c
    ∧ opResultTypes c' = opResultTypes c
    ∧ st' ∈ opBody c'
    ∧ opId st' = opId st ∧ opKind st' = opKind st
    ∧ opResultTypes st' = opResultTypes st.
Proof.
  intros Hc Hst.
  destruct (rewriteUse_block_keeps_types operand load ops c Hc)
    as (c' & Hc' & Hid & Hk & Hr & Hform).
  destruct Hform as [->| ->].
  - exists (setOperand operand (OpResult (opId load) 0) c),
      (setOperand operand (OpResult (opId load) 0) st).
    split_and!; [done..| | | |].
    + destruct c. simpl in *. by apply (list_elem_of_fmap_2 _ _ st).
    + apply opId_setOperand.
    + apply opKind_setOperand.
    + apply opResultTypes_setOperand.
  - destruct (rewriteUse_block_keeps_types operand load (opBody c) st Hst)
      as (st' & Hst' & Hsid & Hsk & Hsr & _).
    exists (setOperand operand (OpResult (opId load) 0)
              (insertBefore (getOwner operand) load c)), st'.
    split_and!; [done..| |done|done|done].
    destruct c. simpl in *. exact Hst'.
Qed.

Lemma reachable_initializersFresh next s0 s :
  wfState s0 → nextOpId s0 = next →
  reachable s0 s →
  initializersFresh next (module s).
Proof.
  intros Hwf Hnext. induction 1 as [|s operand s' Hr IH Hs'].
  - intros I HI _ Hid. exfalso.
    assert (opId I < nextOpId s0); [|lia].
    eapply wf_lt; [done|]. apply list_elem_of_fmap_2.
    eapply elem_of_walk_child; [done|apply elem_of_walk_self].
  - pose proof (reachable_wf _ _ Hwf Hr) as Hwfs.
    pose proof (reachable_next _ _ Hwf Hr) as Hn.
    destruct (hoistConstExpr_shape _ _ _ Hwfs Hs')
      as (targetOp & v & g & gs & inits & Hstep).
    eapply hoistStep_initializersFresh; [done|lia|done..].
Qed.

(** What a call that creates globals establishes for each of them, when
    every store of the module names a symbol of the symbol table and no
    operand reads an argument of a block of an operation yet to be
    created. *)
Lemma hoistStep_StoreInv_created operand s s' targetOp v g gs inits :
  wfState s →
  storesResolved s → ownersFresh s →
  hoistConstExpr operand s = Some s' →
  hoistStep operand s s' targetOp v g gs inits →
  ∀ rootOp body,
    getDefiningOp v (module s) = Some rootOp →
    inits = [mkOperation (nextOpId s) InitializerOp [] [] (opLoc rootOp)
               body] →
    Materialized (createInitializer (opLoc rootOp) s) (opLoc rootOp) rootOp
      gs body (hoistedMap s') (moduleSymbols s') (nextOpId s' - 1) →
    ∀ i gid symbol type clonedResult,
      gs !! i = Some (hoistedGlobal gid symbol type (opLoc rootOp)) →
      hoistedStore (S gid) symbol clonedResult (opLoc rootOp) ∈ body →
      StoreInv symbol (S gid) (nextOpId s) s'.
Proof.
  intros Hwf Hres Hfr Hs' Hstep rootOp body Hroot -> Hmat i gid symbol type cr
    Hgi Hstore.
  destruct (hoistStep_symbols _ _ _ _ _ _ _ _ Hstep) as [Hfresh Hsyms].
  assert (symbol ∉ symbolNames (moduleSymbols s)) as Hnew.
  { apply (Hfresh (hoistedGlobal gid symbol type (opLoc rootOp))).
    by eapply list_elem_of_lookup_2. }
  assert (∀ o, o ∈ walkPreOrder (module s) →
               opKind o ≠ GlobalStoreOp symbol) as Hnone.
  { intros o Ho Hk. apply Hnew. apply (Hres (opData o)); [|by destruct o].
    by apply list_elem_of_fmap_2. }
  pose proof (sourcesClean_fresh symbol s (opLoc rootOp) v rootOp Hwf Hres
    Hnew Hroot) as Hclean.
  destruct (Materialized_stores symbol _ _ _ _ _ _ _ _ Hclean Hmat)
    as [_ Hone].
  split.
  - rewrite Hsyms. apply elem_of_union. left. apply elem_of_list_to_set.
    apply list_elem_of_fmap.
    exists (hoistedGlobal gid symbol type (opLoc rootOp)).
    split; [done|]. by eapply list_elem_of_lookup_2.
  - rewrite (hoistStep_storesOf symbol _ _ _ _ _ _ _ _ Hwf Hs' Hstep).
    rewrite (Hone i gid type cr Hgi Hstore).
    assert (storesOf symbol (module s) = []) as ->; [|done].
    unfold storesOf. rewrite filter_none; [done|].
    intros d (o & -> & Ho)%list_elem_of_fmap Hk.
    apply (Hnone o Ho). by destruct o.
  - rewrite (hoistStep_opBody _ _ _ _ _ _ _ _ Hstep).
    exists (mkOperation (nextOpId s) InitializerOp [] [] (opLoc rootOp) body),
      (hoistedStore (S gid) symbol cr (opLoc rootOp)).
    split_and!; [|done..].
    rewrite !elem_of_app. right. right. left.
  - intros d n Hd Hop.
    destruct (hoistStep_owners _ _ _ _ _ _ _ _ _ _ _ Hwf Hs' Hstep Hd Hop)
      as [(d0 & Hd0 & Hop0)|(_ & rootOp' & Hroot' & Ho)].
    { specialize (Hfr _ _ _ Hd0 Hop0).
      destruct (Materialized_body _ _ _ _ _ _ _ _ Hmat) as [_ Hrange].
      assert (nextOpId (createInitializer (opLoc rootOp) s) ≤ S gid) as Hge;
        [|simpl in Hge; lia].
      apply Hrange. apply list_elem_of_bind. eexists. split; [|exact Hstore].
      rewrite opIds_unfold. left. }
    assert (rootOp' = rootOp) as -> by congruence.
    destruct (Materialized_body _ _ _ _ _ _ _ _ Hmat) as [Hnd _].
    destruct (mat_body _ _ _ _ _ _ _ _ Hmat) as (stores & Hbody & _).
    rewrite Hbody, (assoc_L (++)) in Hstore, Hnd.
    rewrite bind_app in Hnd. apply NoDup_app in Hnd as (_ & Hdisj & _).
    apply elem_of_app in Hstore as [Hstore|Hstore].
    + apply (Materialized_no_store symbol _ _ _ _ _ _ _ _ Hclean Hmat
        (hoistedStore (S gid) symbol cr (opLoc rootOp))); [|done].
      apply list_elem_of_bind. eexists. split; [|exact Hstore].
      apply elem_of_walk_self.
    + apply (Hdisj _ Ho). apply list_elem_of_bind. eexists.
      split; [|exact Hstore]. rewrite opIds_unfold. left.
Qed.

End Stores.

Section StoresScoped.
Context `{SliceScoped}.

(** An operation of the slice has a result, or is neither the module nor
    an initializer and owns a block an argument of which is read. The root
    has a result. *)
Lemma sources_cases loc s v rootOp X :
  wfState s →
  getDefiningOp v (module s) = Some rootOp →
  X ∈ getBackwardSlice (module (createInitializer loc s)) rootOp ++ [rootOp] →
  opResultTypes X ≠ []
  ∨ (opKind X ≠ ModuleOp ∧ opKind X ≠ InitializerOp
     ∧ ∃ user argNumber,
         (opData user ∈ walkData (module s) ∨ opOperands user = [])
         ∧ BlockArgument (opId X) argNumber ∈ opOperands user).
Proof using Type*.
  intros Hwf Hroot [HX|HX]%elem_of_app.
  - destruct (getBackwardSlice_isolated _ _ _ HX) as [Hm Hi].
    destruct (getBackwardSlice_producer _ _ _ HX)
      as [?|(user & n & Huser & Hop)]; [by left|right].
    split_and!; [done..|]. exists user, n. split; [|done].
    assert (user ∈ walkPreOrder (module (createInitializer loc s))) as Hw.
    { destruct Huser as [->|?]; [|done].
      pose proof (createInitializer_getDefiningOp loc _ _ _ Hwf Hroot) as Hr.
      by apply getDefiningOp_Some in Hr as (? & _). }
    apply createInitializer_walk in Hw as [->|[Hw| ->]].
    + right. apply (wf_operands _ Hwf).
    + left. apply list_elem_of_fmap_2. rewrite walkPreOrder_unfold.
      by right.
    + by right.
  - apply list_elem_of_singleton in HX as ->. left.
    apply getDefiningOp_Some in Hroot as (_ & Hres & _).
    apply elem_of_getResults in Hres as (i & Hi & _).
    intros Hnil. rewrite Hnil in Hi. simpl in Hi. lia.
Qed.

(** Neither the slice nor the root holds the store into a global of the
    pass. *)
Lemma sourcesClean_StoreInv symbol storeId initId s loc v rootOp :
  wfState s →
  StoreInv symbol storeId initId s →
  getDefiningOp v (module s) = Some rootOp →
  sourcesClean symbol (createInitializer loc s) rootOp.
Proof using Type*.
  intros Hwf [Hsym Hstores (I & st & HI & HIid & HIk & HIr & Hst & Hstid
    & Hstk & Hstr) Hown] Hroot X o HX Ho Hk.
  pose proof (sources_cases _ _ _ _ _ Hwf Hroot HX) as Hcases.
  pose proof (sources_walk _ _ _ _ _ Hwf Hroot HX) as HXw.
  apply createInitializer_walk in HXw as [->|[HXw| ->]].
  - destruct Hcases as [Hr|(Hm & _)].
    + apply Hr. apply (wf_results _ Hwf).
    + apply Hm. apply (wf_kind _ Hwf).
  - assert (X ∈ walkPreOrder (module s)) as HXm.
    { rewrite walkPreOrder_unfold. by right. }
    assert (opId o = storeId) as Hid.
    { assert (opId o ∈ storesOf symbol (module s)) as Hin.
      { unfold storesOf. apply list_elem_of_fmap. exists (opData o).
        split; [by destruct o|]. apply list_elem_of_filter.
        split; [by destruct o|]. apply list_elem_of_fmap_2.
        by eapply elem_of_walk_trans. }
      rewrite Hstores in Hin. by apply list_elem_of_singleton in Hin. }
    assert (opId st ∈ opIds X) as HstX.
    { rewrite Hstid, <-Hid. by apply list_elem_of_fmap_2. }
    destruct (walk_holder _ _ _ _ (wf_NoDup _ Hwf) HI Hst HXm HstX)
      as [->|[->| ->]].
    + destruct Hcases as [Hr|(Hm & _)].
      * apply Hr. apply (wf_results _ Hwf).
      * apply Hm. apply (wf_kind _ Hwf).
    + destruct Hcases as [Hr|(_ & Hi & _)]; [by apply Hr|by apply Hi].
    + destruct Hcases as [Hr|(_ & _ & user & n & Huser & Hop)];
        [by apply Hr|].
      destruct Huser as [Huser|Huser].
      * apply (Hown _ n Huser). rewrite <-Hstid. by destruct user.
      * rewrite Huser in Hop. by apply elem_of_nil in Hop.
  - rewrite walkPreOrder_leaf in Ho by done.
    apply list_elem_of_singleton in Ho as ->. done.
Qed.

(** What is kept of a store is kept by a call. *)
Lemma hoistConstExpr_StoreInv symbol storeId initId operand s s' :
  wfState s →
  StoreInv symbol storeId initId s →
  hoistConstExpr operand s = Some s' →
  StoreInv symbol storeId initId s'.
Proof using Type*.
  intros Hwf Hinv Hs'.
  destruct (hoistConstExpr_shape _ _ _ Hwf Hs')
    as (targetOp & v & g & gs & inits & Hstep).
  destruct (hoistStep_symbols _ _ _ _ _ _ _ _ Hstep) as [Hfresh Hsyms].
  pose proof Hinv as [Hsym Hstores (I & st & HI & HIid & HIk & HIr & Hst
    & Hstid & Hstk & Hstr) Hown].
  split.
  - rewrite Hsyms. apply elem_of_union. by right.
  - rewrite (hoistStep_storesOf symbol _ _ _ _ _ _ _ _ Hwf Hs' Hstep), Hstores.
    pose proof Hstep as (_ & _ & _ & _ & _ & Hcase).
    destruct Hcase as [(_ & _ & -> & _)
                      |(_ & rootOp & body & Hroot & -> & Hmat)]; [done|].
    destruct (Materialized_stores symbol _ _ _ _ _ _ _ _
      (sourcesClean_StoreInv _ _ _ _ _ _ _ Hwf Hinv Hroot) Hmat)
      as [Hnone _].
    rewrite Hnone; [done|].
    intros (g0 & -> & Hg0)%list_elem_of_fmap. by apply (Hfresh g0).
  - rewrite (hoistStep_opBody _ _ _ _ _ _ _ _ Hstep).
    destruct (rewriteUse_block_keeps_child operand
      (createGlobalLoad (nextOpId s' - 1) (opLoc targetOp) g) _ I st HI Hst)
      as (I' & st' & HI' & Hid' & Hk' & Hr' & Hst' & Hsid' & Hsk' & Hsr').
    exists I', st'. split_and!; [|congruence..].
    rewrite !elem_of_app. right. left. exact HI'.
  - intros d n Hd Hop.
    destruct (hoistStep_owners _ _ _ _ _ _ _ _ _ _ _ Hwf Hs' Hstep Hd Hop)
      as [(d0 & Hd0 & Hop0)|(Hnone & rootOp & Hroot & Ho)].
    { by apply (Hown d0 n). }
    destruct Hstep as (_ & _ & _ & _ & _ & Hcase).
    destruct Hcase as [(Hsome & _)|(_ & rootOp' & body & Hroot' & _ & Hmat)];
      [congruence|].
    assert (rootOp' = rootOp) as -> by congruence.
    destruct (Materialized_body _ _ _ _ _ _ _ _ Hmat) as [_ Hrange].
    destruct (mat_body _ _ _ _ _ _ _ _ Hmat) as (stores & Hbody & _).
    assert (nextOpId (createInitializer (opLoc rootOp) s) ≤ storeId) as Hge.
    { apply Hrange. rewrite Hbody, (assoc_L (++)), bind_app.
      apply elem_of_app. by left. }
    assert (storeId < nextOpId s); [|simpl in Hge; lia].
    eapply wf_lt; [done|]. rewrite <-Hstid. apply list_elem_of_fmap_2.
    eapply elem_of_walk_child; [done|].
    eapply elem_of_walk_child; [done|apply elem_of_walk_self].
Qed.

Lemma reachable_StoreInv symbol storeId initId s0 s :
  wfState s0 →
  StoreInv symbol storeId initId s0 →
  reachable s0 s →
  StoreInv symbol storeId initId s.
Proof using Type*.
  intros Hwf Hinv. induction 1 as [|s operand s' Hr IH Hs']; [done|].
  eapply hoistConstExpr_StoreInv; [|done..]. by eapply reachable_wf.
Qed.

End StoresScoped.

(** * What the sweeper keeps *)

Lemma filter_sublist_mono {A} (P : A → Prop) `{!∀ x, Decision (P x)}
    (l1 l2 : list A) :
  l1 `sublist_of` l2 → filter P l1 `sublist_of` filter P l2.
Proof.
  induction 1 as [|x l1 l2 _ IH|x l1 l2 _ IH]; [done|..];
    rewrite ?filter_cons; case_decide; auto using sublist_skip, sublist_cons.
Qed.

Lemma NoDup_fmap_eq {A B} (f : A → B) (l : list A) x y :
  NoDup (f <$> l) → x ∈ l → y ∈ l → f x = f y → x = y.
Proof.
  induction l as [|z l IH]; [by intros _ ?%elem_of_nil|].
  rewrite fmap_cons. intros [Hz Hnd]%NoDup_cons.
  intros [->|Hx]%elem_of_cons [->|Hy]%elem_of_cons Heq; [done|..|by apply IH].
  - destruct Hz. rewrite Heq. by apply list_elem_of_fmap_2.
  - destruct Hz. rewrite <-Heq. by apply list_elem_of_fmap_2.
Qed.

(** An operation of the body of the module is left as it is by the erasure
    of an operation that is neither it nor nested in it. *)
Lemma eraseOp_keeps id m c :
  c ∈ opBody m → id ∉ opIds c → c ∈ opBody (eraseOp id m).
Proof.
  intros Hc Hid. rewrite opIds_unfold in Hid.
  apply not_elem_of_cons in Hid as [Hne Hid].
  destruct m as [i k os ts loc body]. simpl in *.
  apply list_elem_of_bind. exists c. split; [|done].
  rewrite decide_False by done. apply list_elem_of_singleton.
  by rewrite eraseOp_notin.
Qed.

Lemma sweepSteps_keeps m allOps m' allOps' c :
  sweepSteps (m, allOps) (m', allOps') →
  c ∈ opBody m → (∀ id, id ∈ opIds c → id ∉ allOps) → c ∈ opBody m'.
Proof.
  intros Hst Hc Hnin. remember (m', allOps') as st eqn:Hst'.
  revert m' allOps' Hst'.
  induction Hst as [|m1 allOps1 id Hst IH Hin Hdead]; intros m' allOps'.
  - by intros [= <- <-].
  - intros [= <- <-]. apply eraseOp_keeps; [by eapply IH|].
    intros Hid. apply (Hnin _ Hid).
    by eapply (sweepSteps_sublist _ _ _ _ Hst).
Qed.

(** The one store into a global is kept with the initializer it is in. *)
Lemma shrinks_storesOf symbol storeId m m' I :
  NoDup (opIds m) →
  shrinks m m' →
  storesOf symbol m = [storeId] →
  I ∈ opBody m → storeId ∈ opIds I → I ∈ opBody m' →
  storesOf symbol m' = [storeId].
Proof.
  intros Hnd (_ & Hw & _) Hstores HI Hst HI'.
  assert (storesOf symbol m' `sublist_of` [storeId]) as Hsub.
  { rewrite <-Hstores. unfold storesOf.
    by apply fmap_sublist, filter_sublist_mono. }
  assert (storeId ∈ storesOf symbol m') as Hin.
  { assert (storeId ∈ storesOf symbol m) as Hm by (rewrite Hstores; left).
    unfold storesOf in Hm.
    apply list_elem_of_fmap in Hm as (d & Hid & [Hk Hd]%list_elem_of_filter).
    apply list_elem_of_fmap in Hst as (o & Hido & Ho).
    assert (opData o = d) as Heq.
    { apply (NoDup_fmap_eq opId (walkData m)).
      - by rewrite opIds_walkData.
      - apply list_elem_of_fmap_2. by eapply elem_of_walk_child.
      - done.
      - rewrite opId_opData. congruence. }
    unfold storesOf. apply list_elem_of_fmap. exists d. split; [done|].
    apply list_elem_of_filter. split; [done|].
    rewrite walkData_unfold. right. apply list_elem_of_bind. exists I.
    split; [|done]. rewrite <-Heq. by apply list_elem_of_fmap_2. }
  destruct (storesOf symbol m') as [|x l]; [by apply elem_of_nil in Hin|].
  apply sublist_cons_l in Hsub as (k1 & k2 & Hk & Hsub).
  destruct k1 as [|? [|??]]; simplify_eq/=.
  by apply sublist_nil_r in Hsub as ->.
Qed.

Section Keep.
Context `{ConstExprOracle}.

Lemma cleanupDeadOps_keeps constExprs m c :
  c ∈ opBody m →
  (∀ id, id ∈ opIds c → id ∉ populateConstExprOperations constExprs) →
  c ∈ opBody (cleanupDeadOps constExprs m).1.
Proof.
  intros Hc Hnin.
  destruct (cleanupDeadOps_spec constExprs m) as (Hst & _).
  destruct (cleanupDeadOps constExprs m) as [m' allOps']. simpl.
  eapply sweepSteps_keeps; [done..|].
  intros id Hid Hin. apply (Hnin _ Hid). by apply elem_of_remove_dups.
Qed.

End Keep.

(** * More invariants of the memo table and of the module *)

Section Typed.
Context `{SliceAnalysis}.

(** The memo table maps a result to a global of its type. *)
Lemma hoistConstExpr_hoistedTyped operand s s' :
  wfState s → hoistedTyped s →
  hoistConstExpr operand s = Some s' → hoistedTyped s'.
Proof.
  intros Hwf Hty Hs' v' g' Hg'.
  destruct (hoistConstExpr_shape _ _ _ Hwf Hs')
    as (targetOp & v & g & gs & inits & Htarget & Hv & Hg & Hm & Hnext
        & Hcase).
  assert (∃ op i type,
    getDefiningOp v' (module s) = Some op
    ∧ v' = OpResult (opId op) i
    ∧ opResultTypes op !! i = Some type
    ∧ ∃ gid symbol loc, g' = hoistedGlobal gid symbol type loc)
    as (op & i & type & Hop & -> & Hi & Hglob).
  { destruct Hcase as [(_ & _ & _ & Hh & _)
                      |(_ & rootOp & body & Hroot & _ & Hmat)].
    { apply Hty. by rewrite <-Hh. }
    destruct (decide (v' ∈ getResults rootOp)) as [Hin|Hnin].
    - apply elem_of_getResults in Hin as (i & Hi & ->).
      apply lookup_lt_is_Some in Hi as [type Hi].
      destruct (mat_result _ _ _ _ _ _ _ _ Hmat i type Hi)
        as (gid & symbol & cr & _ & Hh & _).
      rewrite Hh in Hg'. injection Hg' as <-.
      exists rootOp, i, type. split_and!; [|done..|eauto].
      apply getDefiningOp_Some in Hroot as (Hin & _).
      apply getDefiningOp_result; [by apply wf_NoDup|done|].
      apply elem_of_getResults. exists i. split; [|done].
      by eapply lookup_lt_Some.
    - apply Hty. by rewrite (mat_frame _ _ _ _ _ _ _ _ Hmat) in Hg'. }
  destruct (hoistConstExpr_getDefiningOp _ _ _ _ _ Hwf Hs' Hop)
    as (op' & Hop' & Hid & Hres & _).
  exists op', i, type. rewrite Hid, Hres. done.
Qed.

Lemma reachable_hoistedTyped m next s :
  wfState (initialState m next) →
  reachable (initialState m next) s → hoistedTyped s.
Proof.
  intros Hwf. induction 1 as [|s operand s' Hr IH Hs'].
  - intros v g Hg. unfold initialState in Hg. simpl in Hg.
    by apply lookup_empty_Some in Hg.
  - eapply hoistConstExpr_hoistedTyped; [|done..]. by eapply reachable_wf.
Qed.

(** The stores of the module name symbols of the symbol table. *)
Lemma hoistConstExpr_storesResolved operand s s' :
  wfState s → storesResolved s →
  hoistConstExpr operand s = Some s' → storesResolved s'.
Proof.
  intros Hwf Hres Hs' d symbol Hd Hk.
  destruct (hoistConstExpr_shape _ _ _ Hwf Hs')
    as (targetOp & v & g & gs & inits & Hstep).
  destruct (hoistStep_symbols _ _ _ _ _ _ _ _ Hstep) as [_ Hsyms].
  destruct (decide (symbol ∈ symbolNames (moduleSymbols s))) as [Hin|Hnin].
  { rewrite Hsyms. apply elem_of_union. by right. }
  assert (storesOf symbol (module s) = []) as Hold.
  { unfold storesOf. rewrite filter_none; [done|].
    intros d0 Hd0 Hk0. apply Hnin. by apply (Hres d0). }
  assert (opId d ∈ storesOf symbol (module s')) as Hst.
  { unfold storesOf. apply list_elem_of_fmap_2.
    by apply list_elem_of_filter. }
  rewrite (hoistStep_storesOf symbol _ _ _ _ _ _ _ _ Hwf Hs' Hstep), Hold
    in Hst.
  simpl in Hst. rewrite Hsyms. apply elem_of_union. left.
  apply elem_of_list_to_set.
  destruct (decide (symbol ∈ globalSymbol <$> gs)) as [?|Hngs]; [done|].
  exfalso.
  pose proof Hstep as (_ & _ & _ & _ & _ & Hcase).
  destruct Hcase as [(_ & _ & -> & _)
                    |(_ & rootOp & body & Hroot & -> & Hmat)].
  { by apply elem_of_nil in Hst. }
  destruct (Materialized_stores symbol _ _ _ _ _ _ _ _
    (sourcesClean_fresh symbol s (opLoc rootOp) _ rootOp Hwf Hres Hnin Hroot)
    Hmat) as [Hnone _].
  rewrite Hnone in Hst by done. by apply elem_of_nil in Hst.
Qed.

Lemma reachable_storesResolved s0 s :
  wfState s0 → storesResolved s0 → reachable s0 s → storesResolved s.
Proof.
  intros Hwf Hres. induction 1 as [|s operand s' Hr IH Hs']; [done|].
  eapply hoistConstExpr_storesResolved; [|done..]. by eapply reachable_wf.
Qed.

(** The memo table is one-to-one, onto the globals of the pass. *)
Lemma hoistConstExpr_hoistedBijective next0 operand s s' gs mid inits
    targetOp v g gsN initsN :
  wfState s → allOrNone s →
  Layout next0 s gs mid inits →
  hoistedBijective s gs →
  hoistConstExpr operand s = Some s' →
  hoistStep operand s s' targetOp v g gsN initsN →
  hoistedBijective s' (gsN ++ gs).
Proof.
  intros Hwf Hinv Hlay [Hinj Hsurj] Hs' Hstep.
  destruct (hoistStep_symbols _ _ _ _ _ _ _ _ Hstep) as [Hfresh _].
  pose proof Hstep as (_ & Hv & _ & _ & _ & Hcase).
  destruct Hcase as [(_ & -> & _ & Hh & _)
                    |(Hnone & rootOp & body & Hroot & _ & Hmat)].
  { split; rewrite Hh; [done|]. simpl. done. }
  assert (∀ v0 g0, hoistedMap s' !! v0 = Some g0 →
    (∃ i, v0 = OpResult (opId rootOp) i ∧ gsN !! i = Some g0)
    ∨ (hoistedMap s !! v0 = Some g0 ∧ g0 ∈ gs)) as Hsrc.
  { intros v0 g0 Hg0.
    destruct (decide (v0 ∈ getResults rootOp)) as [Hin|Hnin].
    - left. apply elem_of_getResults in Hin as (i & Hi & ->).
      apply lookup_lt_is_Some in Hi as [type Hi].
      destruct (mat_result _ _ _ _ _ _ _ _ Hmat i type Hi)
        as (gid & symbol & cr & Hgi & Hh & _).
      rewrite Hh in Hg0. injection Hg0 as <-. eauto.
    - right. rewrite (mat_frame _ _ _ _ _ _ _ _ Hmat) in Hg0 by done.
      split; [done|]. apply Hsurj. eauto. }
  assert (∀ g0, g0 ∈ gs → g0 ∈ gsN → False) as Hdisj.
  { intros g0 Hold Hnew. apply (Hfresh _ Hnew).
    apply (lay_symbols_known _ _ _ _ _ Hlay g0).
    - rewrite (lay_body _ _ _ _ _ Hlay). apply elem_of_app. by left.
    - pose proof (lay_globals _ _ _ _ _ Hlay) as Hgs.
      rewrite Forall_forall in Hgs.
      by destruct (Hgs _ Hold) as (?&?&?&?&->&_). }
  pose proof (mat_symbols_NoDup _ _ _ _ _ _ _ _ Hmat) as Hnd.
  apply NoDup_fmap_1 in Hnd.
  split.
  - intros v1 v2 g0 H1 H2.
    destruct (Hsrc _ _ H1) as [(i1 & -> & Hi1)|[Ho1 Hg1]];
      destruct (Hsrc _ _ H2) as [(i2 & -> & Hi2)|[Ho2 Hg2]].
    + f_equal. by eapply NoDup_lookup.
    + destruct (Hdisj g0); [done|by eapply list_elem_of_lookup_2].
    + destruct (Hdisj g0); [done|by eapply list_elem_of_lookup_2].
    + by eapply Hinj.
  - intros g0. rewrite elem_of_app. split.
    + intros [[i Hi]%list_elem_of_lookup|Hold].
      * assert (is_Some (opResultTypes rootOp !! i)) as [type Hty].
        { apply lookup_lt_is_Some.
          rewrite <-(mat_length _ _ _ _ _ _ _ _ Hmat).
          by eapply lookup_lt_Some. }
        destruct (mat_result _ _ _ _ _ _ _ _ Hmat i type Hty)
          as (gid & symbol & cr & Hgi & Hh & _).
        rewrite Hi in Hgi. injection Hgi as ->. eauto.
      * apply Hsurj in Hold as [v0 Hv0]. exists v0.
        eapply hoistConstExpr_memo_persistent; done.
    + intros [v0 Hv0].
      destruct (Hsrc _ _ Hv0) as [(i & _ & Hi)|[_ ?]]; [left|by right].
      by eapply list_elem_of_lookup_2.
Qed.

End Typed.

(** * The operations that were there, and the scans of the sweeper *)

Lemma sameOperation_opData op op' :
  sameOperation op op' ↔ sameOperation (opData op) (opData op').
Proof. by destruct op, op'. Qed.

Lemma sameOperation_refl op : sameOperation op op.
Proof. done. Qed.

Lemma sameOperation_setOperand operand v op :
  sameOperation op (setOperand operand v op).
Proof.
  destruct op as [id kind os ts loc body]. unfold sameOperation. simpl.
  split_and!; [done..|]. case_decide; [|done]. by rewrite length_insert.
Qed.

Lemma sameOperation_trans op1 op2 op3 :
  sameOperation op1 op2 → sameOperation op2 op3 → sameOperation op1 op3.
Proof.
  unfold sameOperation. intros (?&?&?&?&?) (?&?&?&?&?).
  split_and!; congruence.
Qed.

Lemma filter_all {A} (P : A → Prop) `{!∀ x, Decision (P x)} (l : list A) :
  (∀ x, x ∈ l → P x) → filter P l = l.
Proof.
  induction l as [|x l IH]; intros Hall; [done|].
  rewrite filter_cons_True by (apply Hall; left).
  f_equal. apply IH. intros ??. apply Hall. by right.
Qed.

Section More.
Context `{SliceAnalysis}.

(** The memo table is one-to-one, onto the globals of the pass, in every
    state. *)
Lemma reachable_Layout_bijective m next s :
  wfState (initialState m next) →
  reachable (initialState m next) s →
  ∃ gs mid inits, Layout next s gs mid inits ∧ hoistedBijective s gs.
Proof.
  intros Hwf Hr0.
  assert (∀ s, reachable (initialState m next) s → allOrNone s) as Hall.
  { intros s0 Hs0. eapply reachable_allOrNone; [done| | |done].
    - apply initialState_hoistedDefined.
    - apply initialState_allOrNone. }
  induction Hr0 as [|s operand s' Hr IH Hs'].
  { exists [], (opBody m), []. split; [by apply initialState_Layout|].
    split.
    - intros v1 v2 g Hg. unfold initialState in Hg. simpl in Hg.
      by apply lookup_empty_Some in Hg.
    - intros g. split; [by intros ?%elem_of_nil|].
      intros [v Hg]. unfold initialState in Hg. simpl in Hg.
      by apply lookup_empty_Some in Hg. }
  destruct IH as (gs & mid & inits & Hl & Hbij).
  pose proof (reachable_wf _ _ Hwf Hr) as Hwfs.
  pose proof (reachable_next _ _ Hwf Hr) as Hnext. simpl in Hnext.
  destruct (hoistConstExpr_shape _ _ _ Hwfs Hs')
    as (targetOp & v & g & gsN & initsN & Hstep).
  destruct (hoistConstExpr_Layout next _ _ _ _ _ _ _ _ _ _ _ Hwfs
    ltac:(lia) Hl Hs' Hstep) as (mid' & inits' & Hl' & _).
  exists (gsN ++ gs), mid', (inits' ++ initsN). split; [done|].
  eapply hoistConstExpr_hoistedBijective; eauto.
Qed.

(** A call leaves the operations that were there in the order they were
    in. *)
Lemma hoistConstExpr_old_order next0 operand s s' :
  wfState s → next0 ≤ nextOpId s →
  hoistConstExpr operand s = Some s' →
  filter (λ id, id < next0) (opIds (module s'))
  = filter (λ id, id < next0) (opIds (module s)).
Proof.
  intros Hwf Hn0 Hs'.
  destruct (hoistConstExpr_shape _ _ _ Hwf Hs')
    as (targetOp & v & g & gs & inits & Hstep).
  destruct (hoistStep_frame_walk _ _ _ _ _ _ _ _ Hwf Hs' Hstep)
    as (before & target & after & _ & _ & Hgs & Hinits & _ & _ & Hload & Hw
        & Htd & Hown & Hw1 & Hw').
  destruct Hstep as (Htarget & Hv & Hg & Hm & Hnext & Hcase). simpl in *.
  destruct (getOperand_owner _ _ _ (wf_operands _ Hwf) Hv) as [Hnr _].
  destruct before as [|root before].
  { rewrite walkData_unfold in Hw. simpl in Hw. injection Hw as Hd _.
    destruct Hnr. rewrite <-Hown, <-Hd. done. }
  assert (root = opData (module s)) as ->.
  { rewrite walkData_unfold in Hw. simpl in Hw. by injection Hw. }
  set (K := λ l : list Operation, filter (λ id, id < next0) (opId <$> l)).
  assert (∀ l1 l2, K (l1 ++ l2) = K l1 ++ K l2) as Kapp.
  { intros l1 l2. unfold K. by rewrite fmap_app, filter_app. }
  assert (∀ x l, K (x :: l) = K [x] ++ K l) as Kcons.
  { intros x l. apply (Kapp [x] l). }
  assert (∀ x y, opId x = opId y → K [x] = K [y]) as Ksame.
  { intros x y Hid. unfold K. simpl. by rewrite Hid. }
  assert (∀ l, Forall (λ o, nextOpId s ≤ opId o) l → K l = []) as Hnew.
  { intros l Hl. apply filter_none.
    intros id (o & -> & Ho)%list_elem_of_fmap.
    rewrite Forall_forall in Hl. specialize (Hl _ Ho). lia. }
  rewrite <-!opIds_walkData.
  fold (K (walkData (module s'))) (K (walkData (module s))).
  rewrite Hw', Hw1, Hw. cbn [tail app].
  rewrite (Kcons (opData (module s)) (_ ++ _ ++ _)),
    (Kcons (opData (module s)) (before ++ _)), !Kapp,
    (Kcons (createGlobalLoad _ _ _)), (Kcons (mkOperation _ _ _ _ _ _)),
    (Kcons target).
  rewrite (Hnew _ Hgs), (Hnew _ Hinits).
  rewrite (Hnew [createGlobalLoad _ _ _]) by (constructor; [done|constructor]).
  rewrite (Ksame (mkOperation _ _ _ _ _ _) target) by done.
  simpl. by rewrite (right_id_L [] (++)).
Qed.

Lemma reachable_old_order s0 s :
  wfState s0 → reachable s0 s →
  filter (λ id, id < nextOpId s0) (opIds (module s)) = opIds (module s0).
Proof.
  intros Hwf. induction 1 as [|s operand s' Hr IH Hs'].
  - apply filter_all. intros id Hid. by eapply wf_lt.
  - rewrite <-IH. eapply hoistConstExpr_old_order; [|by eapply reachable_next|done].
    by eapply reachable_wf.
Qed.

(** An operation of the module is there after any number of calls, with
    its kind, its result types, its location and the number of its
    operands. *)
Lemma reachable_sameOperation s0 s id op :
  wfState s0 → reachable s0 s →
  lookupOp id (module s0) = Some op →
  ∃ op', lookupOp id (module s) = Some op' ∧ sameOperation op op'.
Proof.
  intros Hwf Hr Hop. induction Hr as [|s operand s' Hr IH Hs'].
  - exists op. split; [done|apply sameOperation_refl].
  - destruct IH as (op1 & Hop1 & Hsame).
    destruct (hoistConstExpr_lookupOp _ _ _ _ _ (reachable_wf _ _ Hwf Hr)
      Hs' Hop1) as (op' & Hop' & Hd).
    exists op'. split; [done|].
    eapply sameOperation_trans; [done|].
    apply sameOperation_opData. rewrite Hd.
    apply sameOperation_setOperand.
Qed.

(** The module operation itself is left as it is. *)
Lemma hoistConstExpr_root operand s s' :
  wfState s → hoistConstExpr operand s = Some s' →
  opData (module s') = opData (module s).
Proof.
  intros Hwf Hs'.
  destruct (hoistConstExpr_shape _ _ _ Hwf Hs')
    as (targetOp & v & g & gs & inits & Hstep).
  destruct (hoistStep_frame_walk _ _ _ _ _ _ _ _ Hwf Hs' Hstep)
    as (before & target & after & _ & _ & _ & _ & _ & _ & _ & _
        & _ & _ & _ & Hw').
  apply (f_equal head) in Hw'.
  rewrite (walkData_unfold (module s')) in Hw'. simpl in Hw'. congruence.
Qed.

Lemma reachable_root s0 s :
  wfState s0 → reachable s0 s → opData (module s) = opData (module s0).
Proof.
  intros Hwf. induction 1 as [|s operand s' Hr IH Hs']; [done|].
  rewrite <-IH. eapply hoistConstExpr_root; [|done]. by eapply reachable_wf.
Qed.

(** The load a call inserts is in the module, under the last identity the
    call has taken. *)
Lemma hoistStep_load operand s s' targetOp v g gs inits :
  wfState s →
  hoistConstExpr operand s = Some s' →
  hoistStep operand s s' targetOp v g gs inits →
  ∃ loadOp,
    lookupOp (nextOpId s' - 1) (module s') = Some loadOp
    ∧ opData loadOp = createGlobalLoad (nextOpId s' - 1) (opLoc targetOp) g.
Proof.
  intros Hwf Hs' Hstep.
  pose proof (hoistConstExpr_wf _ _ _ Hwf Hs') as Hwf'.
  destruct (hoistStep_frame_walk _ _ _ _ _ _ _ _ Hwf Hs' Hstep)
    as (before & target & after & _ & _ & _ & _ & _ & _ & _ & Hw
        & Htd & Hown & Hw1 & Hw').
  destruct Hstep as (_ & Hv & _). simpl in *.
  assert (createGlobalLoad (nextOpId s' - 1) (opLoc targetOp) g
          ∈ walkData (module s')) as Hin.
  { rewrite Hw', Hw1. right. rewrite !elem_of_app. right. left.
    destruct before as [|d before].
    - destruct (getOperand_owner _ _ _ (wf_operands _ Hwf) Hv) as [Hnr _].
      rewrite walkData_unfold in Hw. simpl in Hw. injection Hw as Hd _.
      destruct Hnr. rewrite <-Hown, <-Hd. done.
    - simpl. rewrite elem_of_app, elem_of_cons. auto. }
  apply list_elem_of_fmap in Hin as (loadOp & Hd & Hin).
  exists loadOp. split; [|done].
  replace (nextOpId s' - 1) with (opId loadOp).
  - apply lookupOp_unique; [by apply wf_NoDup|done].
  - rewrite <-opId_opData, <-Hd. done.
Qed.

End More.

Section MoreStores.
Context `{SliceScoped}.

(** Every global of the memo table has one store, in an initializer of the
    pass. *)
Lemma reachable_hoisted_StoreInv m next s v g :
  wfState (initialState m next) →
  storesResolved (initialState m next) →
  ownersFresh (initialState m next) →
  reachable (initialState m next) s →
  hoistedMap s !! v = Some g →
  ∃ initId, next ≤ initId ∧ StoreInv (globalSymbol g) (S (opId g)) initId s.
Proof using Type*.
  intros Hwf Hres Hfr Hr. revert v g.
  induction Hr as [|s operand s' Hr IH Hs']; intros v0 g0 Hg0.
  { unfold initialState in Hg0. simpl in Hg0.
    by apply lookup_empty_Some in Hg0. }
  pose proof (reachable_wf _ _ Hwf Hr) as Hwfs.
  pose proof (reachable_next _ _ Hwf Hr) as Hnext. simpl in Hnext.
  pose proof (reachable_storesResolved _ _ Hwf Hres Hr) as Hress.
  pose proof (reachable_ownersFresh _ _ Hwf Hfr Hr) as Hfrs.
  destruct (hoistConstExpr_shape _ _ _ Hwfs Hs')
    as (targetOp & v & g & gs & inits & Hstep).
  pose proof Hstep as (_ & _ & _ & _ & _ & Hcase).
  destruct Hcase as [(_ & _ & _ & Hh & _)
                    |(_ & rootOp & body & Hroot & Hinits & Hmat)].
  { rewrite Hh in Hg0. destruct (IH _ _ Hg0) as (initId & ? & ?).
    exists initId. split; [done|]. by eapply hoistConstExpr_StoreInv. }
  destruct (decide (v0 ∈ getResults rootOp)) as [Hin|Hnin].
  - apply elem_of_getResults in Hin as (i & Hi & ->).
    apply lookup_lt_is_Some in Hi as [type Hi].
    destruct (mat_result _ _ _ _ _ _ _ _ Hmat i type Hi)
      as (gid & symbol & cr & Hgi & Hh & _ & _ & Hstore).
    rewrite Hh in Hg0. injection Hg0 as <-.
    exists (nextOpId s). split; [done|].
    eapply (hoistStep_StoreInv_created operand s s'); eauto.
  - rewrite (mat_frame _ _ _ _ _ _ _ _ Hmat) in Hg0 by done.
    destruct (IH _ _ Hg0) as (initId & ? & ?).
    exists initId. split; [done|]. by eapply hoistConstExpr_StoreInv.
Qed.

End MoreStores.


(** The loop of the sweeper ends within as many scans as the working set
    has operations, and one: more scans change nothing. *)
Lemma sweep_scans scans1 scans2 m allOps :
  NoDup allOps →
  length allOps < scans1 → length allOps < scans2 →
  sweep scans1 m allOps = sweep scans2 m allOps.
Proof.
  revert scans2 m allOps.
  induction scans1 as [|scans1 IH]; intros scans2 m allOps Hnd H1 H2; [lia|].
  destruct scans2 as [|scans2]; [lia|]. simpl.
  destruct (scan_spec (m, allOps) allOps m allOps false Hnd
    ltac:(done) (sweep_done _))
    as (m' & allOps' & madeChanges' & -> & _ & Hsub & _ & _ & Hlt).
  destruct madeChanges'; [|done].
  destruct (Hlt eq_refl) as [?|Hlen]; [done|].
  apply IH; [by eapply sublist_NoDup|lia..].
Qed.

(** * The loads of the initializers *)

Section Loads.
Context `{SliceAnalysis}.

Lemma reachable_hoistedKnown m next s :
  wfState (initialState m next) →
  reachable (initialState m next) s → hoistedKnown s.
Proof.
  intros Hwf Hr v g Hg.
  destruct (reachable_Layout_bijective _ _ _ Hwf Hr)
    as (gs & mid & inits & Hlay & _).
  pose proof (lay_hoisted _ _ _ _ _ Hlay _ _ Hg) as Hin.
  pose proof (lay_globals _ _ _ _ _ Hlay) as Hglob.
  rewrite Forall_forall in Hglob.
  destruct (Hglob _ Hin) as (gid & symbol & type & loc & -> & _).
  apply (lay_symbols_known _ _ _ _ _ Hlay
    (hoistedGlobal gid symbol type loc) symbol); [|reflexivity].
  rewrite (lay_body _ _ _ _ _ Hlay). apply elem_of_app. by left.
Qed.

(** A load in the initializer a call creates names a symbol that was in
    the symbol table before the call. *)
Lemma Materialized_loads s loc rootOp gs body hoisted' symbols' next' v :
  wfState s →
  loadsResolved s → hoistedKnown s →
  getDefiningOp v (module s) = Some rootOp →
  Materialized (createInitializer loc s) loc rootOp gs body hoisted' symbols'
    next' →
  ∀ o symbol,
    o ∈ body ≫= walkPreOrder → opKind o = GlobalLoadOp symbol →
    symbol ∈ symbolNames (moduleSymbols s).
Proof.
  intros Hwf Hres Hknown Hroot Hmat o symbol Ho Hk.
  destruct (mat_body _ _ _ _ _ _ _ _ Hmat) as (stores & Hbody & Hlen & Hst).
  rewrite Hbody, !(assoc_L (++)) in Ho.
  rewrite bind_app, elem_of_app in Ho. destruct Ho as [Ho|Ho].
  2:{ rewrite bind_singleton, walkPreOrder_leaf in Ho by done.
      apply list_elem_of_singleton in Ho as ->. done. }
  rewrite bind_app, elem_of_app in Ho. destruct Ho as [Ho|Ho].
  2:{ apply list_elem_of_bind in Ho as (st & Ho & [j Hj]%list_elem_of_lookup).
      destruct (Hst _ _ Hj) as (g0 & _ & Hk0 & Hleaf & _).
      rewrite walkPreOrder_leaf in Ho by done.
      apply list_elem_of_singleton in Ho as ->. congruence. }
  pose proof (mat_origin _ _ _ _ _ _ _ _ Hmat) as Horigin.
  rewrite Forall_forall in Horigin.
  destruct (Horigin _ Ho) as [(v0 & g0 & Hg0 & Heq)|(src & Hsrc & Hks)].
  { rewrite Heq in Hk. injection Hk as <-. by eapply Hknown. }
  apply list_elem_of_bind in Hsrc as (X & Hsrc & HX).
  destruct (sources_data _ _ _ _ _ _ Hwf Hroot HX Hsrc) as [Hd|[Hki _]];
    [|congruence].
  apply (Hres (opData src)); [done|destruct src; simpl in *; congruence].
Qed.

(** The loads of the module name symbols of the symbol table. *)
Lemma hoistStep_loadsResolved operand s s' targetOp v g gs inits :
  wfState s → loadsResolved s → hoistedKnown s →
  hoistConstExpr operand s = Some s' →
  hoistStep operand s s' targetOp v g gs inits →
  loadsResolved s'.
Proof.
  intros Hwf Hres Hknown Hs' Hstep o symbol Ho Hk.
  destruct (hoistStep_symbols _ _ _ _ _ _ _ _ Hstep) as [_ Hsyms].
  destruct (hoistStep_frame_walk _ _ _ _ _ _ _ _ Hwf Hs' Hstep)
    as (before & target & after & _ & _ & _ & _ & Hgk & _ & _ & Hw & Htd
        & Hown & Hw1 & Hw').
  destruct Hstep as (Htarget & Hv & Hg & Hm & Hnext & Hcase). simpl in *.
  rewrite Hsyms.
  assert (∀ d, d ∈ walkData (module s) → opKind d = GlobalLoadOp symbol →
    symbol ∈ list_to_set (globalSymbol <$> gs)
             ∪ symbolNames (moduleSymbols s)) as Hold.
  { intros d Hd Hkd. apply elem_of_union. right. by apply (Hres d). }
  rewrite Hw' in Ho. apply elem_of_cons in Ho as [->|Ho].
  { apply (Hold (opData (module s))); [|done]. rewrite walkData_unfold. left. }
  apply elem_of_app in Ho as [Ho|Ho].
  { exfalso. apply list_elem_of_bind in Ho as (g0 & Ho & Hg0).
    assert (∃ gid sym type loc, g0 = hoistedGlobal gid sym type loc)
      as (gid & sym & type & loc & ->).
    { destruct Hcase as [(_ & -> & _)|(_ & rootOp & body & _ & _ & Hmat)].
      - by apply elem_of_nil in Hg0.
      - pose proof (Materialized_globals _ _ _ _ _ _ _ _ Hmat) as Hglob.
        rewrite Forall_forall in Hglob.
        destruct (Hglob _ Hg0) as (?&?&?&->). eauto. }
    unfold walkData in Ho. rewrite walkPreOrder_leaf in Ho by done.
    apply list_elem_of_singleton in Ho as ->. done. }
  apply elem_of_app in Ho as [Ho|Ho].
  - apply elem_of_tail in Ho. rewrite Hw1 in Ho.
    rewrite elem_of_app, !elem_of_cons in Ho.
    destruct Ho as [Ho|[->|[->|Ho]]].
    + apply (Hold o); [|done]. rewrite Hw, elem_of_app. by left.
    + injection Hk as <-.
      destruct Hcase as [(Hgs & _)|(_ & rootOp & body & Hroot & _ & Hmat)].
      * apply elem_of_union. right. by eapply Hknown.
      * apply elem_of_union. left. apply elem_of_list_to_set.
        pose proof Hroot as (_ & Hin & _)%getDefiningOp_Some.
        apply elem_of_getResults in Hin as (i & Hi & ->).
        apply lookup_lt_is_Some in Hi as [type Hi].
        destruct (mat_result _ _ _ _ _ _ _ _ Hmat i type Hi)
          as (gid & sym & cr & Hgi & Hh & _).
        rewrite Hh in Hg. injection Hg as <-.
        apply list_elem_of_lookup_2 in Hgi.
        by apply (list_elem_of_fmap_2 globalSymbol) in Hgi.
    + apply (Hold target); [|done].
      rewrite Hw, elem_of_app, elem_of_cons. auto.
    + apply (Hold o); [|done].
      rewrite Hw, elem_of_app, elem_of_cons. auto.
  - destruct Hcase as [(_ & _ & -> & _)
                      |(_ & rootOp & body & Hroot & -> & Hmat)].
    { by apply elem_of_nil in Ho. }
    rewrite bind_singleton, walkData_unfold in Ho. cbn [opBody] in Ho.
    apply elem_of_cons in Ho as [->|Ho]; [done|].
    apply elem_of_union. right.
    apply list_elem_of_bind in Ho as (c & Ho & Hc).
    apply list_elem_of_fmap in Ho as (o' & -> & Ho').
    eapply (Materialized_loads s); [done..| |].
    + apply list_elem_of_bind. eauto.
    + by destruct o'.
Qed.

Lemma reachable_loadsResolved m next s :
  wfState (initialState m next) →
  loadsResolved (initialState m next) →
  reachable (initialState m next) s → loadsResolved s.
Proof.
  intros Hwf Hres. induction 1 as [|s operand s' Hr IH Hs']; [done|].
  pose proof (reachable_wf _ _ Hwf Hr) as Hwfs.
  destruct (hoistConstExpr_shape _ _ _ Hwfs Hs')
    as (targetOp & v & g & gs & inits & Hstep).
  eapply hoistStep_loadsResolved; eauto.
  by eapply reachable_hoistedKnown.
Qed.

End Loads.

(** * The working set of the sweeper after the walk *)

Section Flat.
Context `{SliceAnalysis}.

(** An operation of the module after a call that was there before the
    call: what is nested in it was nested in it, or is new. *)
Lemma hoistConstExpr_subtree operand s s' X' :
  wfState s → hoistConstExpr operand s = Some s' →
  X' ∈ walkPreOrder (module s') → opId X' < nextOpId s →
  ∃ X, X ∈ walkPreOrder (module s) ∧ opId X = opId X'
       ∧ ∀ x, x ∈ opIds X' → x ∈ opIds X ∨ nextOpId s ≤ x.
Proof.
  intros Hwf Hs' HX' Hlt.
  destruct (hoistConstExpr_shape _ _ _ Hwf Hs')
    as (targetOp & v & g & gs & inits & Hstep).
  pose proof Hstep as (_ & _ & _ & Hm & Hnext & _).
  pose proof (hoistConstExpr_new_ids _ _ _ _ _ _ _ Hwf Hs' Hm) as Hnew.
  rewrite Forall_app, !Forall_forall in Hnew. destruct Hnew as [Hgs Hinits].
  set (load := createGlobalLoad (nextOpId s' - 1) (opLoc targetOp) g) in *.
  assert (∀ x, x ∈ opIds load → nextOpId s ≤ x) as Hload.
  { intros x Hl. unfold opIds in Hl. rewrite walkPreOrder_leaf in Hl by done.
    apply list_elem_of_singleton in Hl as ->. simpl. lia. }
  assert (∀ X x, x ∈ opIds (setOperand operand (OpResult (opId load) 0)
                              (insertBefore (getOwner operand) load X)) →
                 x ∈ opIds X ∨ nextOpId s ≤ x) as Hins.
  { intros X x. rewrite opIds_setOperand.
    intros [Hl|?]%opIds_insertBefore_elem; [right; by apply Hload|by left]. }
  rewrite Hm, walkPreOrder_insertAtModuleBegin in HX'.
  apply elem_of_cons in HX' as [->|HX'].
  { exists (module s). split; [apply elem_of_walk_self|]. split.
    { simpl. unfold rewriteUse.
      by rewrite opId_setOperand, opId_insertBefore. }
    intros x. rewrite opIds_insertAtModuleBegin. cbn [opId insertAtModuleEnd].
    cbn [opBody insertAtModuleEnd]. rewrite bind_app.
    rewrite elem_of_cons, !elem_of_app.
    intros [->|[Hx|[Hx|Hx]]].
    - left. unfold rewriteUse.
      rewrite opId_setOperand, opId_insertBefore, opIds_unfold. left.
    - right. apply Hgs in Hx. lia.
    - apply (Hins (module s)). unfold rewriteUse in Hx.
      rewrite opIds_unfold. by right.
    - right. apply Hinits in Hx. lia. }
  apply elem_of_app in HX' as [HX'|HX'].
  { exfalso. assert (nextOpId s ≤ opId X' < nextOpId s'); [|lia].
    apply Hgs. apply list_elem_of_bind in HX' as (c & HX' & Hc).
    apply list_elem_of_bind. exists c. split; [|done].
    by apply list_elem_of_fmap_2. }
  cbn [opBody insertAtModuleEnd] in HX'. rewrite bind_app in HX'.
  apply elem_of_app in HX' as [HX'|HX'].
  2:{ exfalso. assert (nextOpId s ≤ opId X' < nextOpId s'); [|lia].
      apply Hinits. apply list_elem_of_bind in HX' as (c & HX' & Hc).
      apply list_elem_of_bind. exists c. split; [|done].
      by apply list_elem_of_fmap_2. }
  assert (X' ∈ walkPreOrder (rewriteUse operand load (module s))) as HXw.
  { rewrite walkPreOrder_unfold. by right. }
  unfold rewriteUse in HXw. rewrite walkPreOrder_setOperand in HXw.
  apply list_elem_of_fmap in HXw as (X1 & -> & HX1).
  rewrite opId_setOperand in Hlt.
  apply insertBefore_walk in HX1 as [HX1|(X & HX & [->| ->])].
  - exfalso. rewrite walkPreOrder_leaf in HX1 by done.
    apply list_elem_of_singleton in HX1 as ->. simpl in Hlt. lia.
  - exists X. split; [done|]. split; [by rewrite opId_setOperand|].
    intros x. rewrite opIds_setOperand. by left.
  - exists X. split; [done|].
    split; [by rewrite opId_setOperand, opId_insertBefore|].
    apply Hins.
Qed.

Lemma reachable_subtree s0 s X' :
  wfState s0 → reachable s0 s →
  X' ∈ walkPreOrder (module s) → opId X' < nextOpId s0 →
  ∃ X, X ∈ walkPreOrder (module s0) ∧ opId X = opId X'
       ∧ ∀ x, x ∈ opIds X' → x ∈ opIds X ∨ nextOpId s0 ≤ x.
Proof.
  intros Hwf Hr. revert X'.
  induction Hr as [|s operand s' Hr IH Hs']; intros X' HX' Hlt.
  { exists X'. split; [done|]. split; [done|]. by left. }
  pose proof (reachable_wf _ _ Hwf Hr) as Hwfs.
  pose proof (reachable_next _ _ Hwf Hr) as Hnext.
  destruct (hoistConstExpr_subtree _ _ _ _ Hwfs Hs' HX') as (X1 & HX1 & Hid1
    & Hsub1); [lia|].
  destruct (IH X1 HX1) as (X & HX & Hid & Hsub); [lia|].
  exists X. split; [done|]. split; [congruence|].
  intros x Hx. destruct (Hsub1 x Hx) as [Hx1|?]; [|right; lia].
  by apply Hsub.
Qed.

(** The calls of [hoistConstExpr] leave the working set of the sweeper as
    it is: its operations are in the module, none of them the module, none
    nested in another. *)
Lemma reachable_sweepable allOps s0 s :
  wfState s0 → reachable s0 s →
  sweepable allOps (module s0) → sweepable allOps (module s).
Proof.
  intros Hwf Hr (Hnd & Hin & Hflat).
  pose proof (reachable_wf _ _ Hwf Hr) as Hwfs.
  pose proof (reachable_root _ _ Hwf Hr) as Hroot.
  pose proof (reachable_old_order _ _ Hwf Hr) as Hold.
  assert (opId (module s) = opId (module s0)) as Hrid.
  { by rewrite <-(opId_opData (module s)), Hroot, opId_opData. }
  split_and!.
  - by apply wf_NoDup.
  - intros id Hid. destruct (Hin id Hid) as [Hid0 Hne].
    split; [|congruence].
    rewrite <-Hold in Hid0. by apply list_elem_of_filter in Hid0 as [_ ?].
  - intros a b opB Ha Hb Hne Hl Hnest.
    apply lookupOp_Some in Hl as [HB HBid].
    destruct (Hin a Ha) as [Ha0 _]. destruct (Hin b Hb) as [Hb0 _].
    pose proof (wf_lt _ _ Hwf Ha0) as Halt.
    pose proof (wf_lt _ _ Hwf Hb0) as Hblt.
    destruct (reachable_subtree _ _ _ Hwf Hr HB) as (X & HX & Hid & Hsub);
      [lia|].
    destruct (Hsub a Hnest) as [Hax|?]; [|lia].
    apply (Hflat a b X Ha Hb Hne); [|done].
    rewrite <-HBid, <-Hid. by apply lookupOp_unique.
Qed.

End Flat.

(** * The globals of the pass are written once and kept *)

Section Once.
Context `{SliceAnalysis} `{ConstExprOracle}.

(** What is kept of the store into a global of the memo table gives that
    the global is written once, in the module of the state and in what
    [cleanupDeadOps] makes of it, when the analysis knows operations of the
    module the pass started from only. *)
Lemma StoreInv_storedOnce constExprs m next s v g initId :
  wfState (initialState m next) →
  (∀ id, id ∈ populateConstExprOperations constExprs → id < next) →
  reachable (initialState m next) s →
  hoistedMap s !! v = Some g →
  next ≤ initId →
  StoreInv (globalSymbol g) (S (opId g)) initId s →
  storedOnce g initId (module s)
  ∧ storedOnce g initId (cleanupDeadOps constExprs (module s)).1.
Proof.
  intros Hwf Hknown Hr Hg HIge [_ Hst (I & st & HI & HIid & HIk & _ & Hsto
    & Hsid & Hsk & _) _].
  pose proof (reachable_wf _ _ Hwf Hr) as Hwfs.
  destruct (reachable_Layout_bijective _ _ _ Hwf Hr)
    as (gs & mid & inits & Hlay & _).
  pose proof (lay_hoisted _ _ _ _ _ Hlay _ _ Hg) as Hin.
  pose proof (lay_globals _ _ _ _ _ Hlay) as Hglob.
  rewrite Forall_forall in Hglob.
  destruct (Hglob _ Hin) as (gid & symbol & type & loc & -> & Hgid).
  assert (next ≤ opId I) as HIid' by lia.
  pose proof (reachable_initializersFresh next _ _ Hwf eq_refl Hr _ HI HIk
    HIid') as Hfresh.
  rewrite Forall_forall in Hfresh.
  assert (hoistedGlobal gid symbol type loc ∈ opBody (module s)) as Hgin.
  { rewrite (lay_body _ _ _ _ _ Hlay). apply elem_of_app. by left. }
  split.
  { split; [done|]. split; [done|]. exists I, st. done. }
  assert (I ∈ opBody (cleanupDeadOps constExprs (module s)).1) as HI'.
  { apply cleanupDeadOps_keeps; [done|].
    intros id Hid Hk. specialize (Hfresh _ Hid). specialize (Hknown _ Hk).
    lia. }
  split_and!.
  - apply cleanupDeadOps_keeps; [done|].
    intros id Hid Hk. specialize (Hknown _ Hk).
    unfold opIds in Hid. rewrite walkPreOrder_leaf in Hid by done.
    apply list_elem_of_singleton in Hid. simpl in Hid. lia.
  - destruct (cleanupDeadOps_spec constExprs (module s)) as (Hsteps & _).
    destruct (cleanupDeadOps constExprs (module s)) as [m' allOps'].
    simpl in *.
    eapply (shrinks_storesOf _ _ (module s) m' I);
      [by apply wf_NoDup|by eapply sweepSteps_shrinks|done..| |done].
    rewrite <-Hsid, opIds_unfold. right. apply list_elem_of_bind.
    exists st. split; [|done]. rewrite opIds_unfold. left.
  - exists I, st. done.
Qed.

End Once.

(** * The claims *)

(** Discharging [wfState] and [reachable] on a concrete state. *)
Ltac by_compute := apply (bool_decide_unpack _); vm_compute; exact I.

Ltac wf_by_compute :=
  split; [by_compute|by_compute|reflexivity|reflexivity|reflexivity].

Section Claims.
Context `{SliceAnalysis}.

(** C10. A call of [hoistConstExpr] on an operand of a consumer changes the
    program that was there only by setting that operand to the result of
    one new global load, inserted immediately before the consumer: the
    other operands of the consumer, the other uses of the value and every
    other operation are as they were, and the other insertions are made at
    the beginning and at the end of the module. *)
Theorem hoistConstExpr_frame operand s s' :
  wfState s →
  hoistConstExpr operand s = Some s' →
  hoistFrame operand s s'.
Proof.
  intros Hwf Hs'.
  destruct (hoistConstExpr_frame_walk _ _ _ Hwf Hs')
    as (targetOp & g & gs & inits & before & target & after & Htarget & Hm
        & Hgs & Hinits & Hgk & Hik & Hload & Hw & Htd & Hown & Hw1 & Hw').
  simpl in *. subst target.
  assert (∀ ops : list Operation,
    Forall (λ o, nextOpId s ≤ opId o) (ops ≫= walkData) →
    Forall (λ o, nextOpId s ≤ opId o) ops) as Htop.
  { intros ops Hall. apply Forall_forall. intros o Ho.
    rewrite Forall_forall in Hall. rewrite <-opId_opData. apply Hall.
    apply list_elem_of_bind. exists o. split; [|done].
    rewrite walkData_unfold. left. }
  exists targetOp, g, gs, inits, before, after. simpl.
  split_and!; auto.
  - apply Htop in Hgs. rewrite Forall_forall in *. auto.
  - apply Htop in Hinits. rewrite Forall_forall in *. auto.
  - intros operand' v' Hv'.
    by apply (hoistConstExpr_getOperand _ _ _ _ _ Hwf Hs').
Qed.

(** C7, amended. In every state of the pass, from the state
    [runOnOperation] starts in through any number of calls of
    [hoistConstExpr], the memo table maps all the results of an operation
    or none of them; so it does when the loop over the slice reads it,
    after the empty initializer has been created. The table is written by
    the loop over the results of the root only, which maps every result
    before the table is read again. *)
Theorem hoistedMap_all_or_none m next s :
  wfState (initialState m next) →
  reachable (initialState m next) s →
  allOrNone s ∧ ∀ loc, allOrNone (createInitializer loc s).
Proof.
  intros Hwf Hr.
  assert (allOrNone s) as Hinv.
  { eapply reachable_allOrNone; [done| | |done].
    - apply initialState_hoistedDefined.
    - apply initialState_allOrNone. }
  split; [done|]. intros loc op Hop.
  unfold createInitializer in Hop. cbn [module] in Hop.
  rewrite walkPreOrder_insertAtModuleEnd in Hop.
  cbn [hoistedMap createInitializer].
  apply elem_of_cons in Hop as [->|Hop].
  { pose proof (reachable_wf _ _ Hwf Hr) as Hwfs.
    left. unfold getResults. cbn [opResultTypes insertAtModuleEnd].
    rewrite (wf_results _ Hwfs). constructor. }
  apply elem_of_app in Hop as [Hop|Hop].
  - apply Hinv. rewrite walkPreOrder_unfold. by right.
  - rewrite bind_singleton, walkPreOrder_leaf in Hop by done.
    apply list_elem_of_singleton in Hop as ->. left. constructor.
Qed.

(** The loop over the slice, when the memo table maps all the results of
    each operation of the slice or none. *)
Lemma foldl_cloneSliceOp_sliceLoop hoisted slice b :
  Forall (λ sourceOp,
            Forall (λ r, is_Some (hoisted !! r)) (getResults sourceOp)
            ∨ Forall (λ r, hoisted !! r = None) (getResults sourceOp)) slice →
  sliceLoop hoisted slice b (foldl (cloneSliceOp hoisted) b slice).
Proof.
  intros Hall. revert b.
  induction Hall as [|sourceOp slice Hsrc _ IH]; intros b; [constructor|].
  simpl.
  assert (sliceOpCloned sourceOp b
            (let '(cloneOp, mapper, next) :=
               clone sourceOp (cloneMap b) (initNext b) in
             mkInitBuilder (initOps b ++ [cloneOp]) mapper next)) as Hclone.
  { pose proof (clone_opData sourceOp (cloneMap b) (initNext b)) as Hd.
    unfold sliceOpCloned.
    destruct (clone sourceOp (cloneMap b) (initNext b))
      as [[cloneOp mapper] next].
    exists cloneOp. done. }
  destruct (getResults sourceOp) as [|r rs] eqn:Hrs.
  { eapply sliceLoop_cloned; [by rewrite Hrs| |apply IH].
    unfold cloneSliceOp. rewrite Hrs. done. }
  destruct Hsrc as [Hsome|Hnone].
  - destruct (loadHoistedResults_all hoisted (getResults sourceOp) true b)
      as (b' & Hb' & Hn & Hbm & Hfr & loads & Hl1 & Hl2 & Hl3).
    { by rewrite Hrs. }
    { apply NoDup_getResults. }
    { by rewrite Hrs. }
    eapply sliceLoop_loaded; [by rewrite Hrs|by rewrite Hrs| |apply IH].
    unfold cloneSliceOp. rewrite Hb'. exists loads.
    rewrite getResults_length in Hl2, Hn. split_and!; auto; [lia|].
    intros i Hi. apply (Hl3 i). by rewrite getResults_lookup, decide_True.
  - eapply sliceLoop_cloned; [by rewrite Hrs| |apply IH].
    unfold cloneSliceOp. rewrite Hrs.
    apply Forall_cons in Hnone as [Hr _].
    rewrite loadHoistedResults_none by done. done.
Qed.

(** C6, amended. In [cloneConstExprInto], when the memo table maps all the
    results of an operation or none, the loop over the slice goes through
    the slice in order, and for each operation does one of two things. For
    an operation that has a result, all of whose results have a global, it
    inserts in the initializer a load of the global of each result,
    records the load in [cloneMap], and does not clone the operation. Any
    other operation, one that has no result among them, it clones into the
    initializer, its operands seen through [cloneMap]. The body of the
    initializer is what the loop has inserted, then the clone of the root,
    then the stores and the terminator. The memo table gets no entry but
    those of the results of the root. *)
Theorem cloneSliceOp_loads_or_clones initializerOp v s s' :
  allOrNone s →
  cloneConstExprInto initializerOp v s = Some s' →
  ∃ rootOp,
    getDefiningOp v (module s) = Some rootOp
    ∧ sliceCloned initializerOp rootOp s s'.
Proof.
  intros Hinv Hs'.
  destruct (cloneConstExprInto_spec _ _ _ _ Hs')
    as (rootOp & gs & body & Hroot & Hm & Hmat).
  exists rootOp. split; [done|].
  destruct (mat_body _ _ _ _ _ _ _ _ Hmat) as (stores & Hbody & _).
  pose proof (clone_opData rootOp (cloneMap (cloneSlice s rootOp))
    (initNext (cloneSlice s rootOp))) as Hd.
  destruct (clone rootOp (cloneMap (cloneSlice s rootOp))
    (initNext (cloneSlice s rootOp))) as [[clonedRootOp mapper] next] eqn:Hc.
  exists (cloneSlice s rootOp), gs, clonedRootOp, mapper, next, stores.
  eexists. split_and!; [|done|done|by rewrite Hm, Hbody|].
  - apply foldl_cloneSliceOp_sliceLoop. apply Forall_forall.
    intros sourceOp Hin. apply Hinv. by eapply getBackwardSlice_elem_of.
  - apply (mat_frame _ _ _ _ _ _ _ _ Hmat).
Qed.

End Claims.

Lemma hoistConstExpr_frame_witness :
  wfState exampleState
  ∧ hoistConstExpr (mkOpOperand 4 0) exampleState = Some exampleState1
  ∧ hoistFrame (mkOpOperand 4 0) exampleState exampleState1.
Proof.
  assert (wfState exampleState) as Hwf by wf_by_compute.
  assert (hoistConstExpr (mkOpOperand 4 0) exampleState = Some exampleState1)
    as Hs by (vm_compute; reflexivity).
  split; [exact Hwf|]. split; [exact Hs|].
  exact (hoistConstExpr_frame _ _ _ Hwf Hs).
Defined.

Lemma hoistedMap_all_or_none_witness :
  wfState (initialState exampleModule 9)
  ∧ reachable (initialState exampleModule 9) exampleState3
  ∧ allOrNone exampleState3
  ∧ ∀ loc, allOrNone (createInitializer loc exampleState3).
Proof.
  assert (wfState (initialState exampleModule 9)) as Hwf by wf_by_compute.
  assert (reachable (initialState exampleModule 9) exampleState3) as Hr.
  { apply (reachable_hoist _ exampleState2 (mkOpOperand 7 0));
      [|vm_compute; reflexivity].
    apply (reachable_hoist _ exampleState1 (mkOpOperand 5 0));
      [|vm_compute; reflexivity].
    apply (reachable_hoist _ exampleState (mkOpOperand 4 0));
      [|vm_compute; reflexivity].
    apply reachable_refl. }
  split; [exact Hwf|]. split; [exact Hr|].
  exact (hoistedMap_all_or_none _ _ _ Hwf Hr).
Defined.

Lemma cloneSliceOp_loads_or_clones_witness :
  allOrNone (createInitializer 6 exampleState2)
  ∧ cloneConstExprInto exampleInitializer (OpResult 6 0)
      (createInitializer 6 exampleState2) = Some exampleStateCloned
  ∧ ∃ rootOp,
      getDefiningOp (OpResult 6 0) (module (createInitializer 6 exampleState2))
      = Some rootOp
      ∧ sliceCloned exampleInitializer rootOp
          (createInitializer 6 exampleState2) exampleStateCloned.
Proof.
  assert (allOrNone (createInitializer 6 exampleState2)) as Hinv.
  { intros op Hop. revert op Hop. apply Forall_forall. by_compute. }
  assert (cloneConstExprInto exampleInitializer (OpResult 6 0)
            (createInitializer 6 exampleState2) = Some exampleStateCloned)
    as Hs by (vm_compute; reflexivity).
  split; [exact Hinv|]. split; [exact Hs|].
  exact (cloneSliceOp_loads_or_clones _ _ _ _ Hinv Hs).
Defined.

(** C6. An operation of the slice that has no result: all of its results
    are in the memo table, there being none, and the loop clones it. The
    slice of [expr] in [loopModule] is [loop], the owner of the block
    argument [expr] reads, and the initializer begins with the clone of
    [loop]. *)
Lemma cloneSliceOp_loads_or_clones_counterexample :
  getDefiningOp (OpResult 3 0) (module (createInitializer 3 loopState))
  = Some loopRoot
  ∧ getBackwardSlice (module (createInitializer 3 loopState)) loopRoot
    = [loopOp]
  ∧ Forall (λ r, is_Some (hoistedMap (createInitializer 3 loopState) !! r))
      (getResults loopOp)
  ∧ cloneConstExprInto loopInitializer (OpResult 3 0)
      (createInitializer 3 loopState) = Some loopStateCloned
  ∧ lookupOp 5 (module loopStateCloned) = Some loopInitializerFilled
  ∧ head (opBody loopInitializerFilled)
    = Some (clone loopOp emptyMapping 6).1.1.
Proof.
  split_and!; [vm_compute; reflexivity..|constructor|vm_compute; reflexivity
              |vm_compute; reflexivity|vm_compute; reflexivity].
Qed.

(** C7. Inside the loop over the results of the root the memo table maps
    some results of an operation and not the others: after the first
    iteration of the loop on [split], which has two results, it maps the
    first and does not map the second. *)
Lemma hoistedMap_all_or_none_counterexample :
  getDefiningOp (OpResult 3 0) (module (createInitializer 3 exampleState))
  = Some exampleSplit
  ∧ getResultsWithTypes exampleSplit
    = [(OpResult 3 0, "i32"); (OpResult 3 1, "i64")]
  ∧ hoistResult (opLoc exampleSplitClone.1.1) exampleSplitClone.1.2
      exampleGlobals0 (OpResult 3 0, "i32")
    = Some exampleGlobals1
  ∧ is_Some (gbHoisted exampleGlobals1 !! OpResult 3 0)
  ∧ gbHoisted exampleGlobals1 !! OpResult 3 1 = None.
Proof.
  split_and!; [vm_compute; reflexivity..| |vm_compute; reflexivity].
  vm_compute. eauto.
Qed.

Section WalkGuard.
Context `{SliceAnalysis} `{ConstExprOracle}.

Lemma walkModule_no_leaf constExprs s :
  (∀ op, op ∈ walkPreOrder (module s) →
         isHoistableLeaf constExprs (opId op) = false) →
  walkModule constExprs s = Some s.
Proof.
  unfold walkModule. generalize (walkPreOrder (module s)).
  intros ops. induction ops as [|op ops IH]; intros Hall; [done|].
  simpl. rewrite visitOp_unfold, Hall by left. simpl.
  apply IH. intros ??. apply Hall. by right.
Qed.

End WalkGuard.

Section Claims2.
Context `{SliceAnalysis} `{ConstExprOracle}.


(** C9, amended. When the walk visits no operation that is a hoistable
    constant-expression leaf, it leaves the module alone, and the pass
    returns what [cleanupDeadOps] makes of the module it was given: that
    module without the constant-expression operations that have no use.
    The pass returns the module it was given when every
    constant-expression operation of the analysis has a use. *)
Theorem runOnOperation_no_leaf constExprs m next :
  (∀ op, op ∈ walkPreOrder m →
         isHoistableLeaf constExprs (opId op) = false) →
  walkModule constExprs (initialState m next) = Some (initialState m next)
  ∧ runOnOperation constExprs m next
    = Some (cleanupDeadOps constExprs m).1
  ∧ walkData (cleanupDeadOps constExprs m).1 `sublist_of` walkData m
  ∧ ((∀ id, id ∈ populateConstExprOperations constExprs →
            isDeadOp id m = false) →
     runOnOperation constExprs m next = Some m).
Proof.
  intros Hno.
  assert (walkModule constExprs (initialState m next)
          = Some (initialState m next)) as Hwalk
    by by apply walkModule_no_leaf.
  unfold runOnOperation. rewrite Hwalk. simpl.
  split_and!; auto.
  - apply cleanupDeadOps_spec.
  - intros Hlive. by rewrite cleanupDeadOps_live.
Qed.

End Claims2.

(** C4. The pass run on an initializer that stores a constant-expression
    into a global: the initializer created for the hoisted value is
    appended to the module, after the initializer that was there and that
    now loads the hoisted global. *)
Theorem initializers_order_violated :
  runOnOperation initializerAnalysis initializerModule 7
  = Some initializerModuleHoisted
  ∧ ¬ initializersOrdered initializerModuleHoisted.
Proof.
  split; [vm_compute; reflexivity|]. intros Hord.
  assert (3 < 2) as Hlt; [|lia].
  eapply (Hord 3 2 _ _
    (mkOperation 11 (GlobalStoreOp "hoisted") [OpResult 9 0] [] 4 [])
    (mkOperation 13 (GlobalLoadOp "hoisted") [] ["i32"] 5 []) "hoisted");
    try reflexivity.
  - simpl. do 2 right. left.
  - simpl. left.
Qed.

(** C9. A function whose constant-expressions have no use outside them,
    under a policy that accepts no leaf: the walk rewrites nothing, and
    the pass erases the constant-expressions. *)
Lemma runOnOperation_identity_counterexample :
  (∀ op, op ∈ walkPreOrder unusedModule →
         isHoistableLeaf unusedAnalysis (opId op) = false)
  ∧ walkModule unusedAnalysis (initialState unusedModule 5)
    = Some (initialState unusedModule 5)
  ∧ runOnOperation unusedAnalysis unusedModule 5 = Some unusedModuleSwept
  ∧ unusedModuleSwept ≠ unusedModule.
Proof.
  split_and!.
  - apply Forall_forall. by_compute.
  - vm_compute. reflexivity.
  - vm_compute. reflexivity.
  - intros [=].
Qed.

Lemma runOnOperation_no_leaf_witness :
  (∀ op, op ∈ walkPreOrder usedModule →
         isHoistableLeaf unusedAnalysis (opId op) = false)
  ∧ walkModule unusedAnalysis (initialState usedModule 5)
    = Some (initialState usedModule 5)
  ∧ runOnOperation unusedAnalysis usedModule 5
    = Some (cleanupDeadOps unusedAnalysis usedModule).1
  ∧ walkData (cleanupDeadOps unusedAnalysis usedModule).1
    `sublist_of` walkData usedModule
  ∧ ((∀ id, id ∈ populateConstExprOperations unusedAnalysis →
            isDeadOp id usedModule = false) →
     runOnOperation unusedAnalysis usedModule 5 = Some usedModule).
Proof.
  assert (∀ op, op ∈ walkPreOrder usedModule →
                isHoistableLeaf unusedAnalysis (opId op) = false) as Hno.
  { apply Forall_forall. by_compute. }
  split; [exact Hno|].
  exact (runOnOperation_no_leaf unusedAnalysis usedModule 5 Hno).
Defined.

Lemma unusedModule_sweepable :
  sweepable (populateConstExprOperations unusedAnalysis) unusedModule.
Proof.
  split_and!.
  - by_compute.
  - intros id Hid. simpl in Hid.
    repeat (apply elem_of_cons in Hid as [->|Hid]);
      [split; [by_compute|done]..|by apply elem_of_nil in Hid].
  - intros a b opB Ha Hb Hne Hl. simpl in Ha, Hb.
    repeat (apply elem_of_cons in Ha as [->|Ha]);
      [..|by apply elem_of_nil in Ha];
      (repeat (apply elem_of_cons in Hb as [->|Hb]);
         [..|by apply elem_of_nil in Hb]);
      try done; vm_compute in Hl; injection Hl as <-; by_compute.
Qed.



Section Claims3.
Context `{SliceAnalysis}.


Context `{ConstExprOracle}.

(** C2, amended. The walk returns, and an operand of the module the walk
    starts from is rewritten to the result of a global load exactly when
    the uses of its value are visited and it is not skipped: the operation
    defining the value is a non-root constant-expression the policy accepts
    as a hoistable leaf, the consumer is not both a constant-expression and
    an accepted leaf, and the policy accepts the operand. Any other operand
    reads what it read; so does an operand whose consumer is a
    constant-expression and an accepted leaf, for which no load is
    created. *)
Theorem walk_rewrites_iff constExprs s :
  wfState s →
  ∃ s', walkModule constExprs s = Some s'
        ∧ walkRewrites constExprs s s'
        ∧ (∀ operand v,
             getOperand operand (module s) = Some v →
             isHoistedUse constExprs (module s) operand v = true →
             getOperand operand (module s') ≠ Some v)
        ∧ (∀ operand v targetInfo,
             getOperand operand (module s) = Some v →
             lookup constExprs (getOwner operand) = Some targetInfo →
             isConstExpr targetInfo = true →
             isHoistableConstExprLeaf targetInfo = true →
             getOperand operand (module s') = Some v).
Proof.
  intros Hwf.
  destruct (walkModule_spec constExprs s Hwf) as (s' & Hs' & Hr & Hspec).
  exists s'. split_and!; [done..| |].
  - intros operand v Hv Hhoisted. specialize (Hspec operand v Hv).
    rewrite Hhoisted in Hspec.
    destruct Hspec as (l & loadOp & symbol & Hl & -> & _).
    intros [= <-]. unfold isHoistedUse in Hhoisted. simpl in Hhoisted.
    destruct (lookupOp l (module s)) as [op|] eqn:Hop; [|done].
    apply lookupOp_elem_of in Hop. pose proof (wf_lt _ _ Hwf Hop). lia.
  - intros operand v info Hv Hinfo Hce Hleaf. specialize (Hspec operand v Hv).
    assert (isHoistedUse constExprs (module s) operand v = false) as Hno.
    { unfold isHoistedUse, isEscape. rewrite Hinfo, Hce, Hleaf. simpl.
      destruct (getDefiningOp v (module s)); [|done]. apply andb_false_r. }
    by rewrite Hno in Hspec.
Qed.

(** C5. In every state of the pass, and in the module the pass returns: a
    global created by the pass, declared in the body of the module, comes
    before every load of it in walk order; and a global declared in the
    body of the module comes before every load of it that is in an
    initializer created by the pass. The globals of the memo table, which
    the loads created by the pass read, are globals created by the pass,
    in the body of the module. *)
Theorem globals_before_loads constExprs m next :
  wfState (initialState m next) →
  (∀ s, reachable (initialState m next) s →
        globalsPrecedeLoads next (module s)
        ∧ ∀ v g, hoistedMap s !! v = Some g →
                 g ∈ opBody (module s) ∧ next ≤ opId g
                 ∧ opKind g
                   = GlobalOp (globalSymbol g) false (globalType g) Private)
  ∧ (∀ m', runOnOperation constExprs m next = Some m' →
           globalsPrecedeLoads next m').
Proof.
  intros Hwf0.
  assert (∀ s, reachable (initialState m next) s →
    ∃ gs mid inits, Layout next s gs mid inits) as Hlayout.
  { intros s Hr.
    eapply (reachable_Layout next (initialState m next) s [] (opBody m) []);
      [done|done| |done].
    by apply initialState_Layout. }
  split.
  - intros s Hr. destruct (Hlayout s Hr) as (gs & mid & inits & Hlay).
    pose proof (reachable_wf _ _ Hwf0 Hr) as Hwf.
    split; [by eapply Layout_precedes|].
    intros v g Hg. pose proof (lay_hoisted _ _ _ _ _ Hlay v g Hg) as Hin.
    pose proof (lay_globals _ _ _ _ _ Hlay) as Hgs.
    rewrite Forall_forall in Hgs.
    destruct (Hgs _ Hin) as (gid & symbol & type & loc & -> & Hgid).
    split_and!; [|done..].
    rewrite (lay_body _ _ _ _ _ Hlay). apply elem_of_app. by left.
  - intros m'. unfold runOnOperation.
    destruct (walkModule constExprs (initialState m next)) as [s|] eqn:Hs;
      [|done].
    simpl. intros [= <-].
    pose proof (walkModule_reachable _ _ _ Hs) as Hr.
    destruct (Hlayout s Hr) as (gs & mid & inits & Hlay).
    pose proof (reachable_wf _ _ Hwf0 Hr) as Hwf.
    destruct (cleanupDeadOps_spec constExprs (module s)) as (Hst & _).
    destruct (cleanupDeadOps constExprs (module s)) as [m' allOps'].
    simpl. eapply shrinks_precedes; [by apply wf_NoDup| |].
    + by eapply sweepSteps_shrinks.
    + by eapply Layout_precedes.
Qed.

End Claims3.


Lemma walk_rewrites_iff_witness :
  wfState exampleState
  ∧ ∃ s', walkModule exampleAnalysis exampleState = Some s'
          ∧ walkRewrites exampleAnalysis exampleState s'
          ∧ (∀ operand v,
               getOperand operand (module exampleState) = Some v →
               isHoistedUse exampleAnalysis (module exampleState) operand v
               = true →
               getOperand operand (module s') ≠ Some v)
          ∧ (∀ operand v targetInfo,
               getOperand operand (module exampleState) = Some v →
               lookup exampleAnalysis (getOwner operand) = Some targetInfo →
               isConstExpr targetInfo = true →
               isHoistableConstExprLeaf targetInfo = true →
               getOperand operand (module s') = Some v).
Proof.
  assert (wfState exampleState) as Hwf by wf_by_compute.
  split; [exact Hwf|]. exact (walk_rewrites_iff exampleAnalysis _ Hwf).
Defined.

Lemma globals_before_loads_witness :
  wfState (initialState exampleModule 9)
  ∧ (∀ s, reachable (initialState exampleModule 9) s →
          globalsPrecedeLoads 9 (module s)
          ∧ ∀ v g, hoistedMap s !! v = Some g →
                   g ∈ opBody (module s) ∧ 9 ≤ opId g
                   ∧ opKind g
                     = GlobalOp (globalSymbol g) false (globalType g)
                         Private)
  ∧ (∀ m', runOnOperation exampleAnalysis exampleModule 9 = Some m' →
           globalsPrecedeLoads 9 m').
Proof.
  assert (wfState (initialState exampleModule 9)) as Hwf by wf_by_compute.
  split; [exact Hwf|].
  exact (globals_before_loads exampleAnalysis exampleModule 9 Hwf).
Defined.

(** C2. An operand the pass creates during the walk is not rewritten. In
    [nestedModule] the walk visits [a] first: its one use, in [inner], is
    not an escape. It then hoists [region], and the clone of [region] in
    the initializer holds a clone of [inner], created by the pass and
    unknown to the analysis, that reads the result of [a]: the three
    conditions hold of this use, and it reads the result of [a] when the
    walk ends. *)
Lemma walk_rewrites_iff_counterexample :
  walkModule nestedAnalysis (initialState nestedModule 6)
  = Some nestedStateWalked
  ∧ getOperand (mkOpOperand 8 0) (module (initialState nestedModule 6)) = None
  ∧ getOperand (mkOpOperand 8 0) (module nestedStateWalked)
    = Some (OpResult 2 0)
  ∧ isHoistableLeaf nestedAnalysis 2 = true
  ∧ isEscape nestedAnalysis (mkOpOperand 8 0) = true
  ∧ isHoistedUse nestedAnalysis (module nestedStateWalked) (mkOpOperand 8 0)
      (OpResult 2 0) = true.
Proof. split_and!; vm_compute; reflexivity. Qed.

(** * Further properties of the pass *)

Section Extras.
Context `{SliceAnalysis}.

(** X1. The assertions of [hoistConstExpr] and [cloneConstExprInto]: a
    call on an operand that reads the value [v] returns if and only if [v]
    has a global in the memo table or is the result of an operation of the
    module. On a block argument that has no global the assertion on
    [rootOp] fails. *)
Theorem hoistConstExpr_returns_iff operand s v :
  wfState s →
  getOperand operand (module s) = Some v →
  is_Some (hoistConstExpr operand s)
  ↔ is_Some (hoistedMap s !! v) ∨ is_Some (getDefiningOp v (module s)).
Proof.
  intros Hwf Hv. split.
  - intros [s' Hs'].
    destruct (hoistConstExpr_shape _ _ _ Hwf Hs')
      as (targetOp & v' & g & gs & inits & _ & Hv' & _ & _ & _ & Hcase).
    assert (v' = v) as -> by congruence.
    destruct Hcase as [(Hg & _)|(_ & rootOp & body & Hroot & _)];
      [left|right]; eauto.
  - intros [[g Hg]|Hdef]; [|by eapply hoistConstExpr_total].
    unfold hoistConstExpr.
    destruct (lookupOp (getOwner operand) (module s)) as [targetOp|] eqn:Ht.
    + simpl. rewrite Hv. simpl. rewrite Hg. simpl. rewrite Hg. simpl. eauto.
    + unfold getOperand in Hv. by rewrite Ht in Hv.
Qed.

(** X3. The calls of [hoistConstExpr] remove no operation and move none:
    in every state of the pass the operations that were in the module when
    the pass started are there in the order they were in, each with its
    kind, its result types, its location and the number of its operands. *)
Theorem reachable_keeps_operations m next s :
  wfState (initialState m next) →
  reachable (initialState m next) s →
  filter (λ id, id < next) (opIds (module s)) = opIds m
  ∧ ∀ id op,
      lookupOp id m = Some op →
      ∃ op', lookupOp id (module s) = Some op' ∧ sameOperation op op'.
Proof.
  intros Hwf Hr. split.
  - apply (reachable_old_order (initialState m next) s Hwf Hr).
  - intros id op Hop.
    by apply (reachable_sameOperation (initialState m next) s id op).
Qed.

(** X4. A call of [hoistConstExpr] keeps the type of what the operand
    reads: the value [v] read before the call is a result of an operation
    of the module, the operand reads after the call the one result of a
    load of the global of [v], and the type of that result, which is the
    type of the global, is the type of [v]. *)
Theorem hoistConstExpr_keeps_type m next operand s s' :
  wfState (initialState m next) →
  reachable (initialState m next) s →
  hoistConstExpr operand s = Some s' →
  ∃ v rootOp i type g loadOp,
    getOperand operand (module s) = Some v
    ∧ getDefiningOp v (module s) = Some rootOp
    ∧ v = OpResult (opId rootOp) i
    ∧ getResultType rootOp i = Some type
    ∧ hoistedMap s' !! v = Some g
    ∧ globalType g = type
    ∧ getOperand operand (module s') = Some (OpResult (opId loadOp) 0)
    ∧ getDefiningOp (OpResult (opId loadOp) 0) (module s') = Some loadOp
    ∧ opKind loadOp = GlobalLoadOp (globalSymbol g)
    ∧ opResultTypes loadOp = [type].
Proof.
  intros Hwf0 Hr Hs'.
  pose proof (reachable_wf _ _ Hwf0 Hr) as Hwf.
  pose proof (reachable_hoistedTyped _ _ _ Hwf0 Hr) as Hty.
  destruct (hoistConstExpr_shape _ _ _ Hwf Hs')
    as (targetOp & v & g & gs & inits & Hstep).
  destruct (hoistStep_load _ _ _ _ _ _ _ _ Hwf Hs' Hstep)
    as (loadOp & Hload & Hd).
  pose proof Hstep as (_ & Hv & Hg & _ & _ & Hcase).
  assert (∃ rootOp i type,
    getDefiningOp v (module s) = Some rootOp
    ∧ v = OpResult (opId rootOp) i
    ∧ opResultTypes rootOp !! i = Some type
    ∧ globalType g = type) as (rootOp & i & type & Hroot & Hvi & Hi & Hgt).
  { destruct Hcase as [(Hold & _)|(_ & rootOp & body & Hroot & _ & Hmat)].
    - destruct (Hty _ _ Hold)
        as (op & i & type & Hop & Hvi & Hi & gid & symbol & loc & ->).
      exists op, i, type. done.
    - pose proof Hroot as (_ & Hin & _)%getDefiningOp_Some.
      apply elem_of_getResults in Hin as (i & Hi & Hvi).
      apply lookup_lt_is_Some in Hi as [type Hi].
      destruct (mat_result _ _ _ _ _ _ _ _ Hmat i type Hi)
        as (gid & symbol & cr & _ & Hh & _).
      rewrite <-Hvi, Hg in Hh. injection Hh as ->.
      exists rootOp, i, type. done. }
  assert (opId loadOp = nextOpId s' - 1) as Hid.
  { by rewrite <-opId_opData, Hd. }
  exists v, rootOp, i, type, g, loadOp. rewrite Hid.
  split_and!; try done.
  - rewrite (hoistConstExpr_getOperand _ _ _ _ _ Hwf Hs' Hv).
    by rewrite decide_True.
  - unfold getDefiningOp. rewrite Hload. simpl.
    replace (opResultTypes loadOp) with [globalType g]; [done|].
    destruct loadOp. simpl in Hd. by injection Hd as _ _ _ <- _.
  - destruct loadOp. simpl in Hd. by injection Hd as _ -> _ _ _.
  - destruct loadOp. simpl in Hd. injection Hd as _ _ _ -> _. by rewrite Hgt.
Qed.

(** X5. In every state of the pass the memo table is one-to-one: two
    values have two globals, with two symbols. And it holds every global
    the pass has created: a global of the body of the module that was not
    there when the pass started is the global of a value. *)
Theorem hoistedMap_one_to_one m next s :
  wfState (initialState m next) →
  reachable (initialState m next) s →
  (∀ v1 v2 g1 g2,
     hoistedMap s !! v1 = Some g1 → hoistedMap s !! v2 = Some g2 →
     globalSymbol g1 = globalSymbol g2 → v1 = v2)
  ∧ (∀ g symbol is_mutable type visibility,
       g ∈ opBody (module s) →
       opKind g = GlobalOp symbol is_mutable type visibility →
       next ≤ opId g →
       ∃ v, hoistedMap s !! v = Some g).
Proof.
  intros Hwf Hr.
  destruct (reachable_Layout_bijective _ _ _ Hwf Hr)
    as (gs & mid & inits & Hlay & Hinj & Hsurj).
  split.
  - intros v1 v2 g1 g2 H1 H2 Hsym.
    assert (g1 = g2) as <-.
    { eapply (NoDup_fmap_eq globalSymbol gs);
        [by eapply lay_symbols_NoDup| | |done]; by eapply lay_hoisted. }
    by eapply Hinj.
  - intros g symbol mu type vis Hin Hk Hid. apply Hsurj.
    rewrite (lay_body _ _ _ _ _ Hlay) in Hin.
    apply elem_of_app in Hin as [?|Hin]; [done|]. exfalso.
    apply elem_of_app in Hin as [Hin|Hin].
    + pose proof (lay_mid _ _ _ _ _ Hlay) as Hm.
      rewrite Forall_forall in Hm.
      destruct (Hm _ Hin) as [?|[? Hl]]; [lia|congruence].
    + pose proof (lay_inits _ _ _ _ _ Hlay) as Hi.
      rewrite Forall_forall in Hi.
      destruct (Hi _ Hin) as (Hk' & _). congruence.
Qed.

(** X6. In every state of the pass, the symbol of a global of the memo
    table is in the symbol table, and no other operation of the body of the
    module defines it: neither an operation that was there, whatever its
    symbol, nor another global of the pass. *)
Theorem hoisted_symbols_unique m next s v g i j o :
  wfState (initialState m next) →
  reachable (initialState m next) s →
  hoistedMap s !! v = Some g →
  opBody (module s) !! i = Some g →
  opBody (module s) !! j = Some o →
  opSymbol o = Some (globalSymbol g) →
  i = j ∧ globalSymbol g ∈ symbolNames (moduleSymbols s).
Proof.
  intros Hwf Hr Hg Hi Hj Hsym.
  destruct (reachable_Layout_bijective _ _ _ Hwf Hr)
    as (gs & mid & inits & Hlay & _).
  pose proof (lay_hoisted _ _ _ _ _ Hlay _ _ Hg) as Hin.
  pose proof (lay_globals _ _ _ _ _ Hlay) as Hglob.
  rewrite Forall_forall in Hglob.
  assert (∀ x, x ∈ gs → opSymbol x = Some (globalSymbol x)) as Hgsym.
  { intros x Hx. by destruct (Hglob _ Hx) as (?&?&?&?&->&_). }
  assert (∀ k x, opBody (module s) !! k = Some x →
    opSymbol x = Some (globalSymbol g) → gs !! k = Some x) as Hgs.
  { intros k x Hk Hx. rewrite (lay_body _ _ _ _ _ Hlay) in Hk.
    destruct (decide (k < length gs));
      [by rewrite lookup_app_l in Hk|].
    rewrite lookup_app_r in Hk by lia.
    apply list_elem_of_lookup_2 in Hk.
    destruct (lay_symbols_other _ _ _ _ _ Hlay _ _ Hk Hx).
    by apply list_elem_of_fmap_2. }
  split.
  - pose proof (Hgs _ _ Hi (Hgsym _ Hin)) as Hi'.
    pose proof (Hgs _ _ Hj Hsym) as Hj'.
    eapply (NoDup_lookup (globalSymbol <$> gs));
      [by eapply lay_symbols_NoDup|..].
    + by rewrite list_lookup_fmap, Hi'.
    + rewrite list_lookup_fmap, Hj'. simpl. f_equal.
      apply list_elem_of_lookup_2 in Hj'.
      rewrite (Hgsym _ Hj') in Hsym. congruence.
  - eapply (lay_symbols_known _ _ _ _ _ Hlay g); [|by apply Hgsym].
    by eapply list_elem_of_lookup_2.
Qed.

(** X7. What a call of [hoistConstExpr] creates for a value [v] that has
    no global, [rootOp] being the operation defining [v]: one global for
    each result of [rootOp], at the beginning of the body of the module,
    and one initializer, at its end. The global of the result [i] has the
    type of the result and the location of [rootOp], its symbol was not in
    the symbol table and is in it after the call, and the memo table maps
    the result to it. The initializer holds a clone of [rootOp] and a store
    of the result [i] of the clone into the global of the result [i], and
    it ends with the terminator. *)
Theorem hoistConstExpr_materializes operand s s' v :
  wfState s →
  getOperand operand (module s) = Some v →
  hoistedMap s !! v = None →
  hoistConstExpr operand s = Some s' →
  ∃ rootOp gs mid body clonedRootOp,
    getDefiningOp v (module s) = Some rootOp
    ∧ opBody (module s')
      = gs ++ mid
        ++ [mkOperation (nextOpId s) InitializerOp [] [] (opLoc rootOp) body]
    ∧ length gs = length (opResultTypes rootOp)
    ∧ clonedRootOp ∈ body
    ∧ opKind clonedRootOp = opKind rootOp
    ∧ opResultTypes clonedRootOp = opResultTypes rootOp
    ∧ last body
      = Some (mkOperation (nextOpId s' - 2) InitializerReturnOp [] []
                (opLoc rootOp) [])
    ∧ ∀ i type,
        opResultTypes rootOp !! i = Some type →
        ∃ gid symbol,
          gs !! i = Some (hoistedGlobal gid symbol type (opLoc rootOp))
          ∧ hoistedMap s' !! OpResult (opId rootOp) i
            = Some (hoistedGlobal gid symbol type (opLoc rootOp))
          ∧ (symbol ∉ symbolNames (moduleSymbols s))
          ∧ symbol ∈ symbolNames (moduleSymbols s')
          ∧ hoistedStore (S gid) symbol (OpResult (opId clonedRootOp) i)
              (opLoc rootOp) ∈ body.
Proof.
  intros Hwf Hv Hnone Hs'.
  destruct (hoistConstExpr_shape _ _ _ Hwf Hs')
    as (targetOp & v' & g & gs & inits & Hstep).
  pose proof (hoistStep_opBody _ _ _ _ _ _ _ _ Hstep) as Hbody.
  destruct Hstep as (_ & Hv' & _ & _ & _ & Hcase).
  assert (v' = v) as -> by congruence.
  destruct Hcase as [(Hg & _)|(_ & rootOp & body & Hroot & -> & Hmat)];
    [congruence|].
  set (s1 := createInitializer (opLoc rootOp) s) in *.
  set (b := cloneSlice s1 rootOp) in *.
  eexists rootOp, gs, _, body, (clone rootOp (cloneMap b) (initNext b)).1.1.
  destruct (mat_body _ _ _ _ _ _ _ _ Hmat) as (stores & Hb & _).
  split_and!; [done|exact Hbody|by eapply mat_length|..].
  - rewrite Hb. fold b. rewrite !elem_of_app, list_elem_of_singleton. auto.
  - pose proof (clone_opData rootOp (cloneMap b) (initNext b)) as Hd.
    destruct (clone rootOp (cloneMap b) (initNext b)).1.1. simpl in *.
    by injection Hd as _ -> _ _ _.
  - pose proof (clone_opData rootOp (cloneMap b) (initNext b)) as Hd.
    destruct (clone rootOp (cloneMap b) (initNext b)).1.1. simpl in *.
    by injection Hd as _ _ _ -> _.
  - rewrite Hb, !(assoc_L (++)), last_snoc.
    by replace (nextOpId s' - 1 - 1) with (nextOpId s' - 2) by lia.
  - intros i type Hi.
    destruct (mat_result _ _ _ _ _ _ _ _ Hmat i type Hi)
      as (gid & symbol & cr & Hgi & Hh & Hfresh & Hcr & Hstore).
    exists gid, symbol. split_and!; [done..| |].
    + rewrite (mat_symbols _ _ _ _ _ _ _ _ Hmat).
      apply elem_of_union. left. apply elem_of_list_to_set.
      apply list_elem_of_lookup_2 in Hgi.
      by apply (list_elem_of_fmap_2 globalSymbol) in Hgi.
    + fold b in Hcr. rewrite clone_maps_result in Hcr.
      * injection Hcr as <-. by rewrite clone_opId.
      * apply opId_notin_body. pose proof Hroot as (Hin & _)%getDefiningOp_Some.
        eapply NoDup_opIds_sub; [by apply wf_NoDup|done].
      * by eapply lookup_lt_Some.
Qed.

Context `{ConstExprOracle}.

(** X2. On a module whose operations have distinct identities, when the
    set of the analysis and the module are [sweepable], whatever the
    policy, the pass runs to its end: no assertion of [hoistConstExpr] or
    of [cloneConstExprInto] fails during the walk, and [cleanupDeadOps]
    erases operations of the set one after the other, each one an operation
    of the module, and without a use, at the moment it is erased. The
    module operation the pass returns is the one it was given, its
    operations have distinct identities, and those that were in the module
    when the pass started are in the order they were in. *)
Theorem runOnOperation_returns constExprs m next :
  wfState (initialState m next) →
  sweepable (populateConstExprOperations constExprs) m →
  ∃ s' erased m',
    walkModule constExprs (initialState m next) = Some s'
    ∧ runOnOperation constExprs m next = Some m'
    ∧ erasures (module s') erased m'
    ∧ (∀ id, id ∈ erased → id ∈ populateConstExprOperations constExprs)
    ∧ opData m' = opData m
    ∧ NoDup (opIds m')
    ∧ filter (λ id, id < next) (opIds m') `sublist_of` opIds m.
Proof.
  intros Hwf Hsw.
  destruct (walkModule_spec constExprs _ Hwf) as (s' & Hwalk & Hr & _).
  pose proof (reachable_wf _ _ Hwf Hr) as Hwf'.
  pose proof (reachable_sweepable _ _ _ Hwf Hr Hsw) as Hsw'.
  destruct (cleanupDeadOps_erasures constExprs (module s') Hsw')
    as (erased & Her & Hin).
  destruct (cleanupDeadOps_spec constExprs (module s')) as (Hst & Hsub & _).
  exists s', erased, (cleanupDeadOps constExprs (module s')).1.
  unfold runOnOperation. rewrite Hwalk. simpl.
  split; [done|]. split; [done|]. split; [done|]. split; [done|].
  destruct (cleanupDeadOps constExprs (module s')) as [m' allOps'].
  simpl in *.
  apply sweepSteps_shrinks in Hst as (Hd & _).
  split_and!.
  - rewrite Hd. apply (reachable_root _ _ Hwf Hr).
  - rewrite <-opIds_walkData.
    eapply sublist_NoDup; [|by apply fmap_sublist].
    rewrite opIds_walkData. by apply wf_NoDup.
  - change (opIds m) with (opIds (module (initialState m next))).
    rewrite <-(reachable_old_order _ _ Hwf Hr). simpl.
    apply filter_sublist_mono. rewrite <-!opIds_walkData.
    by apply fmap_sublist.
Qed.

(** X10. [cleanupDeadOps] leaves alone an operation of the body of the
    module when neither the operation nor an operation nested in it is in
    the set of the analysis: it is in the body of the module returned, with
    everything nested in it. *)
Theorem cleanupDeadOps_keeps_unknown constExprs m c :
  c ∈ opBody m →
  (∀ id, id ∈ opIds c → id ∉ populateConstExprOperations constExprs) →
  c ∈ opBody (cleanupDeadOps constExprs m).1.
Proof.
  intros Hc Hnin.
  destruct (cleanupDeadOps_spec constExprs m) as (Hst & _).
  destruct (cleanupDeadOps constExprs m) as [m' allOps']. simpl.
  eapply sweepSteps_keeps; [done..|].
  intros id Hid Hin. apply (Hnin _ Hid). by apply elem_of_remove_dups.
Qed.

(** X11. When the set of the analysis and the module are [sweepable], the
    loop [while (madeChanges)] of [cleanupDeadOps] ends within as many
    scans as the set has operations, and one: the result is what any
    greater number of scans gives, and the scans erase operations of the
    set one after the other, each one an operation of the module, and
    without a use, at the moment it is erased. *)
Theorem cleanupDeadOps_scans constExprs m scans :
  sweepable (populateConstExprOperations constExprs) m →
  length (remove_dups (populateConstExprOperations constExprs)) < scans →
  sweep scans m (remove_dups (populateConstExprOperations constExprs))
  = cleanupDeadOps constExprs m
  ∧ ∃ erased,
      erasures m erased
        (sweep scans m
           (remove_dups (populateConstExprOperations constExprs))).1
      ∧ ∀ id, id ∈ erased → id ∈ populateConstExprOperations constExprs.
Proof.
  intros Hsw Hlt.
  assert (sweep scans m
            (remove_dups (populateConstExprOperations constExprs))
          = cleanupDeadOps constExprs m) as Heq.
  { unfold cleanupDeadOps. apply sweep_scans; [apply NoDup_remove_dups|lia..]. }
  split; [done|]. rewrite Heq. by apply cleanupDeadOps_erasures.
Qed.

End Extras.

Section StoredOnce.
Context `{SliceScoped} `{ConstExprOracle}.

(** X8. When every store of the module the pass starts from names a symbol
    of the module, and no operand reads an argument of a block of an
    operation that is yet to be created, in every state of the pass each
    global of the memo table has exactly one store in the module, the
    operation created next after the global; the store is in the body of an
    initializer created by the pass, in the body of the module. The slice
    holds neither the module nor an initializer, and an operation of the
    slice that has no result owns a block an argument of which is read. *)
Theorem hoisted_global_one_store m next s v g :
  wfState (initialState m next) →
  storesResolved (initialState m next) →
  ownersFresh (initialState m next) →
  reachable (initialState m next) s →
  hoistedMap s !! v = Some g →
  storesOf (globalSymbol g) (module s) = [S (opId g)]
  ∧ ∃ initializerOp storeOp,
      initializerOp ∈ opBody (module s)
      ∧ opKind initializerOp = InitializerOp
      ∧ next ≤ opId initializerOp
      ∧ storeOp ∈ opBody initializerOp
      ∧ opId storeOp = S (opId g)
      ∧ opKind storeOp = GlobalStoreOp (globalSymbol g).
Proof using Type*.
  intros Hwf Hres Hfr Hr Hg.
  destruct (reachable_hoisted_StoreInv _ _ _ _ _ Hwf Hres Hfr Hr Hg)
    as (initId & Hge & [_ Hst (I & st & HI & HIid & HIk & _ & Hsto & Hsid
        & Hsk & _) _]).
  split; [done|]. exists I, st. split_and!; try done. lia.
Qed.

(** X12. Under the hypotheses of X8, when in addition every load of the
    module the pass starts from names a symbol of the module, the
    initializer a call of [hoistConstExpr] creates, the last operation of
    the body of the module, loads no global that is not initialized before
    it: a load in it names a symbol that was in the symbol table before the
    call, so none of the globals the call creates; and when it names a
    global of the memo table, the one store into that global is in the body
    of an initializer that comes before the new one in the body of the
    module. *)
Theorem new_initializer_loads_initialized m next operand s s' v :
  wfState (initialState m next) →
  storesResolved (initialState m next) →
  loadsResolved (initialState m next) →
  ownersFresh (initialState m next) →
  reachable (initialState m next) s →
  getOperand operand (module s) = Some v →
  hoistedMap s !! v = None →
  hoistConstExpr operand s = Some s' →
  ∃ mid initializerOp,
    opBody (module s') = mid ++ [initializerOp]
    ∧ opKind initializerOp = InitializerOp
    ∧ opId initializerOp = nextOpId s
    ∧ ∀ loadOp symbol,
        loadOp ∈ walkPreOrder initializerOp →
        opKind loadOp = GlobalLoadOp symbol →
        symbol ∈ symbolNames (moduleSymbols s)
        ∧ ∀ v0 g0,
            hoistedMap s' !! v0 = Some g0 → globalSymbol g0 = symbol →
            hoistedMap s !! v0 = Some g0
            ∧ storesOf symbol (module s') = [S (opId g0)]
            ∧ ∃ storingOp storeOp,
                storingOp ∈ mid
                ∧ opKind storingOp = InitializerOp
                ∧ storeOp ∈ opBody storingOp
                ∧ opId storeOp = S (opId g0)
                ∧ opKind storeOp = GlobalStoreOp symbol.
Proof using Type*.
  intros Hwf0 Hst0 Hld0 Hfr0 Hr Hv Hnone Hs'.
  pose proof (reachable_wf _ _ Hwf0 Hr) as Hwf.
  pose proof (reachable_loadsResolved _ _ _ Hwf0 Hld0 Hr) as Hld.
  pose proof (reachable_hoistedKnown _ _ _ Hwf0 Hr) as Hknown.
  pose proof (reachable_hoist _ _ _ _ Hr Hs') as Hr'.
  destruct (hoistConstExpr_shape _ _ _ Hwf Hs')
    as (targetOp & v' & g & gs & inits & Hstep).
  pose proof (hoistStep_opBody _ _ _ _ _ _ _ _ Hstep) as Hbody.
  destruct (hoistStep_frame_walk _ _ _ _ _ _ _ _ Hwf Hs' Hstep)
    as (_ & _ & _ & _ & _ & _ & Hnew & _).
  destruct Hstep as (_ & Hv' & _ & _ & _ & Hcase).
  assert (v' = v) as -> by congruence.
  destruct Hcase as [(Hg & _)|(_ & rootOp & body & Hroot & -> & Hmat)];
    [congruence|].
  rewrite (assoc_L (++)) in Hbody.
  eexists _, _. split; [exact Hbody|]. split; [done|]. split; [done|].
  intros loadOp symbol Hin Hk.
  assert (symbol ∈ symbolNames (moduleSymbols s)) as Hsym.
  { rewrite walkPreOrder_unfold in Hin. cbn [opBody] in Hin.
    apply elem_of_cons in Hin as [->|Hin]; [done|].
    by eapply (Materialized_loads s). }
  split; [done|]. intros v0 g0 Hg0 Hsym0.
  assert (hoistedMap s !! v0 = Some g0) as Hold.
  { destruct (decide (v0 ∈ getResults rootOp)) as [Hres|Hnres].
    - apply elem_of_getResults in Hres as (i & Hi & ->).
      apply lookup_lt_is_Some in Hi as [type Hi].
      destruct (mat_result _ _ _ _ _ _ _ _ Hmat i type Hi)
        as (gid & sym & cr & _ & Hh & Hfresh & _).
      rewrite Hh in Hg0. injection Hg0 as <-.
      change (sym = symbol) in Hsym0. by rewrite Hsym0 in Hfresh.
    - by rewrite (mat_frame _ _ _ _ _ _ _ _ Hmat) in Hg0. }
  split; [done|].
  destruct (reachable_hoisted_StoreInv _ _ _ _ _ Hwf0 Hst0 Hfr0 Hr Hold)
    as (_ & _ & [_ Hstores _ _]).
  destruct (reachable_hoisted_StoreInv _ _ _ _ _ Hwf0 Hst0 Hfr0 Hr' Hg0)
    as (_ & _ & [_ Hstores' (I & st & HI & _ & HIk & _ & Hsto & Hsid & Hsk
        & _) _]).
  rewrite Hsym0 in Hstores, Hstores', Hsk. split; [done|].
  exists I, st. split_and!; [|done..].
  rewrite Hbody in HI. apply elem_of_app in HI as [?|HI]; [done|].
  apply list_elem_of_singleton in HI as ->. exfalso.
  assert (S (opId g0) < nextOpId s) as Hlt.
  { apply (wf_lt _ _ Hwf). rewrite <-opIds_walkData.
    assert (S (opId g0) ∈ storesOf symbol (module s)) as Hmem
      by (rewrite Hstores; left).
    unfold storesOf in Hmem.
    apply list_elem_of_fmap in Hmem as (o & -> & Ho).
    apply list_elem_of_filter in Ho as [_ Ho].
    by apply list_elem_of_fmap_2. }
  rewrite bind_singleton, Forall_forall in Hnew.
  assert (nextOpId s ≤ opId (opData st)); [|rewrite opId_opData in *; lia].
  apply Hnew. apply list_elem_of_fmap_2.
  eapply elem_of_walk_child; [exact Hsto|apply elem_of_walk_self].
Qed.

(** X9. Under the hypotheses of X8, when the set of the analysis and the
    module are [sweepable], [cleanupDeadOps] deletes no global of the memo
    table and no initializer of the pass: in the module the pass returns,
    each global of the memo table is in the body of the module and has
    exactly one store, in the body of an initializer of the body of the
    module. *)
Theorem runOnOperation_keeps_hoisted constExprs m next s v g :
  wfState (initialState m next) →
  storesResolved (initialState m next) →
  ownersFresh (initialState m next) →
  sweepable (populateConstExprOperations constExprs) m →
  walkModule constExprs (initialState m next) = Some s →
  hoistedMap s !! v = Some g →
  ∃ m', runOnOperation constExprs m next = Some m'
        ∧ g ∈ opBody m'
        ∧ storesOf (globalSymbol g) m' = [S (opId g)]
        ∧ ∃ initializerOp storeOp,
            initializerOp ∈ opBody m'
            ∧ opKind initializerOp = InitializerOp
            ∧ storeOp ∈ opBody initializerOp
            ∧ opId storeOp = S (opId g)
            ∧ opKind storeOp = GlobalStoreOp (globalSymbol g).
Proof using Type*.
  intros Hwf Hres Hfr (_ & Hmem & _) Hwalk Hg.
  assert (∀ id, id ∈ populateConstExprOperations constExprs → id < next)
    as Hknown.
  { intros id [Hid _]%Hmem. apply (wf_lt _ _ Hwf Hid). }
  pose proof (walkModule_reachable _ _ _ Hwalk) as Hr.
  pose proof (reachable_wf _ _ Hwf Hr) as Hwfs.
  destruct (reachable_hoisted_StoreInv _ _ _ _ _ Hwf Hres Hfr Hr Hg)
    as (initId & HIge & [_ Hst (I & st & HI & HIid & HIk & _ & Hsto & Hsid
        & Hsk & _) _]).
  destruct (reachable_Layout_bijective _ _ _ Hwf Hr)
    as (gs & mid & inits & Hlay & _).
  pose proof (lay_hoisted _ _ _ _ _ Hlay _ _ Hg) as Hin.
  pose proof (lay_globals _ _ _ _ _ Hlay) as Hglob.
  rewrite Forall_forall in Hglob.
  destruct (Hglob _ Hin) as (gid & symbol & type & loc & -> & Hgid).
  assert (next ≤ opId I) as HIid' by lia.
  pose proof (reachable_initializersFresh next _ _ Hwf eq_refl Hr _ HI HIk
    HIid') as Hfresh.
  rewrite Forall_forall in Hfresh.
  exists (cleanupDeadOps constExprs (module s)).1.
  unfold runOnOperation. rewrite Hwalk. simpl. split; [done|].
  assert (I ∈ opBody (cleanupDeadOps constExprs (module s)).1) as HI'.
  { apply cleanupDeadOps_keeps; [done|].
    intros id Hid Hk. specialize (Hfresh _ Hid). specialize (Hknown _ Hk).
    lia. }
  split_and!.
  - apply cleanupDeadOps_keeps.
    + rewrite (lay_body _ _ _ _ _ Hlay). apply elem_of_app. by left.
    + intros id Hid Hk. specialize (Hknown _ Hk).
      unfold opIds in Hid. rewrite walkPreOrder_leaf in Hid by done.
      apply list_elem_of_singleton in Hid. simpl in Hid. lia.
  - destruct (cleanupDeadOps_spec constExprs (module s)) as (Hsteps & _).
    destruct (cleanupDeadOps constExprs (module s)) as [m' allOps'].
    simpl in *.
    eapply (shrinks_storesOf _ _ (module s) m' I);
      [by apply wf_NoDup|by eapply sweepSteps_shrinks|done..| |done].
    rewrite <-Hsid, opIds_unfold. right. apply list_elem_of_bind.
    exists st. split; [|done]. rewrite opIds_unfold. left.
  - exists I, st. done.
Qed.

End StoredOnce.

(** The sets of the analyses of the examples hold operations of the
    modules, none nested in another. *)
Lemma exampleModule_sweepable :
  sweepable (populateConstExprOperations exampleAnalysis) exampleModule.
Proof.
  split_and!.
  - by_compute.
  - intros id Hid. simpl in Hid.
    repeat (apply elem_of_cons in Hid as [->|Hid]);
      [split; [by_compute|done]..|by apply elem_of_nil in Hid].
  - intros a b opB Ha Hb Hne Hl. simpl in Ha, Hb.
    repeat (apply elem_of_cons in Ha as [->|Ha]);
      [..|by apply elem_of_nil in Ha];
      (repeat (apply elem_of_cons in Hb as [->|Hb]);
         [..|by apply elem_of_nil in Hb]);
      try done; vm_compute in Hl; injection Hl as <-; by_compute.
Qed.

Lemma initializerModule_sweepable :
  sweepable (populateConstExprOperations initializerAnalysis)
    initializerModule.
Proof.
  split_and!.
  - by_compute.
  - intros id Hid. simpl in Hid.
    repeat (apply elem_of_cons in Hid as [->|Hid]);
      [split; [by_compute|done]..|by apply elem_of_nil in Hid].
  - intros a b opB Ha Hb Hne Hl. simpl in Ha, Hb.
    repeat (apply elem_of_cons in Ha as [->|Ha]);
      [..|by apply elem_of_nil in Ha];
      (repeat (apply elem_of_cons in Hb as [->|Hb]);
         [..|by apply elem_of_nil in Hb]);
      try done; vm_compute in Hl; injection Hl as <-; by_compute.
Qed.

(** The block arguments read in the examples are arguments of blocks of
    operations of the modules. *)
Lemma exampleModule_ownersFresh : ownersFresh (initialState exampleModule 9).
Proof.
  intros d o n Hd Hop. vm_compute in Hd.
  repeat (apply elem_of_cons in Hd as [->|Hd]);
    [..|by apply elem_of_nil in Hd]; simpl in Hop;
    repeat (apply elem_of_cons in Hop as [Hop|Hop]);
    try (by apply elem_of_nil in Hop); try discriminate Hop.
  injection Hop as -> _. simpl. lia.
Qed.

Lemma initializerModule_ownersFresh :
  ownersFresh (initialState initializerModule 7).
Proof.
  intros d o n Hd Hop. vm_compute in Hd.
  repeat (apply elem_of_cons in Hd as [->|Hd]);
    [..|by apply elem_of_nil in Hd]; simpl in Hop;
    repeat (apply elem_of_cons in Hop as [Hop|Hop]);
    try (by apply elem_of_nil in Hop); discriminate Hop.
Qed.

(** The states of the examples are states of the pass. *)
Lemma exampleState3_reachable :
  reachable (initialState exampleModule 9) exampleState3.
Proof.
  apply (reachable_hoist _ exampleState2 (mkOpOperand 7 0));
    [|vm_compute; reflexivity].
  apply (reachable_hoist _ exampleState1 (mkOpOperand 5 0));
    [|vm_compute; reflexivity].
  apply (reachable_hoist _ exampleState (mkOpOperand 4 0));
    [|vm_compute; reflexivity].
  apply reachable_refl.
Qed.

Lemma exampleState2_reachable :
  reachable (initialState exampleModule 9) exampleState2.
Proof.
  apply (reachable_hoist _ exampleState1 (mkOpOperand 5 0));
    [|vm_compute; reflexivity].
  apply (reachable_hoist _ exampleState (mkOpOperand 4 0));
    [|vm_compute; reflexivity].
  apply reachable_refl.
Qed.

Lemma initializerState1_reachable :
  reachable (initialState initializerModule 7) initializerState1.
Proof.
  apply (reachable_hoist _ (initialState initializerModule 7)
    (mkOpOperand 5 0)); [|vm_compute; reflexivity].
  apply reachable_refl.
Qed.

(** The one store of [initializerModule] names the global [@g]. *)
Lemma initializerModule_storesResolved :
  storesResolved (initialState initializerModule 7).
Proof.
  intros o symbol Ho Hk. vm_compute in Ho.
  repeat (apply elem_of_cons in Ho as [->|Ho]);
    try discriminate Hk; [|by apply elem_of_nil in Ho].
  injection Hk as <-. by_compute.
Qed.

Lemma hoistConstExpr_returns_iff_witness :
  wfState exampleState
  ∧ getOperand (mkOpOperand 4 0) (module exampleState) = Some (OpResult 3 0)
  ∧ (is_Some (hoistConstExpr (mkOpOperand 4 0) exampleState)
     ↔ is_Some (hoistedMap exampleState !! OpResult 3 0)
       ∨ is_Some (getDefiningOp (OpResult 3 0) (module exampleState))).
Proof.
  assert (wfState exampleState) as Hwf by wf_by_compute.
  split; [exact Hwf|]. split; [reflexivity|].
  exact (hoistConstExpr_returns_iff (mkOpOperand 4 0) exampleState
    (OpResult 3 0) Hwf eq_refl).
Defined.

Lemma runOnOperation_returns_witness :
  wfState (initialState exampleModule 9)
  ∧ sweepable (populateConstExprOperations exampleAnalysis) exampleModule
  ∧ ∃ s' erased m',
      walkModule exampleAnalysis (initialState exampleModule 9) = Some s'
      ∧ runOnOperation exampleAnalysis exampleModule 9 = Some m'
      ∧ erasures (module s') erased m'
      ∧ (∀ id, id ∈ erased →
               id ∈ populateConstExprOperations exampleAnalysis)
      ∧ opData m' = opData exampleModule
      ∧ NoDup (opIds m')
      ∧ filter (λ id, id < 9) (opIds m') `sublist_of` opIds exampleModule.
Proof.
  assert (wfState (initialState exampleModule 9)) as Hwf by wf_by_compute.
  split; [exact Hwf|]. split; [exact exampleModule_sweepable|].
  exact (runOnOperation_returns exampleAnalysis exampleModule 9 Hwf
    exampleModule_sweepable).
Defined.

Lemma reachable_keeps_operations_witness :
  wfState (initialState exampleModule 9)
  ∧ reachable (initialState exampleModule 9) exampleState3
  ∧ filter (λ id, id < 9) (opIds (module exampleState3))
    = opIds exampleModule
  ∧ ∀ id op,
      lookupOp id exampleModule = Some op →
      ∃ op', lookupOp id (module exampleState3) = Some op'
             ∧ sameOperation op op'.
Proof.
  assert (wfState (initialState exampleModule 9)) as Hwf by wf_by_compute.
  split; [exact Hwf|]. split; [exact exampleState3_reachable|].
  exact (reachable_keeps_operations exampleModule 9 exampleState3 Hwf
    exampleState3_reachable).
Defined.

Lemma hoistConstExpr_keeps_type_witness :
  wfState (initialState exampleModule 9)
  ∧ reachable (initialState exampleModule 9) exampleState2
  ∧ hoistConstExpr (mkOpOperand 7 0) exampleState2 = Some exampleState3
  ∧ ∃ v rootOp i type g loadOp,
      getOperand (mkOpOperand 7 0) (module exampleState2) = Some v
      ∧ getDefiningOp v (module exampleState2) = Some rootOp
      ∧ v = OpResult (opId rootOp) i
      ∧ getResultType rootOp i = Some type
      ∧ hoistedMap exampleState3 !! v = Some g
      ∧ globalType g = type
      ∧ getOperand (mkOpOperand 7 0) (module exampleState3)
        = Some (OpResult (opId loadOp) 0)
      ∧ getDefiningOp (OpResult (opId loadOp) 0) (module exampleState3)
        = Some loadOp
      ∧ opKind loadOp = GlobalLoadOp (globalSymbol g)
      ∧ opResultTypes loadOp = [type].
Proof.
  assert (wfState (initialState exampleModule 9)) as Hwf by wf_by_compute.
  assert (hoistConstExpr (mkOpOperand 7 0) exampleState2 = Some exampleState3)
    as Hs3 by (vm_compute; reflexivity).
  split; [exact Hwf|]. split; [exact exampleState2_reachable|].
  split; [exact Hs3|].
  exact (hoistConstExpr_keeps_type exampleModule 9 (mkOpOperand 7 0)
    exampleState2 exampleState3 Hwf exampleState2_reachable Hs3).
Defined.

Lemma hoistedMap_one_to_one_witness :
  wfState (initialState exampleModule 9)
  ∧ reachable (initialState exampleModule 9) exampleState3
  ∧ (∀ v1 v2 g1 g2,
       hoistedMap exampleState3 !! v1 = Some g1 →
       hoistedMap exampleState3 !! v2 = Some g2 →
       globalSymbol g1 = globalSymbol g2 → v1 = v2)
  ∧ (∀ g symbol is_mutable type visibility,
       g ∈ opBody (module exampleState3) →
       opKind g = GlobalOp symbol is_mutable type visibility →
       9 ≤ opId g →
       ∃ v, hoistedMap exampleState3 !! v = Some g).
Proof.
  assert (wfState (initialState exampleModule 9)) as Hwf by wf_by_compute.
  split; [exact Hwf|]. split; [exact exampleState3_reachable|].
  exact (hoistedMap_one_to_one exampleModule 9 exampleState3 Hwf
    exampleState3_reachable).
Defined.

Lemma hoisted_symbols_unique_witness :
  wfState (initialState exampleModule 9)
  ∧ reachable (initialState exampleModule 9) exampleState3
  ∧ hoistedMap exampleState3 !! OpResult 3 0
    = Some (hoistedGlobal 12 "hoisted" "i32" 3)
  ∧ opBody (module exampleState3) !! 1
    = Some (hoistedGlobal 12 "hoisted" "i32" 3)
  ∧ opSymbol (hoistedGlobal 12 "hoisted" "i32" 3)
    = Some (globalSymbol (hoistedGlobal 12 "hoisted" "i32" 3))
  ∧ 1 = 1
  ∧ globalSymbol (hoistedGlobal 12 "hoisted" "i32" 3)
    ∈ symbolNames (moduleSymbols exampleState3).
Proof.
  assert (wfState (initialState exampleModule 9)) as Hwf by wf_by_compute.
  assert (hoistedMap exampleState3 !! OpResult 3 0
          = Some (hoistedGlobal 12 "hoisted" "i32" 3)) as Hg
    by (vm_compute; reflexivity).
  assert (opBody (module exampleState3) !! 1
          = Some (hoistedGlobal 12 "hoisted" "i32" 3)) as Hi
    by (vm_compute; reflexivity).
  split; [exact Hwf|]. split; [exact exampleState3_reachable|].
  split; [exact Hg|]. split; [exact Hi|]. split; [reflexivity|].
  exact (hoisted_symbols_unique exampleModule 9 exampleState3 (OpResult 3 0)
    (hoistedGlobal 12 "hoisted" "i32" 3) 1 1
    (hoistedGlobal 12 "hoisted" "i32" 3) Hwf exampleState3_reachable Hg Hi Hi
    eq_refl).
Defined.

Lemma hoistConstExpr_materializes_witness :
  wfState exampleState
  ∧ getOperand (mkOpOperand 4 0) (module exampleState) = Some (OpResult 3 0)
  ∧ hoistedMap exampleState !! OpResult 3 0 = None
  ∧ hoistConstExpr (mkOpOperand 4 0) exampleState = Some exampleState1
  ∧ ∃ rootOp gs mid body clonedRootOp,
      getDefiningOp (OpResult 3 0) (module exampleState) = Some rootOp
      ∧ opBody (module exampleState1)
        = gs ++ mid
          ++ [mkOperation (nextOpId exampleState) InitializerOp [] []
                (opLoc rootOp) body]
      ∧ length gs = length (opResultTypes rootOp)
      ∧ clonedRootOp ∈ body
      ∧ opKind clonedRootOp = opKind rootOp
      ∧ opResultTypes clonedRootOp = opResultTypes rootOp
      ∧ last body
        = Some (mkOperation (nextOpId exampleState1 - 2) InitializerReturnOp
                  [] [] (opLoc rootOp) [])
      ∧ ∀ i type,
          opResultTypes rootOp !! i = Some type →
          ∃ gid symbol,
            gs !! i = Some (hoistedGlobal gid symbol type (opLoc rootOp))
            ∧ hoistedMap exampleState1 !! OpResult (opId rootOp) i
              = Some (hoistedGlobal gid symbol type (opLoc rootOp))
            ∧ (symbol ∉ symbolNames (moduleSymbols exampleState))
            ∧ symbol ∈ symbolNames (moduleSymbols exampleState1)
            ∧ hoistedStore (S gid) symbol (OpResult (opId clonedRootOp) i)
                (opLoc rootOp) ∈ body.
Proof.
  assert (wfState exampleState) as Hwf by wf_by_compute.
  assert (hoistConstExpr (mkOpOperand 4 0) exampleState = Some exampleState1)
    as Hs1 by (vm_compute; reflexivity).
  split; [exact Hwf|]. split; [reflexivity|]. split; [reflexivity|].
  split; [exact Hs1|].
  exact (hoistConstExpr_materializes (mkOpOperand 4 0) exampleState
    exampleState1 (OpResult 3 0) Hwf eq_refl eq_refl Hs1).
Defined.

Lemma hoisted_global_one_store_witness :
  wfState (initialState initializerModule 7)
  ∧ storesResolved (initialState initializerModule 7)
  ∧ ownersFresh (initialState initializerModule 7)
  ∧ reachable (initialState initializerModule 7) initializerState1
  ∧ hoistedMap initializerState1 !! OpResult 4 0
    = Some (hoistedGlobal 10 "hoisted" "i32" 4)
  ∧ storesOf (globalSymbol (hoistedGlobal 10 "hoisted" "i32" 4))
      (module initializerState1)
    = [S (opId (hoistedGlobal 10 "hoisted" "i32" 4))]
  ∧ ∃ initializerOp storeOp,
      initializerOp ∈ opBody (module initializerState1)
      ∧ opKind initializerOp = InitializerOp
      ∧ 7 ≤ opId initializerOp
      ∧ storeOp ∈ opBody initializerOp
      ∧ opId storeOp = S (opId (hoistedGlobal 10 "hoisted" "i32" 4))
      ∧ opKind storeOp
        = GlobalStoreOp (globalSymbol (hoistedGlobal 10 "hoisted" "i32" 4)).
Proof.
  assert (wfState (initialState initializerModule 7)) as Hwf
    by wf_by_compute.
  assert (hoistedMap initializerState1 !! OpResult 4 0
          = Some (hoistedGlobal 10 "hoisted" "i32" 4)) as Hg
    by (vm_compute; reflexivity).
  split; [exact Hwf|]. split; [exact initializerModule_storesResolved|].
  split; [exact initializerModule_ownersFresh|].
  split; [exact initializerState1_reachable|]. split; [exact Hg|].
  exact (hoisted_global_one_store initializerModule 7 initializerState1
    (OpResult 4 0) (hoistedGlobal 10 "hoisted" "i32" 4) Hwf
    initializerModule_storesResolved initializerModule_ownersFresh
    initializerState1_reachable Hg).
Defined.

Lemma runOnOperation_keeps_hoisted_witness :
  wfState (initialState initializerModule 7)
  ∧ storesResolved (initialState initializerModule 7)
  ∧ ownersFresh (initialState initializerModule 7)
  ∧ sweepable (populateConstExprOperations initializerAnalysis)
      initializerModule
  ∧ walkModule initializerAnalysis (initialState initializerModule 7)
    = Some initializerState1
  ∧ hoistedMap initializerState1 !! OpResult 4 0
    = Some (hoistedGlobal 10 "hoisted" "i32" 4)
  ∧ ∃ m', runOnOperation initializerAnalysis initializerModule 7 = Some m'
          ∧ hoistedGlobal 10 "hoisted" "i32" 4 ∈ opBody m'
          ∧ storesOf (globalSymbol (hoistedGlobal 10 "hoisted" "i32" 4)) m'
            = [S (opId (hoistedGlobal 10 "hoisted" "i32" 4))]
          ∧ ∃ initializerOp storeOp,
              initializerOp ∈ opBody m'
              ∧ opKind initializerOp = InitializerOp
              ∧ storeOp ∈ opBody initializerOp
              ∧ opId storeOp = S (opId (hoistedGlobal 10 "hoisted" "i32" 4))
              ∧ opKind storeOp
                = GlobalStoreOp
                    (globalSymbol (hoistedGlobal 10 "hoisted" "i32" 4)).
Proof.
  assert (wfState (initialState initializerModule 7)) as Hwf
    by wf_by_compute.
  assert (walkModule initializerAnalysis (initialState initializerModule 7)
          = Some initializerState1) as Hwalk by (vm_compute; reflexivity).
  assert (hoistedMap initializerState1 !! OpResult 4 0
          = Some (hoistedGlobal 10 "hoisted" "i32" 4)) as Hg
    by (vm_compute; reflexivity).
  split; [exact Hwf|]. split; [exact initializerModule_storesResolved|].
  split; [exact initializerModule_ownersFresh|].
  split; [exact initializerModule_sweepable|].
  split; [exact Hwalk|]. split; [exact Hg|].
  exact (runOnOperation_keeps_hoisted initializerAnalysis initializerModule 7
    initializerState1 (OpResult 4 0) (hoistedGlobal 10 "hoisted" "i32" 4)
    Hwf initializerModule_storesResolved initializerModule_ownersFresh
    initializerModule_sweepable Hwalk Hg).
Defined.

Lemma cleanupDeadOps_keeps_unknown_witness :
  mkOperation 1 (GlobalOp "g" false "i32" Private) [] [] 1 []
  ∈ opBody initializerModule
  ∧ (∀ id,
       id ∈ opIds (mkOperation 1 (GlobalOp "g" false "i32" Private) [] [] 1
                     []) →
       id ∉ populateConstExprOperations initializerAnalysis)
  ∧ mkOperation 1 (GlobalOp "g" false "i32" Private) [] [] 1 []
    ∈ opBody (cleanupDeadOps initializerAnalysis initializerModule).1.
Proof.
  assert (mkOperation 1 (GlobalOp "g" false "i32" Private) [] [] 1 []
          ∈ opBody initializerModule) as Hc by left.
  assert (∀ id,
    id ∈ opIds (mkOperation 1 (GlobalOp "g" false "i32" Private) [] [] 1
                  []) →
    id ∉ populateConstExprOperations initializerAnalysis) as Hnin.
  { intros id Hid. apply list_elem_of_singleton in Hid as ->. by_compute. }
  split; [exact Hc|]. split; [exact Hnin|].
  exact (cleanupDeadOps_keeps_unknown initializerAnalysis initializerModule _
    Hc Hnin).
Defined.

Lemma cleanupDeadOps_scans_witness :
  sweepable (populateConstExprOperations unusedAnalysis) unusedModule
  ∧ length (remove_dups (populateConstExprOperations unusedAnalysis)) < 3
  ∧ sweep 3 unusedModule
      (remove_dups (populateConstExprOperations unusedAnalysis))
    = cleanupDeadOps unusedAnalysis unusedModule
  ∧ ∃ erased,
      erasures unusedModule erased
        (sweep 3 unusedModule
           (remove_dups (populateConstExprOperations unusedAnalysis))).1
      ∧ ∀ id, id ∈ erased →
              id ∈ populateConstExprOperations unusedAnalysis.
Proof.
  assert (length (remove_dups (populateConstExprOperations unusedAnalysis))
          < 3) as Hlt by by_compute.
  split; [exact unusedModule_sweepable|]. split; [exact Hlt|].
  exact (cleanupDeadOps_scans unusedAnalysis unusedModule 3
    unusedModule_sweepable Hlt).
Defined.

(** [exampleModule] has neither a store nor a load. *)
Lemma exampleModule_storesResolved :
  storesResolved (initialState exampleModule 9).
Proof.
  intros o symbol Ho Hk. vm_compute in Ho.
  repeat (apply elem_of_cons in Ho as [->|Ho]); try discriminate Hk.
  by apply elem_of_nil in Ho.
Qed.

Lemma exampleModule_loadsResolved :
  loadsResolved (initialState exampleModule 9).
Proof.
  intros o symbol Ho Hk. vm_compute in Ho.
  repeat (apply elem_of_cons in Ho as [->|Ho]); try discriminate Hk.
  by apply elem_of_nil in Ho.
Qed.

Lemma new_initializer_loads_initialized_witness :
  wfState (initialState exampleModule 9)
  ∧ storesResolved (initialState exampleModule 9)
  ∧ loadsResolved (initialState exampleModule 9)
  ∧ ownersFresh (initialState exampleModule 9)
  ∧ reachable (initialState exampleModule 9) exampleState2
  ∧ getOperand (mkOpOperand 7 0) (module exampleState2) = Some (OpResult 6 0)
  ∧ hoistedMap exampleState2 !! OpResult 6 0 = None
  ∧ hoistConstExpr (mkOpOperand 7 0) exampleState2 = Some exampleState3
  ∧ ∃ mid initializerOp,
      opBody (module exampleState3) = mid ++ [initializerOp]
      ∧ opKind initializerOp = InitializerOp
      ∧ opId initializerOp = nextOpId exampleState2
      ∧ ∀ loadOp symbol,
          loadOp ∈ walkPreOrder initializerOp →
          opKind loadOp = GlobalLoadOp symbol →
          symbol ∈ symbolNames (moduleSymbols exampleState2)
          ∧ ∀ v0 g0,
              hoistedMap exampleState3 !! v0 = Some g0 →
              globalSymbol g0 = symbol →
              hoistedMap exampleState2 !! v0 = Some g0
              ∧ storesOf symbol (module exampleState3) = [S (opId g0)]
              ∧ ∃ storingOp storeOp,
                  storingOp ∈ mid
                  ∧ opKind storingOp = InitializerOp
                  ∧ storeOp ∈ opBody storingOp
                  ∧ opId storeOp = S (opId g0)
                  ∧ opKind storeOp = GlobalStoreOp symbol.
Proof.
  assert (wfState (initialState exampleModule 9)) as Hwf by wf_by_compute.
  assert (getOperand (mkOpOperand 7 0) (module exampleState2)
          = Some (OpResult 6 0)) as Hv by (vm_compute; reflexivity).
  assert (hoistedMap exampleState2 !! OpResult 6 0 = None) as Hnone
    by (vm_compute; reflexivity).
  assert (hoistConstExpr (mkOpOperand 7 0) exampleState2 = Some exampleState3)
    as Hs3 by (vm_compute; reflexivity).
  split; [exact Hwf|]. split; [exact exampleModule_storesResolved|].
  split; [exact exampleModule_loadsResolved|].
  split; [exact exampleModule_ownersFresh|].
  split; [exact exampleState2_reachable|]. split; [exact Hv|].
  split; [exact Hnone|]. split; [exact Hs3|].
  exact (new_initializer_loads_initialized exampleModule 9 (mkOpOperand 7 0)
    exampleState2 exampleState3 (OpResult 6 0) Hwf
    exampleModule_storesResolved exampleModule_loadsResolved
    exampleModule_ownersFresh exampleState2_reachable Hv Hnone Hs3).
Defined.

Section Together.
Context `{SliceScoped} `{ConstExprOracle}.

(** C3. A call of [hoistConstExpr] on an operand that reads a value [v]
    without a global hoists all the results of [rootOp], the operation
    defining [v], together: none of them had a global, and the call creates
    one global for each, [gs], all distinct and none of them an operation
    of the module before the call; the global of a result has the type of
    the result, and the memo table maps the result to it. From then on, in
    every state of the pass and in what [cleanupDeadOps] makes of the
    module of that state, the memo table maps the result to that global,
    the global is in the body of the module, and the one store into it is
    the operation created next after it, in the body of the one initializer
    the call has created, which is in the body of the module. This holds
    when every store of the module the pass starts from names a symbol of
    the module, no operand reads an argument of a block of an operation
    that is yet to be created, and the set of the analysis and the module
    are [sweepable]; the slice holds neither the module nor an initializer,
    and an operation of the slice that has no result owns a block an
    argument of which is read. *)
Theorem hoistConstExpr_hoists_all_results constExprs m next operand s s' v :
  wfState (initialState m next) →
  storesResolved (initialState m next) →
  ownersFresh (initialState m next) →
  sweepable (populateConstExprOperations constExprs) m →
  reachable (initialState m next) s →
  getOperand operand (module s) = Some v →
  hoistedMap s !! v = None →
  hoistConstExpr operand s = Some s' →
  ∃ rootOp gs,
    getDefiningOp v (module s) = Some rootOp
    ∧ length gs = length (opResultTypes rootOp)
    ∧ NoDup gs
    ∧ (∀ g, g ∈ gs → opId g ∉ opIds (module s))
    ∧ (nextOpId s ∉ opIds (module s))
    ∧ ∀ i type,
        opResultTypes rootOp !! i = Some type →
        ∃ g,
          gs !! i = Some g
          ∧ opKind g = GlobalOp (globalSymbol g) false type Private
          ∧ hoistedMap s !! OpResult (opId rootOp) i = None
          ∧ ∀ sEnd,
              reachable s' sEnd →
              hoistedMap sEnd !! OpResult (opId rootOp) i = Some g
              ∧ storedOnce g (nextOpId s) (module sEnd)
              ∧ storedOnce g (nextOpId s)
                  (cleanupDeadOps constExprs (module sEnd)).1.
Proof using Type*.
  intros Hwf0 Hres0 Hfr0 (_ & Hmem & _) Hr Hv Hnone Hs'.
  assert (∀ id, id ∈ populateConstExprOperations constExprs → id < next)
    as Hknown.
  { intros id [Hid _]%Hmem. apply (wf_lt _ _ Hwf0 Hid). }
  pose proof (reachable_wf _ _ Hwf0 Hr) as Hwf.
  pose proof (reachable_next _ _ Hwf0 Hr) as Hnext. simpl in Hnext.
  pose proof (reachable_storesResolved _ _ Hwf0 Hres0 Hr) as Hres.
  pose proof (reachable_ownersFresh _ _ Hwf0 Hfr0 Hr) as Hfr.
  pose proof (reachable_hoist _ _ _ _ Hr Hs') as Hr'.
  pose proof (reachable_wf _ _ Hwf0 Hr') as Hwf'.
  assert (allOrNone s) as Hall.
  { eapply reachable_allOrNone; [exact Hwf0| | |exact Hr].
    - apply initialState_hoistedDefined.
    - apply initialState_allOrNone. }
  destruct (hoistConstExpr_shape _ _ _ Hwf Hs')
    as (targetOp & v' & g & gs & inits & Hstep).
  pose proof Hstep as (_ & Hv' & _ & Hm & _ & Hcase).
  assert (v' = v) as -> by congruence.
  destruct Hcase as [(Hg & _)|(_ & rootOp & body & Hroot & Hinits & Hmat)];
    [congruence|].
  pose proof (hoistConstExpr_new_ids _ _ _ _ _ _ _ Hwf Hs' Hm) as Hnew.
  rewrite Forall_app, !Forall_forall in Hnew. destruct Hnew as [Hgs _].
  assert (∀ id, nextOpId s ≤ id → id ∉ opIds (module s)) as Hfresh.
  { intros id Hge Hin. pose proof (wf_lt _ _ Hwf Hin). lia. }
  exists rootOp, gs. split_and!.
  - done.
  - by eapply mat_length.
  - eapply NoDup_fmap_1. by eapply mat_symbols_NoDup.
  - intros g0 Hg0. apply Hfresh.
    assert (nextOpId s ≤ opId g0 < nextOpId s'); [|lia].
    apply Hgs. apply list_elem_of_bind. exists g0. split; [|done].
    rewrite opIds_unfold. left.
  - by apply Hfresh.
  - intros i type Hi.
    destruct (mat_result _ _ _ _ _ _ _ _ Hmat i type Hi)
      as (gid & symbol & cr & Hgi & Hh & _ & _ & Hstore).
    exists (hoistedGlobal gid symbol type (opLoc rootOp)).
    split; [done|]. split; [done|]. split.
    { pose proof Hroot as (Hw & Hvin & _)%getDefiningOp_Some.
      destruct (Hall _ Hw) as [Hsome|Hnones]; rewrite Forall_forall in *.
      - destruct (Hsome _ Hvin) as [? ?]. congruence.
      - apply Hnones. apply elem_of_getResults. exists i.
        split; [by eapply lookup_lt_Some|done]. }
    intros sEnd Hend.
    pose proof (reachable_trans _ _ _ Hr' Hend) as Hr0.
    assert (hoistedMap sEnd !! OpResult (opId rootOp) i
            = Some (hoistedGlobal gid symbol type (opLoc rootOp))) as Hgend.
    { eapply (reachable_memo_persistent (initialState m next) s' sEnd);
        [exact Hwf0| | |exact Hr'|exact Hend|exact Hh].
      - apply initialState_hoistedDefined.
      - apply initialState_allOrNone. }
    split; [done|].
    apply (StoreInv_storedOnce constExprs m next sEnd _ _ (nextOpId s) Hwf0
      Hknown Hr0 Hgend Hnext).
    apply (reachable_StoreInv _ _ _ s' sEnd Hwf'); [|done].
    eapply (hoistStep_StoreInv_created operand s s'); eauto.
Qed.

End Together.

Lemma exampleState1_step :
  hoistConstExpr (mkOpOperand 4 0) exampleState = Some exampleState1.
Proof. vm_compute. reflexivity. Qed.

Lemma hoistConstExpr_hoists_all_results_witness :
  wfState (initialState exampleModule 9)
  ∧ storesResolved (initialState exampleModule 9)
  ∧ ownersFresh (initialState exampleModule 9)
  ∧ sweepable (populateConstExprOperations exampleAnalysis) exampleModule
  ∧ reachable (initialState exampleModule 9) exampleState
  ∧ getOperand (mkOpOperand 4 0) (module exampleState) = Some (OpResult 3 0)
  ∧ hoistedMap exampleState !! OpResult 3 0 = None
  ∧ hoistConstExpr (mkOpOperand 4 0) exampleState = Some exampleState1
  ∧ ∃ rootOp gs,
      getDefiningOp (OpResult 3 0) (module exampleState) = Some rootOp
      ∧ length gs = length (opResultTypes rootOp)
      ∧ NoDup gs
      ∧ (∀ g, g ∈ gs → opId g ∉ opIds (module exampleState))
      ∧ (nextOpId exampleState ∉ opIds (module exampleState))
      ∧ ∀ i type,
          opResultTypes rootOp !! i = Some type →
          ∃ g,
            gs !! i = Some g
            ∧ opKind g = GlobalOp (globalSymbol g) false type Private
            ∧ hoistedMap exampleState !! OpResult (opId rootOp) i = None
            ∧ ∀ sEnd,
                reachable exampleState1 sEnd →
                hoistedMap sEnd !! OpResult (opId rootOp) i = Some g
                ∧ storedOnce g (nextOpId exampleState) (module sEnd)
                ∧ storedOnce g (nextOpId exampleState)
                    (cleanupDeadOps exampleAnalysis (module sEnd)).1.
Proof.
  assert (wfState (initialState exampleModule 9)) as Hwf by wf_by_compute.
  split; [exact Hwf|]. split; [exact exampleModule_storesResolved|].
  split; [exact exampleModule_ownersFresh|].
  split; [exact exampleModule_sweepable|].
  split; [exact (reachable_refl _)|]. split; [reflexivity|].
  split; [reflexivity|]. split; [exact exampleState1_step|].
  exact (hoistConstExpr_hoists_all_results exampleAnalysis exampleModule 9
    (mkOpOperand 4 0) exampleState exampleState1 (OpResult 3 0) Hwf
    exampleModule_storesResolved exampleModule_ownersFresh
    exampleModule_sweepable (reachable_refl _) eq_refl eq_refl
    exampleState1_step).
Defined.
